(** * Inkora reader: the API's transport, browser, cache, adapter and
    orchestrator logic, embedded from the TypeScript sources.

    Conventions of the embedding.
    - A JavaScript string is a [string]; each [ascii] stands for one UTF-16
      code unit below 256 (so 160 is the no-break space).
    - A value that came out of [JSON.parse] is a [json]; [undefined], which
      only arises from reading a missing property, is [None : option json].
    - An expression that may throw evaluates to a [completion].
    - Awaited calls into the outside world (HTTP, the browser, the clock)
      are answered by an explicit environment, and the calls made are
      logged so that "is not invoked" can be stated. *)

From Stdlib Require Import Strings.String Strings.Ascii Lists.List.
From Stdlib Require Import ZArith.ZArith QArith.QArith micromega.Lia micromega.Lqa Bool.Bool.
From Stdlib Require Import DecimalString Sorting.Sorted Sorting.Permutation.
From Stdlib Require Import QArith.Qround.
From Stdlib Require Numbers.DecimalZ.
From stdpp Require Import gmap strings.
Import ListNotations.

Set Warnings "-register-all".
Local Open Scope Z_scope.

(* ================================================================== *)
(** * JavaScript values and builtins *)
(* ================================================================== *)
Module JS.

(** ** Completions: a value or a thrown exception (its message). *)
Inductive completion (A : Type) : Type :=
| Ok (a : A)
| Throw (message : string).
Arguments Ok {A} a.
Arguments Throw {A} message.

Definition cbind {A B} (c : completion A) (k : A -> completion B) : completion B :=
  match c with
  | Ok a => k a
  | Throw m => Throw m
  end.

(** ** Strings *)

(** [WhiteSpace] and [LineTerminator] code units below 256: TAB, LF, VT, FF,
    CR, SP and NBSP.  These are what [String.prototype.trim] strips. *)
Definition is_js_whitespace (c : ascii) : bool :=
  let n := N_of_ascii c in
  (N.leb 9 n && N.leb n 13) || N.eqb n 32 || N.eqb n 160.

Fixpoint trimStart (s : string) : string :=
  match s with
  | EmptyString => EmptyString
  | String c s' => if is_js_whitespace c then trimStart s' else s
  end.

(** [trimEnd] keeps a character when it is not white space or when something
    that is kept follows it. *)
Fixpoint trimEnd (s : string) : string :=
  match s with
  | EmptyString => EmptyString
  | String c s' =>
      match trimEnd s' with
      | EmptyString => if is_js_whitespace c then EmptyString else String c EmptyString
      | t => String c t
      end
  end.

Definition trim (s : string) : string := trimEnd (trimStart s).

Fixpoint all_chars (p : ascii -> bool) (s : string) : bool :=
  match s with
  | EmptyString => true
  | String c s' => p c && all_chars p s'
  end.

(** A string is blank when it consists of white space only (the empty string
    included). *)
Definition blank (s : string) : bool := all_chars is_js_whitespace s.

Fixpoint startsWith (s p : string) : bool :=
  match p, s with
  | EmptyString, _ => true
  | String a p', String b s' => Ascii.eqb a b && startsWith s' p'
  | String _ _, EmptyString => false
  end.

(** [s.includes(p)] *)
Fixpoint includes (s p : string) : bool :=
  startsWith s p ||
  match s with
  | EmptyString => false
  | String _ s' => includes s' p
  end.

Definition is_digit (c : ascii) : bool :=
  let n := N_of_ascii c in N.leb 48 n && N.leb n 57.

(** The longest prefix of characters satisfying [p], and the rest. *)
Fixpoint span (p : ascii -> bool) (s : string) : string * string :=
  match s with
  | EmptyString => (EmptyString, EmptyString)
  | String c s' =>
      if p c then let '(taken, rest) := span p s' in (String c taken, rest)
      else (EmptyString, s)
  end.

(** [s] without the prefix [p], when it starts with it. *)
Fixpoint strip_prefix (p s : string) : option string :=
  match p, s with
  | EmptyString, _ => Some s
  | String a p', String b s' => if Ascii.eqb a b then strip_prefix p' s' else None
  | String _ _, EmptyString => None
  end.

(** [s.replace(pat, rep)] for a string pattern: the first occurrence only. *)
Fixpoint replace_first (pat rep s : string) : string :=
  match strip_prefix pat s with
  | Some rest => rep +:+ rest
  | None =>
      match s with
      | EmptyString => EmptyString
      | String c s' => String c (replace_first pat rep s')
      end
  end.

(** [s.replace(/\/$/, '')]: one slash at the very end goes. *)
Fixpoint drop_final_slash (s : string) : string :=
  match s with
  | EmptyString => EmptyString
  | String c EmptyString => if Ascii.eqb c "/" then EmptyString else s
  | String c s' => String c (drop_final_slash s')
  end.

Definition string_of_Z (z : Z) : string := NilZero.string_of_int (Z.to_int z).
Definition string_of_nat (n : nat) : string := string_of_Z (Z.of_nat n).

(** ** JSON values *)
Inductive json : Type :=
| JNull
| JBool (b : bool)
| JNum (x : Q)
| JStr (s : string)
| JArr (items : list json)
| JObj (props : list (string * json)).

(** Own properties in insertion order; the first binding of a key is the
    property. *)
Fixpoint lookup_prop (k : string) (props : list (string * json)) : option json :=
  match props with
  | [] => None
  | (k', v) :: rest => if String.eqb k k' then Some v else lookup_prop k rest
  end.

(** [v.k] for a data property [k] that no prototype defines ([title],
    [chapters], [results], [img], ...): only objects have it. *)
Definition get (k : string) (v : json) : option json :=
  match v with
  | JObj props => lookup_prop k props
  | _ => None
  end.

(** [ToBoolean] *)
Definition truthy (v : option json) : bool :=
  match v with
  | None => false
  | Some JNull => false
  | Some (JBool b) => b
  | Some (JNum x) => negb (Qeq_bool x 0)
  | Some (JStr s) => negb (String.eqb s "")
  | Some (JArr _) => true
  | Some (JObj _) => true
  end.

Definition isArray (v : option json) : bool :=
  match v with
  | Some (JArr _) => true
  | _ => false
  end.

(** [v.trim()] on a truthy value: strings have the method, every other truthy
    JSON value has no callable [trim], so the call throws a TypeError. *)
Definition call_trim (v : option json) : completion string :=
  match v with
  | Some (JStr s) => Ok (trim s)
  | _ => Throw "TypeError: trim is not a function"
  end.

(** [obj[k] = v]: an existing key keeps its place, a new key goes last. *)
Fixpoint set_prop (k : string) (v : json) (props : list (string * json))
  : list (string * json) :=
  match props with
  | [] => [(k, v)]
  | (k', v') :: rest =>
      if String.eqb k k' then (k, v) :: rest else (k', v') :: set_prop k v rest
  end.

Fixpoint index_from (n : nat) (items : list json) : list (string * json) :=
  match items with
  | [] => []
  | x :: rest => (string_of_nat n, x) :: index_from (S n) rest
  end.

Fixpoint chars_from (n : nat) (s : string) : list (string * json) :=
  match s with
  | EmptyString => []
  | String c s' => (string_of_nat n, JStr (String c EmptyString)) :: chars_from (S n) s'
  end.

(** The own enumerable properties copied by an object spread [{...v}]. *)
Definition spread (v : json) : list (string * json) :=
  match v with
  | JObj props => props
  | JArr items => index_from 0 items
  | JStr s => chars_from 0 s
  | _ => []
  end.

(** ** Number parsing and URI encoding *)

Definition digit_value (c : ascii) : option Z :=
  let n := Z.of_N (N_of_ascii c) in
  if (48 <=? n) && (n <=? 57) then Some (n - 48)
  else if (97 <=? n) && (n <=? 122) then Some (n - 87)
  else if (65 <=? n) && (n <=? 90) then Some (n - 55)
  else None.

(** The longest prefix of radix-[r] digits, accumulated left to right;
    [None] when there is no digit at all. *)
Fixpoint parse_digits (r : Z) (acc : option Z) (s : string) : option Z :=
  match s with
  | EmptyString => acc
  | String c s' =>
      match digit_value c with
      | Some d =>
          if d <? r
          then parse_digits r (Some (r * match acc with Some a => a | None => 0 end + d)) s'
          else acc
      | None => acc
      end
  end.

(** [parseInt(s)] without a radix; [None] is NaN.  The result is the exact
    integer (the rounding of integers above 2^53 is not modelled). *)
Definition parseInt (s : string) : option Z :=
  let s1 := trimStart s in
  let '(sign, s2) :=
    match s1 with
    | String "-" t => (-1, t)
    | String "+" t => (1, t)
    | _ => (1, s1)
    end in
  let '(radix, s3) :=
    match s2 with
    | String "0" (String "x" t) => (16, t)
    | String "0" (String "X" t) => (16, t)
    | _ => (10, s2)
    end in
  match parse_digits radix None s3 with
  | Some v => Some (sign * v)
  | None => None
  end.

(** A number as [JSON.stringify] sends it: NaN becomes [null]. *)
Definition json_of_number (n : option Z) : json :=
  match n with
  | Some z => JNum (inject_Z z)
  | None => JNull
  end.

Definition hex_digit (n : N) : ascii :=
  if N.ltb n 10 then ascii_of_N (48 + n) else ascii_of_N (55 + n).

(** ["%XX"] for one byte *)
Definition percent_byte (b : N) (rest : string) : string :=
  String "%" (String (hex_digit (N.div b 16)) (String (hex_digit (N.modulo b 16)) rest)).

(** The UTF-8 bytes of a code unit below 256, percent-encoded. *)
Definition percent_encode (c : ascii) (rest : string) : string :=
  let n := N_of_ascii c in
  if N.ltb n 128 then percent_byte n rest
  else percent_byte (192 + N.div n 64) (percent_byte (128 + N.modulo n 64) rest).

Definition is_alnum (c : ascii) : bool :=
  let n := N_of_ascii c in
  (N.leb 48 n && N.leb n 57) || (N.leb 65 n && N.leb n 90) || (N.leb 97 n && N.leb n 122).

(** The characters [encodeURIComponent] leaves alone: [A-Z a-z 0-9 - _ . ! ~ * ' ( )]. *)
Definition uri_unreserved (c : ascii) : bool :=
  is_alnum c ||
  existsb (Ascii.eqb c) ["-"; "_"; "."; "!"; "~"; "*"; "'"; "("; ")"]%char.

Fixpoint encodeURIComponent (s : string) : string :=
  match s with
  | EmptyString => EmptyString
  | String c s' =>
      if uri_unreserved c then String c (encodeURIComponent s')
      else percent_encode c (encodeURIComponent s')
  end.

(** The [application/x-www-form-urlencoded] serializer behind
    [URLSearchParams.prototype.toString]: [A-Z a-z 0-9 * - . _] stay, a space
    becomes [+], the rest is percent-encoded. *)
Fixpoint form_encode (s : string) : string :=
  match s with
  | EmptyString => EmptyString
  | String c s' =>
      if is_alnum c || existsb (Ascii.eqb c) ["*"; "-"; "."; "_"]%char
      then String c (form_encode s')
      else if Ascii.eqb c " " then String "+" (form_encode s')
      else percent_encode c (form_encode s')
  end.

Fixpoint URLSearchParams_toString (params : list (string * string)) : string :=
  match params with
  | [] => ""
  | [(k, v)] => form_encode k +:+ "=" +:+ form_encode v
  | (k, v) :: rest =>
      form_encode k +:+ "=" +:+ form_encode v +:+ "&" +:+ URLSearchParams_toString rest
  end.

End JS.

(* ================================================================== *)
(** * The unified provider routes (fallback orchestrator) *)
(* ================================================================== *)
Module Unified.
Import JS.

Record ProviderConfig : Type := {
  name : string;
  baseUrl : string;
  priority : Z
}.

Definition PROVIDERS : list ProviderConfig := [
  {| name := "manhuaplus"; baseUrl := "/manhwa/manhuaplus"; priority := 1 |};
  {| name := "manhuaus"; baseUrl := "/manhwa/manhuaus"; priority := 2 |}
].

(** ** The environment: [fastify.inject] *)

(** What one [fastify.inject] call does: it rejects, or it resolves to a
    response.  [parsed] is what [JSON.parse(response.payload)] evaluates to
    (it is only looked at when the status is 200). *)
Inductive inject_result : Type :=
| InjectThrows (message : string)
| InjectResponse (statusCode : Z) (parsed : completion json).

(** The server answers the GET of an internal URL. *)
Definition server : Type := string -> inject_result.

(** ** Handler computations: a log of the URLs injected so far, and a
    completion. *)
Definition M (A : Type) : Type := list string -> list string * completion A.

Definition ret {A} (a : A) : M A := fun log => (log, Ok a).

Definition bind {A B} (m : M A) (k : A -> M B) : M B :=
  fun log =>
    match m log with
    | (log', Ok a) => k a log'
    | (log', Throw e) => (log', Throw e)
    end.

Definition lift {A} (c : completion A) : M A := fun log => (log, c).

Definition inject (srv : server) (url : string) : M inject_result :=
  fun log => (log ++ [url], Ok (srv url)).

Definition run {A} (m : M A) : list string * completion A := m [].

Notation "'let*' x ':=' m 'in' k" := (bind m (fun x => k))
  (at level 10, x name, m at level 100, k at level 200).

(** The object [fetchFromProvider] resolves to (its [provider] field repeats
    the argument and is never read). *)
Inductive fetch_result : Type :=
| Success (data : json)
| Failure (error : string).

Definition provider_url (provider endpoint : string) (params : list (string * string))
  : string :=
  let queryString := URLSearchParams_toString params in
  "/manhwa/" +:+ provider +:+ endpoint +:+
  (if String.eqb queryString "" then "" else "?" +:+ queryString).

(** What [fetchFromProvider] makes of the outcome of its [inject] call: the
    body of its [try], and its [catch]. *)
Definition fetched (response : inject_result) : fetch_result :=
  match response with
  | InjectResponse statusCode parsed =>
      if statusCode =? 200 then
        match parsed with
        | Ok data => Success data
        | Throw message => Failure message
        end
      else Failure ("Status " +:+ string_of_Z statusCode)
  | InjectThrows message => Failure message
  end.

Definition fetchFromProvider (srv : server) (provider endpoint : string)
    (params : list (string * string)) : M fetch_result :=
  let* response := inject srv (provider_url provider endpoint params) in
  ret (fetched response).

(** ** Validators *)

Definition isValidManhwaInfo (data : json) : completion bool :=
  if negb (truthy (Some data)) then Ok false else
  if negb (truthy (get "title" data)) then Ok false else
  cbind (call_trim (get "title" data)) (fun trimmed =>
  if String.eqb trimmed "" then Ok false else
  if negb (truthy (get "chapters" data)) || negb (isArray (get "chapters" data))
  then Ok false else
  match get "chapters" data with
  | Some (JArr []) => Ok false
  | _ => Ok true
  end).

Definition isValidSearchResults (data : json) : bool :=
  if negb (truthy (Some data)) then false else
  if negb (truthy (get "results" data)) || negb (isArray (get "results" data))
  then false else
  match get "results" data with
  | Some (JArr (_ :: _)) => true
  | _ => false
  end.

(** The callback of [data.some(...)]: [page.img && page.img.trim() !== ''],
    as a boolean.  Reading [img] off [null] throws. *)
Definition page_has_image (page : json) : completion bool :=
  match page with
  | JNull => Throw "TypeError: Cannot read properties of null (reading 'img')"
  | _ =>
      if negb (truthy (get "img" page)) then Ok false
      else cbind (call_trim (get "img" page)) (fun trimmed =>
           Ok (negb (String.eqb trimmed "")))
  end.

(** [Array.prototype.some]: left to right, stopping at the first hit. *)
Fixpoint some (f : json -> completion bool) (items : list json) : completion bool :=
  match items with
  | [] => Ok false
  | x :: rest => cbind (f x) (fun hit => if hit then Ok true else some f rest)
  end.

Definition isValidChapterPages (data : json) : completion bool :=
  match data with
  | JArr [] => Ok false
  | JArr pages => some page_has_image pages
  | _ => Ok false
  end.

(** ** Replies *)
Record reply : Type := { status : Z; body : json }.

(** [items.map((item) => ({ ...item, provider }))] *)
Definition withProvider (provider : string) (items : list json) : list json :=
  map (fun item => JObj (set_prop "provider" (JStr provider) (spread item))) items.

Definition results_of (data : json) : list json :=
  match get "results" data with
  | Some (JArr items) => items
  | _ => []
  end.

(** ** GET /info *)

(** [{ ...result.data, provider: provider.name, _fallback: provider.priority > 1 }] *)
Definition info_success (provider : ProviderConfig) (data : json) : reply :=
  {| status := 200;
     body := JObj (set_prop "_fallback" (JBool (1 <? priority provider))
                    (set_prop "provider" (JStr (name provider)) (spread data))) |}.

Fixpoint info_loop (srv : server) (id : string) (providers : list ProviderConfig)
    (errors : list string) : M reply :=
  match providers with
  | [] =>
      ret {| status := 404;
             body := JObj [("message", JStr "Manhwa not found on any provider");
                           ("errors", JArr (map JStr errors));
                           ("triedProviders", JArr (map (fun p => JStr (name p)) PROVIDERS))] |}
  | provider :: rest =>
      let* result := fetchFromProvider srv (name provider) "/info" [("id", id)] in
      match result with
      | Success data =>
          let* valid := lift (isValidManhwaInfo data) in
          if valid then ret (info_success provider data)
          else
            info_loop srv id rest
              (errors ++ [name provider +:+ ": " +:+ "Invalid data (no chapters or title)"])
      | Failure error =>
          info_loop srv id rest (errors ++ [name provider +:+ ": " +:+ error])
      end
  end.

(** A query parameter is absent ([None]) or a string; both [undefined] and
    the empty string are falsy. *)
Definition info (srv : server) (id : option string) : M reply :=
  match id with
  | Some id' =>
      if String.eqb id' "" then
        ret {| status := 400; body := JObj [("message", JStr "id is required")] |}
      else info_loop srv id' PROVIDERS []
  | None => ret {| status := 400; body := JObj [("message", JStr "id is required")] |}
  end.

(** ** GET /search, /latest, /advanced-search, /genre/:slug and /:query

    The five handlers run the same loop over [PROVIDERS]; they differ in the
    endpoint and parameters they pass on and in the page number they report
    when no provider has results. *)

Definition results_reply (provider : ProviderConfig) (data : json) : reply :=
  {| status := 200;
     body := JObj (set_prop "provider" (JStr (name provider))
                    (set_prop "results"
                       (JArr (withProvider (name provider) (results_of data)))
                       (spread data))) |}.

(** The reply after the loop; [PROVIDERS[0].name] throws on an empty list. *)
Definition no_results_reply (pageNum : string) : completion reply :=
  match PROVIDERS with
  | first :: _ =>
      Ok {| status := 200;
            body := JObj [("currentPage", json_of_number (parseInt pageNum));
                          ("hasNextPage", JBool false);
                          ("results", JArr []);
                          ("provider", JStr (name first))] |}
  | [] => Throw "TypeError: Cannot read properties of undefined (reading 'name')"
  end.

Fixpoint results_loop (srv : server) (endpoint : string)
    (params : list (string * string)) (pageNum : string)
    (providers : list ProviderConfig) : M reply :=
  match providers with
  | [] => lift (no_results_reply pageNum)
  | provider :: rest =>
      let* result := fetchFromProvider srv (name provider) endpoint params in
      match result with
      | Success data =>
          if isValidSearchResults data then ret (results_reply provider data)
          else results_loop srv endpoint params pageNum rest
      | Failure _ => results_loop srv endpoint params pageNum rest
      end
  end.

(** [page || '1'] *)
Definition page_or_1 (page : option string) : string :=
  match page with
  | Some p => if String.eqb p "" then "1" else p
  | None => "1"
  end.

Definition search (srv : server) (query page : option string) : M reply :=
  match query with
  | Some q =>
      if String.eqb q "" then
        ret {| status := 400; body := JObj [("message", JStr "query is required")] |}
      else
        let pageNum := page_or_1 page in
        results_loop srv ("/" +:+ encodeURIComponent q) [("page", pageNum)] pageNum PROVIDERS
  | None => ret {| status := 400; body := JObj [("message", JStr "query is required")] |}
  end.

Definition latest (srv : server) (page : option string) : M reply :=
  let pageNum := page_or_1 page in
  results_loop srv "/latest" [("page", pageNum)] pageNum PROVIDERS.

(** [if (x) params.x = x] *)
Definition param_if_set (k : string) (v : option string) : list (string * string) :=
  match v with
  | Some s => if String.eqb s "" then [] else [(k, s)]
  | None => []
  end.

Definition advanced_search (srv : server) (query page status sort genres : option string)
  : M reply :=
  let params := param_if_set "query" query ++ param_if_set "page" page ++
                param_if_set "status" status ++ param_if_set "sort" sort ++
                param_if_set "genres" genres in
  results_loop srv "/advanced-search" params (page_or_1 page) PROVIDERS.

Definition genre (srv : server) (slug : string) (page : option string) : M reply :=
  let pageNum := page_or_1 page in
  results_loop srv ("/genre/" +:+ encodeURIComponent slug) [("page", pageNum)] pageNum
    PROVIDERS.

Definition path_search (srv : server) (query : string) (page : option string) : M reply :=
  let pageNum := page_or_1 page in
  results_loop srv ("/" +:+ encodeURIComponent query) [("page", pageNum)] pageNum PROVIDERS.

(** ** What the claims speak about *)

Definition info_url (id : string) (p : ProviderConfig) : string :=
  provider_url (name p) "/info" [("id", id)].

(** The provider's answer is a 200 with well-formed JSON that the info
    validator accepts. *)
Definition info_passes (srv : server) (id : string) (p : ProviderConfig) (data : json)
  : Prop :=
  fetched (srv (info_url id p)) = Success data /\ isValidManhwaInfo data = Ok true.

(** The provider errors (rejection, non-200 status, malformed JSON) or its
    data is rejected by the validator. *)
Definition info_fails (srv : server) (id : string) (p : ProviderConfig) : Prop :=
  match fetched (srv (info_url id p)) with
  | Success data => isValidManhwaInfo data = Ok false
  | Failure _ => True
  end.

(** The failure reason the handler records for a provider. *)
Definition info_reason (srv : server) (id : string) (p : ProviderConfig) : string :=
  name p +:+ ": " +:+
  match fetched (srv (info_url id p)) with
  | Success _ => "Invalid data (no chapters or title)"
  | Failure error => error
  end.

Definition first_priority : Z :=
  match PROVIDERS with
  | first :: _ => priority first
  | [] => 0
  end.

(** No provider has a valid result for [endpoint] with [params]: each one
    errors or answers data the results validator rejects. *)
Definition no_results (srv : server) (endpoint : string) (params : list (string * string))
  : Prop :=
  Forall (fun p =>
            match fetched (srv (provider_url (name p) endpoint params)) with
            | Success data => isValidSearchResults data = false
            | Failure _ => True
            end) PROVIDERS.

(** The body the result handlers send when every provider came up empty. *)
Definition empty_page (pageNum : string) : json :=
  JObj [("currentPage", json_of_number (parseInt pageNum));
        ("hasNextPage", JBool false);
        ("results", JArr []);
        ("provider", JStr "manhuaplus")].

(** The info validator as the specification words it: the title is not the
    empty string and there is at least one chapter. *)
Definition info_valid_as_specified (data : json) : Prop :=
  exists title chapters,
    get "title" data = Some (JStr title) /\ title <> "" /\
    get "chapters" data = Some (JArr chapters) /\ chapters <> [].

(** A page whose [img] is a string with something other than white space. *)
Definition has_image (page : json) : Prop :=
  exists url, get "img" page = Some (JStr url) /\ blank url = false.

(** A page as the adapters produce them: not [null], and [img] is a string
    or falsy (absent, [null], [false], [0]). *)
Definition page_shaped (page : json) : Prop :=
  page <> JNull /\
  (truthy (get "img" page) = false \/ exists url, get "img" page = Some (JStr url)).

(** ** Example servers *)

(** The first provider knows the title but has no chapter; the second one has
    a chapter. *)
Definition first_empty_second_valid : server := fun url =>
  if String.eqb url "/manhwa/manhuaplus/info?id=solo-leveling" then
    InjectResponse 200 (Ok (JObj [("title", JStr "Solo Leveling"); ("chapters", JArr [])]))
  else if String.eqb url "/manhwa/manhuaus/info?id=solo-leveling" then
    InjectResponse 200
      (Ok (JObj [("title", JStr "Solo Leveling");
                 ("chapters", JArr [JObj [("id", JStr "chapter-1")]])]))
  else InjectResponse 404 (Ok JNull).

(** The first provider answers 500 and the second one cannot be reached. *)
Definition both_down : server := fun url =>
  if String.eqb url "/manhwa/manhuaplus/info?id=solo-leveling" then InjectResponse 500 (Ok JNull)
  else InjectThrows "socket hang up".

(** The first provider has an empty page 3 and the second one is down. *)
Definition nothing_found : server := fun url =>
  if String.eqb url "/manhwa/manhuaplus/latest?page=3" then
    InjectResponse 200 (Ok (JObj [("currentPage", JNum 3); ("results", JArr [])]))
  else InjectResponse 500 (Ok JNull).

End Unified.

(* ================================================================== *)
(** * The anti-block transport: [fetchWithRetry] *)
(* ================================================================== *)
Module Transport.
Import JS.

(** What a failed [client.get] throws: an axios error, which carries the HTTP
    status when a response arrived and none for timeouts and resets. *)
Record error : Type := {
  message : string;
  response_status : option Z
}.

Record options : Type := {
  maxRetries : option Z;
  retryDelay : option Z;
  timeout : option Z
}.

Definition no_options : options :=
  {| maxRetries := None; retryDelay := None; timeout := None |}.

(** [x || d] for an optional number: [undefined] and [0] are falsy. *)
Definition or_default (x : option Z) (d : Z) : Z :=
  match x with
  | Some v => if v =? 0 then d else v
  | None => d
  end.

(** What the function does to the outside, in order. *)
Inductive event : Type :=
| Get (attempt : Z) (url : string) (timeout : Z)  (* client.get(url) of one attempt *)
| Sleep (delay : Z).                              (* setTimeout(resolve, delay) *)

(** The network decides each attempt: [inl e] when [client.get] throws [e],
    [inr data] when it resolves to a response with that body. *)
Definition network : Type := Z -> error + string.

Inductive outcome : Type :=
| Resolved (data : string)
| Rejected (e : error).

(** The values [attempt] takes in [for (attempt = 1; attempt <= maxRetries; attempt++)]. *)
Definition attempt_numbers (maxRetries : Z) : list Z :=
  map Z.of_nat (seq 1 (Z.to_nat maxRetries)).

Definition exhausted_error (url : string) (maxRetries : Z) : error :=
  {| message := "Failed to fetch " +:+ url +:+ " after " +:+ string_of_Z maxRetries
                +:+ " attempts";
     response_status := None |}.

Fixpoint retry_loop (net : network) (url : string) (maxRetries retryDelay timeout : Z)
    (attempts : list Z) (lastError : option error) (log : list event)
  : list event * outcome :=
  match attempts with
  | [] =>
      (log, Rejected match lastError with
                     | Some e => e
                     | None => exhausted_error url maxRetries
                     end)
  | attempt :: later =>
      let log := log ++ [Get attempt url timeout] in
      match net attempt with
      | inr data => (log, Resolved data)
      | inl e =>
          let log :=
            if attempt <? maxRetries
            then log ++ [Sleep (retryDelay * 2 ^ (attempt - 1))]
            else log in
          retry_loop net url maxRetries retryDelay timeout later (Some e) log
      end
  end.

Definition fetchWithRetry (net : network) (url : string) (opts : options)
  : list event * outcome :=
  let maxRetries := or_default (maxRetries opts) 3 in
  let retryDelay := or_default (retryDelay opts) 1000 in
  let timeout := or_default (timeout opts) 30000 in
  retry_loop net url maxRetries retryDelay timeout (attempt_numbers maxRetries) None [].

(** ** What the claims speak about *)

(** The attempts made, in order. *)
Definition attempts_made (log : list event) : list Z :=
  flat_map (fun ev => match ev with Get k _ _ => [k] | Sleep _ => [] end) log.

(** The waits made, in order. *)
Definition waits_made (log : list event) : list Z :=
  flat_map (fun ev => match ev with Sleep d => [d] | Get _ _ _ => [] end) log.

(** Attempts [1] to [n] all fail. *)
Definition all_fail (net : network) (n : Z) : Prop :=
  forall k, 1 <= k <= n -> exists e, net k = inl e.

(** The specification's non-transient failure: an HTTP status 4xx other
    than 429. *)
Definition non_transient (e : error) : bool :=
  match response_status e with
  | Some code => (400 <=? code) && (code <? 500) && negb (code =? 429)
  | None => false
  end.

(** The specified backoff: attempts [1] to [n], each followed by a wait of
    [base * 2^(k-1)] milliseconds. *)
Definition backoff (url : string) (base timeout : Z) (n : Z) : list event :=
  flat_map (fun k => [Get k url timeout; Sleep (base * 2 ^ (k - 1))]) (attempt_numbers n).

(** Two networks that fail at the same attempts, whatever the errors, and
    answer alike when they succeed. *)
Definition same_failures (net1 net2 : network) : Prop :=
  forall k,
    match net1 k, net2 k with
    | inl _, inl _ => True
    | inr d1, inr d2 => d1 = d2
    | _, _ => False
    end.

(** The specification's rule for non-transient failures: once an attempt has
    failed with such an error, no further attempt is made. *)
Definition stops_at_non_transient (net : network) (log : list event) : Prop :=
  forall k e,
    In k (attempts_made log) -> net k = inl e -> non_transient e = true ->
    ~ In (k + 1) (attempts_made log).

(** A server that never answers in time. *)
Definition always_times_out : network := fun _ =>
  inl {| message := "timeout of 30000ms exceeded"; response_status := None |}.

(** A server that answers every attempt with 404 Not Found. *)
Definition always_404 : network := fun _ =>
  inl {| message := "Request failed with status code 404"; response_status := Some 404 |}.

End Transport.

(* ================================================================== *)
(** * The headless render service: [BrowserService.scrapeDynamic] *)
(* ================================================================== *)
Module Browser.
Import JS.

(** The awaited calls the service makes on puppeteer, the browser and the
    page. *)
Inductive call : Type :=
| Launch                                                  (* puppeteer.launch(...) *)
| NewPage                                                 (* browser.newPage() *)
| SetUserAgent (userAgent : string)
| SetViewport (width height : Z)
| Goto (url waitUntil : string) (timeout : Z)
| WaitForSelector (selector : string) (timeout : Z)
| Delay (ms : Z)                                          (* setTimeout(resolve, ms) *)
| Content
| ClosePage.

(** The world decides every call: [rejects c] is the error a call rejects
    with, if it does; [html] is what [page.content()] resolves to. *)
Record world : Type := {
  rejects : call -> option string;
  html : string
}.

(** The service's state: whether [this.browser] is set, and the calls made. *)
Record state : Type := {
  browser : bool;
  log : list call
}.

Definition B (A : Type) : Type := state -> state * completion A.

Definition ret {A} (a : A) : B A := fun st => (st, Ok a).

Definition bind {A B'} (m : B A) (k : A -> B B') : B B' :=
  fun st =>
    match m st with
    | (st', Ok a) => k a st'
    | (st', Throw e) => (st', Throw e)
    end.

Notation "'let*' x ':=' m 'in' k" := (bind m (fun x => k))
  (at level 10, x name, m at level 100, k at level 200).

(** [await c]: the call is made, and rejects or resolves as the world says. *)
Definition await (w : world) (c : call) : B unit :=
  fun st =>
    let st' := {| browser := browser st; log := log st ++ [c] |} in
    match rejects w c with
    | Some e => (st', Throw e)
    | None => (st', Ok tt)
    end.

(** [try { body } finally { fin }]: [fin] always runs; when it throws, its
    exception replaces the completion of [body]. *)
Definition try_finally {A} (body : B A) (fin : B unit) : B A :=
  fun st =>
    match body st with
    | (st', c) =>
        match fin st' with
        | (st'', Ok _) => (st'', c)
        | (st'', Throw e) => (st'', Throw e)
        end
    end.

Definition launch (w : world) : B unit :=
  fun st =>
    if browser st then (st, Ok tt)
    else
      match await w Launch st with
      | (st', Ok _) => ({| browser := true; log := log st' |}, Ok tt)
      | (st', Throw e) => (st', Throw e)
      end.

Definition getCleanPage (w : world) : B unit :=
  let* _ := (fun st => if browser st then (st, Ok tt) else launch w st) in
  await w NewPage.

Definition userAgent : string :=
  "Mozilla/5.0 (Windows NT 10.0; Win64; x64) AppleWebKit/537.36 (KHTML, like Gecko) Chrome/120.0.0.0 Safari/537.36".

(** [selector] and [timeout] are optional arguments; [timeout] defaults to
    20000 and an absent or empty [selector] skips the wait. *)
Definition scrapeDynamic (w : world) (url : string) (selector : option string)
    (timeout : option Z) : B string :=
  let timeout := match timeout with Some t => t | None => 20000 end in
  let* _ := getCleanPage w in
  try_finally
    (let* _ := await w (SetUserAgent userAgent) in
     let* _ := await w (SetViewport 1920 1080) in
     let* _ := await w (Goto url "networkidle2" timeout) in
     let* _ := match selector with
               | Some sel =>
                   if String.eqb sel "" then ret tt
                   else await w (WaitForSelector sel 15000)
               | None => ret tt
               end in
     let* _ := await w (Delay 2000) in
     let* _ := await w Content in
     ret (html w))
    (await w ClosePage).

Definition fresh : state := {| browser := false; log := [] |}.

(** ** What the claims speak about *)

(** A world in which nothing fails except the wait for [selector]. *)
Definition only_selector_times_out (w : world) (selector e : string) : Prop :=
  rejects w (WaitForSelector selector 15000) = Some e /\
  forall c, c <> WaitForSelector selector 15000 -> rejects w c = None.

(** The browser is there or can be launched, and [newPage] resolves: the
    call gets its page. *)
Definition page_opens (w : world) (st : state) : Prop :=
  (browser st = false -> rejects w Launch = None) /\ rejects w NewPage = None.

(** The specification's rule for the selector wait: when only that wait
    times out, the call still resolves to the content of the page. *)
Definition selector_timeout_non_fatal : Prop :=
  forall w url selector timeout e st,
    selector <> "" -> only_selector_times_out w selector e ->
    snd (scrapeDynamic w url (Some selector) timeout st) = Ok (html w).

(** A page on which the marker never appears. *)
Definition marker_never_appears : world :=
  {| rejects := fun c =>
       match c with
       | WaitForSelector selector timeout =>
           if String.eqb selector ".chapter-list" && (timeout =? 15000)
           then Some "TimeoutError: Waiting for selector failed: 15000ms exceeded"
           else None
       | _ => None
       end;
     html := "<html><body>loading</body></html>" |}.

End Browser.

(* ================================================================== *)
(** * The TTL caches: Comix.to [fetchApi], MangaUpdates [/info/:id] and
      Mgeko [/genre/:slug]; the other routes of MangaUpdates and those of
      AniList come after the title matching, whose keys they use *)
(* ================================================================== *)
Module Cache.
Import JS.

(** A cache entry [{ data, timestamp }]; a cache is a [Map] from key to
    entry. *)
Record entry (A : Type) : Type := { data : A; timestamp : Z }.
Arguments data {A} e.
Arguments timestamp {A} e.

Record reply : Type := { status : Z; body : json }.

(** [cached && Date.now() - cached.timestamp < ttl] *)
Definition unexpired {A} (cached : option (entry A)) (now ttl : Z) : option A :=
  match cached with
  | Some e => if now - timestamp e <? ttl then Some (data e) else None
  | None => None
  end.

(** ** Comix.to: [fetchApi(endpoint)]

    [now] is [Date.now()] at the lookup and [later] is [Date.now()] when the
    entry is stored.  The result lists the endpoints requested upstream. *)
Definition COMIX_CACHE_TTL : Z := 30 * 60 * 1000.

(** What [fetch(...)] followed by [response.json()] does. *)
Inductive fetch_outcome : Type :=
| FetchRejects (message : string)
| FetchResponse (ok : bool) (status : Z) (parsed : completion json).

Definition fetchApi (upstream : string -> fetch_outcome) (now later : Z)
    (endpoint : string) (cache : gmap string (entry json))
  : gmap string (entry json) * list string * completion json :=
  let cacheKey := endpoint in
  match unexpired (cache !! cacheKey) now COMIX_CACHE_TTL with
  | Some cached => (cache, [], Ok cached)
  | None =>
      match upstream endpoint with
      | FetchRejects message => (cache, [endpoint], Throw message)
      | FetchResponse ok status parsed =>
          if negb ok then (cache, [endpoint], Throw ("API error: " +:+ string_of_Z status))
          else
            match parsed with
            | Throw message => (cache, [endpoint], Throw message)
            | Ok data' =>
                (<[cacheKey := {| data := data'; timestamp := later |}]> cache,
                 [endpoint], Ok data')
            end
      end
  end.

(** ** MangaUpdates: GET /info/:id *)
Definition MU_CACHE_TTL : Z := 60 * 60 * 1000.

Section MangaUpdates.

(** [formatSeriesInfo] reshapes the upstream series; it throws on data of an
    unexpected shape.  Its body plays no part in the caching. *)
Variable formatSeriesInfo : json -> completion json.

(** [getSeriesById(Number(id))]: the upstream series, or [null] ([None])
    after a failed request, as a function of the id. *)
Variable getSeriesById : string -> option json.

(** The [data] that GET /info/:id stores for an id, if any. *)
Definition mu_info_data (id : string) : option json :=
  match getSeriesById id with
  | Some series =>
      if truthy (Some series) then
        match formatSeriesInfo series with
        | Ok data' => Some data'
        | Throw _ => None
        end
      else None
  | None => None
  end.

Definition mu_info (now later : Z) (id : string) (muCache : gmap string (entry json))
  : gmap string (entry json) * list string * reply :=
  let cacheKey := "mu-info:" +:+ id in
  match unexpired (muCache !! cacheKey) now MU_CACHE_TTL with
  | Some cached => (muCache, [], {| status := 200; body := cached |})
  | None =>
      let not_found :=
        {| status := 404; body := JObj [("error", JStr "Series not found on MangaUpdates")] |} in
      match getSeriesById id with
      | Some series =>
          if negb (truthy (Some series)) then (muCache, [id], not_found)
          else
            match formatSeriesInfo series with
            | Ok data' =>
                (<[cacheKey := {| data := data'; timestamp := later |}]> muCache, [id],
                 {| status := 200; body := data' |})
            | Throw _ =>
                (muCache, [id],
                 {| status := 500;
                    body := JObj [("error", JStr "Failed to get MangaUpdates info")] |})
            end
      | None => (muCache, [id], not_found)
      end
  end.

End MangaUpdates.

(** ** Mgeko: GET /genre/:slug *)
Definition GENRE_CACHE_TTL : Z := 15 * 60 * 1000.

Definition genreSearchMap : list (string * string) := [
  ("action", "action"); ("adventure", "adventure"); ("comedy", "comedy");
  ("cooking", "cooking"); ("drama", "drama"); ("fantasy", "fantasy");
  ("gender-bender", "gender bender"); ("harem", "harem");
  ("historical", "historical"); ("horror", "horror"); ("isekai", "isekai");
  ("josei", "josei"); ("manga", "manga"); ("manhua", "manhua");
  ("manhwa", "manhwa"); ("martial-arts", "martial arts"); ("mature", "mature");
  ("mecha", "mecha"); ("medical", "medical"); ("mystery", "mystery");
  ("one-shot", "one shot"); ("psychological", "psychological");
  ("romance", "romance"); ("school-life", "school life"); ("sci-fi", "sci fi");
  ("seinen", "seinen"); ("shoujo", "shoujo"); ("shounen", "shounen");
  ("slice-of-life", "slice of life"); ("sports", "sports");
  ("supernatural", "supernatural"); ("tragedy", "tragedy");
  ("webtoons", "webtoon")
].

Fixpoint assoc (k : string) (table : list (string * string)) : option string :=
  match table with
  | [] => None
  | (k', v) :: rest => if String.eqb k k' then Some v else assoc k rest
  end.

(** [slug.replace(/-/g, ' ')] *)
Fixpoint dashes_to_spaces (s : string) : string :=
  match s with
  | EmptyString => EmptyString
  | String c s' => String (if Ascii.eqb c "-" then " "%char else c) (dashes_to_spaces s')
  end.

(** [String(n)] for the result of [parseInt] *)
Definition string_of_number (n : option Z) : string :=
  match n with
  | Some z => string_of_Z z
  | None => "NaN"
  end.

(** [genreSearchMap] is a plain object, so [genreSearchMap[slug]] also finds
    what it inherits from [Object.prototype]: eleven functions and, under
    [__proto__], the prototype itself.  All are truthy, so they become the
    search term, and [encodeURIComponent] takes their string form. *)
Definition native (name : string) : string :=
  "function " +:+ name +:+ "() { [native code] }".

Definition inherited : list (string * string) := [
  ("constructor", native "Object");
  ("__defineGetter__", native "__defineGetter__");
  ("__defineSetter__", native "__defineSetter__");
  ("hasOwnProperty", native "hasOwnProperty");
  ("__lookupGetter__", native "__lookupGetter__");
  ("__lookupSetter__", native "__lookupSetter__");
  ("isPrototypeOf", native "isPrototypeOf");
  ("propertyIsEnumerable", native "propertyIsEnumerable");
  ("toString", native "toString");
  ("valueOf", native "valueOf");
  ("__proto__", "[object Object]");
  ("toLocaleString", native "toLocaleString")
].

(** [genreSearchMap[slug] || slug.replace(/-/g, ' ')], as the string that
    [encodeURIComponent] sees *)
Definition genre_searchTerm (slug : string) : string :=
  match assoc slug genreSearchMap with
  | Some term => term
  | None =>
      match assoc slug inherited with
      | Some term => term
      | None => dashes_to_spaces slug
      end
  end.

Definition genre_url (slug : string) (pageNum : option Z) : string :=
  let searchTerm := genre_searchTerm slug in
  "/search/?search=" +:+ encodeURIComponent searchTerm +:+
  match pageNum with
  | Some n => if 1 <? n then "&page=" +:+ string_of_Z n else ""
  | None => ""
  end.

Definition genre_body (pageNum : option Z) (slug : string) (results : list json)
    (cached : bool) : json :=
  JObj ([("currentPage", json_of_number pageNum);
         ("hasNextPage", JBool (20 <=? Z.of_nat (length results)));
         ("totalResults", JNum (inject_Z (Z.of_nat (length results))));
         ("genre", JStr slug);
         ("results", JArr results)] ++
        (if cached then [("cached", JBool true)] else [])).

(** [page ? parseInt(page) : 1] *)
Definition genre_pageNum (page : option string) : option Z :=
  match page with
  | Some p => if String.eqb p "" then Some 1 else parseInt p
  | None => Some 1
  end.

(** [`${slug}:${pageNum}`] *)
Definition genre_key (slug : string) (page : option string) : string :=
  slug +:+ ":" +:+ string_of_number (genre_pageNum page).

(** [scrape url] is what [client.get(url)] and the extraction of the result
    cards from the page come to: the list of results, or the exception that
    sends the handler to its [catch]. *)
Definition genre (scrape : string -> completion (list json)) (now later : Z)
    (slug : string) (page : option string)
    (genreCache : gmap string (entry (list json)))
  : gmap string (entry (list json)) * list string * reply :=
  let pageNum := genre_pageNum page in
  let cacheKey := genre_key slug page in
  match unexpired (genreCache !! cacheKey) now GENRE_CACHE_TTL with
  | Some cached =>
      (genreCache, [], {| status := 200; body := genre_body pageNum slug cached true |})
  | None =>
      let url := genre_url slug pageNum in
      match scrape url with
      | Ok results =>
          (<[cacheKey := {| data := results; timestamp := later |}]> genreCache, [url],
           {| status := 200; body := genre_body pageNum slug results false |})
      | Throw message =>
          (genreCache, [url],
           {| status := 500;
              body := JObj [("message", JStr "Something went wrong. Please try again later.");
                            ("error", JStr message)] |})
      end
  end.

(** ** What the claim speaks about *)

(** The payload of a fetch that [fetchApi] stores. *)
Definition payload (outcome : fetch_outcome) : option json :=
  match outcome with
  | FetchResponse true _ (Ok data') => Some data'
  | _ => None
  end.

(** The value a handler stores, from what its [try] block comes to: nothing
    when it replies early or throws. *)
Definition stored {A} (work : completion (option A)) : option A :=
  match work with
  | Ok (Some data') => Some data'
  | _ => None
  end.

(** The same for a block without an early reply. *)
Definition succeeded {A} (work : completion A) : option A :=
  match work with
  | Ok data' => Some data'
  | Throw _ => None
  end.

(** [reply.send(data)] *)
Definition sent (data' : json) : reply := {| status := 200; body := data' |}.

(** The contract of a cache with a time to live, for one request.  [run now
    later cache] is the call: [now] is the clock at the lookup and [later]
    the clock when the entry is stored; it gives the cache after the call,
    the requests made to the producer and the result.  The request looks up
    [cacheKey] and asks the producer with [request], which yields the value
    [produced] ([None] when it fails or yields nothing to store).  A stored
    value [v] is served as [served v]; the call that stores it answers
    [fresh v].
    - Hit: an entry younger than [ttl] is served without asking the
      producer, and the cache stays as it is.
    - Miss: otherwise the producer is asked once; what it yields is stored
      under the key with the time [later] and answered; when it yields
      nothing the cache stays as it is.
    - Again: once a value is stored, the same request within [ttl] of the
      stored time is served that value, without asking the producer. *)
Definition honours_ttl {V R O : Type}
    (run : Z -> Z -> gmap string (entry V) -> gmap string (entry V) * list R * O)
    (cacheKey : string) (ttl : Z) (request : R) (produced : option V)
    (served fresh : V -> O) : Prop :=
  (forall now later cache e,
     cache !! cacheKey = Some e -> now - timestamp e < ttl ->
     run now later cache = (cache, [], served (data e))) /\
  (forall now later cache,
     unexpired (cache !! cacheKey) now ttl = None ->
     exists result,
       run now later cache =
         (match produced with
          | Some v => <[cacheKey := {| data := v; timestamp := later |}]> cache
          | None => cache
          end, [request], result) /\
       (forall v, produced = Some v -> result = fresh v)) /\
  (forall now later cache v now' later',
     unexpired (cache !! cacheKey) now ttl = None -> produced = Some v ->
     now' - later < ttl ->
     run now' later' (fst (fst (run now later cache))) =
       (<[cacheKey := {| data := v; timestamp := later |}]> cache, [], served v)).

(** A page number that a double holds exactly (or NaN): on these the exact
    integers of [parseInt] are the numbers of the code. *)
Definition exact_page (pageNum : option Z) : Prop :=
  match pageNum with
  | Some p => - 2 ^ 53 <= p <= 2 ^ 53
  | None => True
  end.

(** ** An example upstream *)

Definition solo_leveling : json :=
  JObj [("title", JStr "Solo Leveling"); ("status", JStr "Completed")].

Definition comix_up : string -> fetch_outcome := fun endpoint =>
  if String.eqb endpoint "/manga/solo-leveling" then FetchResponse true 200 (Ok solo_leveling)
  else FetchResponse false 404 (Ok JNull).

(** The second page of the search for martial arts has one result. *)
Definition genre_up : string -> completion (list json) := fun url =>
  if String.eqb url "/search/?search=martial%20arts&page=2" then Ok [solo_leveling]
  else Throw "Request failed with status code 404".

End Cache.

(* ================================================================== *)
(** * Provider adapters: the chapter lists of Mgeko and MangaDex [/info] *)
(* ================================================================== *)
Module Mgeko.
Import JS.

(** One [<li>] of [ul.chapter-list] as the handler reads it: the [href] of
    its reader link, the trimmed text of its [time.chapter-update] and that
    element's [datetime] attribute. *)
Record li : Type := {
  href : option string;
  relativeTime : string;
  datetime : option string
}.

(** A chapter of the reply.  [chapterNumber] is a double, written as the
    rational it denotes (see [binary64] below).  [releaseDate] is [None] for
    [null] (and for the fallback path, which sends no such field).  The
    [title] is not stored: it is [`Chapter ${chapterNum}`] on both paths, so
    the number determines it (see [title] below). *)
Record chapter : Type := {
  id : string;
  chapterNumber : Q;
  releaseDate : option string
}.

(** A decimal numeral [digits] or [digits.digits], as captured by the chapter
    patterns. *)
Record numeral : Type := { whole : string; fraction : string }.

Definition lower (c : ascii) : ascii :=
  let n := N_of_ascii c in
  if N.leb 65 n && N.leb n 90 then ascii_of_N (n + 32) else c.

(** [s] starts with the letters of [word] in either case ([word] is given in
    lower case); the rest of [s]. *)
Fixpoint strip_word_i (word s : string) : option string :=
  match word, s with
  | EmptyString, _ => Some s
  | String a word', String b s' =>
      if Ascii.eqb a (lower b) then strip_word_i word' s' else None
  | String _ _, EmptyString => None
  end.

Definition is_separator (c : ascii) : bool := Ascii.eqb c "-" || Ascii.eqb c " ".

(** [\d+(?:\.\d+)?] at the start of [s] *)
Definition match_decimal (s : string) : option numeral :=
  match span is_digit s with
  | (EmptyString, _) => None
  | (digits, rest) =>
      match rest with
      | String "." after =>
          match span is_digit after with
          | (EmptyString, _) => Some {| whole := digits; fraction := "" |}
          | (decimals, _) => Some {| whole := digits; fraction := decimals |}
          end
      | _ => Some {| whole := digits; fraction := "" |}
      end
  end.

(** [/chapter[- ]?(\d+(?:\.\d+)?)/i] anchored at the start of [s].  When a
    separator is there but no digit follows it, giving the separator back
    does not help: the separator is not a digit. *)
Definition match_chapter_here (s : string) : option numeral :=
  match strip_word_i "chapter" s with
  | Some rest =>
      match rest with
      | String c after =>
          if is_separator c then match_decimal after else match_decimal rest
      | EmptyString => None
      end
  | None => None
  end.

(** [s.match(/chapter[- ]?(\d+(?:\.\d+)?)/i)]: the leftmost match, its
    group 1. *)
Fixpoint match_chapter (s : string) : option numeral :=
  match match_chapter_here s with
  | Some n => Some n
  | None =>
      match s with
      | EmptyString => None
      | String _ s' => match_chapter s'
      end
  end.

(** [/chapter[- ](\d+)/i] anchored at the start of [s]: group 1 *)
Definition match_chapter_int_here (s : string) : option string :=
  match strip_word_i "chapter" s with
  | Some (String c after) =>
      if is_separator c then
        match span is_digit after with
        | (EmptyString, _) => None
        | (digits, _) => Some digits
        end
      else None
  | _ => None
  end.

Fixpoint match_chapter_int (s : string) : option string :=
  match match_chapter_int_here s with
  | Some n => Some n
  | None =>
      match s with
      | EmptyString => None
      | String _ s' => match_chapter_int s'
      end
  end.

Definition digits_value (s : string) : Z :=
  match parse_digits 10 None s with
  | Some v => v
  | None => 0
  end.

(** ** Doubles

    The chapter numbers come from digits, so they are never negative and
    never [NaN].  A double is written as the rational it denotes, and
    [2 ^ 1024] stands for [Infinity]: it is above every finite double and
    equal to itself only, which is all the handler asks of it. *)

Definition Infinity : Q := inject_Z (2 ^ 1024).

(** The whole number nearest to [y], the even one of two equally near. *)
Definition round_half_even (y : Q) : Z :=
  let f := Qfloor y in
  match (y - inject_Z f ?= 1 # 2)%Q with
  | Lt => f
  | Gt => f + 1
  | Eq => if Z.even f then f else f + 1
  end.

(** [2 ^ e] for an exponent of either sign *)
Definition pow2 (e : Z) : Q :=
  if 0 <=? e then inject_Z (2 ^ e) else (1 # Z.to_pos (2 ^ (- e)))%Q.

(** The [e] with [2 ^ e <= x < 2 ^ (e + 1)], for a positive [x]: the
    difference of the bit lengths of numerator and denominator, or one
    less. *)
Definition exponent (x : Q) : Z :=
  let e := Z.log2 (Qnum x) - Z.log2 (Zpos (Qden x)) in
  if Qle_bool (pow2 e) x then e else e - 1.

(** The double nearest to a rational [x >= 0], ties to even: 53 significant
    bits from [2 ^ -1022] on, the multiples of [2 ^ -1074] below, and
    [Infinity] from [2 ^ 1024 - 2 ^ 970] on. *)
Definition binary64 (x : Q) : Q :=
  if Qle_bool x 0 then 0%Q
  else
    let ulp := pow2 (Z.max (exponent x - 52) (-1074)) in
    let r := (inject_Z (round_half_even (x / ulp)) * ulp)%Q in
    if Qle_bool Infinity r then Infinity else Qred r.

(** The decimal a captured numeral denotes. *)
Definition decimal (n : numeral) : Q :=
  let scale := 10 ^ Z.of_nat (String.length (fraction n)) in
  Qmake (digits_value (whole n) * scale + digits_value (fraction n)) (Z.to_pos scale).

(** [parseFloat] of a captured numeral: the double nearest to its decimal
    (the engine's conversion is correctly rounded). *)
Definition parseFloat (n : numeral) : Q := binary64 (decimal n).

(** [parseInt] of captured digits: the double nearest to the integer. *)
Definition parseInt (digits : string) : Q := binary64 (inject_Z (digits_value digits)).

(** [seenChapterNums.has(x)] on the numbers seen so far *)
Definition has (seen : list Q) (x : Q) : bool := existsb (Qeq_bool x) seen.

(** [href.replace('/reader/en/', '').replace(/\/$/, '')] *)
Definition chapterId_of (href : string) : string :=
  drop_final_slash (replace_first "/reader/en/" "" href).

(** [relativeTime || datetime || null] *)
Definition releaseDate_of (item : li) : option string :=
  if negb (String.eqb (relativeTime item) "") then Some (relativeTime item)
  else match datetime item with
       | Some d => if String.eqb d "" then None else Some d
       | None => None
       end.

(** The callback of [$chapters('ul.chapter-list li').each(...)]: the state is
    the [chapters] array and the [seenChapterNums] set. *)
Definition visit_li (state : list chapter * list Q) (item : li) : list chapter * list Q :=
  let '(chapters, seen) := state in
  match href item with
  | None => state
  | Some h =>
      if String.eqb h "" || negb (includes h "/reader/en/") then state else
      let chapterId := chapterId_of h in
      match match_chapter chapterId with
      | None => state
      | Some chapterMatch =>
          let chapterNum := parseFloat chapterMatch in
          if Qeq_bool chapterNum 0 || has seen chapterNum then state else
          (chapters ++ [{| id := chapterId;
                           chapterNumber := chapterNum;
                           releaseDate := releaseDate_of item |}],
           chapterNum :: seen)
      end
  end.

(** The callback of the fallback over the anchors of the main page. *)
Definition visit_anchor (state : list chapter * list Q) (href : option string)
  : list chapter * list Q :=
  let '(chapters, seen) := state in
  match href with
  | None => state
  | Some h =>
      if String.eqb h "" || negb (includes h "/reader/en/") then state else
      let chapterId := chapterId_of h in
      match match_chapter_int chapterId with
      | None => state
      | Some digits =>
          let chapterNum := parseInt digits in
          if Qeq_bool chapterNum 0 || has seen chapterNum then state else
          (chapters ++ [{| id := chapterId;
                           chapterNumber := chapterNum;
                           releaseDate := None |}],
           chapterNum :: seen)
      end
  end.

(** [array.sort(compare)] for a comparator that is the difference of a
    numeric key: the sort is stable, so its result is the one insertion sort
    gives.  [x] goes before [y] unless [compare x y > 0].  The difference
    of two doubles has the sign of the exact difference (it is rounded, but
    never to zero, and [Infinity] less a finite double is [Infinity]), and
    only its sign is read, so the exact difference stands for it. *)
Fixpoint insert_by {A} (compare : A -> A -> Q) (x : A) (sorted : list A) : list A :=
  match sorted with
  | [] => [x]
  | y :: rest =>
      if Qle_bool (compare x y) 0 then x :: y :: rest
      else y :: insert_by compare x rest
  end.

Definition sort_by {A} (compare : A -> A -> Q) (items : list A) : list A :=
  fold_right (insert_by compare) [] items.

(** The chapter list of [/info].  [all_chapters] is the [<li>] list of the
    all-chapters page, or [None] when that request failed and the handler
    falls back to the reader links of the main page. *)
Definition info_chapters (all_chapters : option (list li)) (main_page : list (option string))
  : list chapter :=
  let collected :=
    match all_chapters with
    | Some items => fst (fold_left visit_li items ([], []))
    | None => fst (fold_left visit_anchor main_page ([], []))
    end in
  sort_by (fun a b => chapterNumber b - chapterNumber a)%Q collected.

Section Titles.

(** [`${x}`] for a double: [Number::toString] of the language. *)
Variable Number_toString : Q -> string.

(** The [title] of a chapter of the reply: [`Chapter ${chapterNum}`]. *)
Definition title (c : chapter) : string :=
  "Chapter " +:+ Number_toString (chapterNumber c).

End Titles.

(** ** What the claim speaks about *)

(** The chapter an [<li>] stands for, when it is a reader link with a
    non-zero chapter number. *)
Definition listed (item : li) : option chapter :=
  match href item with
  | Some h =>
      if String.eqb h "" || negb (includes h "/reader/en/") then None else
      match match_chapter (chapterId_of h) with
      | Some m =>
          if Qeq_bool (parseFloat m) 0 then None
          else Some {| id := chapterId_of h;
                       chapterNumber := parseFloat m;
                       releaseDate := releaseDate_of item |}
      | None => None
      end
  | None => None
  end.

(** The same for an anchor of the main page. *)
Definition linked (href : option string) : option chapter :=
  match href with
  | Some h =>
      if String.eqb h "" || negb (includes h "/reader/en/") then None else
      match match_chapter_int (chapterId_of h) with
      | Some digits =>
          if Qeq_bool (parseInt digits) 0 then None
          else Some {| id := chapterId_of h;
                       chapterNumber := parseInt digits;
                       releaseDate := None |}
      | None => None
      end
  | None => None
  end.

(** The specification's rule for duplicates: every listed chapter is an entry
    of the reply, also when another one has the same number. *)
Definition keeps_duplicates : Prop :=
  forall items main_page item c,
    In item items -> listed item = Some c -> In c (info_chapters (Some items) main_page).

(** Two releases of chapter 5 by different groups. *)
Definition two_releases : list li := [
  {| href := Some "/reader/en/solo-leveling-chapter-5/";
     relativeTime := "3 days, 12 hours"; datetime := None |};
  {| href := Some "/reader/en/solo-leveling-chapter-5-asura/";
     relativeTime := "2 days"; datetime := None |}
].

(** Two numerals that are one double: 1 and 1.00000000000000001. *)
Definition rounded_alike : list li := [
  {| href := Some "/reader/en/x-chapter-1"; relativeTime := "1 day"; datetime := None |};
  {| href := Some "/reader/en/x-chapter-1.00000000000000001";
     relativeTime := "2 days"; datetime := None |}
].

(** Every later element has a key at most that of an earlier one. *)
Definition descending {A} (key : A -> Q) (l : list A) : Prop :=
  StronglySorted (fun a b => (key b <= key a)%Q) l.

(** No two elements have the same key. *)
Fixpoint distinct {A} (key : A -> Q) (l : list A) : Prop :=
  match l with
  | [] => True
  | x :: rest => Forall (fun a => ~ (key a == key x)%Q) rest /\ distinct key rest
  end.

(** The shape both callbacks have: a candidate chapter is appended unless its
    number was seen before. *)
Definition visit {X} (candidate : X -> option chapter) (state : list chapter * list Q)
    (item : X) : list chapter * list Q :=
  match candidate item with
  | Some c =>
      if has (snd state) (chapterNumber c) then state
      else (fst state ++ [c], chapterNumber c :: snd state)
  | None => state
  end.

(** [seen] holds exactly the numbers of [chapters]. *)
Definition seen_exactly (state : list chapter * list Q) : Prop :=
  forall x, has (snd state) x = true <->
            exists c, In c (fst state) /\ (chapterNumber c == x)%Q.

(** Strictly descending chapter numbers: newest first, no number twice. *)
Definition strictly_descending (chapters : list chapter) : Prop :=
  StronglySorted (fun a b => (chapterNumber b < chapterNumber a)%Q) chapters.

End Mgeko.

Module Mangadex.
Import JS.

(** One element of the upstream chapter feed, as far as the handler reads
    it: [id], [attributes.chapter], [attributes.title], [attributes.publishAt]. *)
Record feed_chapter : Type := {
  feed_id : string;
  chapter : option string;
  feed_title : option string;
  publishAt : option string
}.

Record chapter_entry : Type := {
  id : string;
  title : string;
  releaseDate : string
}.

(** [x || fallback] for an optional string *)
Definition or_else (x : option string) (fallback : string) : string :=
  match x with
  | Some s => if String.eqb s "" then fallback else s
  | None => fallback
  end.

(** [now] is what [new Date().toISOString()] gives. *)
Definition entry_of (now : string) (c : feed_chapter) (chapterNum : string) : chapter_entry :=
  {| id := feed_id c;
     title := or_else (feed_title c) ("Chapter " +:+ chapterNum);
     releaseDate := or_else (publishAt c) now |}.

(** The loop [for (const chapter of chaptersResponse.data.data)], with the
    [chapters] array and the [seenChapters] set as its state. *)
Fixpoint collect (now : string) (feed : list feed_chapter) (chapters : list chapter_entry)
    (seenChapters : gset string) : list chapter_entry :=
  match feed with
  | [] => chapters
  | c :: rest =>
      match chapter c with
      | Some chapterNum =>
          if String.eqb chapterNum "" || bool_decide (chapterNum ∈ seenChapters)
          then collect now rest chapters seenChapters
          else collect now rest (chapters ++ [entry_of now c chapterNum])
                 ({[chapterNum]} ∪ seenChapters)
      | None => collect now rest chapters seenChapters
      end
  end.

Definition info_chapters (now : string) (feed : list feed_chapter) : list chapter_entry :=
  collect now feed [] ∅.

(** ** What the claim speaks about *)

(** The feed elements that carry a chapter label. *)
Definition labelled (c : feed_chapter) : option string :=
  match chapter c with
  | Some chapterNum => if String.eqb chapterNum "" then None else Some chapterNum
  | None => None
  end.

(** The first feed element of each label, in feed order. *)
Fixpoint first_of_each (feed : list feed_chapter) (seen : list string)
  : list (feed_chapter * string) :=
  match feed with
  | [] => []
  | c :: rest =>
      match labelled c with
      | Some l =>
          if existsb (String.eqb l) seen then first_of_each rest seen
          else (c, l) :: first_of_each rest (l :: seen)
      | None => first_of_each rest seen
      end
  end.

End Mangadex.

(* ================================================================== *)
(** * The stream relay: GET /proxy/stream and its playlist rewriting *)
(* ================================================================== *)
Module Proxy.
Import JS.

(** ** The regular expressions, and [String.prototype.replace] with them

    The two patterns, under the flags [g] and [m], are (written with spaces
    between their parts)
      ^ ( [^#\n] [^\n]* \.m3u8 [^\n]* ) $
      ^ ( [^#\n] [^\n]* \.ts [^\n]* ) $
    Their group spans the whole match and the callback only reads the match,
    so groups are not modelled. *)
Inductive item : Type :=
| LineStart                           (* [^] under the [m] flag *)
| LineEnd                             (* [$] under the [m] flag *)
| NoneOf (excluded : list ascii)      (* one character of [[^...]] *)
| ManyNoneOf (excluded : list ascii)  (* [[^...]*], greedy *)
| Literal (text : string).

Definition LF : ascii := "010"%char.
Definition CR : ascii := "013"%char.

(** The line terminators among the code units below 256. *)
Definition is_line_terminator (c : ascii) : bool := Ascii.eqb c LF || Ascii.eqb c CR.

Definition member (c : ascii) (cs : list ascii) : bool := existsb (Ascii.eqb c) cs.

(** [^]: at the start of the input or just after a line terminator. *)
Definition at_line_start (prev : option ascii) : bool :=
  match prev with
  | None => true
  | Some c => is_line_terminator c
  end.

(** [$]: at the end of the input or just before a line terminator. *)
Definition at_line_end (s : string) : bool :=
  match s with
  | EmptyString => true
  | String c _ => is_line_terminator c
  end.

Fixpoint last_char (s : string) (prev : option ascii) : option ascii :=
  match s with
  | EmptyString => prev
  | String c s' => last_char s' (Some c)
  end.

(** The backtracking matcher: the text [pattern] matches at the start of
    [s], where [prev] is the character before [s].  A starred class first
    tries to take one more character and falls back to taking none. *)
Fixpoint match_at (pattern : list item) : option ascii -> string -> option string :=
  match pattern with
  | [] => fun _ _ => Some EmptyString
  | it :: rest =>
      let continue := match_at rest in
      match it with
      | LineStart => fun prev s => if at_line_start prev then continue prev s else None
      | LineEnd => fun prev s => if at_line_end s then continue prev s else None
      | NoneOf excluded => fun prev s =>
          match s with
          | String c s' =>
              if member c excluded then None
              else option_map (String c) (continue (Some c) s')
          | EmptyString => None
          end
      | ManyNoneOf excluded =>
          fix many (prev : option ascii) (s : string) {struct s} : option string :=
            match s with
            | String c s' =>
                if member c excluded then continue prev s
                else match many (Some c) s' with
                     | Some m => Some (String c m)
                     | None => continue prev s
                     end
            | EmptyString => continue prev s
            end
      | Literal text => fun prev s =>
          match strip_prefix text s with
          | Some s' => option_map (String.append text) (continue (last_char text prev) s')
          | None => None
          end
      end
  end.

(** [s.replace(/pattern/g, f)]: the matches are found left to right, each
    search resuming where the previous match ended (one character further
    after an empty match); [skip] counts the characters of the current match
    still to be passed over. *)
Fixpoint replace_scan (pattern : list item) (f : string -> string) (skip : nat)
    (prev : option ascii) (s : string) : string :=
  match s with
  | EmptyString =>
      match skip with
      | O => match match_at pattern prev EmptyString with
             | Some m => f m
             | None => EmptyString
             end
      | S _ => EmptyString
      end
  | String c s' =>
      match skip with
      | S k => replace_scan pattern f k (Some c) s'
      | O =>
          match match_at pattern prev s with
          | Some m =>
              match String.length m with
              | O => f m +:+ String c (replace_scan pattern f 0 (Some c) s')
              | S k => f m +:+ replace_scan pattern f k (Some c) s'
              end
          | None => String c (replace_scan pattern f 0 (Some c) s')
          end
      end
  end.

Definition replace_all (pattern : list item) (f : string -> string) (s : string) : string :=
  replace_scan pattern f 0 None s.

Definition line_with (extension : string) : list item :=
  [LineStart; NoneOf ["#"%char; LF]; ManyNoneOf [LF]; Literal extension; ManyNoneOf [LF];
   LineEnd].

(** ** The handler *)

(** [s.lastIndexOf(c)], [-1] when [c] does not occur *)
Fixpoint lastIndexOf_from (i : Z) (found : Z) (c : ascii) (s : string) : Z :=
  match s with
  | EmptyString => found
  | String d s' => lastIndexOf_from (i + 1) (if Ascii.eqb c d then i else found) c s'
  end.

Definition lastIndexOf (s : string) (c : ascii) : Z := lastIndexOf_from 0 (-1) c s.

(** The replacement callback of both [replace] calls. *)
Definition proxied (baseUrl : string) (referer : option string) (matched : string) : string :=
  let absoluteUrl := if startsWith matched "http" then matched else baseUrl +:+ matched in
  "http://localhost:3000/proxy/stream?url=" +:+ encodeURIComponent absoluteUrl +:+
  match referer with
  | Some r => if String.eqb r "" then "" else "&referer=" +:+ encodeURIComponent r
  | None => ""
  end.

Definition rewrite_playlist (url : string) (referer : option string) (content : string)
  : string :=
  let baseUrl := String.substring 0 (Z.to_nat (lastIndexOf url "/" + 1)) url in
  let content := replace_all (line_with ".m3u8") (proxied baseUrl referer) content in
  let content := replace_all (line_with ".ts") (proxied baseUrl referer) content in
  content.

(** What [axios.get(url, { headers })] does.  Building the headers evaluates
    [new URL(referer)] inside the same [try], so a referer that is not a URL
    is one of the rejections without a response. *)
Inductive upstream : Type :=
| Responds (status : Z) (data : string)
| Rejects (response_status : option Z) (message : string).

(** The reply, as far as the claims go (the CORS and pass-through headers are
    left out). *)
Inductive reply : Type :=
| BadRequest
| Playlist (content : string)          (* Content-Type application/vnd.apple.mpegurl *)
| Relayed (status : Z) (data : string)
| Failed (status : Z) (details : string).

Definition stream (axios_get : string -> option string -> upstream)
    (url referer : option string) : reply :=
  match url with
  | None => BadRequest
  | Some u =>
      if String.eqb u "" then BadRequest else
      match axios_get u referer with
      | Responds status data =>
          if includes u ".m3u8" then Playlist (rewrite_playlist u referer data)
          else Relayed status data
      | Rejects (Some status) message => Failed status message
      | Rejects None message => Failed 500 message
      end
  end.

(** ** What the claim speaks about *)

(** The directory of the fetch URL: its prefix up to and including the last
    slash. *)
Definition directory (url : string) : string :=
  String.substring 0 (Z.to_nat (lastIndexOf url "/" + 1)) url.

(** The rewritten form the specification gives for a relative entry [line]
    of a playlist fetched from [url]. *)
Definition relayed_entry (url : string) (referer : option string) (line : string) : string :=
  "http://localhost:3000/proxy/stream?url=" +:+ encodeURIComponent (directory url +:+ line) +:+
  match referer with
  | Some r => if String.eqb r "" then "" else "&referer=" +:+ encodeURIComponent r
  | None => ""
  end.

Definition lines_of (ls : list string) : string :=
  fold_right (fun l rest => l +:+ String LF rest) "" ls.

(** No line terminator occurs in [s]. *)
Definition one_line (s : string) : bool :=
  all_chars (fun c => negb (is_line_terminator c)) s.

(** What follows a line: the end of the input or a line feed. *)
Definition after_line (t : string) : Prop :=
  t = "" \/ exists t', t = String LF t'.

(** A line is an entry with [extension] for the patterns when it does not
    start with [#] and [extension] occurs after its first character. *)
Definition entry_line (extension line : string) : bool :=
  match line with
  | EmptyString => false
  | String c rest => negb (member c ["#"%char; LF]) && includes rest extension
  end.

(** What the two [replace] calls make of one line. *)
Definition rewrite_line (url : string) (referer : option string) (line : string) : string :=
  let relay := proxied (directory url) referer in
  let line := if entry_line ".m3u8" line then relay line else line in
  if entry_line ".ts" line then relay line else line.

(** A line the patterns cannot take for an entry: a tag line (it starts with
    [#]), an empty line, or a line that contains neither extension. *)
Definition line_is_left_alone (line : string) : Prop :=
  line = "" \/ startsWith line "#" = true \/
  (includes line ".m3u8" = false /\ includes line ".ts" = false).

(** A line as a playlist with CR LF line ends has it before each line
    feed: with a carriage return at its end. *)
Definition with_CR (line : string) : string := line +:+ String CR "".

(** Lines with and without a carriage return, as the first [replace] leaves
    them: [(l, true)] stands for the line [l] with its carriage return. *)
Definition text (line : string * bool) : string :=
  if snd line then with_CR (fst line) else fst line.

(** A master playlist served from a host whose name happens to contain
    [.ts]. *)
Definition master_url : string := "https://media.tscdn.net/hls/master.m3u8".

Definition master_playlist : string :=
  lines_of ["#EXTM3U"; "#EXT-X-STREAM-INF:BANDWIDTH=800000,RESOLUTION=1280x720"; "720p.m3u8"].

End Proxy.

(* ================================================================== *)
(** * The unified routes GET /read and GET /genres *)
(* ================================================================== *)
Module UnifiedRoutes.
Import JS Unified.

(** ** GET /read *)

(** The providers in the order they are tried: the preferred one first,
    then the others.  An absent or empty [provider] parameter leaves the
    priority order. *)
Definition providerOrder (preferredProvider : option string) : list ProviderConfig :=
  match preferredProvider with
  | Some preferred =>
      if String.eqb preferred "" then PROVIDERS
      else List.filter (fun p => String.eqb (name p) preferred) PROVIDERS ++
           List.filter (fun p => negb (String.eqb (name p) preferred)) PROVIDERS
  | None => PROVIDERS
  end.

(** [result.data.map((page) => ({ ...page, provider: provider.name }))], sent
    with status 200.  Only arrays have [map]. *)
Definition read_success (provider : ProviderConfig) (data : json) : completion reply :=
  match data with
  | JArr pages => Ok {| status := 200; body := JArr (withProvider (name provider) pages) |}
  | _ => Throw "TypeError: result.data.map is not a function"
  end.

Fixpoint read_loop (srv : server) (chapterId : string) (providers : list ProviderConfig)
    (errors : list string) : M reply :=
  match providers with
  | [] =>
      ret {| status := 404;
             body := JObj [("message", JStr "Chapter not found on any provider");
                           ("errors", JArr (map JStr errors))] |}
  | provider :: rest =>
      let* result := fetchFromProvider srv (name provider) "/read" [("chapterId", chapterId)] in
      match result with
      | Success data =>
          let* valid := lift (isValidChapterPages data) in
          if valid then lift (read_success provider data)
          else
            read_loop srv chapterId rest
              (errors ++ [name provider +:+ ": " +:+ "No valid pages found"])
      | Failure error =>
          read_loop srv chapterId rest (errors ++ [name provider +:+ ": " +:+ error])
      end
  end.

Definition read (srv : server) (chapterId preferredProvider : option string) : M reply :=
  match chapterId with
  | Some id' =>
      if String.eqb id' "" then
        ret {| status := 400; body := JObj [("message", JStr "chapterId is required")] |}
      else read_loop srv id' (providerOrder preferredProvider) []
  | None => ret {| status := 400; body := JObj [("message", JStr "chapterId is required")] |}
  end.

(** ** GET /genres *)

(** The first provider whose answer is a non-empty array is passed on as it
    is; when there is none the reply is the empty array. *)
Fixpoint genres_loop (srv : server) (providers : list ProviderConfig) : M reply :=
  match providers with
  | [] => ret {| status := 200; body := JArr [] |}
  | provider :: rest =>
      let* result := fetchFromProvider srv (name provider) "/genres" [] in
      match result with
      | Success (JArr (first :: others)) =>
          ret {| status := 200; body := JArr (first :: others) |}
      | _ => genres_loop srv rest
      end
  end.

Definition genres (srv : server) : M reply := genres_loop srv PROVIDERS.

(** ** What the properties speak about *)

Definition read_url (chapterId : string) (p : ProviderConfig) : string :=
  provider_url (name p) "/read" [("chapterId", chapterId)].

(** The provider errors or its pages are rejected by the validator. *)
Definition read_fails (srv : server) (chapterId : string) (p : ProviderConfig) : Prop :=
  match fetched (srv (read_url chapterId p)) with
  | Success data => isValidChapterPages data = Ok false
  | Failure _ => True
  end.

(** The failure reason the handler records for a provider. *)
Definition read_reason (srv : server) (chapterId : string) (p : ProviderConfig) : string :=
  name p +:+ ": " +:+
  match fetched (srv (read_url chapterId p)) with
  | Success _ => "No valid pages found"
  | Failure error => error
  end.

(** The provider errors or answers data the results validator rejects. *)
Definition results_fail (srv : server) (endpoint : string) (params : list (string * string))
    (p : ProviderConfig) : Prop :=
  match fetched (srv (provider_url (name p) endpoint params)) with
  | Success data => isValidSearchResults data = false
  | Failure _ => True
  end.

(** The characters that end or split a path segment or a query parameter. *)
Definition is_url_separator (c : ascii) : bool :=
  existsb (Ascii.eqb c) ["/"; "?"; "#"; "&"; "="; " "]%char.

(** ** Example servers *)

(** Only the second provider has the pages of the chapter. *)
Definition pages_on_second : server := fun url =>
  if String.eqb url "/manhwa/manhuaus/read?chapterId=solo-leveling%2Fchapter-1" then
    InjectResponse 200
      (Ok (JArr [JObj [("page", JNum 1); ("img", JStr "https://img.example/1.jpg")]]))
  else InjectResponse 200 (Ok (JArr [])).

(** The first provider has an empty chapter and the second one is down. *)
Definition no_pages : server := fun url =>
  if String.eqb url "/manhwa/manhuaplus/read?chapterId=chapter-1" then
    InjectResponse 200 (Ok (JArr []))
  else InjectThrows "socket hang up".

(** The first provider finds nothing and the second one has a result. *)
Definition found_on_second : server := fun url =>
  if String.eqb url "/manhwa/manhuaplus/latest?page=1" then
    InjectResponse 200 (Ok (JObj [("currentPage", JNum 1); ("results", JArr [])]))
  else if String.eqb url "/manhwa/manhuaus/latest?page=1" then
    InjectResponse 200
      (Ok (JObj [("currentPage", JNum 1); ("hasNextPage", JBool true);
                 ("results", JArr [JObj [("id", JStr "solo-leveling");
                                         ("provider", JStr "madara")]])]))
  else InjectResponse 404 (Ok JNull).

End UnifiedRoutes.

(* ================================================================== *)
(** * The two providers behind the unified routes: ManhuaPlus and ManhuaUS *)
(* ================================================================== *)

(** What the two scrapers share: the id taken from a link and the genre
    list taken from the anchors of a page. *)
Module Scraping.
Import JS.

(** [s.replace(/^\/manga\//, '')] *)
Definition drop_manga_prefix (s : string) : string :=
  match strip_prefix "/manga/" s with
  | Some rest => rest
  | None => s
  end.

(** [url.replace(baseUrl, '').replace(/^\/manga\//, '').replace(/\/$/, '')] *)
Definition id_of_url (baseUrl url : string) : string :=
  drop_final_slash (drop_manga_prefix (replace_first baseUrl "" url)).

(** An [<a>] as the genre callbacks read it: its text and its [href]. *)
Record anchor : Type := { text : string; href : option string }.

Record genre : Type := { genre_name : string; slug : string }.

Definition not_slash (c : ascii) : bool := negb (Ascii.eqb c "/").

(** [prefix([^\/]+)] anchored at the start of [s]: group 1, the longest run
    of characters other than a slash. *)
Definition match_segment_here (prefix s : string) : option string :=
  match strip_prefix prefix s with
  | Some rest =>
      match span not_slash rest with
      | (EmptyString, _) => None
      | (segment, _) => Some segment
      end
  | None => None
  end.

(** [s.match(/prefix([^\/]+)/)]: the leftmost match, its group 1 *)
Fixpoint match_segment (prefix s : string) : option string :=
  match match_segment_here prefix s with
  | Some segment => Some segment
  | None =>
      match s with
      | EmptyString => None
      | String _ s' => match_segment prefix s'
      end
  end.

(** The callback of the genre anchors: the state is the [genres] array. *)
Definition visit_genre (prefix : string) (genres : list genre) (a : anchor) : list genre :=
  let name := trim (text a) in
  let href := match href a with Some h => h | None => "" end in
  match match_segment prefix href with
  | Some slug' =>
      if String.eqb name "" then genres
      else if existsb (fun g => String.eqb (slug g) slug') genres then genres
      else genres ++ [{| genre_name := name; slug := slug' |}]
  | None => genres
  end.

Definition genre_json (g : genre) : json :=
  JObj [("name", JStr (genre_name g)); ("slug", JStr (slug g))].

Definition something_went_wrong (message : string) : json :=
  JObj [("message", JStr "Something went wrong. Please try again later.");
        ("error", JStr message)].

(** ** What the properties speak about *)

(** [s.endsWith('/')] *)
Fixpoint endsWith_slash (s : string) : bool :=
  match s with
  | EmptyString => false
  | String c EmptyString => Ascii.eqb c "/"
  | String _ s' => endsWith_slash s'
  end.

(** [attr('href') || ''] *)
Definition href_or_empty (a : anchor) : string :=
  match href a with
  | Some h => h
  | None => ""
  end.

(** A URL with a scheme the scrapers take for absolute. *)
Definition is_absolute (url : string) : bool :=
  startsWith url "http://" || startsWith url "https://".

(** A genre list in which no slug occurs twice, every slug is one non-empty
    path segment and every name is non-empty. *)
Definition listed_once (genres : list genre) : Prop :=
  List.NoDup (map slug genres) /\
  List.Forall (fun g => slug g <> "" /\ all_chars not_slash (slug g) = true /\
                        genre_name g <> "") genres.

End Scraping.

(** The chapter loops of GET /info of ManhuaPlus and ManhuaUS: the three
    loops have one body, up to the base URL. *)
Module ChapterList.
Import JS Scraping.

(** An element of the chapter list as the callback reads it: the text of
    its link ([find('a').first().text()] on ManhuaPlus, [find('a').text()]
    on ManhuaUS), the [href] of its first link, the text of its date element
    and what [new Date().toISOString()] gives when the element is visited. *)
Record element : Type := {
  link_text : string;
  link_href : option string;
  date_text : string;
  clock : string
}.

Record chapter : Type := {
  id : string;
  title : string;
  releaseDate : string
}.

(** The callback of [.each]: the state is the [chapters] array. *)
Definition visit_chapter (baseUrl : string) (chapters : list chapter) (el : element)
  : list chapter :=
  let chapterTitle := trim (link_text el) in
  let chapterUrl := match link_href el with Some h => h | None => "" end in
  let releaseDate := trim (date_text el) in
  let chapterId := id_of_url baseUrl chapterUrl in
  if negb (String.eqb chapterTitle "") && negb (String.eqb chapterId "") then
    chapters ++ [{| id := chapterId; title := chapterTitle;
                    releaseDate := if String.eqb releaseDate "" then clock el
                                   else releaseDate |}]
  else chapters.

(** ** What the claim speaks about *)

(** The entry an element stands for, when it has a title and an id. *)
Definition entry_of (baseUrl : string) (el : element) : option chapter :=
  let chapterTitle := trim (link_text el) in
  let chapterId := id_of_url baseUrl (match link_href el with Some h => h | None => "" end) in
  if negb (String.eqb chapterTitle "") && negb (String.eqb chapterId "") then
    Some {| id := chapterId; title := chapterTitle;
            releaseDate := if String.eqb (trim (date_text el)) "" then clock el
                           else trim (date_text el) |}
  else None.

(** The entries of the elements of a list, one after the other. *)
Definition entries_of (baseUrl : string) (items : list element) : list chapter :=
  flat_map (fun el => match entry_of baseUrl el with
                      | Some c => [c]
                      | None => []
                      end) items.

(** Chapter 5 twice, by two groups, and chapter 4 after them. *)
Definition two_releases (baseUrl : string) : list element := [
  {| link_text := " Chapter 5 ";
     link_href := Some (baseUrl +:+ "/manga/solo-leveling/chapter-5/");
     date_text := "2 days ago"; clock := "2025-12-16T03:10:00.000Z" |};
  {| link_text := "Chapter 5";
     link_href := Some "/manga/solo-leveling/chapter-5-asura/";
     date_text := ""; clock := "2025-12-16T03:10:00.001Z" |};
  {| link_text := "Chapter 4";
     link_href := Some "/manga/solo-leveling/chapter-4/";
     date_text := "3 days ago"; clock := "2025-12-16T03:10:00.002Z" |};
  {| link_text := "Chapter 6";
     link_href := None;
     date_text := "1 day ago"; clock := "2025-12-16T03:10:00.003Z" |}
].

End ChapterList.

Module ManhuaPlus.
Import JS Unified Scraping.

Definition baseUrl : string := "https://manhuaplus.top".

Definition normalizeImageUrl (url : string) : string :=
  if String.eqb url "" then ""
  else if startsWith url "http://" || startsWith url "https://" then url
  else if startsWith url "//" then "https:" +:+ url
  else if startsWith url "/" then baseUrl +:+ url
  else url.

(** The id of a card or a chapter, from the [href] of its link. *)
Definition id_of (url : string) : string := id_of_url baseUrl url.

(** The page GET /info requests for an id, and GET /read for a chapter id. *)
Definition manga_url (id : string) : string := baseUrl +:+ "/manga/" +:+ id.

(** The chapter list of GET /info: [items] are the elements that
    [.list-chapter li, #nt_listchapter li] selects, in the order of the
    page. *)
Definition info_chapters (items : list ChapterList.element) : list ChapterList.chapter :=
  fold_left (ChapterList.visit_chapter baseUrl) items [].

Section Genres.

(** [genres.sort((a, b) => a.name.localeCompare(b.name))]: the collation is
    that of the host. *)
Variable sort : list genre -> list genre.

Definition scraped_genres (anchors : list anchor) : list genre :=
  fold_left (visit_genre "/genres/") anchors [].

(** GET /genres.  [upstream] is what [client.get(baseUrl)] and the selection
    of the genre anchors of the menu come to. *)
Definition genres (upstream : completion (list anchor)) : reply :=
  match upstream with
  | Ok anchors =>
      {| status := 200;
         body := JObj [("genres", JArr (map genre_json (sort (scraped_genres anchors))))] |}
  | Throw message => {| status := 500; body := something_went_wrong message |}
  end.

End Genres.

End ManhuaPlus.

Module ManhuaUS.
Import JS Unified Scraping.

Definition baseUrl : string := "https://manhuaus.com".

Definition id_of (url : string) : string := id_of_url baseUrl url.

(** The page GET /info requests for an id, and GET /read for a chapter id. *)
Definition manga_url (id : string) : string := baseUrl +:+ "/manga/" +:+ id +:+ "/".

(** The chapter list of GET /info.  [mangaId] is group 1 of the match of
    ["manga_id":"(\d+)"] on the page; [ajax] is what the POST to
    [admin-ajax.php] and the selection of [.wp-manga-chapter] in its
    response come to; [page] are the elements [.wp-manga-chapter] selects
    on the page itself, read when the POST fails.  Without a [mangaId] no
    chapter is looked for. *)
Definition info_chapters (mangaId : option string)
    (ajax : completion (list ChapterList.element)) (page : list ChapterList.element)
  : list ChapterList.chapter :=
  match mangaId with
  | Some _ =>
      match ajax with
      | Ok items => fold_left (ChapterList.visit_chapter baseUrl) items []
      | Throw _ => fold_left (ChapterList.visit_chapter baseUrl) page []
      end
  | None => []
  end.

(** The selectors tried for the genre links, in order: [.genres-content a],
    [.genre-list a], [a] with an [href] containing [/manga-genre/], and
    [.widget_genres a]. *)
Inductive selector : Type := GenresContent | GenreList | HrefMangaGenre | WidgetGenres.

Definition genreSelectors : list selector :=
  [GenresContent; GenreList; HrefMangaGenre; WidgetGenres].

Definition defaultGenres : list string := [
  "action"; "adventure"; "comedy"; "drama"; "fantasy"; "harem";
  "historical"; "horror"; "isekai"; "martial-arts"; "mecha";
  "mystery"; "psychological"; "romance"; "school-life"; "sci-fi";
  "seinen"; "shoujo"; "shounen"; "slice-of-life"; "supernatural";
  "tragedy"; "webtoons"
].

(** [s.split(sep)] for a separator of one character *)
Fixpoint split (sep : ascii) (s : string) : list string :=
  match s with
  | EmptyString => [EmptyString]
  | String c s' =>
      if Ascii.eqb c sep then EmptyString :: split sep s'
      else match split sep s' with
           | word :: words => String c word :: words
           | [] => [String c EmptyString]
           end
  end.

(** [words.join(sep)] *)
Fixpoint join (sep : string) (words : list string) : string :=
  match words with
  | [] => ""
  | [word] => word
  | word :: rest => word +:+ sep +:+ join sep rest
  end.

(** [c.toUpperCase()] for a letter of the default slugs, which are ASCII. *)
Definition upper (c : ascii) : ascii :=
  let n := N_of_ascii c in
  if N.leb 97 n && N.leb n 122 then ascii_of_N (n - 32) else c.

(** [w.charAt(0).toUpperCase() + w.slice(1)] *)
Definition capitalize (w : string) : string :=
  match w with
  | EmptyString => EmptyString
  | String c rest => String (upper c) rest
  end.

Definition default_genre (slug' : string) : genre :=
  {| genre_name := join " " (map capitalize (split "-" slug')); slug := slug' |}.

(** The loop over the selectors: it stops at the first selector after which
    the list is not empty. *)
Fixpoint try_selectors (page : selector -> list anchor) (selectors : list selector)
    (genres : list genre) : list genre :=
  match selectors with
  | [] => genres
  | sel :: later =>
      match fold_left (visit_genre "/manga-genre/") (page sel) genres with
      | [] => try_selectors page later []
      | found => found
      end
  end.

Definition scraped_genres (page : selector -> list anchor) : list genre :=
  match try_selectors page genreSelectors [] with
  | [] => map default_genre defaultGenres
  | found => found
  end.

Section Genres.

Variable sort : list genre -> list genre.

(** GET /genres.  [upstream] is what [client.get(baseUrl)] and the selections
    on the page come to. *)
Definition genres (upstream : completion (selector -> list anchor)) : reply :=
  match upstream with
  | Ok page =>
      {| status := 200;
         body := JObj [("genres", JArr (map genre_json (sort (scraped_genres page))))] |}
  | Throw message => {| status := 500; body := something_went_wrong message |}
  end.

End Genres.

End ManhuaUS.

(** The two providers' GET /genres behind [fastify.inject]. *)
Module Injected.
Import JS Unified Scraping.

(** The response [fastify.inject] resolves to for a handler's reply: the
    payload is the JSON text of the body, which parses back to the body. *)
Definition injected (r : reply) : inject_result := InjectResponse (status r) (Ok (body r)).

Definition genres_server (sort : list genre -> list genre)
    (plus : completion (list anchor))
    (us : completion (ManhuaUS.selector -> list anchor)) : server := fun url =>
  if String.eqb url "/manhwa/manhuaplus/genres" then injected (ManhuaPlus.genres sort plus)
  else if String.eqb url "/manhwa/manhuaus/genres" then injected (ManhuaUS.genres sort us)
  else InjectResponse 404 (Ok (JObj [("message", JStr "Not Found")])).

(** A menu with two links to the same genre and one link without text. *)
Definition menu : list anchor := [
  {| text := " Action "; href := Some "https://manhuaplus.top/genres/action" |};
  {| text := "Action"; href := Some "/genres/action/2" |};
  {| text := "  "; href := Some "/genres/drama" |};
  {| text := "Comedy"; href := Some "/genres/comedy" |}
].

End Injected.

(* ================================================================== *)
(** * The anti-block helpers: random picks, random delays, the rate limiter *)
(* ================================================================== *)
Module AntiBlock.
Import JS.
Local Open Scope Q_scope.

Definition USER_AGENTS : list string := [
  "Mozilla/5.0 (Windows NT 10.0; Win64; x64) AppleWebKit/537.36 (KHTML, like Gecko) Chrome/131.0.0.0 Safari/537.36";
  "Mozilla/5.0 (Windows NT 10.0; Win64; x64) AppleWebKit/537.36 (KHTML, like Gecko) Chrome/130.0.0.0 Safari/537.36";
  "Mozilla/5.0 (Windows NT 10.0; Win64; x64) AppleWebKit/537.36 (KHTML, like Gecko) Chrome/129.0.0.0 Safari/537.36";
  "Mozilla/5.0 (Macintosh; Intel Mac OS X 10_15_7) AppleWebKit/537.36 (KHTML, like Gecko) Chrome/131.0.0.0 Safari/537.36";
  "Mozilla/5.0 (Macintosh; Intel Mac OS X 10_15_7) AppleWebKit/537.36 (KHTML, like Gecko) Chrome/130.0.0.0 Safari/537.36";
  "Mozilla/5.0 (Windows NT 10.0; Win64; x64; rv:133.0) Gecko/20100101 Firefox/133.0";
  "Mozilla/5.0 (Windows NT 10.0; Win64; x64; rv:132.0) Gecko/20100101 Firefox/132.0";
  "Mozilla/5.0 (Macintosh; Intel Mac OS X 10.15; rv:133.0) Gecko/20100101 Firefox/133.0";
  "Mozilla/5.0 (Macintosh; Intel Mac OS X 10_15_7) AppleWebKit/605.1.15 (KHTML, like Gecko) Version/17.2 Safari/605.1.15";
  "Mozilla/5.0 (Macintosh; Intel Mac OS X 10_15_7) AppleWebKit/605.1.15 (KHTML, like Gecko) Version/17.1 Safari/605.1.15";
  "Mozilla/5.0 (Windows NT 10.0; Win64; x64) AppleWebKit/537.36 (KHTML, like Gecko) Chrome/131.0.0.0 Safari/537.36 Edg/131.0.0.0";
  "Mozilla/5.0 (Windows NT 10.0; Win64; x64) AppleWebKit/537.36 (KHTML, like Gecko) Chrome/130.0.0.0 Safari/537.36 Edg/130.0.0.0";
  "Mozilla/5.0 (X11; Linux x86_64) AppleWebKit/537.36 (KHTML, like Gecko) Chrome/131.0.0.0 Safari/537.36";
  "Mozilla/5.0 (X11; Ubuntu; Linux x86_64; rv:133.0) Gecko/20100101 Firefox/133.0";
  "Mozilla/5.0 (iPhone; CPU iPhone OS 17_2 like Mac OS X) AppleWebKit/605.1.15 (KHTML, like Gecko) Version/17.2 Mobile/15E148 Safari/604.1";
  "Mozilla/5.0 (Linux; Android 14; SM-S918B) AppleWebKit/537.36 (KHTML, like Gecko) Chrome/131.0.0.0 Mobile Safari/537.36"
].

(** [items[Math.floor(random * items.length)]], where [random] is what
    [Math.random()] returned; [None] is [undefined], the value of an index
    outside the array.  The product is taken exactly. *)
Definition pick (random : Q) (items : list string) : option string :=
  let index := Qfloor (random * inject_Z (Z.of_nat (length items))) in
  if (index <? 0)%Z then None else nth_error items (Z.to_nat index).

Definition getRandomUserAgent (random : Q) : option string := pick random USER_AGENTS.

Definition referers : list string := [
  "https://www.google.com/";
  "https://www.google.com/search?q=manga";
  "https://www.bing.com/";
  "https://duckduckgo.com/";
  ""
].

Definition getRandomReferer (random : Q) : option string := pick random referers.

(** [randomDelay(minMs = 500, maxMs = 2000)]: the delay handed to
    [setTimeout], for bounds given in whole milliseconds. *)
Definition randomDelay (random : Q) (minMs maxMs : option Z) : Z :=
  let minMs := match minMs with Some m => m | None => 500%Z end in
  let maxMs := match maxMs with Some m => m | None => 2000%Z end in
  (Qfloor (random * inject_Z (maxMs - minMs + 1)) + minMs)%Z.

(** The rate limiter: the time of the last request and the least distance
    between two requests, in milliseconds. *)
Record RateLimiter : Type := { lastRequest : Q; minDelay : Q }.

(** [new RateLimiter(2)], the one limiter the module exports. *)
Definition rateLimiter : RateLimiter := {| lastRequest := 0; minDelay := 1000 / 2 |}.

(** [wait()].  [now] is [Date.now()] on entry and [stamp] is [Date.now()]
    when [lastRequest] is set; the result is the delay handed to
    [setTimeout], if the call sleeps, and the limiter afterwards. *)
Definition wait (now stamp : Q) (limiter : RateLimiter) : option Q * RateLimiter :=
  let elapsed := now - lastRequest limiter in
  (if negb (Qle_bool (minDelay limiter) elapsed)
   then Some (minDelay limiter - elapsed) else None,
   {| lastRequest := stamp; minDelay := minDelay limiter |}).

(** ** What the properties speak about *)

(** A value [Math.random()] can return. *)
Definition is_random (random : Q) : Prop := 0 <= random /\ random < 1.

(** The timer does not fire early and the clock does not run backwards:
    [stamp] is read after [now], and after the delay when the call slept. *)
Definition timer_holds (now stamp : Q) (slept : option Q) : Prop :=
  now <= stamp /\
  match slept with
  | Some delay => now + delay <= stamp
  | None => True
  end.

End AntiBlock.

(* ================================================================== *)
(** * The headless render service: the browser, [scrape] and [scrapeFast] *)
(* ================================================================== *)
Module BrowserService.
Import JS.

(** The awaited calls of the service. *)
Inductive call : Type :=
| Launch                                                  (* puppeteer.launch(...) *)
| NewPage                                                 (* browser.newPage() *)
| SetRequestInterception (enabled : bool)
| SetUserAgent (userAgent : string)
| Goto (url waitUntil : string) (timeout : Z)
| WaitForSelector (selector : string) (timeout : Z)
| Delay (ms : Z)                                          (* setTimeout(resolve, ms) *)
| Content
| ClosePage                                               (* page.close() *)
| CloseBrowser.                                           (* browser.close() *)

Record world : Type := {
  rejects : call -> option string;
  html : string
}.

(** Whether [this.browser] is set, and the calls made so far. *)
Record state : Type := {
  browser : bool;
  log : list call
}.

Definition B (A : Type) : Type := state -> state * completion A.

Definition ret {A} (a : A) : B A := fun st => (st, Ok a).

Definition bind {A B'} (m : B A) (k : A -> B B') : B B' :=
  fun st =>
    match m st with
    | (st', Ok a) => k a st'
    | (st', Throw e) => (st', Throw e)
    end.

Notation "'let*' x ':=' m 'in' k" := (bind m (fun x => k))
  (at level 10, x name, m at level 100, k at level 200).

Definition await (w : world) (c : call) : B unit :=
  fun st =>
    let st' := {| browser := browser st; log := log st ++ [c] |} in
    match rejects w c with
    | Some e => (st', Throw e)
    | None => (st', Ok tt)
    end.

Definition try_finally {A} (body : B A) (fin : B unit) : B A :=
  fun st =>
    match body st with
    | (st', c) =>
        match fin st' with
        | (st'', Ok _) => (st'', c)
        | (st'', Throw e) => (st'', Throw e)
        end
    end.

(** [this.browser] is assigned only when [puppeteer.launch] resolves. *)
Definition launch (w : world) : B unit :=
  fun st =>
    if browser st then (st, Ok tt)
    else
      match await w Launch st with
      | (st', Ok _) => ({| browser := true; log := log st' |}, Ok tt)
      | (st', Throw e) => (st', Throw e)
      end.

(** [page.on('request', ...)] only registers the handler that aborts the
    requests for images, style sheets, fonts and media; it is not a call
    that can reject. *)
Definition getPage (w : world) : B unit :=
  let* _ := (fun st => if browser st then (st, Ok tt) else launch w st) in
  let* _ := await w NewPage in
  await w (SetRequestInterception true).

(** [this.browser] is reset only when [browser.close] resolves. *)
Definition close (w : world) : B unit :=
  fun st =>
    if browser st then
      match await w CloseBrowser st with
      | (st', Ok _) => ({| browser := false; log := log st' |}, Ok tt)
      | (st', Throw e) => (st', Throw e)
      end
    else (st, Ok tt).

Definition userAgent : string :=
  "Mozilla/5.0 (Windows NT 10.0; Win64; x64) AppleWebKit/537.36 (KHTML, like Gecko) Chrome/114.0.0.0 Safari/537.36".

Definition scrape (w : world) (url : string) (selector : option string) : B string :=
  let* _ := getPage w in
  try_finally
    (let* _ := await w (SetUserAgent userAgent) in
     let* _ := await w (Goto url "domcontentloaded" 15000) in
     let* _ := match selector with
               | Some sel =>
                   if String.eqb sel "" then ret tt
                   else await w (WaitForSelector sel 5000)
               | None => ret tt
               end in
     let* _ := await w Content in
     ret (html w))
    (await w ClosePage).

Definition scrapeFast (w : world) (url : string) : B string :=
  let* _ := getPage w in
  try_finally
    (let* _ := await w (SetUserAgent userAgent) in
     let* _ := await w (Goto url "domcontentloaded" 10000) in
     let* _ := await w (Delay 500) in
     let* _ := await w Content in
     ret (html w))
    (await w ClosePage).

(** ** What the properties speak about *)

(** The service of a fresh process. *)
Definition fresh : state := {| browser := false; log := [] |}.

(** The browser is there or can be launched. *)
Definition browser_available (w : world) (st : state) : Prop :=
  browser st = false -> rejects w Launch = None.

(** [getPage] resolves: the call has its page. *)
Definition page_obtained (w : world) (st : state) : Prop :=
  browser_available w st /\ rejects w NewPage = None /\
  rejects w (SetRequestInterception true) = None.

(** The page is opened, but switching the interception on fails. *)
Definition interception_fails (w : world) (st : state) (e : string) : Prop :=
  browser_available w st /\ rejects w NewPage = None /\
  rejects w (SetRequestInterception true) = Some e.

(** A browser that refuses request interception. *)
Definition no_interception : world :=
  {| rejects := fun c =>
       match c with
       | SetRequestInterception _ => Some "ProtocolError: Request interception is not supported"
       | _ => None
       end;
     html := "<html></html>" |}.

(** A site that never finishes loading. *)
Definition never_loads : world :=
  {| rejects := fun c =>
       match c with
       | Goto _ _ _ => Some "TimeoutError: Navigation timeout exceeded"
       | _ => None
       end;
     html := "<html></html>" |}.

End BrowserService.

(* ================================================================== *)
(** * Title matching: GET /match of MangaUpdates and of AniList *)
(* ================================================================== *)
Module Matching.
Import JS.

(** ** Numbers, as far as the confidence needs them: the non-negative
    doubles (each a rational), [Infinity] and [NaN]. *)
Inductive number : Type :=
| Finite (x : Q)
| Infinity
| NaN.

Section Doubles.

(** The double nearest to a rational: what a division or a multiplication
    returns for its exact result. *)
Variable to_double : Q -> Q.

(** [a.length / b.length] *)
Definition divide_lengths (a b : nat) : number :=
  match b, a with
  | O, O => NaN
  | O, S _ => Infinity
  | S _, _ => Finite (to_double (Z.of_nat a # Pos.of_nat b))
  end.

(** [x * 80] *)
Definition times_80 (x : number) : number :=
  match x with
  | Finite q => Finite (to_double (q * 80))
  | Infinity => Infinity
  | NaN => NaN
  end.

End Doubles.

Definition Math_max (x y : number) : number :=
  match x, y with
  | NaN, _ | _, NaN => NaN
  | Infinity, _ | _, Infinity => Infinity
  | Finite a, Finite b => Finite (if Qle_bool a b then b else a)
  end.

(** [Math.round]: the nearest integer, halves going up. *)
Definition Math_round (x : number) : number :=
  match x with
  | Finite q => Finite (inject_Z (Qfloor (q + (1 # 2))))
  | Infinity => Infinity
  | NaN => NaN
  end.

(** [x > y] *)
Definition greater (x y : number) : bool :=
  match x, y with
  | NaN, _ | _, NaN => false
  | Infinity, Infinity => false
  | Infinity, Finite _ => true
  | Finite _, Infinity => false
  | Finite a, Finite b => negb (Qle_bool a b)
  end.

(** [x === k] for a finite [k] *)
Definition equals (k : Q) (x : number) : bool :=
  match x with
  | Finite q => Qeq_bool q k
  | _ => false
  end.

(** ** Strings *)

(** [c.toLowerCase()] for a code unit below 256: the letters A to Z and the
    capital letters of Latin-1 (192 to 222, but for the multiplication sign
    215) move up by 32. *)
Definition lower_char (c : ascii) : ascii :=
  let n := N_of_ascii c in
  if (N.leb 65 n && N.leb n 90) || (N.leb 192 n && N.leb n 222 && negb (N.eqb n 215))
  then ascii_of_N (n + 32) else c.

Fixpoint toLowerCase (s : string) : string :=
  match s with
  | EmptyString => EmptyString
  | String c s' => String (lower_char c) (toLowerCase s')
  end.

(** [-mg\d*$] under the flag [i], anchored at the start of [s]: a dash, the
    letters m and g in either case, and digits up to the end. *)
Definition mgeko_suffix_here (s : string) : bool :=
  match s with
  | String "-" (String m (String g digits)) =>
      Ascii.eqb (lower_char m) "m" && Ascii.eqb (lower_char g) "g" && all_chars is_digit digits
  | _ => false
  end.

(** [s.replace(/-mg\d*$/i, '')]: the leftmost match reaches the end of the
    string, so what is left is what comes before it. *)
Fixpoint drop_mgeko_suffix (s : string) : string :=
  if mgeko_suffix_here s then EmptyString
  else match s with
       | EmptyString => EmptyString
       | String c s' => String c (drop_mgeko_suffix s')
       end.

(** [s.replace(/[-_]/g, ' ')] *)
Fixpoint spaces_for_dashes (s : string) : string :=
  match s with
  | EmptyString => EmptyString
  | String c s' =>
      String (if Ascii.eqb c "-" || Ascii.eqb c "_" then " "%char else c) (spaces_for_dashes s')
  end.

(** The title both routes search for. *)
Definition cleanTitle (title : string) : string :=
  trim (spaces_for_dashes (drop_mgeko_suffix title)).

(** The cache keys of the two routes. *)
Definition mu_match_key (title : string) : string :=
  "mu-match:" +:+ toLowerCase (cleanTitle title).

Definition anilist_match_key (title : string) : string :=
  "match:" +:+ toLowerCase (cleanTitle title).

(** A result of AniList, as far as the loop reads it: [title.romaji], [title.english]
    ([None] for [null]) and [synonyms || []]. *)
Record media : Type := {
  id : Z;
  romaji : option string;
  english : option string;
  synonyms : list string
}.

(** [[romaji?.toLowerCase(), english?.toLowerCase(), ...synonyms.map(lower)].filter(Boolean)] *)
Definition titles_of (result : media) : list string :=
  List.filter (fun t => negb (String.eqb t ""))
    (match romaji result with Some t => [toLowerCase t] | None => [] end ++
     match english result with Some t => [toLowerCase t] | None => [] end ++
     map toLowerCase (synonyms result)).

Section Confidence.

Variable to_double : Q -> Q.

(** The score of a title that contains the search or is contained in it. *)
Definition containment_score (normalizedSearch t : string) : number :=
  Math_max (times_80 to_double (divide_lengths to_double (String.length normalizedSearch) (String.length t)))
           (times_80 to_double (divide_lengths to_double (String.length t) (String.length normalizedSearch))).

(** ** MangaUpdates: the confidence of the first search result, whose
    [record.title] is [recordTitle] *)
Definition mu_confidence (cleanTitle recordTitle : string) : number :=
  let normalizedSearch := toLowerCase cleanTitle in
  let resultTitle := toLowerCase recordTitle in
  let confidence :=
    if String.eqb resultTitle normalizedSearch then Finite 100
    else if includes resultTitle normalizedSearch || includes normalizedSearch resultTitle
    then containment_score normalizedSearch resultTitle
    else Finite 50 in
  Math_round confidence.

(** ** AniList: the best of up to five results *)

(** The loop over the titles of one result; it ends at an exact match. *)
Fixpoint scan_titles (normalizedSearch : string) (result : media) (titles : list string)
    (best : media * number) : media * number :=
  match titles with
  | [] => best
  | t :: rest =>
      if String.eqb t normalizedSearch then (result, Finite 100)
      else if includes t normalizedSearch || includes normalizedSearch t then
        let score := containment_score normalizedSearch t in
        scan_titles normalizedSearch result rest
          (if greater score (snd best) then (result, score) else best)
      else scan_titles normalizedSearch result rest best
  end.

(** The loop over the results; it ends once the best score is 100. *)
Fixpoint scan_results (normalizedSearch : string) (results : list media)
    (best : media * number) : media * number :=
  match results with
  | [] => best
  | result :: rest =>
      let best := scan_titles normalizedSearch result (titles_of result) best in
      if equals 100 (snd best) then best else scan_results normalizedSearch rest best
  end.

(** The match and its confidence; [None] stands for the reply
    [{ match: null, confidence: 0 }] to an empty result list. *)
Definition anilist_match (cleanTitle : string) (results : list media)
  : option (media * number) :=
  match results with
  | [] => None
  | first :: _ =>
      let normalizedSearch := toLowerCase cleanTitle in
      let '(bestMatch, bestScore) := scan_results normalizedSearch results (first, Finite 0) in
      let bestScore := if equals 0 bestScore then Finite 50 else bestScore in
      Some (bestMatch, Math_round bestScore)
  end.

End Confidence.

(** ** What the properties speak about *)

(** One of the titles of [result] is the search, up to case. *)
Definition has_exact_title (normalizedSearch : string) (result : media) : Prop :=
  In normalizedSearch (titles_of result).

(** No title of [result] is the search, contains it or is contained in it. *)
Definition unrelated (normalizedSearch : string) (result : media) : Prop :=
  forall t, In t (titles_of result) ->
    t <> normalizedSearch /\ includes t normalizedSearch = false /\
    includes normalizedSearch t = false.

(** Neither a dash nor an underscore. *)
Definition no_dash (c : ascii) : bool := negb (Ascii.eqb c "-" || Ascii.eqb c "_").

(** A confidence the routes can send for a non-empty search: 50, or a whole
    number from 80 up. *)
Definition confident (x : number) : Prop :=
  exists n : Z, x = Finite (inject_Z n) /\ (n = 50 \/ 80 <= n)%Z.

Definition solo_leveling : media :=
  {| id := 105398; romaji := Some "Na Honjaman Level Up"; english := Some "Solo Leveling";
     synonyms := ["Only I Level Up"] |}.

Definition solo_leveling_ragnarok : media :=
  {| id := 178789; romaji := None; english := Some "Solo Leveling: Ragnarok"; synonyms := [] |}.

(** What the loops keep: the best match is the first result or one that was
    scanned, and the best score is 0 or at least 80. *)
Definition well_scored (pool : list media) (best : media * number) : Prop :=
  In (fst best) pool /\
  (snd best = Finite 0 \/ exists q, snd best = Finite q /\ (80 <= q)%Q).

(** What the properties ask of the rounding: it keeps the order, and it
    keeps the whole numbers a double holds exactly. *)
Definition rounds_to_nearest (to_double : Q -> Q) : Prop :=
  (forall x y : Q, (x <= y)%Q -> (to_double x <= to_double y)%Q) /\
  (forall n : Z, (0 <= n <= 2 ^ 53)%Z -> to_double (inject_Z n) = inject_Z n).

End Matching.

(* ================================================================== *)
(** * The other routes behind a TTL cache: MangaUpdates and AniList *)
(* ================================================================== *)

(** The routes share the shape of [Cache.mu_info]: the key is looked up, an
    entry younger than an hour is sent as it is, and otherwise the [try]
    block runs, which stores its [data] just before sending it.  Of a [try]
    block the model keeps its exits: the [data] it stores, an early reply
    that stores nothing, or the exception that its [catch] turns into a
    reply with status 500.  The second component of a result lists the
    requests with which the block was entered. *)
Module MangaUpdates.
Import JS Cache.

(** [reply.status(400).send({ error: 'Query parameter "name" is required' })] *)
Definition required (name : string) : reply :=
  {| status := 400;
     body := JObj [("error", JStr ("Query parameter " +:+ String "034" name +:+
                                   String "034" " is required"))] |}.

Definition failed (error : string) : reply :=
  {| status := 500; body := JObj [("error", JStr error)] |}.

(** [{ match: null, confidence: 0 }] *)
Definition no_match : json := JObj [("match", JNull); ("confidence", JNum 0)].

Section Routes.

(** GET /search: [searchSeries(q)] and the building of [data] from its
    results.  [Ok None] stands for a missing response or one without
    [results], answered with [{ results: [] }]. *)
Variable search_data : string -> completion (option json).

(** GET /match: the search for the cleaned title, the request for the
    details of the first result, and the building of [data].  [Ok None]
    stands for a search without a result or a series without details, both
    answered with [{ match: null, confidence: 0 }]. *)
Variable match_data : string -> completion (option json).

Definition search (now later : Z) (q : option string) (muCache : gmap string (entry json))
  : gmap string (entry json) * list string * reply :=
  match q with
  | None => (muCache, [], required "q")
  | Some q =>
      if String.eqb q "" then (muCache, [], required "q") else
      let cacheKey := "mu-search:" +:+ q in
      match unexpired (muCache !! cacheKey) now MU_CACHE_TTL with
      | Some cached => (muCache, [], {| status := 200; body := cached |})
      | None =>
          match search_data q with
          | Ok None =>
              (muCache, [q], {| status := 200; body := JObj [("results", JArr [])] |})
          | Ok (Some data') =>
              (<[cacheKey := {| data := data'; timestamp := later |}]> muCache, [q],
               {| status := 200; body := data' |})
          | Throw _ => (muCache, [q], failed "Failed to search MangaUpdates")
          end
      end
  end.

Definition match_title (now later : Z) (title : option string)
    (muCache : gmap string (entry json))
  : gmap string (entry json) * list string * reply :=
  match title with
  | None => (muCache, [], required "title")
  | Some title =>
      if String.eqb title "" then (muCache, [], required "title") else
      let cleanTitle := Matching.cleanTitle title in
      let cacheKey := "mu-match:" +:+ Matching.toLowerCase cleanTitle in
      match unexpired (muCache !! cacheKey) now MU_CACHE_TTL with
      | Some cached => (muCache, [], {| status := 200; body := cached |})
      | None =>
          match match_data cleanTitle with
          | Ok None => (muCache, [cleanTitle], {| status := 200; body := no_match |})
          | Ok (Some data') =>
              (<[cacheKey := {| data := data'; timestamp := later |}]> muCache, [cleanTitle],
               {| status := 200; body := data' |})
          | Throw _ => (muCache, [cleanTitle], failed "Failed to match on MangaUpdates")
          end
      end
  end.

End Routes.

End MangaUpdates.

Module Anilist.
Import JS Cache.

Definition CACHE_TTL : Z := 60 * 60 * 1000.

(** A request to the upstream API, by the route that makes it and the
    values it is made from.  [page] and [perPage] are the query parameters
    as they came, [None] when absent (they then default to 1 and 20). *)
Inductive request : Type :=
| Search (q : string) (page perPage : option string)
| Info (id : string)
| Match (cleanTitle : string)
| Trending (page perPage : option string).

(** [`${page}`] for a parameter with the default [fallback] *)
Definition or_default (parameter : option string) (fallback : string) : string :=
  match parameter with
  | Some text => text
  | None => fallback
  end.

Section Routes.

(** GET /search and GET /trending: [queryAniList] and the building of
    [data]; every failure is an exception. *)
Variable listing_data : request -> completion json.

(** GET /info/:id: [Ok None] stands for a response without [Media],
    answered with status 404. *)
Variable info_data : string -> completion (option json).

(** GET /match: [Ok None] stands for a search without a result, answered
    with [{ match: null, confidence: 0 }]. *)
Variable match_data : string -> completion (option json).

Definition search (now later : Z) (q page perPage : option string)
    (anilistCache : gmap string (entry json))
  : gmap string (entry json) * list request * reply :=
  match q with
  | None => (anilistCache, [], MangaUpdates.required "q")
  | Some q =>
      if String.eqb q "" then (anilistCache, [], MangaUpdates.required "q") else
      let cacheKey :=
        "search:" +:+ q +:+ ":" +:+ or_default page "1" +:+ ":" +:+ or_default perPage "20" in
      match unexpired (anilistCache !! cacheKey) now CACHE_TTL with
      | Some cached => (anilistCache, [], {| status := 200; body := cached |})
      | None =>
          match listing_data (Search q page perPage) with
          | Ok data' =>
              (<[cacheKey := {| data := data'; timestamp := later |}]> anilistCache,
               [Search q page perPage], {| status := 200; body := data' |})
          | Throw _ =>
              (anilistCache, [Search q page perPage],
               MangaUpdates.failed "Failed to search AniList")
          end
      end
  end.

Definition info (now later : Z) (id : string) (anilistCache : gmap string (entry json))
  : gmap string (entry json) * list request * reply :=
  let cacheKey := "info:" +:+ id in
  match unexpired (anilistCache !! cacheKey) now CACHE_TTL with
  | Some cached => (anilistCache, [], {| status := 200; body := cached |})
  | None =>
      match info_data id with
      | Ok None =>
          (anilistCache, [Info id],
           {| status := 404; body := JObj [("error", JStr "Manga not found on AniList")] |})
      | Ok (Some data') =>
          (<[cacheKey := {| data := data'; timestamp := later |}]> anilistCache, [Info id],
           {| status := 200; body := data' |})
      | Throw _ => (anilistCache, [Info id], MangaUpdates.failed "Failed to get AniList info")
      end
  end.

Definition match_title (now later : Z) (title : option string)
    (anilistCache : gmap string (entry json))
  : gmap string (entry json) * list request * reply :=
  match title with
  | None => (anilistCache, [], MangaUpdates.required "title")
  | Some title =>
      if String.eqb title "" then (anilistCache, [], MangaUpdates.required "title") else
      let cleanTitle := Matching.cleanTitle title in
      let cacheKey := "match:" +:+ Matching.toLowerCase cleanTitle in
      match unexpired (anilistCache !! cacheKey) now CACHE_TTL with
      | Some cached => (anilistCache, [], {| status := 200; body := cached |})
      | None =>
          match match_data cleanTitle with
          | Ok None =>
              (anilistCache, [Match cleanTitle],
               {| status := 200; body := MangaUpdates.no_match |})
          | Ok (Some data') =>
              (<[cacheKey := {| data := data'; timestamp := later |}]> anilistCache,
               [Match cleanTitle], {| status := 200; body := data' |})
          | Throw _ =>
              (anilistCache, [Match cleanTitle],
               MangaUpdates.failed "Failed to match on AniList")
          end
      end
  end.

Definition trending (now later : Z) (page perPage : option string)
    (anilistCache : gmap string (entry json))
  : gmap string (entry json) * list request * reply :=
  let cacheKey := "trending:" +:+ or_default page "1" +:+ ":" +:+ or_default perPage "20" in
  match unexpired (anilistCache !! cacheKey) now CACHE_TTL with
  | Some cached => (anilistCache, [], {| status := 200; body := cached |})
  | None =>
      match listing_data (Trending page perPage) with
      | Ok data' =>
          (<[cacheKey := {| data := data'; timestamp := later |}]> anilistCache,
           [Trending page perPage], {| status := 200; body := data' |})
      | Throw _ =>
          (anilistCache, [Trending page perPage],
           MangaUpdates.failed "Failed to get trending")
      end
  end.

End Routes.

End Anilist.

(* ================================================================== *)
(** * Mgeko: the helpers and the listing routes *)
(* ================================================================== *)
Module MgekoListing.
Import JS.

(** ** [fixImageUrl] *)

Definition cdn : string := "https://imgsrv4.com/avatar/157x211".

(** [https?:\/\/(www\.)?mgeko\.cc\/media\/] anchored at the start of [s]:
    what follows the match.  Giving back the optional [s] or [www.] does not
    help, as the next character of the pattern differs from theirs. *)
Definition match_media_here (s : string) : option string :=
  match strip_prefix "http" s with
  | Some r1 =>
      let r2 := match strip_prefix "s" r1 with Some r => r | None => r1 end in
      match strip_prefix "://" r2 with
      | Some r3 =>
          let r4 := match strip_prefix "www." r3 with Some r => r | None => r3 end in
          strip_prefix "mgeko.cc/media/" r4
      | None => None
      end
  | None => None
  end.

(** [image.replace(/https?:\/\/(www\.)?mgeko\.cc\/media\//, cdn + '/media/')] *)
Fixpoint replace_media (s : string) : string :=
  match match_media_here s with
  | Some rest => cdn +:+ "/media/" +:+ rest
  | None =>
      match s with
      | EmptyString => EmptyString
      | String c s' => String c (replace_media s')
      end
  end.

Definition fixImageUrl (image : string) : string :=
  if String.eqb image "" then ""
  else if includes image "placeholder" then ""
  else if includes image "imgsrv4.com" then image
  else if includes image "mgeko.cc/media/" then replace_media image
  else if negb (startsWith image "http") then
    (if startsWith image "/" then cdn +:+ image else cdn +:+ "/" +:+ image)
  else image.

(** ** [extractChapterNumber] *)

(** The text a numeral was captured from: group 1 of the chapter pattern. *)
Definition captured (n : Mgeko.numeral) : string :=
  if String.eqb (Mgeko.fraction n) "" then Mgeko.whole n
  else Mgeko.whole n +:+ "." +:+ Mgeko.fraction n.

Definition extractChapterNumber (text : string) : string :=
  if String.eqb text "" then ""
  else match Mgeko.match_chapter text with
       | Some m => "Chapter " +:+ captured m
       | None => ""
       end.

(** ** The listings *)

(** [a || b] on strings *)
Definition or_else (a b : string) : string := if String.eqb a "" then b else a.

(** [attr || ''] *)
Definition or_empty (attr : option string) : string :=
  match attr with Some v => v | None => "" end.

(** An [li.novel-item] as the callbacks read it: the [href] and the [title]
    of its first link, the text of its [h4.novel-title] and of its
    [.novel-title], the [data-src] and the [src] of its first image, and the
    text of its first chapter title.  A text is empty when nothing is
    selected; an attribute is [None] when it is missing. *)
Record novel_item : Type := {
  href : option string;
  link_title : option string;
  h4_novel_title : string;
  novel_title : string;
  data_src : option string;
  src : option string;
  chapter_title : string
}.

(** An entry of [results], as far as it depends on the page: the other
    fields are constants of the route ([status], [isPopular], [isTrending])
    or the time of the call ([updatedAt]). *)
Record result : Type := {
  id : string;
  title : string;
  image : string;
  latestChapter : string
}.

(** [href.replace('/manga/', '').replace('/', '')] *)
Definition id_of_href (href : string) : string :=
  replace_first "/" "" (replace_first "/manga/" "" href).

(** [fixImageUrl(img.attr('data-src') || img.attr('src') || '')] *)
Definition image_of (el : novel_item) : string :=
  fixImageUrl (or_else (or_empty (data_src el)) (or_empty (src el))).

(** [$(el).find('h4.novel-title').text().trim() || $(el).find('.novel-title').text().trim()] *)
Definition title_of (el : novel_item) : string :=
  or_else (trim (h4_novel_title el)) (trim (novel_title el)).

(** [extractChapterNumber(chapterEl.text().trim()) || fallback] *)
Definition latestChapter_of (fallback : string) (el : novel_item) : string :=
  or_else (extractChapterNumber (trim (chapter_title el))) fallback.

(** [results.some((r) => r.id === id)] *)
Definition listed (results : list result) (i : string) : bool :=
  existsb (fun r => String.eqb (id r) i) results.

(** The callback of GET /latest. *)
Definition visit_latest (results : list result) (el : novel_item) : list result :=
  match href el with
  | None => results
  | Some h =>
      if String.eqb h "" then results else
      let image := image_of el in
      if String.eqb image "" then results else
      if negb (String.eqb (title_of el) "") then
        results ++ [{| id := id_of_href h; title := title_of el; image := image;
                       latestChapter := latestChapter_of "New Update" el |}]
      else results
  end.

(** The callback of GET /popular: the title falls back on the link's
    [title], and an id that is listed is not listed again. *)
Definition visit_popular (results : list result) (el : novel_item) : list result :=
  match href el with
  | None => results
  | Some h =>
      if String.eqb h "" then results else
      let id := id_of_href h in
      let title := or_else (title_of el) (or_else (or_empty (link_title el)) "") in
      let image := image_of el in
      if String.eqb image "" || String.eqb title "" then results else
      if listed results id then results else
      results ++ [{| id := id; title := title; image := image;
                     latestChapter := latestChapter_of "Latest" el |}]
  end.

(** The callback of GET /trending. *)
Definition visit_trending (results : list result) (el : novel_item) : list result :=
  match href el with
  | None => results
  | Some h =>
      if String.eqb h "" then results else
      let id := id_of_href h in
      let image := image_of el in
      if String.eqb image "" || String.eqb (title_of el) "" then results else
      if listed results id then results else
      results ++ [{| id := id; title := title_of el; image := image;
                     latestChapter := latestChapter_of "Latest" el |}]
  end.

(** The callback of GET /:query. *)
Definition visit_search (results : list result) (el : novel_item) : list result :=
  match href el with
  | None => results
  | Some h =>
      if String.eqb h "" then results else
      let image := image_of el in
      if String.eqb image "" || String.eqb (title_of el) "" then results else
      results ++ [{| id := id_of_href h; title := title_of el; image := image;
                     latestChapter := latestChapter_of "New" el |}]
  end.

Definition latest (items : list novel_item) : list result := fold_left visit_latest items [].
Definition popular (items : list novel_item) : list result := fold_left visit_popular items [].
Definition trending (items : list novel_item) : list result := fold_left visit_trending items [].
Definition search (items : list novel_item) : list result := fold_left visit_search items [].

(** ** The pages the routes ask Mgeko for; [pageNum] is [None] for NaN *)

(** [pageNum === 1 ? path : `${path}?page=${pageNum}`] *)
Definition paged (path : string) (pageNum : option Z) : string :=
  match pageNum with
  | Some 1 => path
  | _ => path +:+ "?page=" +:+ Cache.string_of_number pageNum
  end.

Definition latest_url (pageNum : option Z) : string := paged "/" pageNum.
Definition popular_url (pageNum : option Z) : string := paged "/jumbo/manga/" pageNum.

(** GET /:query *)
Definition search_url (query : string) (pageNum : option Z) : string :=
  "/search/?search=" +:+ encodeURIComponent query +:+
  match pageNum with
  | Some p => if 1 <? p then "&page=" +:+ string_of_Z p else ""
  | None => ""
  end.

(** GET /info and GET /read *)
Definition info_url (id : string) : string := "/manga/" +:+ id +:+ "/".
Definition read_url (chapterId : string) : string := "/reader/en/" +:+ chapterId +:+ "/".

(** GET /trending *)
Definition trendingTerms : list string :=
  ["martial arts"; "reincarnation"; "system"; "leveling"; "regression"].

(** [trendingTerms[(pageNum - 1) % trendingTerms.length]]; [None] is
    [undefined].  The remainder has the sign of [pageNum - 1]. *)
Definition trending_term (pageNum : option Z) : option string :=
  match pageNum with
  | Some p =>
      let termIndex := Z.rem (p - 1) (Z.of_nat (length trendingTerms)) in
      if termIndex <? 0 then None else nth_error trendingTerms (Z.to_nat termIndex)
  | None => None
  end.

(** [Math.ceil(pageNum / trendingTerms.length)] *)
Definition trending_page (p : Z) : Z := - ((- p) / Z.of_nat (length trendingTerms)).

Definition trending_url (pageNum : option Z) : string :=
  "/search/?search=" +:+
  encodeURIComponent (match trending_term pageNum with Some t => t | None => "undefined" end) +:+
  match pageNum with
  | Some p => if 1 <? p then "&page=" +:+ string_of_Z (trending_page p) else ""
  | None => ""
  end.

(** ** GET /read *)

Record img : Type := { img_src : option string; img_data_src : option string }.

Record page : Type := { page_number : Z; page_img : string }.

(** [$('img[src*="imgsrv"]')]: the images whose [src] contains imgsrv. *)
Definition reader_images (imgs : list img) : list img :=
  List.filter (fun el => match img_src el with
                         | Some s => includes s "imgsrv"
                         | None => false
                         end) imgs.

(** The callback of [.each((index, el) => ...)]. *)
Definition visit_image (pages : list page) (entry : nat * img) : list page :=
  let '(index, el) := entry in
  let img := or_else (or_empty (img_src el)) (or_empty (img_data_src el)) in
  if negb (String.eqb img "") then
    pages ++ [{| page_number := Z.of_nat index + 1; page_img := img |}]
  else pages.

Definition read_pages (imgs : list img) : list page :=
  let selected := reader_images imgs in
  fold_left visit_image (combine (seq 0 (length selected)) selected) [].

(** ** What the properties speak about *)

(** A media address of Mgeko, with or without [s] and [www.]. *)
Definition media_prefixes : list string :=
  ["https://www.mgeko.cc/media/"; "https://mgeko.cc/media/";
   "http://www.mgeko.cc/media/"; "http://mgeko.cc/media/"].

(** No media address of Mgeko starts anywhere in [s]. *)
Definition media_free (s : string) : Prop :=
  forall pre p rest, In p media_prefixes -> s <> pre +:+ p +:+ rest.

(** No media address of Mgeko starts in [s] before the end of [pre]. *)
Definition first_media_after (pre s : string) : Prop :=
  forall pre' p rest,
    In p media_prefixes -> s = pre' +:+ p +:+ rest ->
    (String.length pre <= String.length pre')%nat.

(** [digits] or [digits.digits] *)
Definition is_numeral (s : string) : Prop :=
  exists w f, s = w +:+ f /\ w <> "" /\ all_chars is_digit w = true /\
              (f = "" \/ exists d, f = "." +:+ d /\ d <> "" /\ all_chars is_digit d = true).

(** The id an item is listed under. *)
Definition href_id (el : novel_item) : string := id_of_href (or_empty (href el)).

(** The items of a page that GET /latest, /trending and /:query can list:
    those with a link, a cover and a title. *)
Definition searchable (el : novel_item) : bool :=
  match href el with
  | Some h =>
      negb (String.eqb h "") && negb (String.eqb (image_of el) "") &&
      negb (String.eqb (title_of el) "")
  | None => false
  end.

(** An entry with a title, a cover and a latest chapter. *)
Definition complete (r : result) : Prop :=
  title r <> "" /\ image r <> "" /\ latestChapter r <> "".

(** The items of a page that GET /popular can list. *)
Definition listable (el : novel_item) : bool :=
  match href el with
  | Some h =>
      negb (String.eqb h "") && negb (String.eqb (image_of el) "") &&
      negb (String.eqb (or_else (title_of el) (or_else (or_empty (link_title el)) "")) "")
  | None => false
  end.

(** Two cards of one series and a card without a cover. *)
Definition featured : list novel_item := [
  {| href := Some "/manga/solo-leveling/"; link_title := Some "Solo Leveling";
     h4_novel_title := " Solo Leveling "; novel_title := " Solo Leveling ";
     data_src := Some "/media/manga_covers/solo-leveling.jpg"; src := None;
     chapter_title := "Chapter 179 " |};
  {| href := Some "/manga/solo-leveling/"; link_title := None;
     h4_novel_title := ""; novel_title := "Solo Leveling";
     data_src := None; src := Some "https://www.mgeko.cc/media/manga_covers/solo-leveling.jpg";
     chapter_title := "" |};
  {| href := Some "/manga/the-beginning-after-the-end/"; link_title := None;
     h4_novel_title := "The Beginning After the End"; novel_title := "";
     data_src := Some "/static/img/placeholder.png"; src := None;
     chapter_title := "Chapter 200" |}
].

End MgekoListing.

(* ================================================================== *)
(** * Comix.to: the chapter list of GET /info/:id *)
(* ================================================================== *)
Module Comix.
Import JS.

Section Chapters.

(** A chapter as the API sends it and as [formatChapter] returns it.  Of a
    chapter the handler itself reads the number only: [None] stands for a
    number that is missing or null. *)
Variables raw formatted : Type.
Variable number : raw -> option Q.

(** [formatChapter] throws when [created_at] is no valid time
    ([toISOString] raises a RangeError). *)
Variable formatChapter : raw -> completion formatted.

(** ** The pages of the chapter list *)

(** What [fetchApi(`/manga/${id}/chapters?page=${page}`)] comes to for each
    page: the exception it throws, or [result?.items || []] and the value of
    [pagination?.current_page < pagination?.last_page]. *)
Variable chapters_page : Z -> completion (list raw * bool).

(** [while (hasMore && page <= 50)], entered with [hasMore] true: [budget]
    is the number of pages up to 50 that are left.  The result lists the
    pages asked for. *)
Fixpoint fetch_pages (budget : nat) (page : Z) (allChapters : list raw)
  : list Z * completion (list raw) :=
  match budget with
  | O => ([], Ok allChapters)
  | S budget' =>
      match chapters_page page with
      | Throw message => ([page], Throw message)
      | Ok (items, hasMore) =>
          let allChapters := allChapters ++ items in
          if hasMore then
            let '(asked, result) := fetch_pages budget' (page + 1) allChapters in
            (page :: asked, result)
          else ([page], Ok allChapters)
      end
  end.

Definition rawChapters : list Z * completion (list raw) := fetch_pages 50 1 [].

(** ** The versions of a chapter number *)

(** [chapter.number || 0] *)
Definition num_of (chapter : raw) : Q :=
  match number chapter with
  | Some q => if Qeq_bool q 0 then 0%Q else q
  | None => 0%Q
  end.

(** [chapterMap]: a [Map] keeps its keys in the order they were set. *)
Definition has (chapterMap : list (Q * list formatted)) (num : Q) : bool :=
  existsb (fun kv => Qeq_bool (fst kv) num) chapterMap.

Fixpoint get (chapterMap : list (Q * list formatted)) (num : Q) : option (list formatted) :=
  match chapterMap with
  | [] => None
  | (k, versions) :: rest => if Qeq_bool k num then Some versions else get rest num
  end.

(** [chapterMap.get(num)!.push(f)] *)
Fixpoint push (chapterMap : list (Q * list formatted)) (num : Q) (f : formatted)
  : list (Q * list formatted) :=
  match chapterMap with
  | [] => []
  | (k, versions) :: rest =>
      if Qeq_bool k num then (k, versions ++ [f]) :: rest
      else (k, versions) :: push rest num f
  end.

(** The body of [for (const chapter of rawChapters)]. *)
Definition group_chapter (chapterMap : list (Q * list formatted)) (chapter : raw)
  : completion (list (Q * list formatted)) :=
  let num := num_of chapter in
  let chapterMap := if has chapterMap num then chapterMap else chapterMap ++ [(num, [])] in
  match formatChapter chapter with
  | Ok f => Ok (push chapterMap num f)
  | Throw message => Throw message
  end.

Fixpoint group_chapters (chapters : list raw) (chapterMap : list (Q * list formatted))
  : completion (list (Q * list formatted)) :=
  match chapters with
  | [] => Ok chapterMap
  | chapter :: rest =>
      match group_chapter chapterMap chapter with
      | Ok chapterMap => group_chapters rest chapterMap
      | Throw message => Throw message
      end
  end.

(** [Array.from(chapterMap.keys()).sort((a, b) => b - a)] *)
Definition sortedNumbers (chapterMap : list (Q * list formatted)) : list Q :=
  Mgeko.sort_by (fun a b => b - a)%Q (map fst chapterMap).

(** An entry of [chapters]: the fields of [versions[0]] ([None] when there
    is no such version), [versions] and [hasMultipleVersions]. *)
Record entry : Type := {
  primary : option formatted;
  versions : list formatted;
  hasMultipleVersions : bool
}.

(** The callback of [sortedNumbers.map]; reading [versions[0]] of a key
    that is not in the map throws. *)
Definition entry_of (chapterMap : list (Q * list formatted)) (num : Q) : completion entry :=
  match get chapterMap num with
  | Some versions =>
      Ok {| primary := head versions; versions := versions;
            hasMultipleVersions := (1 <? Z.of_nat (length versions)) |}
  | None => Throw "TypeError: Cannot read properties of undefined (reading '0')"
  end.

Fixpoint entries_of (chapterMap : list (Q * list formatted)) (numbers : list Q)
  : completion (list entry) :=
  match numbers with
  | [] => Ok []
  | num :: rest =>
      match entry_of chapterMap num with
      | Ok e =>
          match entries_of chapterMap rest with
          | Ok es => Ok (e :: es)
          | Throw message => Throw message
          end
      | Throw message => Throw message
      end
  end.

(** The chapter numbers and the chapters of the reply, from the raw
    chapters. *)
Definition chapters (rawChapters : list raw) : completion (list Q * list entry) :=
  match group_chapters rawChapters [] with
  | Ok chapterMap =>
      let numbers := sortedNumbers chapterMap in
      match entries_of chapterMap numbers with
      | Ok es => Ok (numbers, es)
      | Throw message => Throw message
      end
  | Throw message => Throw message
  end.

(** ** What the properties speak about *)

(** The versions of the number [num], in the order of the raw chapters. *)
Definition versions_of (format : raw -> formatted) (rawChapters : list raw) (num : Q)
  : list formatted :=
  map format (List.filter (fun chapter => Qeq_bool (num_of chapter) num) rawChapters).

(** The entry of the number [num]. *)
Definition entry_for (format : raw -> formatted) (rawChapters : list raw) (num : Q) : entry :=
  {| primary := head (versions_of format rawChapters num);
     versions := versions_of format rawChapters num;
     hasMultipleVersions := (1 <? Z.of_nat (length (versions_of format rawChapters num))) |}.

(** What the loop keeps: the map has a key for the numbers of the chapters
    gone through and for no others, no key twice, and under a key the
    versions of its number in the order of the chapters. *)
Definition grouped (format : raw -> formatted) (processed : list raw) (m : list (Q * list formatted)) : Prop :=
  Mgeko.distinct (fun k : Q => k) (map fst m) /\
  forall k, get m k =
            if existsb (fun chapter => Qeq_bool (num_of chapter) k) processed
            then Some (versions_of format processed k) else None.

(** The pages [from], [from + 1], ... a loop with [budget] pages left asks
    for when no page is the last one. *)
Fixpoint pages_from (from : Z) (budget : nat) : list Z :=
  match budget with
  | O => []
  | S budget' => from :: pages_from (from + 1) budget'
  end.

(** The items of the pages of a list, one after the other; a page that
    fails has none. *)
Definition items_of (pages : list Z) : list raw :=
  flat_map (fun page => match chapters_page page with
                        | Ok (items, _) => items
                        | Throw _ => []
                        end) pages.

End Chapters.

Arguments fetch_pages {raw} chapters_page budget page allChapters.
Arguments rawChapters {raw} chapters_page.
Arguments items_of {raw} chapters_page pages.
Arguments num_of {raw} number chapter.
Arguments has {formatted} chapterMap num.
Arguments get {formatted} chapterMap num.
Arguments push {formatted} chapterMap num f.
Arguments group_chapter {raw formatted} number formatChapter chapterMap chapter.
Arguments group_chapters {raw formatted} number formatChapter chapters chapterMap.
Arguments sortedNumbers {formatted} chapterMap.
Arguments primary {formatted} e.
Arguments versions {formatted} e.
Arguments hasMultipleVersions {formatted} e.
Arguments entry_of {formatted} chapterMap num.
Arguments entries_of {formatted} chapterMap numbers.
Arguments chapters {raw formatted} number formatChapter rawChapters.
Arguments versions_of {raw formatted} number format rawChapters num.
Arguments entry_for {raw formatted} number format rawChapters num.
Arguments grouped {raw formatted} number format processed m.

(** ** An example: raw chapters are a number and the name of a group *)

Definition example_number (chapter : Z * string) : option Q :=
  Some (inject_Z (fst chapter)).

Definition example_format (chapter : Z * string) : completion string :=
  Ok (snd chapter).

(** Two pages; the first says that there is another one. *)
Definition two_pages (page : Z) : completion (list (Z * string) * bool) :=
  if page =? 1 then Ok ([(2, "Asura"); (1, "Asura")], true)
  else if page =? 2 then Ok ([(2, "Flame"); (3, "Asura")], false)
  else Throw "API error: 404".

End Comix.

(* ================================================================== *)
(** * Facts about the builtins *)
(* ================================================================== *)
Module JSFacts.
Import JS.

Lemma trimEnd_keeps_head c s :
  is_js_whitespace c = false -> exists t, trimEnd (String c s) = String c t.
Proof.
  intros Hc. simpl. destruct (trimEnd s) as [|d t].
  - rewrite Hc. now exists EmptyString.
  - now exists (String d t).
Qed.

(** [s.trim() === ''] says that [s] is blank. *)
Lemma trim_empty_blank s : String.eqb (trim s) "" = blank s.
Proof.
  unfold trim, blank. induction s as [|c s IH]; [reflexivity|].
  simpl. destruct (is_js_whitespace c) eqn:Hc; simpl; [exact IH|].
  destruct (trimEnd_keeps_head c s Hc) as [t Ht]. simpl in Ht. now rewrite Ht.
Qed.

Lemma lookup_set_prop_same k v props : lookup_prop k (set_prop k v props) = Some v.
Proof.
  induction props as [|[k' v'] rest IH]; simpl.
  - now rewrite String.eqb_refl.
  - destruct (String.eqb k k') eqn:E; simpl.
    + now rewrite String.eqb_refl.
    + now rewrite E.
Qed.

Lemma lookup_set_prop_other k k' v props :
  k' <> k -> lookup_prop k' (set_prop k v props) = lookup_prop k' props.
Proof.
  intros Hne. induction props as [|[k0 v0] rest IH]; simpl.
  - destruct (String.eqb k' k) eqn:E; [apply String.eqb_eq in E; contradiction | reflexivity].
  - destruct (String.eqb k k0) eqn:E; simpl.
    + apply String.eqb_eq in E. subst k0.
      destruct (String.eqb k' k) eqn:E'; [apply String.eqb_eq in E'; contradiction | reflexivity].
    + destruct (String.eqb k' k0); [reflexivity | exact IH].
Qed.

End JSFacts.

(* ================================================================== *)
(** * The unified routes: validators and fallback *)
(* ================================================================== *)
Module UnifiedFacts.
Import JS JSFacts Unified.

(** ** Validators *)

(** What it takes for the info validator to answer [true]. *)
Lemma isValidManhwaInfo_true data :
  isValidManhwaInfo data = Ok true <->
  exists title chapters,
    get "title" data = Some (JStr title) /\ blank title = false /\
    get "chapters" data = Some (JArr chapters) /\ chapters <> [].
Proof.
  unfold isValidManhwaInfo. split.
  - destruct (truthy (Some data)); simpl; [|discriminate].
    destruct (get "title" data) as [[| b | x | t | xs | ps]|] eqn:Ht; simpl;
      try discriminate;
      try (destruct b; discriminate);
      try (destruct (Qeq_bool x 0); discriminate).
    destruct (String.eqb t ""); simpl; [discriminate|].
    rewrite trim_empty_blank. destruct (blank t) eqn:Hb; [discriminate|].
    destruct (get "chapters" data) as [[| b | x | t' | xs | ps]|] eqn:Hc; simpl;
      try discriminate;
      try (destruct b; discriminate);
      try (destruct (Qeq_bool x 0); discriminate);
      try (destruct (String.eqb t' ""); discriminate).
    destruct xs as [|x xs]; [discriminate|]. intros _.
    exists t, (x :: xs). repeat split; auto; discriminate.
  - intros (t & cs & Ht & Hb & Hc & Hne).
    assert (Hd : truthy (Some data) = true).
    { destruct data; simpl in Ht; try discriminate. reflexivity. }
    rewrite Hd, Ht, Hc. simpl.
    assert (Hte : String.eqb t "" = false).
    { destruct t; [discriminate Hb | reflexivity]. }
    rewrite Hte. simpl. rewrite trim_empty_blank, Hb.
    destruct cs; [contradiction | reflexivity].
Qed.

Lemma isValidSearchResults_true data :
  isValidSearchResults data = true <->
  exists results, get "results" data = Some (JArr results) /\ results <> [].
Proof.
  unfold isValidSearchResults. split.
  - destruct (truthy (Some data)); simpl; [|discriminate].
    destruct (get "results" data) as [[| b | x | t | xs | ps]|]; simpl;
      try discriminate;
      try (destruct b; discriminate);
      try (destruct (Qeq_bool x 0); discriminate);
      try (destruct (String.eqb t ""); discriminate).
    destruct xs as [|x xs]; [discriminate|]. intros _.
    exists (x :: xs). split; [reflexivity | discriminate].
  - intros (rs & Hr & Hne).
    assert (Hd : truthy (Some data) = true).
    { destruct data; simpl in Hr; try discriminate. reflexivity. }
    rewrite Hd, Hr. simpl. destruct rs; [contradiction | reflexivity].
Qed.

(** On a page of the expected shape the callback of [some] does not throw,
    and it says whether the page has an image. *)
Lemma page_has_image_shaped page :
  page_shaped page ->
  (page_has_image page = Ok true /\ has_image page) \/
  (page_has_image page = Ok false /\ ~ has_image page).
Proof.
  intros [Hnull Himg]. unfold page_has_image, has_image.
  destruct Himg as [Hf | [url Hu]].
  - right. split.
    + destruct page; try contradiction; now rewrite Hf.
    + intros (url & Hu & Hb). rewrite Hu in Hf. simpl in Hf.
      destruct url; [discriminate Hb | discriminate Hf].
  - destruct (blank url) eqn:Hb.
    + right. split.
      * destruct page; try contradiction; rewrite Hu; simpl;
          destruct (String.eqb url ""); simpl; try reflexivity;
          now rewrite trim_empty_blank, Hb.
      * intros (url' & Hu' & Hb'). congruence.
    + left. split; [|now exists url].
      assert (Hne : String.eqb url "" = false) by (destruct url; [discriminate Hb | reflexivity]).
      destruct page; try contradiction; rewrite Hu; simpl; rewrite Hne; simpl;
        now rewrite trim_empty_blank, Hb.
Qed.

Lemma some_page_has_image pages :
  Forall page_shaped pages ->
  (some page_has_image pages = Ok true /\ Exists has_image pages) \/
  (some page_has_image pages = Ok false /\ ~ Exists has_image pages).
Proof.
  induction 1 as [|page pages Hp _ IH]; simpl.
  - right. split; [reflexivity|]. intros H. inversion H.
  - destruct (page_has_image_shaped page Hp) as [[-> Hi] | [-> Hn]]; simpl.
    + left. split; [reflexivity | now constructor].
    + destruct IH as [[-> He] | [-> Hne]].
      * left. split; [reflexivity | now constructor 2].
      * right. split; [reflexivity|]. intros H. inversion H; subst; contradiction.
Qed.

Lemma page_has_image_true page : page_has_image page = Ok true -> has_image page.
Proof.
  unfold page_has_image, has_image.
  assert (H : (if negb (truthy (get "img" page)) then Ok false
               else cbind (call_trim (get "img" page))
                      (fun trimmed => Ok (negb (String.eqb trimmed "")))) = Ok true ->
              exists url, get "img" page = Some (JStr url) /\ blank url = false).
  { destruct (get "img" page) as [[| b | x | t | xs | ps]|]; simpl;
      try discriminate;
      try (destruct b; discriminate);
      try (destruct (Qeq_bool x 0); discriminate).
    destruct (String.eqb t ""); simpl; [discriminate|].
    rewrite trim_empty_blank. destruct (blank t) eqn:Hb; [discriminate|].
    intros _. now exists t. }
  destruct page; try exact H. discriminate.
Qed.

Lemma some_true_has_image pages :
  some page_has_image pages = Ok true -> Exists has_image pages.
Proof.
  induction pages as [|page pages IH]; simpl; [discriminate|].
  destruct (page_has_image page) as [[|]|] eqn:Hp; simpl; try discriminate.
  - intros _. constructor. now apply page_has_image_true.
  - intros H. constructor 2. now apply IH.
Qed.

(** ** The provider loops, one step at a time *)

Lemma fetchFromProvider_run srv provider endpoint params log :
  fetchFromProvider srv provider endpoint params log =
  (log ++ [provider_url provider endpoint params],
   Ok (fetched (srv (provider_url provider endpoint params)))).
Proof. reflexivity. Qed.

Lemma info_loop_cons srv id p rest errors log :
  info_loop srv id (p :: rest) errors log =
  match fetched (srv (info_url id p)) with
  | Success data =>
      match isValidManhwaInfo data with
      | Ok true => (log ++ [info_url id p], Ok (info_success p data))
      | Ok false =>
          info_loop srv id rest
            (errors ++ [name p +:+ ": " +:+ "Invalid data (no chapters or title)"])
            (log ++ [info_url id p])
      | Throw e => (log ++ [info_url id p], Throw e)
      end
  | Failure error =>
      info_loop srv id rest (errors ++ [name p +:+ ": " +:+ error]) (log ++ [info_url id p])
  end.
Proof.
  cbn [info_loop]. unfold bind at 1. rewrite fetchFromProvider_run.
  fold (info_url id p). destruct (fetched (srv (info_url id p))) as [data|error].
  - unfold bind, lift, ret. destruct (isValidManhwaInfo data) as [[|]|]; reflexivity.
  - reflexivity.
Qed.

(** The loop stops at the first provider whose data is valid. *)
Lemma info_loop_stops srv id p post data :
  info_passes srv id p data ->
  forall pre errors log,
    Forall (info_fails srv id) pre ->
    info_loop srv id (pre ++ p :: post) errors log =
    (log ++ map (info_url id) (pre ++ [p]), Ok (info_success p data)).
Proof.
  intros [Hf Hv]. induction pre as [|q pre IH]; intros errors log Hpre.
  - simpl app. rewrite info_loop_cons, Hf, Hv. reflexivity.
  - inversion Hpre as [|? ? Hq Hrest]; subst.
    rewrite <- app_comm_cons, info_loop_cons. unfold info_fails in Hq.
    destruct (fetched (srv (info_url id q))) as [d|e].
    + rewrite Hq, IH by assumption. simpl. now rewrite <- app_assoc.
    + rewrite IH by assumption. simpl. now rewrite <- app_assoc.
Qed.

(** When every provider fails the loop runs to its end and reports one
    reason per provider, in order. *)
Lemma info_loop_exhausts srv id :
  forall providers errors log,
    Forall (info_fails srv id) providers ->
    info_loop srv id providers errors log =
    (log ++ map (info_url id) providers,
     Ok {| status := 404;
           body := JObj [("message", JStr "Manhwa not found on any provider");
                         ("errors",
                          JArr (map JStr (errors ++ map (info_reason srv id) providers)));
                         ("triedProviders", JArr (map (fun p => JStr (name p)) PROVIDERS))] |}).
Proof.
  induction providers as [|q rest IH]; intros errors log Hall.
  - simpl. now rewrite !app_nil_r.
  - inversion Hall as [|? ? Hq Hrest]; subst.
    rewrite info_loop_cons. unfold info_fails in Hq. unfold info_reason at 1.
    simpl map.
    destruct (fetched (srv (info_url id q))) as [d|e].
    + rewrite Hq, IH by assumption. now rewrite <- !app_assoc.
    + rewrite IH by assumption. now rewrite <- !app_assoc.
Qed.

Lemma results_loop_exhausts srv endpoint params pageNum :
  forall providers log,
    Forall (fun p =>
              match fetched (srv (provider_url (name p) endpoint params)) with
              | Success data => isValidSearchResults data = false
              | Failure _ => True
              end) providers ->
    results_loop srv endpoint params pageNum providers log =
    (log ++ map (fun p => provider_url (name p) endpoint params) providers,
     no_results_reply pageNum).
Proof.
  induction providers as [|q rest IH]; intros log Hall.
  - simpl. now rewrite app_nil_r.
  - inversion Hall as [|? ? Hq Hrest]; subst.
    cbn [results_loop]. unfold bind at 1. rewrite fetchFromProvider_run.
    destruct (fetched (srv (provider_url (name q) endpoint params))) as [d|e].
    + rewrite Hq, IH by assumption. simpl. now rewrite <- app_assoc.
    + rewrite IH by assumption. simpl. now rewrite <- app_assoc.
Qed.

(** The two providers are asked at different URLs. *)
Lemma info_url_distinct id p q :
  In p PROVIDERS -> In q PROVIDERS -> info_url id p = info_url id q -> p = q.
Proof.
  unfold PROVIDERS. simpl.
  intros [<- | [<- | []]] [<- | [<- | []]]; try reflexivity;
    unfold info_url, provider_url; simpl; intros H; discriminate H.
Qed.

(** ** The claims *)

(** C1. In GET /info, over the fixed list [PROVIDERS]: when the providers
    before [p] all fail (an error or data the validator rejects) and the
    data of [p] passes the info validator, exactly the providers up to and
    including [p] are asked, in order, so no later provider is invoked; the
    reply is a 200 whose [provider] field is the name of [p], whose
    [_fallback] flag is true exactly when the priority of [p] is greater
    than that of the first provider, and whose other fields are those of the
    data of [p]. *)
Theorem info_first_valid_provider_wins srv id pre p post data :
  id <> "" ->
  PROVIDERS = pre ++ p :: post ->
  Forall (info_fails srv id) pre ->
  info_passes srv id p data ->
  exists answer,
    run (info srv (Some id)) =
      (map (info_url id) (pre ++ [p]), Ok {| status := 200; body := answer |}) /\
    (forall q, In q post -> ~ In (info_url id q) (map (info_url id) (pre ++ [p]))) /\
    get "provider" answer = Some (JStr (name p)) /\
    get "_fallback" answer = Some (JBool (first_priority <? priority p)) /\
    (forall k, k <> "provider" -> k <> "_fallback" -> get k answer = get k data).
Proof.
  intros Hid Hsplit Hpre Hp.
  exists (body (info_success p data)). split; [|split; [|split; [|split]]].
  - unfold run, info. apply String.eqb_neq in Hid. rewrite Hid, Hsplit.
    now rewrite (info_loop_stops srv id p post data Hp pre [] []).
  - intros q Hq Hin. apply in_map_iff in Hin as (r & Heq & Hr).
    assert (Hrq : r = q).
    { apply (info_url_distinct id); [| | exact Heq]; rewrite Hsplit.
      - apply in_app_iff in Hr as [Hr | [<- | []]];
          apply in_or_app; [now left | right; now left].
      - apply in_or_app. right. now right. }
    subst r. clear Heq Hp Hpre. unfold PROVIDERS in Hsplit.
    destruct pre as [|a [|b pre]]; simpl in Hsplit, Hr.
    + injection Hsplit as <- <-. destruct Hr as [<- | []].
      destruct Hq as [Hq | []]. discriminate Hq.
    + injection Hsplit as <- <- <-. destruct Hq.
    + injection Hsplit as _ _ Hnil. destruct pre; discriminate Hnil.
  - simpl. rewrite lookup_set_prop_other by discriminate. apply lookup_set_prop_same.
  - simpl. apply lookup_set_prop_same.
  - intros k Hk1 Hk2. simpl. rewrite !lookup_set_prop_other by assumption.
    destruct Hp as [_ Hv]. apply isValidManhwaInfo_true in Hv as (t & cs & Ht & _).
    destruct data; try discriminate Ht. reflexivity.
Qed.

(** C1 at [first_empty_second_valid]: the second provider answers and the
    reply is flagged as a fallback. *)
Lemma info_first_valid_provider_wins_witness :
  exists answer,
    run (info first_empty_second_valid (Some "solo-leveling")) =
      (["/manhwa/manhuaplus/info?id=solo-leveling"; "/manhwa/manhuaus/info?id=solo-leveling"],
       Ok {| status := 200; body := answer |}) /\
    get "provider" answer = Some (JStr "manhuaus") /\
    get "_fallback" answer = Some (JBool true).
Proof.
  destruct (info_first_valid_provider_wins first_empty_second_valid "solo-leveling"
              [{| name := "manhuaplus"; baseUrl := "/manhwa/manhuaplus"; priority := 1 |}]
              {| name := "manhuaus"; baseUrl := "/manhwa/manhuaus"; priority := 2 |}
              []
              (JObj [("title", JStr "Solo Leveling");
                     ("chapters", JArr [JObj [("id", JStr "chapter-1")]])]))
    as (answer & Hrun & _ & Hprov & Hfb & _).
  - discriminate.
  - reflexivity.
  - repeat constructor.
  - split; reflexivity.
  - exists answer. repeat split; assumption.
Defined.

(** C2. In GET /info, when every provider errors or fails validation, the
    handler completes normally (it does not throw) with the 404 reply, whose
    [errors] array holds exactly one reason per provider, in the order of
    [PROVIDERS]. *)
Theorem info_exhausted_reports_every_provider srv id :
  id <> "" ->
  Forall (info_fails srv id) PROVIDERS ->
  run (info srv (Some id)) =
    (map (info_url id) PROVIDERS,
     Ok {| status := 404;
           body := JObj [("message", JStr "Manhwa not found on any provider");
                         ("errors", JArr (map JStr (map (info_reason srv id) PROVIDERS)));
                         ("triedProviders", JArr (map (fun p => JStr (name p)) PROVIDERS))] |})
  /\ length (map (info_reason srv id) PROVIDERS) = 2%nat.
Proof.
  intros Hid Hall. split; [|reflexivity].
  unfold run, info. apply String.eqb_neq in Hid. rewrite Hid.
  now rewrite (info_loop_exhausts srv id PROVIDERS [] []).
Qed.

(** C2 at [both_down]. *)
Lemma info_exhausted_reports_every_provider_witness :
  snd (run (info both_down (Some "solo-leveling"))) =
  Ok {| status := 404;
        body := JObj [("message", JStr "Manhwa not found on any provider");
                      ("errors", JArr [JStr "manhuaplus: Status 500";
                                       JStr "manhuaus: socket hang up"]);
                      ("triedProviders", JArr [JStr "manhuaplus"; JStr "manhuaus"])] |}.
Proof.
  destruct (info_exhausted_reports_every_provider both_down "solo-leveling") as [Hrun _].
  - discriminate.
  - repeat constructor.
  - rewrite Hrun. reflexivity.
Defined.

(** C3, as the specification states it, fails: a title of one space is not
    empty, yet the info validator rejects it. *)
Lemma info_validator_rejects_blank_title :
  ~ (forall data, isValidManhwaInfo data = Ok true <-> info_valid_as_specified data).
Proof.
  intros H.
  pose (data := JObj [("title", JStr " "); ("chapters", JArr [JObj [("id", JStr "chapter-1")]])]).
  assert (Hs : info_valid_as_specified data).
  { exists " ", [JObj [("id", JStr "chapter-1")]]. repeat split; discriminate. }
  apply H in Hs. discriminate Hs.
Qed.

(** C3 (amended). The validators are functions of the candidate alone, and:
    the info validator accepts exactly the data whose [title] is a string
    that is not blank (not empty once white space is trimmed) and whose
    [chapters] is a non-empty array; the search/latest/genre validator
    accepts exactly the data whose [results] is a non-empty array; the read
    validator accepts only a non-empty page array with a page whose [img] is
    a non-blank string, and it accepts every such array of pages of the
    expected shape (objects whose [img] is a string or falsy). *)
Theorem validators_characterised :
  (forall data,
     isValidManhwaInfo data = Ok true <->
     exists title chapters,
       get "title" data = Some (JStr title) /\ blank title = false /\
       get "chapters" data = Some (JArr chapters) /\ chapters <> []) /\
  (forall data,
     isValidSearchResults data = true <->
     exists results, get "results" data = Some (JArr results) /\ results <> []) /\
  (forall data,
     isValidChapterPages data = Ok true ->
     exists pages, data = JArr pages /\ pages <> [] /\ Exists has_image pages) /\
  (forall pages,
     Forall page_shaped pages ->
     (isValidChapterPages (JArr pages) = Ok true <-> pages <> [] /\ Exists has_image pages) /\
     (isValidChapterPages (JArr pages) = Ok false <-> ~ (pages <> [] /\ Exists has_image pages))).
Proof.
  split; [exact isValidManhwaInfo_true|].
  split; [exact isValidSearchResults_true|].
  split.
  - intros data H. destruct data as [| | | | pages |]; try discriminate H.
    destruct pages as [|page pages]; [discriminate H|].
    exists (page :: pages). repeat split; [discriminate|].
    now apply some_true_has_image.
  - intros pages Hshape. destruct pages as [|page pages].
    + simpl. split; split; try discriminate; tauto.
    + change (isValidChapterPages (JArr (page :: pages)))
        with (some page_has_image (page :: pages)).
      destruct (some_page_has_image (page :: pages) Hshape) as [[-> He] | [-> Hn]].
      * assert (Hyes : page :: pages <> [] /\ Exists has_image (page :: pages))
          by (split; [discriminate | exact He]).
        split; split; try discriminate; tauto.
      * split; split; try discriminate; tauto.
Qed.

(** C3 on two pages, the second of which has an image. *)
Lemma validators_characterised_witness :
  isValidChapterPages
    (JArr [JObj [("page", JNum 1); ("img", JStr "")];
           JObj [("page", JNum 2); ("img", JStr "https://img.example/2.jpg")]]) = Ok true.
Proof.
  destruct (proj2 (proj2 (proj2 validators_characterised))
              [JObj [("page", JNum 1); ("img", JStr "")];
               JObj [("page", JNum 2); ("img", JStr "https://img.example/2.jpg")]])
    as [[_ Hyes] _].
  - constructor; [split; [discriminate | left; reflexivity]|].
    constructor; [split; [discriminate | right; eexists; reflexivity]|].
    constructor.
  - apply Hyes. split; [discriminate|]. constructor 2. constructor.
    now exists "https://img.example/2.jpg".
Defined.

(** The boundary case of the specification: a title with no chapter is
    invalid, with one chapter it is valid. *)
Example validator_boundary :
  isValidManhwaInfo (JObj [("title", JStr "Foo"); ("chapters", JArr [])]) = Ok false /\
  isValidManhwaInfo (JObj [("title", JStr "Foo"); ("chapters", JArr [JObj []])]) = Ok true.
Proof. split; reflexivity. Qed.

(** C10. In GET /search, /latest, /genre/:slug and /advanced-search, when
    no provider has a valid result the handler replies 200 with an empty
    [results], [hasNextPage] false and [provider] the first provider's name;
    the body has no [errors] field. *)
Theorem exhausted_results_are_an_empty_page srv :
  (forall query page,
     query <> "" ->
     no_results srv ("/" +:+ encodeURIComponent query) [("page", page_or_1 page)] ->
     snd (run (search srv (Some query) page)) =
     Ok {| status := 200; body := empty_page (page_or_1 page) |}) /\
  (forall page,
     no_results srv "/latest" [("page", page_or_1 page)] ->
     snd (run (latest srv page)) = Ok {| status := 200; body := empty_page (page_or_1 page) |}) /\
  (forall slug page,
     no_results srv ("/genre/" +:+ encodeURIComponent slug) [("page", page_or_1 page)] ->
     snd (run (genre srv slug page)) =
     Ok {| status := 200; body := empty_page (page_or_1 page) |}) /\
  (forall query page status sort genres,
     no_results srv "/advanced-search"
       (param_if_set "query" query ++ param_if_set "page" page ++
        param_if_set "status" status ++ param_if_set "sort" sort ++
        param_if_set "genres" genres) ->
     snd (run (advanced_search srv query page status sort genres)) =
     Ok {| status := 200; body := empty_page (page_or_1 page) |}) /\
  (forall pageNum,
     get "results" (empty_page pageNum) = Some (JArr []) /\
     get "hasNextPage" (empty_page pageNum) = Some (JBool false) /\
     (exists first rest, PROVIDERS = first :: rest /\
                         get "provider" (empty_page pageNum) = Some (JStr (name first))) /\
     get "errors" (empty_page pageNum) = None).
Proof.
  repeat split.
  - intros query page Hq Hnone. unfold run, search.
    apply String.eqb_neq in Hq. rewrite Hq.
    now rewrite (results_loop_exhausts _ _ _ _ PROVIDERS [] Hnone).
  - intros page Hnone. unfold run, latest.
    now rewrite (results_loop_exhausts _ _ _ _ PROVIDERS [] Hnone).
  - intros slug page Hnone. unfold run, genre.
    now rewrite (results_loop_exhausts _ _ _ _ PROVIDERS [] Hnone).
  - intros query page status sort genres Hnone. unfold run, advanced_search.
    now rewrite (results_loop_exhausts _ _ _ _ PROVIDERS [] Hnone).
  - now exists {| name := "manhuaplus"; baseUrl := "/manhwa/manhuaplus"; priority := 1 |},
               [{| name := "manhuaus"; baseUrl := "/manhwa/manhuaus"; priority := 2 |}].
Qed.

(** C10 at [nothing_found], for GET /latest?page=3. *)
Lemma exhausted_results_are_an_empty_page_witness :
  snd (run (latest nothing_found (Some "3"))) =
  Ok {| status := 200;
        body := JObj [("currentPage", JNum 3); ("hasNextPage", JBool false);
                      ("results", JArr []); ("provider", JStr "manhuaplus")] |}.
Proof.
  apply (proj1 (proj2 (exhausted_results_are_an_empty_page nothing_found)) (Some "3")).
  repeat constructor.
Defined.

End UnifiedFacts.

(* ================================================================== *)
(** * The transport: retry and backoff *)
(* ================================================================== *)
Module TransportFacts.
Import JS Transport.

Section Loop.
Variables (net : network) (url : string) (N base t : Z).

Local Abbreviation loop := (retry_loop net url N base t).

(** Attempts below [N] that fail are each followed by their wait, and the
    loop goes on with the attempts that remain. *)
Lemma retry_loop_skip attempts rest :
  (forall k, In k attempts -> k < N /\ exists e, net k = inl e) ->
  forall lastError log,
    exists lastError',
      loop (attempts ++ rest) lastError log =
      loop rest lastError'
        (log ++ flat_map (fun k => [Get k url t; Sleep (base * 2 ^ (k - 1))]) attempts).
Proof.
  induction attempts as [|k attempts IH]; intros Hfail lastError log.
  - exists lastError. simpl. now rewrite app_nil_r.
  - destruct (Hfail k (or_introl eq_refl)) as [Hk [e He]].
    assert (Hlt : (k <? N) = true) by now apply Z.ltb_lt.
    destruct (IH (fun j Hj => Hfail j (or_intror Hj)) (Some e)
                (log ++ [Get k url t; Sleep (base * 2 ^ (k - 1))])) as [le Hle].
    exists le. simpl. rewrite He, Hlt. rewrite <- !app_assoc in *. simpl in *. exact Hle.
Qed.

(** The log only grows. *)
Lemma retry_loop_extends attempts :
  forall lastError log, exists more, fst (loop attempts lastError log) = log ++ more.
Proof.
  induction attempts as [|k attempts IH]; intros lastError log; simpl.
  - exists []. now rewrite app_nil_r.
  - destruct (net k) as [e|data].
    + destruct (IH (Some e) (if k <? N then (log ++ [Get k url t]) ++ [Sleep (base * 2 ^ (k - 1))]
                             else log ++ [Get k url t])) as [more Hmore].
      rewrite Hmore. destruct (k <? N); rewrite <- ?app_assoc; eauto.
    + eauto.
Qed.

(** The attempts made are an initial segment of the attempts planned. *)
Lemma retry_loop_attempts attempts :
  forall lastError log,
    exists n, attempts_made (fst (loop attempts lastError log)) =
              attempts_made log ++ firstn n attempts.
Proof.
  induction attempts as [|k attempts IH]; intros lastError log; simpl.
  - exists 0%nat. now rewrite app_nil_r.
  - destruct (net k) as [e|data].
    + destruct (IH (Some e) (if k <? N then (log ++ [Get k url t]) ++ [Sleep (base * 2 ^ (k - 1))]
                             else log ++ [Get k url t])) as [n Hn].
      exists (S n). rewrite Hn. unfold attempts_made.
      destruct (k <? N); rewrite !flat_map_app; simpl; rewrite <- ?app_assoc; reflexivity.
    + exists 1%nat. cbn [fst]. unfold attempts_made. rewrite flat_map_app. reflexivity.
Qed.

(** The loop never reads the errors: it behaves alike on networks that fail
    at the same attempts. *)
Lemma retry_loop_same_failures net' attempts :
  same_failures net net' ->
  forall lastError lastError' log,
    fst (loop attempts lastError log) = fst (retry_loop net' url N base t attempts lastError' log).
Proof.
  intros Hsame. induction attempts as [|k attempts IH]; intros le le' log; simpl.
  - reflexivity.
  - specialize (Hsame k). destruct (net k), (net' k); try contradiction.
    + apply IH.
    + reflexivity.
Qed.

End Loop.

Lemma in_attempt_numbers n k : In k (attempt_numbers n) <-> 1 <= k <= n.
Proof.
  unfold attempt_numbers. rewrite in_map_iff. split.
  - intros (i & <- & Hi). apply in_seq in Hi. lia.
  - intros Hk. exists (Z.to_nat k). split; [lia|]. apply in_seq. lia.
Qed.

Lemma attempt_numbers_split n k :
  1 <= k <= n ->
  attempt_numbers n =
  attempt_numbers (k - 1) ++ k :: map Z.of_nat (seq (S (Z.to_nat k)) (Z.to_nat (n - k))).
Proof.
  intros Hk. unfold attempt_numbers.
  replace (Z.to_nat n) with (Z.to_nat (k - 1) + S (Z.to_nat (n - k)))%nat by lia.
  rewrite seq_app, map_app. f_equal. simpl. f_equal; [lia|].
  f_equal. f_equal. lia.
Qed.

Lemma attempt_numbers_last n :
  1 <= n -> attempt_numbers n = attempt_numbers (n - 1) ++ [n].
Proof.
  intros Hn. rewrite (attempt_numbers_split n n) by lia.
  now replace (Z.to_nat (n - n)) with 0%nat by lia.
Qed.

Lemma attempts_made_backoff url base t n :
  attempts_made (backoff url base t n) = attempt_numbers n.
Proof.
  unfold backoff, attempts_made. induction (attempt_numbers n) as [|k l IH]; simpl; congruence.
Qed.

Lemma waits_made_backoff url base t n :
  waits_made (backoff url base t n) = map (fun k => base * 2 ^ (k - 1)) (attempt_numbers n).
Proof.
  unfold backoff, waits_made. induction (attempt_numbers n) as [|k l IH]; simpl; congruence.
Qed.

(** The first success at attempt [k]: the attempts before it each wait, and
    the call resolves. *)
Lemma fetchWithRetry_succeeds net url opts k data :
  let N := or_default (maxRetries opts) 3 in
  let base := or_default (retryDelay opts) 1000 in
  let t := or_default (timeout opts) 30000 in
  1 <= k <= N -> all_fail net (k - 1) -> net k = inr data ->
  fetchWithRetry net url opts = (backoff url base t (k - 1) ++ [Get k url t], Resolved data).
Proof.
  intros N base t Hk Hfail Hok. unfold fetchWithRetry. fold N base t.
  rewrite (attempt_numbers_split N k Hk).
  destruct (retry_loop_skip net url N base t (attempt_numbers (k - 1))
              (k :: map Z.of_nat (seq (S (Z.to_nat k)) (Z.to_nat (N - k))))) with (lastError := @None error) (log := @nil event)
    as [le Hle].
  - intros j Hj. apply in_attempt_numbers in Hj. split; [lia | apply Hfail; lia].
  - rewrite Hle. simpl. now rewrite Hok.
Qed.

(** Every attempt fails: the last attempt is not followed by a wait, and the
    call rejects with the last error. *)
Lemma fetchWithRetry_gives_up net url opts e :
  let N := or_default (maxRetries opts) 3 in
  let base := or_default (retryDelay opts) 1000 in
  let t := or_default (timeout opts) 30000 in
  1 <= N -> all_fail net N -> net N = inl e ->
  fetchWithRetry net url opts = (backoff url base t (N - 1) ++ [Get N url t], Rejected e).
Proof.
  intros N base t HN Hfail Hlast. unfold fetchWithRetry. fold N base t.
  rewrite (attempt_numbers_last N HN).
  destruct (retry_loop_skip net url N base t (attempt_numbers (N - 1)) [N])
    with (lastError := @None error) (log := @nil event) as [le Hle].
  - intros j Hj. apply in_attempt_numbers in Hj. split; [lia | apply Hfail; lia].
  - rewrite Hle. simpl. rewrite Hlast, Z.ltb_irrefl. reflexivity.
Qed.

(** ** The claims *)

(** C4. [fetchWithRetry] makes at most [N] attempts, [N] being
    [maxRetries] (3 by default).  When attempt [k] is the first to succeed,
    the attempts before it were each followed by a wait of exactly
    [base * 2^(j-1)] milliseconds ([base] being [retryDelay], 1000 by
    default) and the call resolves; when all [N] attempts fail, the first
    [N - 1] are each followed by that wait, the last one is followed by no
    wait, and the call rejects with the last error. *)
Theorem fetchWithRetry_backoff net url opts :
  let N := or_default (maxRetries opts) 3 in
  let base := or_default (retryDelay opts) 1000 in
  let t := or_default (timeout opts) 30000 in
  or_default (maxRetries no_options) 3 = 3 /\
  or_default (retryDelay no_options) 1000 = 1000 /\
  Z.of_nat (length (attempts_made (fst (fetchWithRetry net url opts)))) <= Z.max N 0 /\
  (forall k data,
     1 <= k <= N -> all_fail net (k - 1) -> net k = inr data ->
     fetchWithRetry net url opts =
     (backoff url base t (k - 1) ++ [Get k url t], Resolved data)) /\
  (forall e,
     1 <= N -> all_fail net N -> net N = inl e ->
     fetchWithRetry net url opts =
       (backoff url base t (N - 1) ++ [Get N url t], Rejected e) /\
     attempts_made (fst (fetchWithRetry net url opts)) = attempt_numbers N /\
     waits_made (fst (fetchWithRetry net url opts)) =
       map (fun k => base * 2 ^ (k - 1)) (attempt_numbers (N - 1))).
Proof.
  intros N base t. split; [reflexivity|]. split; [reflexivity|]. split; [|split].
  - unfold fetchWithRetry. fold N base t.
    destruct (retry_loop_attempts net url N base t (attempt_numbers N) None []) as [n Hn].
    rewrite Hn. simpl. rewrite length_firstn. unfold attempt_numbers.
    rewrite length_map, length_seq. lia.
  - apply fetchWithRetry_succeeds.
  - intros e HN Hfail Hlast.
    rewrite (fetchWithRetry_gives_up net url opts e HN Hfail Hlast). fold N base t.
    split; [reflexivity|]. cbn [fst]. split.
    + unfold attempts_made. rewrite flat_map_app.
      fold (attempts_made (backoff url base t (N - 1))).
      rewrite attempts_made_backoff. now rewrite (attempt_numbers_last N HN).
    + unfold waits_made. rewrite flat_map_app.
      fold (waits_made (backoff url base t (N - 1))).
      rewrite waits_made_backoff. simpl. now rewrite app_nil_r.
Qed.

(** C4 with the default options against a server that always times out:
    waits of 1000 and 2000 milliseconds, and none after the third attempt. *)
Lemma fetchWithRetry_backoff_witness :
  fetchWithRetry always_times_out "https://www.mgeko.cc/jumbo/manga/" no_options =
  ([Get 1 "https://www.mgeko.cc/jumbo/manga/" 30000; Sleep 1000;
    Get 2 "https://www.mgeko.cc/jumbo/manga/" 30000; Sleep 2000;
    Get 3 "https://www.mgeko.cc/jumbo/manga/" 30000],
   Rejected {| message := "timeout of 30000ms exceeded"; response_status := None |}).
Proof.
  apply (proj2 (proj2 (proj2 (proj2
           (fetchWithRetry_backoff always_times_out "https://www.mgeko.cc/jumbo/manga/"
              no_options))))
           {| message := "timeout of 30000ms exceeded"; response_status := None |}).
  - simpl. lia.
  - intros k _. eexists. reflexivity.
  - reflexivity.
Defined.

(** C5, as the specification states it, fails: a 404 on the first attempt is
    followed by a second and a third attempt. *)
Lemma not_found_is_retried :
  ~ (forall net url opts, stops_at_non_transient net (fst (fetchWithRetry net url opts))).
Proof.
  intros H.
  apply (H always_404 "https://www.mgeko.cc/manga/gone/" no_options 1
           {| message := "Request failed with status code 404"; response_status := Some 404 |}).
  - simpl. now left.
  - reflexivity.
  - reflexivity.
  - simpl. right. now left.
Qed.

(** C5 (amended). [fetchWithRetry] retries every failure alike: whenever
    attempts [1] to [k] have failed and [k] is below the number of attempts
    [N], attempt [k + 1] is made, whatever the errors were (a non-transient
    HTTP status such as 404 included); what the function does depends on the
    errors only through which attempts fail. *)
Theorem every_failure_is_retried net url opts :
  let N := or_default (maxRetries opts) 3 in
  (forall k,
     1 <= k < N -> all_fail net k ->
     In (k + 1) (attempts_made (fst (fetchWithRetry net url opts)))) /\
  (forall net',
     same_failures net net' ->
     fst (fetchWithRetry net url opts) = fst (fetchWithRetry net' url opts)).
Proof.
  intros N. split.
  - intros k Hk Hfail. unfold fetchWithRetry. fold N.
    set (base := or_default (retryDelay opts) 1000).
    set (t := or_default (timeout opts) 30000).
    rewrite (attempt_numbers_split N (k + 1)) by lia.
    replace (k + 1 - 1) with k by lia.
    set (later := map Z.of_nat (seq (S (Z.to_nat (k + 1))) (Z.to_nat (N - (k + 1))))).
    destruct (retry_loop_skip net url N base t (attempt_numbers k) ((k + 1) :: later))
      with (lastError := @None error) (log := @nil event) as [le Hle].
    { intros j Hj. apply in_attempt_numbers in Hj. split; [lia | apply Hfail; lia]. }
    rewrite Hle. cbn [retry_loop app].
    set (log := flat_map _ _ ++ [Get (k + 1) url t]).
    assert (Hin : In (k + 1) (attempts_made log)).
    { unfold log, attempts_made. rewrite flat_map_app. apply in_or_app. right. now left. }
    destruct (net (k + 1)) as [e|data]; [|exact Hin].
    destruct (retry_loop_extends net url N base t later (Some e)
                (if k + 1 <? N then log ++ [Sleep (base * 2 ^ (k + 1 - 1))] else log))
      as [more Hmore].
    rewrite Hmore. unfold attempts_made. rewrite flat_map_app. apply in_or_app. left.
    fold (attempts_made (if k + 1 <? N then log ++ [Sleep (base * 2 ^ (k + 1 - 1))] else log)).
    destruct (k + 1 <? N); [|exact Hin].
    unfold attempts_made. rewrite flat_map_app. apply in_or_app. now left.
  - intros net' Hsame. unfold fetchWithRetry. apply retry_loop_same_failures. exact Hsame.
Qed.

(** C5 at [always_404]: the second attempt is made. *)
Lemma every_failure_is_retried_witness :
  In 2 (attempts_made (fst (fetchWithRetry always_404 "https://www.mgeko.cc/manga/gone/"
                              no_options))).
Proof.
  apply (proj1 (every_failure_is_retried always_404 "https://www.mgeko.cc/manga/gone/"
                  no_options) 1).
  - simpl. lia.
  - intros k _. eexists. reflexivity.
Defined.

End TransportFacts.

(* ================================================================== *)
(** * The render service: timeouts and page cleanup *)
(* ================================================================== *)
Module BrowserFacts.
Import JS Browser.

(** Case analysis on every call the world may reject. *)
Ltac by_world w :=
  repeat match goal with
         | |- context [rejects w ?c] => destruct (rejects w c) eqn:?; cbn
         end.

Ltac run_scrape :=
  unfold scrapeDynamic, getCleanPage, try_finally, bind, launch, await, ret; cbn.

(** Once the page is open, the last call is the closing of the page,
    whatever failed in between. *)
Lemma scrapeDynamic_closes w url selector timeout st :
  page_opens w st ->
  exists calls,
    log (fst (scrapeDynamic w url selector timeout st)) = log st ++ calls /\
    List.last calls Launch = ClosePage.
Proof.
  intros [Hlaunch Hnew]. run_scrape.
  destruct (browser st) eqn:Hb; cbn.
  - rewrite Hnew. cbn.
    destruct selector as [sel|]; [destruct (String.eqb sel "")|]; cbn;
      by_world w; rewrite <- ?app_assoc; cbn; eexists; split; reflexivity.
  - rewrite (Hlaunch eq_refl). cbn. rewrite Hnew. cbn.
    destruct selector as [sel|]; [destruct (String.eqb sel "")|]; cbn;
      by_world w; rewrite <- ?app_assoc; cbn; eexists; split; reflexivity.
Qed.

Lemma marker_only_selector :
  only_selector_times_out marker_never_appears ".chapter-list"
    "TimeoutError: Waiting for selector failed: 15000ms exceeded".
Proof.
  split; [reflexivity|]. intros c Hc. destruct c; try reflexivity. cbn.
  destruct (String.eqb selector ".chapter-list") eqn:Hs; [|reflexivity].
  destruct (timeout =? 15000) eqn:Ht; [|reflexivity].
  apply String.eqb_eq in Hs. apply Z.eqb_eq in Ht. subst. contradiction.
Qed.

(** ** The claim *)

(** C6, as the specification states it, fails: when the wait for the
    selector times out, the call rejects instead of returning the content. *)
Lemma selector_timeout_rejects : ~ selector_timeout_non_fatal.
Proof.
  intros H.
  specialize (H marker_never_appears "https://comix.to/title/x" ".chapter-list" None
                "TimeoutError: Waiting for selector failed: 15000ms exceeded" fresh).
  assert (Hne : ".chapter-list" <> "") by discriminate.
  specialize (H Hne marker_only_selector). discriminate H.
Qed.

(** C6 (amended). In [scrapeDynamic], a timeout of the wait for the
    caller-supplied selector is fatal, just as a navigation timeout is: the
    call rejects with that error and the content of the page is never read.
    On every exit path on which the page was opened, the closing of the page
    is the last call made. *)
Theorem scrapeDynamic_timeouts_are_fatal w url timeout st :
  (forall selector e,
     selector <> "" -> only_selector_times_out w selector e ->
     snd (scrapeDynamic w url (Some selector) timeout st) = Throw e /\
     exists calls,
       log (fst (scrapeDynamic w url (Some selector) timeout st)) = log st ++ calls /\
       ~ In Content calls /\ List.last calls Launch = ClosePage) /\
  (forall selector e,
     page_opens w st ->
     rejects w (SetUserAgent userAgent) = None ->
     rejects w (SetViewport 1920 1080) = None ->
     rejects w (Goto url "networkidle2" (match timeout with Some t => t | None => 20000 end))
       = Some e ->
     rejects w ClosePage = None ->
     snd (scrapeDynamic w url selector timeout st) = Throw e) /\
  (forall selector,
     page_opens w st ->
     exists calls,
       log (fst (scrapeDynamic w url selector timeout st)) = log st ++ calls /\
       List.last calls Launch = ClosePage).
Proof.
  split; [|split].
  - intros selector e Hne [Hsel Hothers]. apply String.eqb_neq in Hne.
    run_scrape. rewrite Hne. cbn.
    rewrite !Hothers by discriminate. rewrite Hsel.
    destruct (browser st); cbn; rewrite !Hothers by discriminate; cbn;
      (split; [reflexivity|]); rewrite <- ?app_assoc; cbn;
      eexists; (split; [reflexivity|]); (split; [|reflexivity]);
      cbn; intuition discriminate.
  - intros selector e [Hlaunch Hnew] Hua Hvp Hgoto Hclose. run_scrape.
    destruct (browser st) eqn:Hb; cbn; rewrite ?(Hlaunch eq_refl); cbn;
      rewrite Hnew; cbn; rewrite Hua; cbn; rewrite Hvp; cbn; rewrite Hgoto; cbn;
      rewrite Hclose; reflexivity.
  - intros selector Hopen. now apply scrapeDynamic_closes.
Qed.

(** C6 at [marker_never_appears]. *)
Lemma scrapeDynamic_timeouts_are_fatal_witness :
  snd (scrapeDynamic marker_never_appears "https://comix.to/title/x" (Some ".chapter-list")
         None fresh)
  = Throw "TimeoutError: Waiting for selector failed: 15000ms exceeded".
Proof.
  apply (proj1 (scrapeDynamic_timeouts_are_fatal marker_never_appears
                  "https://comix.to/title/x" None fresh) ".chapter-list").
  - discriminate.
  - exact marker_only_selector.
Defined.

End BrowserFacts.

(* ================================================================== *)
(** * The TTL caches *)
(* ================================================================== *)
Module CacheFacts.
Import JS Cache.

Lemma unexpired_hit {A} (cached : option (entry A)) now ttl e :
  cached = Some e -> now - timestamp e < ttl -> unexpired cached now ttl = Some (data e).
Proof.
  intros -> Hlt. unfold unexpired. apply Z.ltb_lt in Hlt. now rewrite Hlt.
Qed.

Lemma unexpired_some {A} (cached : option (entry A)) now ttl x :
  unexpired cached now ttl = Some x -> exists e, cached = Some e /\ data e = x.
Proof.
  unfold unexpired. destruct cached as [e|]; [|discriminate].
  destruct (now - timestamp e <? ttl); [|discriminate].
  intros [= <-]. now exists e.
Qed.

(** *** Comix.to *)

Lemma fetchApi_hit upstream now later endpoint (cache : gmap string (entry json)) e :
  cache !! endpoint = Some e -> now - timestamp e < COMIX_CACHE_TTL ->
  fetchApi upstream now later endpoint cache = (cache, [], Ok (data e)).
Proof.
  intros He Hlt. unfold fetchApi. now rewrite (unexpired_hit _ _ _ e He Hlt).
Qed.

Lemma fetchApi_failure upstream now later endpoint (cache cache' : gmap string (entry json))
    calls message :
  fetchApi upstream now later endpoint cache = (cache', calls, Throw message) ->
  cache' = cache.
Proof.
  unfold fetchApi. destruct (unexpired _ _ _); [intros [= <- _]; reflexivity|].
  destruct (upstream endpoint) as [m|ok status [d|m]]; try destruct ok; cbn;
    intros H; inversion H; reflexivity.
Qed.

(** After a call that resolved, the key holds the payload it resolved to. *)
Lemma fetchApi_stored upstream now later endpoint (cache cache' : gmap string (entry json))
    calls payload :
  fetchApi upstream now later endpoint cache = (cache', calls, Ok payload) ->
  exists e, cache' !! endpoint = Some e /\ data e = payload /\
            (calls <> [] -> cache' = <[endpoint := {| data := payload; timestamp := later |}]> cache).
Proof.
  unfold fetchApi. destruct (unexpired _ _ _) as [x|] eqn:Hu.
  - intros [= <- <- <-]. apply unexpired_some in Hu as (e & He & Hd).
    exists e. repeat split; auto. intros H. now contradiction H.
  - destruct (upstream endpoint) as [m|ok status [d|m]]; try destruct ok; cbn;
      intros H; inversion H; subst.
    eexists. rewrite lookup_insert_eq. repeat split; reflexivity.
Qed.

(** *** MangaUpdates *)
Section MangaUpdates.
Variable formatSeriesInfo : json -> completion json.
Variable getSeriesById : string -> option json.

Local Abbreviation mu_info := (Cache.mu_info formatSeriesInfo getSeriesById).

Lemma mu_info_hit now later id (muCache : gmap string (entry json)) e :
  muCache !! ("mu-info:" +:+ id) = Some e -> now - timestamp e < MU_CACHE_TTL ->
  mu_info now later id muCache = (muCache, [], {| status := 200; body := data e |}).
Proof.
  intros He Hlt. unfold Cache.mu_info. now rewrite (unexpired_hit _ _ _ e He Hlt).
Qed.

Lemma mu_info_cases now later id (muCache muCache' : gmap string (entry json)) calls r :
  mu_info now later id muCache = (muCache', calls, r) ->
  (status r <> 200 /\ muCache' = muCache) \/
  (status r = 200 /\
   exists e, muCache' !! ("mu-info:" +:+ id) = Some e /\ data e = body r /\
             (calls <> [] ->
              muCache' = <["mu-info:" +:+ id := {| data := body r; timestamp := later |}]> muCache)).
Proof.
  unfold Cache.mu_info. destruct (unexpired _ _ _) as [x|] eqn:Hu.
  - intros [= <- <- <-]. right. split; [reflexivity|].
    apply unexpired_some in Hu as (e & He & Hd). exists e. repeat split; auto.
    intros H. now contradiction H.
  - destruct (getSeriesById id) as [series|].
    + destruct (negb (truthy (Some series))).
      * intros [= <- <- <-]. left. split; [discriminate | reflexivity].
      * destruct (formatSeriesInfo series) as [d|m]; intros [= <- <- <-].
        -- right. split; [reflexivity|]. eexists. rewrite lookup_insert_eq.
           repeat split; reflexivity.
        -- left. split; [discriminate | reflexivity].
    + intros [= <- <- <-]. left. split; [discriminate | reflexivity].
Qed.

End MangaUpdates.

(** *** Mgeko genres *)

Lemma genre_hit scrape now later slug page (genreCache : gmap string (entry (list json))) e :
  genreCache !! genre_key slug page = Some e -> now - timestamp e < GENRE_CACHE_TTL ->
  genre scrape now later slug page genreCache =
  (genreCache, [], {| status := 200;
                      body := genre_body (genre_pageNum page) slug (data e) true |}).
Proof.
  intros He Hlt. unfold genre. now rewrite (unexpired_hit _ _ _ e He Hlt).
Qed.

Lemma genre_cases scrape now later slug page
    (genreCache genreCache' : gmap string (entry (list json))) calls r :
  genre scrape now later slug page genreCache = (genreCache', calls, r) ->
  (status r <> 200 /\ genreCache' = genreCache) \/
  (status r = 200 /\
   exists e, genreCache' !! genre_key slug page = Some e /\
             get "results" (body r) = Some (JArr (data e)) /\
             (calls <> [] ->
              genreCache' = <[genre_key slug page := {| data := data e; timestamp := later |}]>
                              genreCache)).
Proof.
  unfold genre. destruct (unexpired _ _ _) as [x|] eqn:Hu.
  - intros [= <- <- <-]. right. split; [reflexivity|].
    apply unexpired_some in Hu as (e & He & <-). exists e. repeat split; auto.
    intros H. now contradiction H.
  - destruct (scrape _) as [results|m]; intros [= <- <- <-].
    + right. split; [reflexivity|]. eexists. rewrite lookup_insert_eq.
      repeat split; reflexivity.
    + left. split; [discriminate | reflexivity].
Qed.

(** ** The claim *)

Lemma nonempty_eqb q : q <> "" -> String.eqb q "" = false.
Proof. destruct q; [intros H; now elim H | reflexivity]. Qed.

Lemma unexpired_inserted {A} (cache : gmap string (entry A)) key v later now ttl :
  now - later < ttl ->
  unexpired (<[key := {| data := v; timestamp := later |}]> cache !! key) now ttl = Some v.
Proof.
  intros Hlt. rewrite lookup_insert_eq.
  now apply (unexpired_hit _ _ _ {| data := v; timestamp := later |}).
Qed.

(** The three parts of the contract, for a handler whose lookup is in
    sight. *)
Ltac hit := intros now later cache e He Hlt; rewrite (unexpired_hit _ _ _ e He Hlt); reflexivity.
Tactic Notation "miss" constr(work) "as" simple_intropattern(exits) :=
  intros now later cache Hu; rewrite Hu;
  destruct work as exits; eexists; (split; [reflexivity|]);
  cbn; intros v Hv; now inversion Hv.
Tactic Notation "again" constr(work) "as" simple_intropattern(exits) :=
  intros now later cache v now' later' Hu Hv Hlt; rewrite Hu;
  destruct work as exits; cbn in Hv; try discriminate; inversion Hv; subst;
  cbn [fst]; now rewrite (unexpired_inserted _ _ _ _ _ _ Hlt).



End CacheFacts.

(* ================================================================== *)
(** * The chapter lists of the adapters *)
(* ================================================================== *)
Module MgekoFacts.
Import JS Mgeko.

Local Open Scope Q_scope.

(** ** Sorting by a numeric key, descending *)
Section Sorting.
Context {A : Type} (key : A -> Q).

Local Abbreviation compare := (fun a b : A => key b - key a).
Local Abbreviation descending := (Mgeko.descending key).
Local Abbreviation distinct := (Mgeko.distinct key).

Lemma compare_le x y : Qle_bool (compare x y) 0 = true <-> key y <= key x.
Proof. rewrite Qle_bool_iff. split; intros H; lra. Qed.

Lemma Forall_insert_by (P : A -> Prop) x l :
  Forall P (insert_by compare x l) <-> P x /\ Forall P l.
Proof.
  induction l as [|y l IH]; simpl.
  - split; [intros H; inversion H; auto | intros [Hx _]; auto].
  - destruct (Qle_bool (key y - key x) 0).
    + split; [intros H; inversion H; auto | intros [Hx Hl]; auto].
    + split.
      * intros H. inversion H as [|? ? Hy Hrest]; subst.
        apply IH in Hrest as [Hx Hl]. auto.
      * intros [Hx Hl]. inversion Hl as [|? ? Hy Hrest]; subst.
        constructor; [assumption | apply IH; auto].
Qed.

Lemma Forall_sort_by (P : A -> Prop) l : Forall P (sort_by compare l) <-> Forall P l.
Proof.
  induction l as [|x l IH]; simpl; [tauto|].
  rewrite Forall_insert_by, IH. split.
  - intros [Hx Hl]. now constructor.
  - intros H. now inversion H.
Qed.

Lemma insert_by_descending x l : descending l -> descending (insert_by compare x l).
Proof.
  unfold Mgeko.descending. induction l as [|y l IH]; intros Hl; simpl.
  - repeat constructor.
  - destruct (Qle_bool (key y - key x) 0) eqn:Hc.
    + apply compare_le in Hc. inversion Hl as [|? ? Hrest Hy]; subst.
      constructor; [assumption|]. constructor; [assumption|].
      rewrite Forall_forall in *. intros a Ha. specialize (Hy a Ha). cbn in Hy. lra.
    + assert (Hxy : key x <= key y).
      { destruct (Qlt_le_dec (key x) (key y)) as [Hlt | Hle]; [lra|].
        apply compare_le in Hle. congruence. }
      inversion Hl as [|? ? Hrest Hy]; subst.
      constructor; [now apply IH|]. apply Forall_insert_by. auto.
Qed.

Lemma sort_by_descending l : descending (sort_by compare l).
Proof.
  induction l as [|x l IH]; simpl; [constructor | now apply insert_by_descending].
Qed.

Lemma insert_by_distinct x l : distinct (x :: l) -> distinct (insert_by compare x l).
Proof.
  induction l as [|y l IH]; intros [Hx Hl]; simpl.
  - auto.
  - destruct (Qle_bool (key y - key x) 0); [simpl; auto|].
    destruct Hl as [Hy Hl]. inversion Hx as [|? ? Hyx Hx']; subst. simpl. split.
    + apply Forall_insert_by. split; [|assumption]. intros H. apply Hyx. now symmetry.
    + apply IH. simpl. auto.
Qed.

Lemma sort_by_distinct l : distinct l -> distinct (sort_by compare l).
Proof.
  induction l as [|x l IH]; intros Hd; simpl; [exact I|].
  destruct Hd as [Hx Hl]. apply insert_by_distinct. simpl. split; [|auto].
  now apply Forall_sort_by.
Qed.

Lemma distinct_snoc l x :
  distinct l -> Forall (fun a => ~ key a == key x) l -> distinct (l ++ [x]).
Proof.
  induction l as [|y l IH]; intros Hd Hx; simpl; [auto|].
  destruct Hd as [Hy Hl]. inversion Hx as [|? ? Hyx Hx']; subst. split.
  - apply Forall_app. split; [assumption|]. constructor; [|constructor].
    intros H. apply Hyx. now symmetry.
  - now apply IH.
Qed.

(** Descending with distinct keys is strictly descending. *)
Lemma descending_distinct_strict l :
  descending l -> distinct l -> StronglySorted (fun a b => key b < key a) l.
Proof.
  unfold Mgeko.descending. induction l as [|x l IH]; intros Hs Hd; [constructor|].
  inversion Hs as [|? ? Hrest Hx]; subst. destruct Hd as [Hne Hl].
  constructor; [auto|].
  rewrite Forall_forall in *. intros a Ha.
  specialize (Hx a Ha). specialize (Hne a Ha).
  destruct (Qlt_le_dec (key a) (key x)) as [Hlt | Hle]; [assumption|].
  exfalso. apply Hne. lra.
Qed.

Lemma in_insert_by x y l : In y (insert_by compare x l) <-> y = x \/ In y l.
Proof.
  induction l as [|z l IH]; simpl.
  - intuition.
  - destruct (Qle_bool (key z - key x) 0); simpl; [intuition|].
    rewrite IH. intuition.
Qed.

Lemma in_sort_by y l : In y (sort_by compare l) <-> In y l.
Proof.
  induction l as [|x l IH]; simpl; [tauto|].
  rewrite in_insert_by, IH. intuition.
Qed.

End Sorting.

(** ** Doubles *)

(** [binary64] on numbers whose doubles are known: 1 and 5.5 are doubles;
    0.1 is not; [2 ^ 53 + 1] is a tie and goes to the even neighbour; 1e400
    overflows and 1e-400 underflows; 1.00000000000000001 parses to 1. *)
Lemma binary64_examples :
  binary64 1 = 1%Q /\
  binary64 (1 # 10) = (3602879701896397 # 36028797018963968)%Q /\
  binary64 (inject_Z (2 ^ 53 + 1)) = inject_Z (2 ^ 53) /\
  binary64 (inject_Z (2 ^ 53 + 3)) = inject_Z (2 ^ 53 + 4) /\
  binary64 (inject_Z (10 ^ 400)) = Infinity /\
  binary64 (1 # Z.to_pos (10 ^ 400)) = 0%Q /\
  parseFloat {| whole := "5"; fraction := "50" |} = (11 # 2)%Q /\
  parseFloat {| whole := "1"; fraction := "00000000000000001" |} = 1%Q /\
  parseInt "9007199254740993" = inject_Z 9007199254740992.
Proof. repeat split; now vm_compute. Qed.

(** ** Collecting: one entry per chapter number *)

Lemma has_iff seen x : has seen x = true <-> exists y, In y seen /\ x == y.
Proof.
  unfold has. rewrite existsb_exists. split; intros (y & Hy & Hxy); exists y;
    (split; [assumption|]); now apply Qeq_bool_iff.
Qed.

Lemma has_compat seen x y : x == y -> has seen x = has seen y.
Proof.
  intros Hxy. destruct (has seen y) eqn:Hy.
  - apply has_iff in Hy as (z & Hz & Hyz). apply has_iff. exists z. split; [assumption|].
    now rewrite Hxy.
  - destruct (has seen x) eqn:Hx; [|reflexivity].
    apply has_iff in Hx as (z & Hz & Hxz).
    assert (Hy' : has seen y = true).
    { apply has_iff. exists z. split; [assumption|]. now rewrite <- Hxy. }
    congruence.
Qed.

Lemma visit_li_listed state item : visit_li state item = visit listed state item.
Proof.
  destruct state as [chapters seen]. unfold visit_li, visit, listed.
  destruct (href item) as [h|]; [|reflexivity].
  destruct (String.eqb h "" || negb (includes h "/reader/en/")); [reflexivity|].
  destruct (match_chapter (chapterId_of h)) as [m|]; [|reflexivity].
  destruct (Qeq_bool (parseFloat m) 0); reflexivity.
Qed.

Lemma visit_anchor_linked state href : visit_anchor state href = visit linked state href.
Proof.
  destruct state as [chapters seen]. unfold visit_anchor, visit, linked.
  destruct href as [h|]; [|reflexivity].
  destruct (String.eqb h "" || negb (includes h "/reader/en/")); [reflexivity|].
  destruct (match_chapter_int (chapterId_of h)) as [digits|]; [|reflexivity].
  destruct (Qeq_bool (parseInt digits) 0); reflexivity.
Qed.

Lemma fold_left_ext {S X} (f g : S -> X -> S) :
  (forall s x, f s x = g s x) -> forall l s, fold_left f l s = fold_left g l s.
Proof.
  intros Hfg. induction l as [|x l IH]; intros s; simpl; [reflexivity|].
  now rewrite Hfg, IH.
Qed.

Lemma visit_collects {X} (candidate : X -> option chapter) items :
  forall state,
    seen_exactly state -> distinct chapterNumber (fst state) ->
    let state' := fold_left (visit candidate) items state in
    seen_exactly state' /\
    distinct chapterNumber (fst state') /\
    (forall c, In c (fst state) -> In c (fst state')) /\
    (forall item c,
       In item items -> candidate item = Some c ->
       exists c', In c' (fst state') /\ chapterNumber c' == chapterNumber c) /\
    (forall c,
       In c (fst state') ->
       In c (fst state) \/ exists item, In item items /\ candidate item = Some c).
Proof.
  induction items as [|item items IH]; intros state Hseen Hdist; simpl.
  - split; [exact Hseen|]. split; [exact Hdist|]. split; [auto|]. split; [|auto].
    intros item c [].
  - set (state1 := visit candidate state item).
    assert (H1 : seen_exactly state1 /\ distinct chapterNumber (fst state1) /\
                 (forall c, In c (fst state) -> In c (fst state1)) /\
                 (forall c, candidate item = Some c ->
                            exists c', In c' (fst state1) /\ chapterNumber c' == chapterNumber c) /\
                 (forall c, In c (fst state1) -> In c (fst state) \/ candidate item = Some c)).
    { unfold state1, visit. destruct (candidate item) as [c|] eqn:Hc.
      - destruct (has (snd state) (chapterNumber c)) eqn:Hhas.
        + split; [exact Hseen|]. split; [exact Hdist|]. split; [auto|]. split; [|auto].
          intros c0 [= <-]. now apply Hseen.
        + cbn [fst snd]. split; [|split; [|split; [|split]]].
          * intros x. split.
            -- intros Hx. cbn in Hx. apply orb_true_iff in Hx as [Hx | Hx].
               ++ apply Qeq_bool_iff in Hx. exists c.
                  split; [apply in_or_app; right; now left | apply Qeq_sym; exact Hx].
               ++ apply Hseen in Hx as (c0 & Hc0 & Heq). exists c0. split; [|assumption].
                  apply in_or_app. now left.
            -- intros (c0 & Hc0 & Heq). cbn. apply orb_true_iff.
               apply in_app_or in Hc0 as [Hc0 | [<- | []]].
               ++ right. apply Hseen. now exists c0.
               ++ left. apply Qeq_bool_iff. apply Qeq_sym. exact Heq.
          * apply distinct_snoc; [assumption|]. apply List.Forall_forall. intros a Ha Heq.
            assert (Hyes : has (snd state) (chapterNumber c) = true).
            { apply Hseen. exists a. split; assumption. }
            congruence.
          * intros c0 Hc0. apply in_or_app. now left.
          * intros c0 [= <-]. exists c. split; [apply in_or_app; right; now left | reflexivity].
          * intros c0 Hc0. apply in_app_or in Hc0 as [Hc0 | [<- | []]]; auto.
      - split; [exact Hseen|]. split; [exact Hdist|]. split; [auto|]. split; [|auto].
        intros c0 [=]. }
    destruct H1 as (Hseen1 & Hdist1 & Hmono1 & Hitem1 & Hfrom1).
    destruct (IH state1 Hseen1 Hdist1) as (Hs & Hd & Hmono & Hall & Hfrom).
    split; [|split; [|split; [|split]]].
    + exact Hs.
    + exact Hd.
    + auto.
    + intros it c [<- | Hin] Hc.
      * destruct (Hitem1 c Hc) as (c' & Hc' & Heq). exists c'. auto.
      * eapply Hall; eauto.
    + intros c Hc. destruct (Hfrom c Hc) as [Hc1 | (it & Hit & Hcand)].
      * destruct (Hfrom1 c Hc1) as [H0 | Hcand]; [now left|].
        right. exists item. split; [now left | assumption].
      * right. exists it. split; [now right | assumption].
Qed.

Lemma seen_exactly_start : seen_exactly ([], []).
Proof.
  intros x. split; [discriminate|]. intros (c & [] & _).
Qed.

(** The reply's chapter list, whichever page it was read from. *)
Lemma info_chapters_strict all_chapters main_page :
  strictly_descending (info_chapters all_chapters main_page).
Proof.
  unfold strictly_descending, info_chapters.
  apply descending_distinct_strict; [apply sort_by_descending|].
  apply sort_by_distinct. destruct all_chapters as [items|].
  - rewrite (fold_left_ext _ _ visit_li_listed).
    apply (visit_collects listed items ([], []) seen_exactly_start I).
  - rewrite (fold_left_ext _ _ visit_anchor_linked).
    apply (visit_collects linked main_page ([], []) seen_exactly_start I).
Qed.

Lemma visit_keeps {X} (candidate : X -> option chapter) items :
  forall state c,
    In c (fst state) -> In c (fst (fold_left (visit candidate) items state)).
Proof.
  induction items as [|item items IH]; intros state c Hc; simpl; [assumption|].
  apply IH. unfold visit. destruct (candidate item) as [c0|]; [|assumption].
  destruct (has (snd state) (chapterNumber c0)); [assumption|].
  cbn [fst]. apply in_or_app. now left.
Qed.

(** Of the candidates with one number, the first is the one kept. *)
Lemma visit_keeps_first {X} (candidate : X -> option chapter) pre item post c :
  candidate item = Some c ->
  (forall it c', In it pre -> candidate it = Some c' ->
                 ~ chapterNumber c' == chapterNumber c) ->
  In c (fst (fold_left (visit candidate) (pre ++ item :: post) ([], []))).
Proof.
  intros Hc Hpre. rewrite fold_left_app. cbn [fold_left].
  destruct (visit_collects candidate pre ([], []) seen_exactly_start I)
    as (Hseen & _ & _ & _ & Hfrom).
  set (state1 := fold_left (visit candidate) pre ([], [])) in *.
  apply visit_keeps. unfold visit. rewrite Hc.
  destruct (has (snd state1) (chapterNumber c)) eqn:Hhas.
  - exfalso. apply Hseen in Hhas as (c' & Hc' & Heq).
    destruct (Hfrom c' Hc') as [[] | (it & Hit & Hcand)].
    now apply (Hpre it c' Hit Hcand).
  - cbn [fst]. apply in_or_app. right. now left.
Qed.

End MgekoFacts.

Module MangadexFacts.
Import JS Mangadex.

Lemma seen_label l (seen : list string) : existsb (String.eqb l) seen = true <-> In l seen.
Proof.
  rewrite existsb_exists. split.
  - intros (x & Hx & Heq). apply String.eqb_eq in Heq. now subst.
  - intros H. exists l. split; [assumption | apply String.eqb_refl].
Qed.

(** The loop keeps the first feed element of each label that was not seen
    before. *)
Lemma collect_first_of_each now feed :
  forall chapters (seenChapters : gset string) (seen : list string),
    (forall l, l ∈ seenChapters <-> In l seen) ->
    collect now feed chapters seenChapters =
    chapters ++ map (fun p => entry_of now (fst p) (snd p)) (first_of_each feed seen).
Proof.
  induction feed as [|c feed IH]; intros chapters seenChapters seen Hseen; simpl.
  - now rewrite app_nil_r.
  - unfold labelled. destruct (chapter c) as [l|]; [|now apply IH].
    destruct (String.eqb l ""); simpl; [now apply IH|].
    destruct (bool_decide_reflect (l ∈ seenChapters)) as [Hin | Hnot].
    + apply Hseen, seen_label in Hin. rewrite Hin. now apply IH.
    + assert (Hno : existsb (String.eqb l) seen = false).
      { destruct (existsb (String.eqb l) seen) eqn:E; [|reflexivity].
        apply seen_label, Hseen in E. contradiction. }
      rewrite Hno. simpl. rewrite (IH _ ({[l]} ∪ seenChapters) (l :: seen)).
      * now rewrite <- app_assoc.
      * intros l'. rewrite elem_of_union, elem_of_singleton, Hseen. simpl.
        split; intros [H | H]; auto.
Qed.

Lemma first_of_each_labelled feed :
  forall seen p, In p (first_of_each feed seen) ->
                 In (fst p) feed /\ labelled (fst p) = Some (snd p) /\ ~ In (snd p) seen.
Proof.
  induction feed as [|c feed IH]; intros seen p Hp; simpl in Hp; [contradiction|].
  destruct (labelled c) as [l|] eqn:Hl.
  - destruct (existsb (String.eqb l) seen) eqn:E.
    + destruct (IH _ _ Hp) as (H1 & H2 & H3). repeat split; auto. now right.
    + destruct Hp as [<- | Hp].
      * simpl. repeat split; auto. intros H. apply seen_label in H. congruence.
      * destruct (IH _ _ Hp) as (H1 & H2 & H3). repeat split; auto; [now right|].
        intros H. apply H3. now right.
  - destruct (IH _ _ Hp) as (H1 & H2 & H3). repeat split; auto. now right.
Qed.

Lemma first_of_each_nodup feed :
  forall seen, List.NoDup (map snd (first_of_each feed seen)).
Proof.
  induction feed as [|c feed IH]; intros seen; simpl; [constructor|].
  destruct (labelled c) as [l|]; [|apply IH].
  destruct (existsb (String.eqb l) seen); [apply IH|].
  simpl. constructor; [|apply IH].
  intros Hin. apply in_map_iff in Hin as (p & Hp & Hin).
  apply first_of_each_labelled in Hin as (_ & _ & Hnot). apply Hnot. rewrite Hp. now left.
Qed.

Lemma first_of_each_sublist feed :
  forall seen, sublist (map fst (first_of_each feed seen)) feed.
Proof.
  induction feed as [|c feed IH]; intros seen; simpl; [constructor|].
  destruct (labelled c) as [l|]; [|constructor; apply IH].
  destruct (existsb (String.eqb l) seen); [constructor; apply IH|].
  simpl. constructor. apply IH.
Qed.

Lemma first_of_each_complete feed :
  forall seen c l,
    In c feed -> labelled c = Some l ->
    In l seen \/ In l (map snd (first_of_each feed seen)).
Proof.
  induction feed as [|c0 feed IH]; intros seen c l Hc Hl; simpl in *; [contradiction|].
  destruct Hc as [-> | Hc].
  - rewrite Hl. destruct (existsb (String.eqb l) seen) eqn:E.
    + left. now apply seen_label.
    + right. simpl. now left.
  - destruct (labelled c0) as [l0|].
    + destruct (existsb (String.eqb l0) seen).
      * eapply IH; eauto.
      * destruct (IH (l0 :: seen) c l Hc Hl) as [[<- | H] | H]; simpl; auto.
    + eapply IH; eauto.
Qed.

(** The element kept for a label is the first one that carries it. *)
Lemma first_of_each_first pre c post l :
  forall seen,
    labelled c = Some l ->
    (forall c', In c' pre -> labelled c' <> Some l) ->
    ~ In l seen ->
    In (c, l) (first_of_each (pre ++ c :: post) seen).
Proof.
  induction pre as [|c0 pre IH]; intros seen Hl Hpre Hseen; simpl.
  - rewrite Hl. destruct (existsb (String.eqb l) seen) eqn:E.
    + apply seen_label in E. contradiction.
    + now left.
  - assert (Hrest : forall c', In c' pre -> labelled c' <> Some l)
      by (intros c' Hc'; apply Hpre; now right).
    destruct (labelled c0) as [l0|] eqn:Hl0; [|now apply IH].
    destruct (existsb (String.eqb l0) seen); [now apply IH|].
    right. apply IH; auto. intros [<- | H]; [|contradiction].
    apply (Hpre c0); [now left | assumption].
Qed.

End MangadexFacts.

(* ================================================================== *)
(** * The stream relay: playlist rewriting *)
(* ================================================================== *)
Module ProxyFacts.
Import JS Proxy.

(** ** Strings *)

Local Arguments String.append !s1 s2 : simpl nomatch.

Lemma all_chars_app p s t : all_chars p (s +:+ t) = all_chars p s && all_chars p t.
Proof.
  induction s as [|c s IH]; simpl; [reflexivity|]. now rewrite IH, andb_assoc.
Qed.

Lemma strip_prefix_app p : forall s r t,
  strip_prefix p s = Some r -> strip_prefix p (s +:+ t) = Some (r +:+ t).
Proof.
  induction p as [|a p IH]; intros s r t; simpl.
  - now intros [= ->].
  - destruct s as [|b s]; [discriminate|]. simpl.
    destruct (Ascii.eqb a b); [apply IH | discriminate].
Qed.

Lemma strip_prefix_app_none p : forall s t,
  one_line p = true -> after_line t ->
  strip_prefix p s = None -> strip_prefix p (s +:+ t) = None.
Proof.
  induction p as [|a p IH]; intros s t Hp Ht; simpl; [discriminate|].
  unfold one_line in Hp. simpl in Hp. apply andb_true_iff in Hp as [Ha Hp].
  destruct s as [|b s]; simpl.
  - intros _. destruct Ht as [-> | [t' ->]]; [reflexivity|].
    destruct (Ascii.eqb a LF) eqn:E; [|reflexivity].
    apply Ascii.eqb_eq in E. subst a. discriminate Ha.
  - destruct (Ascii.eqb a b); [now apply IH | reflexivity].
Qed.

Lemma startsWith_strip s : forall p,
  startsWith s p = true -> exists r, strip_prefix p s = Some r /\ s = p +:+ r.
Proof.
  induction s as [|b s IH]; intros [|a p]; simpl; try discriminate.
  - intros _. now exists "".
  - intros _. now exists (String b s).
  - destruct (Ascii.eqb a b) eqn:E; [|discriminate]. simpl. intros H.
    apply Ascii.eqb_eq in E. subst b.
    destruct (IH p H) as (r & Hr & ->). now exists r.
Qed.

Lemma not_startsWith_strip s : forall p, startsWith s p = false -> strip_prefix p s = None.
Proof.
  induction s as [|b s IH]; intros [|a p]; simpl; try discriminate; auto.
  destruct (Ascii.eqb a b); simpl; [apply IH | reflexivity].
Qed.

Lemma not_terminator_not_LF c : is_line_terminator c = false -> member c [LF] = false.
Proof.
  unfold is_line_terminator, member. simpl. intros H.
  apply orb_false_iff in H as [-> _]. reflexivity.
Qed.

(** ** The matcher on one line *)

Lemma match_many_cons excluded rest prev c s :
  match_at (ManyNoneOf excluded :: rest) prev (String c s) =
  if member c excluded then match_at rest prev (String c s)
  else match match_at (ManyNoneOf excluded :: rest) (Some c) s with
       | Some m => Some (String c m)
       | None => match_at rest prev (String c s)
       end.
Proof. reflexivity. Qed.

Lemma match_many_nil excluded rest prev :
  match_at (ManyNoneOf excluded :: rest) prev "" = match_at rest prev "".
Proof. reflexivity. Qed.

Lemma match_literal text rest prev s :
  match_at (Literal text :: rest) prev s =
  match strip_prefix text s with
  | Some s' => option_map (String.append text) (match_at rest (last_char text prev) s')
  | None => None
  end.
Proof. reflexivity. Qed.

(** [[^\n]*] followed by [$] takes the rest of the line. *)
Lemma match_rest_of_line s : forall prev t,
  one_line s = true -> after_line t ->
  match_at [ManyNoneOf [LF]; LineEnd] prev (s +:+ t) = Some s.
Proof.
  induction s as [|c s IH]; intros prev t Hs Ht.
  - simpl String.append. destruct Ht as [-> | [t' ->]]; reflexivity.
  - unfold one_line in Hs. simpl in Hs. apply andb_true_iff in Hs as [Hc Hs].
    apply negb_true_iff in Hc.
    simpl String.append. rewrite match_many_cons, (not_terminator_not_LF c Hc).
    now rewrite (IH (Some c) t Hs Ht).
Qed.

Section Extension.
Variable ext : string.
Hypothesis ext_not_empty : ext <> "".
Hypothesis ext_one_line : one_line ext = true.

Local Abbreviation after_first := [ManyNoneOf [LF]; Literal ext; ManyNoneOf [LF]; LineEnd].

(** Without the extension on the line there is no match. *)
Lemma no_match_without_extension s : forall prev t,
  one_line s = true -> after_line t -> includes s ext = false ->
  match_at after_first prev (s +:+ t) = None.
Proof using ext_not_empty ext_one_line.
  induction s as [|c s IH]; intros prev t Hs Ht Hinc.
  - simpl String.append. destruct Ht as [-> | [t' ->]].
    + rewrite match_many_nil, match_literal.
      destruct ext; [contradiction | reflexivity].
    + rewrite match_many_cons. change (member LF [LF]) with true. cbv iota.
      rewrite match_literal.
      assert (Hnone : strip_prefix ext ("" +:+ String LF t') = None).
      { apply strip_prefix_app_none; [assumption | right; now exists t' |].
        destruct ext; [contradiction | reflexivity]. }
      simpl in Hnone. now rewrite Hnone.
  - unfold one_line in Hs. simpl in Hs. apply andb_true_iff in Hs as [Hc Hs].
    apply negb_true_iff in Hc.
    simpl in Hinc. apply orb_false_iff in Hinc as [Hstart Hinc].
    simpl String.append. rewrite match_many_cons, (not_terminator_not_LF c Hc).
    rewrite (IH (Some c) t Hs Ht Hinc). rewrite match_literal.
    change (String c (s +:+ t)) with (String c s +:+ t).
    rewrite (strip_prefix_app_none ext (String c s) t ext_one_line Ht); [reflexivity|].
    now apply not_startsWith_strip.
Qed.

(** With the extension on the line the match is the whole line. *)
Lemma match_with_extension s : forall prev t,
  one_line s = true -> after_line t -> includes s ext = true ->
  match_at after_first prev (s +:+ t) = Some s.
Proof using ext_not_empty ext_one_line.
  induction s as [|c s IH]; intros prev t Hs Ht Hinc.
  - simpl in Hinc. destruct ext; [contradiction | discriminate].
  - assert (Hall := Hs).
    unfold one_line in Hs. simpl in Hs. apply andb_true_iff in Hs as [Hc Hs].
    apply negb_true_iff in Hc.
    simpl String.append. rewrite match_many_cons, (not_terminator_not_LF c Hc).
    destruct (includes s ext) eqn:Hrest.
    + now rewrite (IH (Some c) t Hs Ht eq_refl).
    + rewrite (no_match_without_extension s (Some c) t Hs Ht Hrest).
      simpl in Hinc. rewrite Hrest, orb_false_r in Hinc.
      destruct (startsWith_strip (String c s) ext Hinc) as (r & Hr & Heq).
      rewrite match_literal.
      change (String c (s +:+ t)) with (String c s +:+ t).
      rewrite (strip_prefix_app ext (String c s) r t Hr).
      assert (Hr1 : one_line r = true).
      { unfold one_line in *. rewrite Heq, all_chars_app in Hall.
        now apply andb_true_iff in Hall. }
      rewrite (match_rest_of_line r _ t Hr1 Ht). simpl. now rewrite Heq.
Qed.

(** At the start of a line the pattern matches exactly the entry lines, and
    then the whole line. *)
Lemma match_line line prev t :
  one_line line = true -> after_line t -> at_line_start prev = true ->
  match_at (line_with ext) prev (line +:+ t) =
  if entry_line ext line then Some line else None.
Proof using ext_not_empty ext_one_line.
  intros Hl Ht Hprev. unfold line_with.
  cbn [match_at]. rewrite Hprev. destruct line as [|c rest].
  - simpl. destruct Ht as [-> | [t' ->]]; reflexivity.
  - simpl String.append. unfold entry_line.
    destruct (member c ["#"%char; LF]); [reflexivity|]. simpl negb. rewrite andb_true_l.
    unfold one_line in Hl. simpl in Hl. apply andb_true_iff in Hl as [_ Hrest].
    fold (match_at after_first).
    destruct (includes rest ext) eqn:Hinc.
    + now rewrite (match_with_extension rest (Some c) t Hrest Ht Hinc).
    + now rewrite (no_match_without_extension rest (Some c) t Hrest Ht Hinc).
Qed.

Lemma no_match_inside prev s :
  at_line_start prev = false -> match_at (line_with ext) prev s = None.
Proof. intros H. unfold line_with. cbn [match_at]. now rewrite H. Qed.

(** ** The scan over the lines of a playlist *)
Variable f : string -> string.

Local Abbreviation scan := (replace_scan (line_with ext) f).

Lemma scan_skip m : forall prev s,
  scan (String.length m) prev (m +:+ s) = scan 0 (last_char m prev) s.
Proof.
  induction m as [|c m IH]; intros prev s; [reflexivity|].
  simpl. apply IH.
Qed.

Lemma last_char_inside s : forall prev,
  one_line s = true -> at_line_start prev = false ->
  at_line_start (last_char s prev) = false.
Proof.
  induction s as [|c s IH]; intros prev Hs Hprev; simpl; [assumption|].
  unfold one_line in Hs. simpl in Hs. apply andb_true_iff in Hs as [Hc Hs].
  apply IH; [assumption|]. simpl. now apply negb_true_iff.
Qed.

(** Inside a line nothing matches: the rest of the line is copied. *)
Lemma scan_inside s : forall prev t,
  one_line s = true -> at_line_start prev = false ->
  scan 0 prev (s +:+ String LF t) = s +:+ String LF (scan 0 (Some LF) t).
Proof.
  induction s as [|c s IH]; intros prev t Hs Hprev.
  - simpl String.append. cbn [replace_scan]. now rewrite (no_match_inside prev _ Hprev).
  - unfold one_line in Hs. simpl in Hs. apply andb_true_iff in Hs as [Hc Hs].
    simpl String.append. cbn [replace_scan].
    rewrite (no_match_inside prev _ Hprev). f_equal.
    apply IH; [assumption|]. simpl. now apply negb_true_iff.
Qed.

Lemma scan_line line prev t :
  one_line line = true -> at_line_start prev = true ->
  scan 0 prev (line +:+ String LF t) =
  (if entry_line ext line then f line else line) +:+ String LF (scan 0 (Some LF) t).
Proof using ext_not_empty ext_one_line.
  intros Hl Hprev.
  assert (Ht : after_line (String LF t)) by (right; now exists t).
  assert (Hm := match_line line prev (String LF t) Hl Ht Hprev).
  destruct (entry_line ext line) eqn:He.
  - destruct line as [|c rest]; [discriminate He|].
    unfold one_line in Hl. cbn [all_chars] in Hl. apply andb_true_iff in Hl as [Hc Hrest].
    apply negb_true_iff in Hc.
    change (String c rest +:+ String LF t) with (String c (rest +:+ String LF t)) in *.
    cbn [replace_scan]. rewrite Hm. cbn [String.length]. rewrite scan_skip. f_equal.
    assert (Hlast : at_line_start (last_char rest (Some c)) = false)
      by (apply last_char_inside; assumption).
    cbn [replace_scan]. now rewrite (no_match_inside _ _ Hlast).
  - destruct line as [|c rest].
    + change ("" +:+ String LF t) with (String LF t) in *.
      cbn [replace_scan]. now rewrite Hm.
    + unfold one_line in Hl. cbn [all_chars] in Hl. apply andb_true_iff in Hl as [Hc Hrest].
      apply negb_true_iff in Hc.
      change (String c rest +:+ String LF t) with (String c (rest +:+ String LF t)) in *.
      cbn [replace_scan]. rewrite Hm.
      change (String c rest +:+ String LF (scan 0 (Some LF) t))
        with (String c (rest +:+ String LF (scan 0 (Some LF) t))).
      f_equal. now apply scan_inside.
Qed.

Lemma scan_lines ls : forall prev,
  Forall (fun l => one_line l = true) ls -> at_line_start prev = true ->
  scan 0 prev (lines_of ls) = lines_of (map (fun l => if entry_line ext l then f l else l) ls).
Proof using ext_not_empty ext_one_line.
  induction ls as [|l ls IH]; intros prev Hls Hprev.
  - simpl. unfold line_with. cbn [match_at]. now rewrite Hprev.
  - inversion Hls as [|? ? Hl Hrest]; subst. simpl lines_of.
    rewrite (scan_line l prev _ Hl Hprev). f_equal. f_equal. now apply IH.
Qed.

End Extension.

(** ** The relay URL is one line *)

Lemma percent_encode_one_line c rest : one_line (percent_encode c rest) = one_line rest.
Proof.
  destruct c as [[] [] [] [] [] [] [] []]; vm_compute; reflexivity.
Qed.

Lemma unreserved_not_terminator c : uri_unreserved c = true -> is_line_terminator c = false.
Proof.
  destruct c as [[] [] [] [] [] [] [] []]; vm_compute; congruence.
Qed.

Lemma encodeURIComponent_one_line s : one_line (encodeURIComponent s) = true.
Proof.
  induction s as [|c s IH]; [reflexivity|]. simpl.
  destruct (uri_unreserved c) eqn:Hc.
  - unfold one_line in *. simpl. now rewrite (unreserved_not_terminator c Hc), IH.
  - now rewrite percent_encode_one_line.
Qed.

Lemma proxied_one_line baseUrl referer matched :
  one_line (proxied baseUrl referer matched) = true.
Proof.
  unfold proxied, one_line. rewrite !all_chars_app.
  fold (one_line (encodeURIComponent
                    (if startsWith matched "http" then matched else baseUrl +:+ matched))).
  rewrite encodeURIComponent_one_line.
  destruct referer as [r|]; [destruct (String.eqb r "")|]; try reflexivity.
  rewrite all_chars_app. fold (one_line (encodeURIComponent r)).
  now rewrite encodeURIComponent_one_line.
Qed.

(** ** The playlist, line by line *)

(** On a playlist of lines ended by line feeds (and free of carriage
    returns), the handler rewrites line by line. *)
Lemma rewrite_playlist_lines url referer ls :
  Forall (fun l => one_line l = true) ls ->
  rewrite_playlist url referer (lines_of ls) = lines_of (map (rewrite_line url referer) ls).
Proof.
  intros Hls. unfold rewrite_playlist, replace_all. fold (directory url).
  set (relay := proxied (directory url) referer).
  rewrite (scan_lines ".m3u8" ltac:(discriminate) eq_refl relay ls None Hls eq_refl).
  assert (Hls1 : Forall (fun l => one_line l = true)
                   (map (fun l => if entry_line ".m3u8" l then relay l else l) ls)).
  { induction Hls as [|l ls Hl _ IH]; simpl; constructor; [|exact IH].
    destruct (entry_line ".m3u8" l); [apply proxied_one_line | exact Hl]. }
  rewrite (scan_lines ".ts" ltac:(discriminate) eq_refl relay _ None Hls1 eq_refl).
  rewrite map_map. reflexivity.
Qed.

(** A relative entry that only one of the patterns takes for an entry is
    relayed as the specification says. *)
Lemma rewrite_line_relayed url referer line :
  startsWith line "http" = false ->
  (entry_line ".ts" line = true /\ entry_line ".m3u8" line = false) \/
  (entry_line ".m3u8" line = true /\
   entry_line ".ts" (relayed_entry url referer line) = false) ->
  rewrite_line url referer line = relayed_entry url referer line.
Proof.
  intros Hrel H. unfold rewrite_line.
  assert (Hp : proxied (directory url) referer line = relayed_entry url referer line).
  { unfold proxied, relayed_entry. now rewrite Hrel. }
  destruct H as [[Hts Hm] | [Hm Hts]]; rewrite Hm.
  - now rewrite Hts.
  - rewrite Hp. now rewrite Hts.
Qed.

(** A variant entry whose relay URL contains [.ts] after its first character
    is taken up by the second [replace] as well, and relayed twice. *)
Lemma rewrite_line_twice url referer line :
  entry_line ".m3u8" line = true ->
  entry_line ".ts" (proxied (directory url) referer line) = true ->
  rewrite_line url referer line =
  proxied (directory url) referer (proxied (directory url) referer line).
Proof. intros Hm Hts. unfold rewrite_line. now rewrite Hm, Hts. Qed.

(** The example of the specification: a relative segment is resolved against
    the directory of the fetch URL and relayed with the referer attached;
    comment lines, blank lines and absolute entries are treated as
    expected. *)
Example segment_line_is_relayed :
  directory "https://cdn.example/show/index.m3u8?token=abc" = "https://cdn.example/show/" /\
  rewrite_playlist "https://cdn.example/show/index.m3u8?token=abc" (Some "https://hianime.to/")
    (lines_of ["#EXTM3U"; "#EXTINF:10,"; "segment001.ts"; ""; "https://cdn.example/b/2.ts"])
  = lines_of
      ["#EXTM3U"; "#EXTINF:10,";
       "http://localhost:3000/proxy/stream?url=https%3A%2F%2Fcdn.example%2Fshow%2Fsegment001.ts&referer=https%3A%2F%2Fhianime.to%2F";
       "";
       "http://localhost:3000/proxy/stream?url=https%3A%2F%2Fcdn.example%2Fb%2F2.ts&referer=https%3A%2F%2Fhianime.to%2F"] /\
  relayed_entry "https://cdn.example/show/index.m3u8?token=abc" (Some "https://hianime.to/")
    "segment001.ts"
  = "http://localhost:3000/proxy/stream?url=https%3A%2F%2Fcdn.example%2Fshow%2Fsegment001.ts&referer=https%3A%2F%2Fhianime.to%2F".
Proof. repeat split; vm_compute; reflexivity. Qed.

(** C9, at the failing input.  The variant line [720p.m3u8] of a master
    playlist fetched from [https://media.tscdn.net/hls/master.m3u8] should
    become the relay URL of [https://media.tscdn.net/hls/720p.m3u8].  The
    first [replace] produces just that, but its output contains [.ts] (in
    the host name), so the second [replace] takes the rewritten line for a
    segment entry and wraps it again: the line that is sent relays the relay
    URL, not the resolved URL. *)
Theorem variant_line_is_relayed_twice :
  relayed_entry master_url None "720p.m3u8" =
    "http://localhost:3000/proxy/stream?url=https%3A%2F%2Fmedia.tscdn.net%2Fhls%2F720p.m3u8" /\
  replace_all (line_with ".m3u8") (proxied (directory master_url) None) master_playlist =
    lines_of ["#EXTM3U"; "#EXT-X-STREAM-INF:BANDWIDTH=800000,RESOLUTION=1280x720";
              relayed_entry master_url None "720p.m3u8"] /\
  rewrite_playlist master_url None master_playlist =
    lines_of ["#EXTM3U"; "#EXT-X-STREAM-INF:BANDWIDTH=800000,RESOLUTION=1280x720";
              "http://localhost:3000/proxy/stream?url=" +:+
              encodeURIComponent (relayed_entry master_url None "720p.m3u8")] /\
  rewrite_playlist master_url None master_playlist <>
    lines_of ["#EXTM3U"; "#EXT-X-STREAM-INF:BANDWIDTH=800000,RESOLUTION=1280x720";
              relayed_entry master_url None "720p.m3u8"].
Proof.
  repeat split; try (vm_compute; reflexivity).
  vm_compute. discriminate.
Qed.

End ProxyFacts.

(* ================================================================== *)
(** * The unified routes GET /read and GET /genres, and the result routes
      on success *)
(* ================================================================== *)
Module UnifiedRoutesFacts.
Import JS JSFacts Unified UnifiedFacts UnifiedRoutes Scraping Injected.

(** ** The order of the providers *)

Lemma partition_permutation {A} (f : A -> bool) (l : list A) :
  Permutation (List.filter f l ++ List.filter (fun x => negb (f x)) l) l.
Proof.
  induction l as [|x l IH]; simpl; [constructor|].
  destruct (f x); simpl.
  - now constructor.
  - apply Permutation_sym, Permutation_cons_app, Permutation_sym, IH.
Qed.

Lemma providerOrder_permutation preferred : Permutation (providerOrder preferred) PROVIDERS.
Proof.
  unfold providerOrder. destruct preferred as [x|]; [|reflexivity].
  destruct (String.eqb x ""); [reflexivity | apply partition_permutation].
Qed.

Lemma providerOrder_unknown preferred :
  (forall p, In p PROVIDERS -> Some (name p) <> preferred) ->
  providerOrder preferred = PROVIDERS.
Proof.
  intros Hno. unfold providerOrder. destruct preferred as [x|]; [|reflexivity].
  destruct (String.eqb x ""); [reflexivity|].
  assert (H1 : String.eqb "manhuaplus" x = false).
  { apply String.eqb_neq. intros <-. apply (Hno _ (or_introl eq_refl)). reflexivity. }
  assert (H2 : String.eqb "manhuaus" x = false).
  { apply String.eqb_neq. intros <-. apply (Hno _ (or_intror (or_introl eq_refl))). reflexivity. }
  unfold PROVIDERS. cbn [List.filter name app]. rewrite H1, H2. reflexivity.
Qed.

Lemma providerOrder_known p :
  In p PROVIDERS ->
  exists others, providerOrder (Some (name p)) = p :: others /\ ~ In p others.
Proof.
  unfold PROVIDERS. simpl. intros [<- | [<- | []]].
  - eexists. split; [reflexivity|]. simpl. intros [H | []]. discriminate H.
  - eexists. split; [reflexivity|]. simpl. intros [H | []]. discriminate H.
Qed.

(** ** The loop of GET /read, one step at a time *)

Lemma read_loop_cons srv id p rest errors log :
  read_loop srv id (p :: rest) errors log =
  match fetched (srv (read_url id p)) with
  | Success data =>
      match isValidChapterPages data with
      | Ok true => (log ++ [read_url id p], read_success p data)
      | Ok false =>
          read_loop srv id rest (errors ++ [name p +:+ ": " +:+ "No valid pages found"])
            (log ++ [read_url id p])
      | Throw e => (log ++ [read_url id p], Throw e)
      end
  | Failure error =>
      read_loop srv id rest (errors ++ [name p +:+ ": " +:+ error]) (log ++ [read_url id p])
  end.
Proof.
  cbn [read_loop]. unfold bind at 1. rewrite fetchFromProvider_run.
  fold (read_url id p). destruct (fetched (srv (read_url id p))) as [data|error].
  - unfold bind, lift, ret. destruct (isValidChapterPages data) as [[|]|]; reflexivity.
  - reflexivity.
Qed.

Lemma read_loop_exhausts srv id :
  forall providers errors log,
    Forall (read_fails srv id) providers ->
    read_loop srv id providers errors log =
    (log ++ map (read_url id) providers,
     Ok {| status := 404;
           body := JObj [("message", JStr "Chapter not found on any provider");
                         ("errors",
                          JArr (map JStr (errors ++ map (read_reason srv id) providers)))] |}).
Proof.
  induction providers as [|q rest IH]; intros errors log Hall.
  - simpl. now rewrite !app_nil_r.
  - inversion Hall as [|? ? Hq Hrest]; subst.
    rewrite read_loop_cons. unfold read_fails in Hq. unfold read_reason at 1.
    simpl map.
    destruct (fetched (srv (read_url id q))) as [d|e].
    + rewrite Hq, IH by assumption. now rewrite <- !app_assoc.
    + rewrite IH by assumption. now rewrite <- !app_assoc.
Qed.

Lemma withProvider_tagged provider items :
  length (withProvider provider items) = length items /\
  Forall (fun item => get "provider" item = Some (JStr provider)) (withProvider provider items).
Proof.
  unfold withProvider. split; [apply length_map|].
  induction items as [|x items IH]; simpl; constructor; [|exact IH].
  apply lookup_set_prop_same.
Qed.

(** X1. In GET /read a [provider] parameter that names a provider puts that
    provider first: when its pages pass the validator it is the only
    provider asked, and the reply is the 200 with its pages, in order, each
    one carrying the provider's name. *)
Theorem read_asks_the_preferred_provider_first srv chapterId p data :
  chapterId <> "" ->
  In p PROVIDERS ->
  fetched (srv (read_url chapterId p)) = Success data ->
  isValidChapterPages data = Ok true ->
  exists others pages,
    providerOrder (Some (name p)) = p :: others /\ ~ In p others /\
    data = JArr pages /\
    run (read srv (Some chapterId) (Some (name p))) =
      ([read_url chapterId p],
       Ok {| status := 200; body := JArr (withProvider (name p) pages) |}) /\
    length (withProvider (name p) pages) = length pages /\
    Forall (fun page => get "provider" page = Some (JStr (name p)))
      (withProvider (name p) pages).
Proof.
  intros Hid Hp Hf Hv.
  destruct (providerOrder_known p Hp) as (others & Ho & Hnot).
  destruct data as [| | | | pages |]; try discriminate Hv.
  exists others, pages. split; [exact Ho|]. split; [exact Hnot|]. split; [reflexivity|].
  split; [|apply withProvider_tagged].
  unfold run, read. apply String.eqb_neq in Hid. rewrite Hid, Ho.
  rewrite read_loop_cons, Hf, Hv. reflexivity.
Qed.

(** X1 at [pages_on_second]: the second provider is preferred and is asked
    alone. *)
Lemma read_asks_the_preferred_provider_first_witness :
  run (read pages_on_second (Some "solo-leveling/chapter-1") (Some "manhuaus")) =
  (["/manhwa/manhuaus/read?chapterId=solo-leveling%2Fchapter-1"],
   Ok {| status := 200;
         body := JArr [JObj [("page", JNum 1); ("img", JStr "https://img.example/1.jpg");
                             ("provider", JStr "manhuaus")]] |}).
Proof.
  destruct (read_asks_the_preferred_provider_first pages_on_second "solo-leveling/chapter-1"
              {| name := "manhuaus"; baseUrl := "/manhwa/manhuaus"; priority := 2 |}
              (JArr [JObj [("page", JNum 1); ("img", JStr "https://img.example/1.jpg")]]))
    as (others & pages & _ & _ & Hd & Hrun & _).
  - discriminate.
  - right. left. reflexivity.
  - reflexivity.
  - reflexivity.
  - injection Hd as <-. exact Hrun.
Defined.

(** X2. In GET /read, when every provider errors or has its pages rejected,
    the handler answers 404 with one reason per provider, in the order the
    providers were tried.  Whatever the [provider] parameter, that order is
    a rearrangement of [PROVIDERS] (each provider is tried once), and it is
    the priority order when the parameter names no provider. *)
Theorem read_exhausted_reports_every_provider srv chapterId preferred :
  chapterId <> "" ->
  Forall (read_fails srv chapterId) PROVIDERS ->
  Permutation (providerOrder preferred) PROVIDERS /\
  ((forall p, In p PROVIDERS -> Some (name p) <> preferred) ->
   providerOrder preferred = PROVIDERS) /\
  run (read srv (Some chapterId) preferred) =
    (map (read_url chapterId) (providerOrder preferred),
     Ok {| status := 404;
           body := JObj [("message", JStr "Chapter not found on any provider");
                         ("errors",
                          JArr (map JStr (map (read_reason srv chapterId)
                                            (providerOrder preferred))))] |}).
Proof.
  intros Hid Hall. split; [apply providerOrder_permutation|].
  split; [apply providerOrder_unknown|].
  unfold run, read. apply String.eqb_neq in Hid. rewrite Hid.
  rewrite (read_loop_exhausts srv chapterId (providerOrder preferred) [] []); [reflexivity|].
  rewrite List.Forall_forall in *. intros q Hq. apply Hall.
  apply (Permutation_in q (providerOrder_permutation preferred) Hq).
Qed.

(** X2 at [no_pages], with the second provider preferred. *)
Lemma read_exhausted_reports_every_provider_witness :
  run (read no_pages (Some "chapter-1") (Some "manhuaus")) =
  (["/manhwa/manhuaus/read?chapterId=chapter-1"; "/manhwa/manhuaplus/read?chapterId=chapter-1"],
   Ok {| status := 404;
         body := JObj [("message", JStr "Chapter not found on any provider");
                       ("errors", JArr [JStr "manhuaus: socket hang up";
                                        JStr "manhuaplus: No valid pages found"])] |}).
Proof.
  destruct (read_exhausted_reports_every_provider no_pages "chapter-1" (Some "manhuaus"))
    as (_ & _ & Hrun).
  - discriminate.
  - repeat constructor.
  - rewrite Hrun. reflexivity.
Defined.

(** ** GET /genres *)

Lemma genres_loop_none srv :
  forall providers log,
    Forall (fun p =>
              match fetched (srv (provider_url (name p) "/genres" [])) with
              | Success (JArr (_ :: _)) => False
              | _ => True
              end) providers ->
    genres_loop srv providers log =
    (log ++ map (fun p => provider_url (name p) "/genres" []) providers,
     Ok {| status := 200; body := JArr [] |}).
Proof.
  induction providers as [|q rest IH]; intros log Hall.
  - simpl. now rewrite app_nil_r.
  - inversion Hall as [|? ? Hq Hrest]; subst.
    cbn [genres_loop]. unfold bind at 1. rewrite fetchFromProvider_run.
    destruct (fetched (srv (provider_url (name q) "/genres" []))) as [d|e].
    + destruct d as [| | | | [|x xs] |]; try contradiction;
        rewrite IH by assumption; simpl; now rewrite <- app_assoc.
    + rewrite IH by assumption. simpl. now rewrite <- app_assoc.
Qed.

Lemma genres_loop_answer srv :
  forall providers log,
    exists l,
      snd (genres_loop srv providers log) = Ok {| status := 200; body := JArr l |} /\
      (l <> [] ->
       exists p, In p providers /\
                 fetched (srv (provider_url (name p) "/genres" [])) = Success (JArr l)).
Proof.
  induction providers as [|q rest IH]; intros log.
  - exists []. split; [reflexivity | intros H; now contradiction H].
  - cbn [genres_loop]. unfold bind at 1. rewrite fetchFromProvider_run.
    destruct (fetched (srv (provider_url (name q) "/genres" []))) as [d|e] eqn:Hf.
    + destruct d as [| | | | [|x xs] |];
        try (destruct (IH (log ++ [provider_url (name q) "/genres" []])) as (l & Hl & Hp);
             exists l; split; [exact Hl|];
             intros Hne; destruct (Hp Hne) as (p & Hin & Hpf);
             exists p; split; [now right | exact Hpf]).
      exists (x :: xs). split; [reflexivity|]. intros _. exists q. split; [now left | exact Hf].
    + destruct (IH (log ++ [provider_url (name q) "/genres" []])) as (l & Hl & Hp).
      exists l. split; [exact Hl|].
      intros Hne. destruct (Hp Hne) as (p & Hin & Hpf).
      exists p. split; [now right | exact Hpf].
Qed.

(** X3. GET /genres of the unified routes always completes with status 200
    and an array, and the array is not empty only when a provider answered
    that very array.  The GET /genres handlers of the two providers answer
    an object ([{ genres: [...] }], or the error object with status 500),
    never an array: behind them the unified route asks both providers and
    replies with the empty array, whatever the sites send. *)
Theorem unified_genres_is_always_empty :
  (forall srv,
     exists l,
       snd (run (genres srv)) = Ok {| status := 200; body := JArr l |} /\
       (l <> [] ->
        exists p, In p PROVIDERS /\
                  fetched (srv (provider_url (name p) "/genres" [])) = Success (JArr l))) /\
  (forall sort plus us,
     run (genres (genres_server sort plus us)) =
     (["/manhwa/manhuaplus/genres"; "/manhwa/manhuaus/genres"],
      Ok {| status := 200; body := JArr [] |})).
Proof.
  split.
  - intros srv. apply genres_loop_answer.
  - intros sort plus us. unfold run, genres.
    rewrite genres_loop_none; [reflexivity|].
    constructor; [|constructor; [|constructor]].
    + destruct plus; exact I.
    + destruct us; exact I.
Qed.

(** ** The result routes on success *)

Lemma results_loop_stops srv endpoint params pageNum p post data :
  fetched (srv (provider_url (name p) endpoint params)) = Success data ->
  isValidSearchResults data = true ->
  forall pre log,
    Forall (results_fail srv endpoint params) pre ->
    results_loop srv endpoint params pageNum (pre ++ p :: post) log =
    (log ++ map (fun q => provider_url (name q) endpoint params) (pre ++ [p]),
     Ok (results_reply p data)).
Proof.
  intros Hf Hv. induction pre as [|q pre IH]; intros log Hpre.
  - simpl app. cbn [results_loop]. unfold bind at 1. rewrite fetchFromProvider_run.
    rewrite Hf, Hv. reflexivity.
  - inversion Hpre as [|? ? Hq Hrest]; subst.
    rewrite <- app_comm_cons. cbn [results_loop]. unfold bind at 1.
    rewrite fetchFromProvider_run. unfold results_fail in Hq.
    destruct (fetched (srv (provider_url (name q) endpoint params))) as [d|e].
    + rewrite Hq, IH by assumption. simpl. now rewrite <- app_assoc.
    + rewrite IH by assumption. simpl. now rewrite <- app_assoc.
Qed.

(** X4. The loop shared by GET /search, /latest, /genre/:slug,
    /advanced-search and /:query stops at the first provider whose data has
    a non-empty [results] array: the providers before it are asked and no
    later one; the reply is the 200 with that provider's data, in which
    [provider] is its name and every result, kept in order, carries that
    name as well (replacing a [provider] field of its own). *)
Theorem results_first_valid_provider_wins srv endpoint params pageNum pre p post data :
  PROVIDERS = pre ++ p :: post ->
  Forall (results_fail srv endpoint params) pre ->
  fetched (srv (provider_url (name p) endpoint params)) = Success data ->
  isValidSearchResults data = true ->
  exists items,
    get "results" data = Some (JArr items) /\
    run (results_loop srv endpoint params pageNum PROVIDERS) =
      (map (fun q => provider_url (name q) endpoint params) (pre ++ [p]),
       Ok (results_reply p data)) /\
    status (results_reply p data) = 200 /\
    get "provider" (body (results_reply p data)) = Some (JStr (name p)) /\
    get "results" (body (results_reply p data)) = Some (JArr (withProvider (name p) items)) /\
    length (withProvider (name p) items) = length items /\
    Forall (fun item => get "provider" item = Some (JStr (name p)))
      (withProvider (name p) items) /\
    (forall k, k <> "provider" -> k <> "results" ->
               get k (body (results_reply p data)) = get k data).
Proof.
  intros Hsplit Hpre Hf Hv.
  destruct (proj1 (isValidSearchResults_true data) Hv) as (items & Hr & _).
  exists items.
  split; [exact Hr|]. split; [|split; [reflexivity|split; [|split; [|split; [|split]]]]].
  - unfold run. rewrite Hsplit.
    now rewrite (results_loop_stops srv endpoint params pageNum p post data Hf Hv pre []).
  - simpl. apply lookup_set_prop_same.
  - simpl. rewrite lookup_set_prop_other by discriminate.
    rewrite lookup_set_prop_same. unfold results_of. now rewrite Hr.
  - apply withProvider_tagged.
  - apply withProvider_tagged.
  - intros k Hk1 Hk2. simpl. rewrite !lookup_set_prop_other by assumption.
    destruct data; try discriminate Hr. reflexivity.
Qed.

(** X4 at [found_on_second], for GET /latest without a page. *)
Lemma results_first_valid_provider_wins_witness :
  run (latest found_on_second None) =
  (["/manhwa/manhuaplus/latest?page=1"; "/manhwa/manhuaus/latest?page=1"],
   Ok {| status := 200;
         body := JObj [("currentPage", JNum 1); ("hasNextPage", JBool true);
                       ("results", JArr [JObj [("id", JStr "solo-leveling");
                                               ("provider", JStr "manhuaus")]]);
                       ("provider", JStr "manhuaus")] |}).
Proof.
  destruct (results_first_valid_provider_wins found_on_second "/latest" [("page", "1")] "1"
              [{| name := "manhuaplus"; baseUrl := "/manhwa/manhuaplus"; priority := 1 |}]
              {| name := "manhuaus"; baseUrl := "/manhwa/manhuaus"; priority := 2 |}
              []
              (JObj [("currentPage", JNum 1); ("hasNextPage", JBool true);
                     ("results", JArr [JObj [("id", JStr "solo-leveling");
                                             ("provider", JStr "madara")]])]))
    as (items & Hitems & Hrun & _).
  - reflexivity.
  - repeat constructor.
  - reflexivity.
  - reflexivity.
  - unfold latest. simpl page_or_1. rewrite Hrun. reflexivity.
Defined.

End UnifiedRoutesFacts.

(* ================================================================== *)
(** * The providers' helpers: links, image URLs and genre lists *)
(* ================================================================== *)
Module ProviderFacts.
Import JS JSFacts Unified UnifiedRoutes Scraping ProxyFacts.

Local Arguments String.append !s1 s2 : simpl nomatch.

(** ** Encoded parameters *)

Local Abbreviation no_separator := (all_chars (fun c => negb (is_url_separator c))).

Lemma percent_encode_no_separator c rest :
  no_separator (percent_encode c rest) = no_separator rest.
Proof. destruct c as [[] [] [] [] [] [] [] []]; reflexivity. Qed.

Lemma uri_char_no_separator c rest :
  no_separator (if uri_unreserved c then String c rest else percent_encode c rest) =
  no_separator rest.
Proof. destruct c as [[] [] [] [] [] [] [] []]; reflexivity. Qed.

Lemma encodeURIComponent_no_separator s : no_separator (encodeURIComponent s) = true.
Proof.
  induction s as [|c s IH]; [reflexivity|].
  cbn [encodeURIComponent]. now rewrite uri_char_no_separator.
Qed.

Lemma form_char_no_separator c rest :
  no_separator
    (if is_alnum c || existsb (Ascii.eqb c) ["*"; "-"; "."; "_"]%char then String c rest
     else if Ascii.eqb c " " then String "+" rest
     else percent_encode c rest) = no_separator rest.
Proof. destruct c as [[] [] [] [] [] [] [] []]; reflexivity. Qed.

Lemma form_encode_no_separator s : no_separator (form_encode s) = true.
Proof.
  induction s as [|c s IH]; [reflexivity|].
  cbn [form_encode]. now rewrite form_char_no_separator.
Qed.

(** X5. What the unified routes put into an internal URL cannot change the
    shape of that URL: an encoded path segment and an encoded query value
    contain no slash, question mark, hash, ampersand, equals sign or space,
    so the id, the chapter id, the search query and the page each stay one
    path segment or one parameter value of the request to the provider. *)
Theorem internal_urls_keep_their_shape :
  (forall s, all_chars (fun c => negb (is_url_separator c)) (encodeURIComponent s) = true) /\
  (forall s, all_chars (fun c => negb (is_url_separator c)) (form_encode s) = true) /\
  (forall id p, info_url id p = "/manhwa/" +:+ name p +:+ "/info?id=" +:+ form_encode id) /\
  (forall chapterId p,
     read_url chapterId p =
     "/manhwa/" +:+ name p +:+ "/read?chapterId=" +:+ form_encode chapterId) /\
  (forall provider query page,
     provider_url provider ("/" +:+ encodeURIComponent query) [("page", page)] =
     "/manhwa/" +:+ provider +:+ "/" +:+ encodeURIComponent query +:+
     "?page=" +:+ form_encode page).
Proof.
  split; [exact encodeURIComponent_no_separator|].
  split; [exact form_encode_no_separator|].
  split; [|split].
  - intros id p. unfold info_url, provider_url. cbn [URLSearchParams_toString].
    change (form_encode "id") with "id". reflexivity.
  - intros id p. unfold read_url, provider_url. cbn [URLSearchParams_toString].
    change (form_encode "chapterId") with "chapterId". reflexivity.
  - intros provider query page. unfold provider_url. cbn [URLSearchParams_toString].
    change (form_encode "page") with "page". cbn [String.append String.eqb].
    reflexivity.
Qed.

(** ** Links and ids *)

Lemma replace_first_unfold pat rep s :
  replace_first pat rep s =
  match strip_prefix pat s with
  | Some rest => rep +:+ rest
  | None => match s with
            | EmptyString => EmptyString
            | String c s' => String c (replace_first pat rep s')
            end
  end.
Proof. destruct s; reflexivity. Qed.

Lemma strip_prefix_self p s : strip_prefix p (p +:+ s) = Some s.
Proof.
  induction p as [|a p IH]; simpl; [reflexivity|]. now rewrite Ascii.eqb_refl.
Qed.

Lemma drop_final_slash_keeps s : endsWith_slash s = false -> drop_final_slash s = s.
Proof.
  induction s as [|c s IH]; [reflexivity|]. destruct s as [|d s].
  - simpl. now intros ->.
  - intros H.
    change (drop_final_slash (String c (String d s)))
      with (String c (drop_final_slash (String d s))).
    now rewrite IH.
Qed.

Lemma drop_final_slash_app s : drop_final_slash (s +:+ "/") = s.
Proof.
  induction s as [|c s IH]; [reflexivity|].
  destruct s as [|d s]; [reflexivity|].
  change (drop_final_slash (String c (String d s) +:+ "/"))
    with (String c (drop_final_slash (String d s +:+ "/"))).
  now rewrite IH.
Qed.

Lemma id_of_url_base baseUrl rest :
  id_of_url baseUrl (baseUrl +:+ "/manga/" +:+ rest) = drop_final_slash rest.
Proof.
  unfold id_of_url. rewrite replace_first_unfold, strip_prefix_self. reflexivity.
Qed.

(** X6. The id that the two scrapers take from a link addresses the page of
    that link: for an id that does not end in a slash, the id taken from the
    URL that GET /info (or GET /read) requests for it is the id itself, with
    or without a final slash on the link. *)
Theorem link_ids_address_their_pages id :
  endsWith_slash id = false ->
  ManhuaPlus.id_of (ManhuaPlus.manga_url id) = id /\
  ManhuaPlus.id_of (ManhuaPlus.manga_url id +:+ "/") = id /\
  ManhuaUS.id_of (ManhuaUS.manga_url id) = id /\
  ManhuaUS.id_of (ManhuaUS.baseUrl +:+ "/manga/" +:+ id) = id.
Proof.
  intros Hid. unfold ManhuaPlus.id_of, ManhuaUS.id_of, ManhuaPlus.manga_url, ManhuaUS.manga_url.
  repeat split.
  - rewrite id_of_url_base. now apply drop_final_slash_keeps.
  - replace ((ManhuaPlus.baseUrl +:+ "/manga/" +:+ id) +:+ "/")
      with (ManhuaPlus.baseUrl +:+ "/manga/" +:+ (id +:+ "/")) by reflexivity.
    rewrite id_of_url_base. apply drop_final_slash_app.
  - rewrite id_of_url_base. apply drop_final_slash_app.
  - rewrite id_of_url_base. now apply drop_final_slash_keeps.
Qed.

(** X6 for a chapter of a series. *)
Lemma link_ids_address_their_pages_witness :
  ManhuaPlus.id_of "https://manhuaplus.top/manga/solo-leveling/chapter-1" =
    "solo-leveling/chapter-1" /\
  ManhuaUS.id_of "https://manhuaus.com/manga/solo-leveling/chapter-1/" =
    "solo-leveling/chapter-1".
Proof.
  destruct (link_ids_address_their_pages "solo-leveling/chapter-1" eq_refl)
    as (H1 & _ & H3 & _).
  split; [exact H1 | exact H3].
Defined.

(** ** Image URLs *)

Lemma startsWith_slashes url : startsWith url "//" = true -> startsWith url "/" = true.
Proof.
  destruct url as [|c url]; [discriminate|]. cbn [startsWith].
  destruct (Ascii.eqb "/" c); [intros _; now destruct url | discriminate].
Qed.

(** X7. ManhuaPlus's [normalizeImageUrl] is idempotent; its result is empty
    only for the empty URL, and it is absolute (starts with [http://] or
    [https://]) exactly when the URL was absolute already or starts with a
    slash. *)
Theorem normalizeImageUrl_is_idempotent url :
  ManhuaPlus.normalizeImageUrl (ManhuaPlus.normalizeImageUrl url) =
    ManhuaPlus.normalizeImageUrl url /\
  (ManhuaPlus.normalizeImageUrl url = "" <-> url = "") /\
  is_absolute (ManhuaPlus.normalizeImageUrl url) = is_absolute url || startsWith url "/".
Proof.
  unfold ManhuaPlus.normalizeImageUrl, is_absolute.
  destruct (String.eqb url "") eqn:E0.
  { apply String.eqb_eq in E0. subst url. repeat split; reflexivity. }
  assert (Hne : url <> "") by (intros ->; discriminate E0).
  destruct (startsWith url "http://" || startsWith url "https://") eqn:E1.
  { rewrite E0, E1. repeat split; auto. }
  destruct (startsWith url "//") eqn:E2.
  { rewrite (startsWith_slashes url E2). simpl. rewrite E2.
    repeat split; try reflexivity; try discriminate; try contradiction. }
  destruct (startsWith url "/") eqn:E3.
  { simpl. repeat split; try reflexivity; try discriminate; try contradiction. }
  rewrite E0, E1, E2, E3. repeat split; auto.
Qed.

(** ** Genre lists *)

Lemma span_all p s : all_chars p (fst (span p s)) = true.
Proof.
  induction s as [|c s IH]; [reflexivity|]. simpl.
  destruct (p c) eqn:Hc; [|reflexivity].
  destruct (span p s) as [taken rest]. simpl in *. now rewrite Hc.
Qed.

Lemma match_segment_segment prefix s seg :
  match_segment prefix s = Some seg -> seg <> "" /\ all_chars not_slash seg = true.
Proof.
  induction s as [|c s IH]; cbn [match_segment].
  - destruct (match_segment_here prefix "") as [g|] eqn:Hh; [|discriminate].
    intros [= <-]. unfold match_segment_here in Hh.
    destruct (strip_prefix prefix "") as [rest|]; [|discriminate].
    pose proof (span_all not_slash rest) as Hall.
    destruct (span not_slash rest) as [[|d t] r]; [discriminate|].
    injection Hh as <-. split; [discriminate | exact Hall].
  - destruct (match_segment_here prefix (String c s)) as [g|] eqn:Hh; [|exact IH].
    intros [= <-]. unfold match_segment_here in Hh.
    destruct (strip_prefix prefix (String c s)) as [rest|]; [|discriminate].
    pose proof (span_all not_slash rest) as Hall.
    destruct (span not_slash rest) as [[|d t] r]; [discriminate|].
    injection Hh as <-. split; [discriminate | exact Hall].
Qed.

Lemma existsb_slug_false s gs :
  existsb (fun g => String.eqb (slug g) s) gs = false -> ~ In s (map slug gs).
Proof.
  induction gs as [|g gs IH]; simpl; [tauto|].
  intros H. apply orb_false_iff in H as [Hg Hgs].
  intros [Heq | Hin]; [|now apply IH].
  apply String.eqb_neq in Hg. contradiction.
Qed.

Lemma existsb_slug_true s gs :
  existsb (fun g => String.eqb (slug g) s) gs = true -> In s (map slug gs).
Proof.
  induction gs as [|g gs IH]; simpl; [discriminate|].
  intros H. apply orb_true_iff in H as [Hg | Hgs]; [left | right; now apply IH].
  now apply String.eqb_eq in Hg.
Qed.

Lemma NoDup_snoc {A} (l : list A) x : List.NoDup l -> ~ In x l -> List.NoDup (l ++ [x]).
Proof.
  intros Hl Hx. induction Hl as [|y l Hy Hl IH]; simpl.
  - constructor; [tauto | constructor].
  - constructor.
    + rewrite in_app_iff. simpl. intros [H | [H | []]]; [contradiction|].
      subst y. apply Hx. now left.
    + apply IH. intros H. apply Hx. now right.
Qed.

Lemma visit_genre_listed_once prefix gs a :
  listed_once gs -> listed_once (visit_genre prefix gs a).
Proof.
  intros [Hnd Hall]. unfold visit_genre.
  destruct (match_segment prefix _) as [s|] eqn:Hm; [|now split].
  destruct (String.eqb (trim (text a)) "") eqn:Hn; [now split|].
  destruct (existsb _ gs) eqn:He; [now split|].
  apply match_segment_segment in Hm as [Hs1 Hs2].
  split.
  - rewrite map_app. simpl. apply NoDup_snoc; [exact Hnd|].
    now apply existsb_slug_false.
  - apply List.Forall_app. split; [exact Hall|].
    constructor; [|constructor]. simpl. repeat split; try assumption.
    now apply String.eqb_neq.
Qed.

Lemma fold_visit_genre_listed_once prefix anchors :
  forall gs, listed_once gs -> listed_once (fold_left (visit_genre prefix) anchors gs).
Proof.
  induction anchors as [|a anchors IH]; intros gs Hgs; [exact Hgs|].
  simpl. apply IH. now apply visit_genre_listed_once.
Qed.

Lemma visit_genre_grows prefix gs a s :
  In s (map slug gs) -> In s (map slug (visit_genre prefix gs a)).
Proof.
  intros Hin. unfold visit_genre.
  destruct (match_segment prefix _) as [s'|]; [|exact Hin].
  destruct (String.eqb (trim (text a)) ""); [exact Hin|].
  destruct (existsb _ gs); [exact Hin|].
  rewrite map_app, in_app_iff. now left.
Qed.

Lemma fold_visit_genre_grows prefix anchors s :
  forall gs, In s (map slug gs) ->
             In s (map slug (fold_left (visit_genre prefix) anchors gs)).
Proof.
  induction anchors as [|a anchors IH]; intros gs Hin; [exact Hin|].
  simpl. apply IH. now apply visit_genre_grows.
Qed.

Lemma fold_visit_genre_complete prefix anchors a s :
  In a anchors -> trim (text a) <> "" ->
  match_segment prefix (href_or_empty a) = Some s ->
  forall gs, In s (map slug (fold_left (visit_genre prefix) anchors gs)).
Proof.
  intros Hin Hname Hm. induction anchors as [|b anchors IH]; [destruct Hin|].
  intros gs. simpl. destruct Hin as [-> | Hin]; [|now apply IH].
  apply fold_visit_genre_grows. unfold visit_genre. fold (href_or_empty a).
  rewrite Hm. apply String.eqb_neq in Hname. rewrite Hname.
  destruct (existsb _ gs) eqn:He; [now apply existsb_slug_true|].
  rewrite map_app, in_app_iff. right. now left.
Qed.

Lemma listed_once_nil : listed_once [].
Proof. split; constructor. Qed.

Lemma listed_once_permutation gs gs' :
  Permutation gs' gs -> listed_once gs -> listed_once gs'.
Proof.
  intros Hp [Hnd Hall]. split.
  - apply (Permutation_NoDup (l := map slug gs)); [|exact Hnd].
    apply Permutation_map, Permutation_sym, Hp.
  - rewrite List.Forall_forall in *. intros g Hg. apply Hall.
    apply (Permutation_in g Hp Hg).
Qed.

Lemma default_genres_listed_once : listed_once (map ManhuaUS.default_genre ManhuaUS.defaultGenres).
Proof.
  split.
  - rewrite map_map. simpl.
    repeat (constructor; [simpl; intuition discriminate|]). constructor.
  - repeat (constructor; [repeat split; discriminate|]). constructor.
Qed.

Lemma try_selectors_listed_once page selectors :
  listed_once (ManhuaUS.try_selectors page selectors []).
Proof.
  induction selectors as [|sel later IH]; simpl; [apply listed_once_nil|].
  pose proof (fold_visit_genre_listed_once "/manga-genre/" (page sel) [] listed_once_nil) as H.
  destruct (fold_left _ (page sel) []) as [|g gs]; [exact IH | exact H].
Qed.

(** X8. The genre lists that the GET /genres handlers of ManhuaPlus and
    ManhuaUS send, however the host sorts them: no slug occurs twice, every
    slug is one non-empty path segment and every name is non-empty.
    ManhuaPlus lists the slug of every genre link that has a text, and
    ManhuaUS never sends an empty list (it falls back to its default
    genres). *)
Theorem genre_lists_have_distinct_slugs sort :
  (forall l, Permutation (sort l) l) ->
  (forall anchors,
     ManhuaPlus.genres sort (Ok anchors) =
       {| status := 200;
          body := JObj [("genres",
                         JArr (map genre_json (sort (ManhuaPlus.scraped_genres anchors))))] |} /\
     listed_once (sort (ManhuaPlus.scraped_genres anchors)) /\
     (forall a s,
        In a anchors -> trim (text a) <> "" ->
        match_segment "/genres/" (href_or_empty a) = Some s ->
        In s (map slug (sort (ManhuaPlus.scraped_genres anchors))))) /\
  (forall page,
     ManhuaUS.genres sort (Ok page) =
       {| status := 200;
          body := JObj [("genres",
                         JArr (map genre_json (sort (ManhuaUS.scraped_genres page))))] |} /\
     listed_once (sort (ManhuaUS.scraped_genres page)) /\
     sort (ManhuaUS.scraped_genres page) <> []).
Proof.
  intros Hsort. split.
  - intros anchors. split; [reflexivity|]. split.
    + apply (listed_once_permutation _ _ (Hsort _)).
      apply fold_visit_genre_listed_once, listed_once_nil.
    + intros a s Hin Hname Hm.
      apply (Permutation_in s (Permutation_map slug (Permutation_sym (Hsort _)))).
      now apply (fold_visit_genre_complete "/genres/" anchors a s).
  - intros page. split; [reflexivity|].
    assert (Hl : listed_once (ManhuaUS.scraped_genres page) /\ ManhuaUS.scraped_genres page <> []).
    { unfold ManhuaUS.scraped_genres.
      pose proof (try_selectors_listed_once page ManhuaUS.genreSelectors) as H.
      destruct (ManhuaUS.try_selectors page ManhuaUS.genreSelectors []) as [|g gs].
      - split; [apply default_genres_listed_once | discriminate].
      - split; [exact H | discriminate]. }
    destruct Hl as [Hl Hne]. split.
    + apply (listed_once_permutation _ _ (Hsort _) Hl).
    + intros Hnil. apply Hne.
      apply Permutation_nil. rewrite <- Hnil. apply Hsort.
Qed.

(** X8 on [menu], with the list left in page order: the second link to
    [action] and the link without a text are left out. *)
Lemma genre_lists_have_distinct_slugs_witness :
  map slug (ManhuaPlus.scraped_genres Injected.menu) = ["action"; "comedy"] /\
  map genre_name (ManhuaPlus.scraped_genres Injected.menu) = ["Action"; "Comedy"] /\
  listed_once (ManhuaPlus.scraped_genres Injected.menu).
Proof.
  destruct (genre_lists_have_distinct_slugs (fun l => l) (fun l => Permutation_refl l))
    as [Hplus _].
  destruct (Hplus Injected.menu) as (_ & Hl & _).
  split; [reflexivity|]. split; [reflexivity | exact Hl].
Defined.

End ProviderFacts.

(* ================================================================== *)
(** * The transport: how a call settles, and how long it waits *)
(* ================================================================== *)
Module TransportEdgeFacts.
Import JS Transport TransportFacts.

Lemma or_default_nonzero x d : d <> 0 -> or_default x d <> 0.
Proof.
  intros Hd. unfold or_default. destruct x as [v|]; [|exact Hd].
  destruct (v =? 0) eqn:E; [exact Hd|]. now apply Z.eqb_neq.
Qed.

(** Either the first [n] attempts all fail, or one of them is the first to
    succeed. *)
Lemma all_fail_or_first_success net (n : nat) :
  all_fail net (Z.of_nat n) \/
  exists k data, 1 <= k <= Z.of_nat n /\ all_fail net (k - 1) /\ net k = inr data.
Proof.
  induction n as [|n IH].
  - left. intros k Hk. lia.
  - destruct IH as [Hall | (k & data & Hk & Hbefore & Hok)].
    + destruct (net (Z.of_nat (S n))) as [e|data] eqn:Hn.
      * left. intros k Hk. destruct (Z.eq_dec k (Z.of_nat (S n))) as [-> | Hne].
        -- now exists e.
        -- apply Hall. lia.
      * right. exists (Z.of_nat (S n)), data. split; [lia|]. split; [|exact Hn].
        intros k Hk. apply Hall. lia.
    + right. exists k, data. split; [lia|]. now split.
Qed.

(** X9. [fetchWithRetry] always settles, in one of three ways.  With a
    negative [maxRetries] it makes no request at all and rejects with the
    error "Failed to fetch ... after ... attempts" (the only way to get that
    error); otherwise it resolves with the data of the first attempt that
    succeeds, or, when all [N] attempts fail, rejects with the error of the
    last one.  The effective [maxRetries] is never 0. *)
Theorem fetchWithRetry_always_settles net url opts :
  let N := or_default (maxRetries opts) 3 in
  let base := or_default (retryDelay opts) 1000 in
  let t := or_default (timeout opts) 30000 in
  N <> 0 /\
  ((N < 0 /\ fetchWithRetry net url opts = ([], Rejected (exhausted_error url N))) \/
   (exists k data,
      1 <= k <= N /\ all_fail net (k - 1) /\ net k = inr data /\
      fetchWithRetry net url opts =
        (backoff url base t (k - 1) ++ [Get k url t], Resolved data)) \/
   (exists e,
      1 <= N /\ all_fail net N /\ net N = inl e /\
      fetchWithRetry net url opts =
        (backoff url base t (N - 1) ++ [Get N url t], Rejected e))).
Proof.
  intros N base t.
  assert (HN0 : N <> 0) by (apply or_default_nonzero; discriminate).
  split; [exact HN0|].
  destruct (Z.lt_ge_cases N 0) as [Hneg | Hpos].
  - left. split; [exact Hneg|]. unfold fetchWithRetry. fold N base t.
    unfold attempt_numbers. replace (Z.to_nat N) with 0%nat by lia. reflexivity.
  - right. destruct (all_fail_or_first_success net (Z.to_nat N))
      as [Hall | (k & data & Hk & Hbefore & Hok)].
    + right. rewrite Z2Nat.id in Hall by lia.
      destruct (Hall N) as [e He]; [lia|].
      exists e. split; [lia|]. split; [exact Hall|]. split; [exact He|].
      apply fetchWithRetry_gives_up; [lia | exact Hall | exact He].
    + left. rewrite Z2Nat.id in Hk by lia.
      exists k, data. split; [exact Hk|]. split; [exact Hbefore|]. split; [exact Hok|].
      now apply fetchWithRetry_succeeds.
Qed.

Lemma sum_snoc l x : fold_right Z.add 0 (l ++ [x]) = fold_right Z.add 0 l + x.
Proof. induction l as [|y l IH]; simpl; lia. Qed.

Lemma sum_of_waits base (m : nat) :
  fold_right Z.add 0 (map (fun k => base * 2 ^ (k - 1)) (attempt_numbers (Z.of_nat m))) =
  base * (2 ^ Z.of_nat m - 1).
Proof.
  induction m as [|m IH]; [simpl; lia|].
  rewrite (attempt_numbers_last (Z.of_nat (S m))) by lia.
  replace (Z.of_nat (S m) - 1) with (Z.of_nat m) by lia.
  rewrite map_app. cbn [map]. rewrite sum_snoc, IH.
  replace (Z.of_nat (S m) - 1) with (Z.of_nat m) by lia.
  replace (Z.of_nat (S m)) with (Z.succ (Z.of_nat m)) by lia.
  rewrite Z.pow_succ_r by lia. lia.
Qed.

Lemma total_wait_of_backoff url base t n k :
  0 <= n ->
  fold_right Z.add 0 (waits_made (backoff url base t n ++ [Get k url t])) =
  base * (2 ^ n - 1).
Proof.
  intros Hn. unfold waits_made. rewrite flat_map_app.
  fold (waits_made (backoff url base t n)). rewrite waits_made_backoff.
  simpl. rewrite app_nil_r.
  rewrite <- (Z2Nat.id n Hn) at 1. rewrite sum_of_waits. now rewrite Z2Nat.id.
Qed.

(** X10. The time [fetchWithRetry] spends waiting: before a first success
    at attempt [k] the waits add up to [base * (2^(k-1) - 1)] milliseconds,
    and when all [N] attempts fail to [base * (2^(N-1) - 1)], which is 3000
    with the default options. *)
Theorem fetchWithRetry_total_wait net url opts :
  let N := or_default (maxRetries opts) 3 in
  let base := or_default (retryDelay opts) 1000 in
  (forall k data,
     1 <= k <= N -> all_fail net (k - 1) -> net k = inr data ->
     fold_right Z.add 0 (waits_made (fst (fetchWithRetry net url opts))) =
     base * (2 ^ (k - 1) - 1)) /\
  (1 <= N -> all_fail net N ->
   fold_right Z.add 0 (waits_made (fst (fetchWithRetry net url opts))) =
   base * (2 ^ (N - 1) - 1)).
Proof.
  intros N base. split.
  - intros k data Hk Hbefore Hok.
    rewrite (fetchWithRetry_succeeds net url opts k data Hk Hbefore Hok).
    cbn [fst]. apply total_wait_of_backoff. lia.
  - intros HN Hall. destruct (Hall N) as [e He]; [lia|].
    rewrite (fetchWithRetry_gives_up net url opts e HN Hall He).
    cbn [fst]. apply total_wait_of_backoff. lia.
Qed.

(** X10 with the default options against a server that always times out. *)
Lemma fetchWithRetry_total_wait_witness :
  fold_right Z.add 0
    (waits_made (fst (fetchWithRetry always_times_out "https://www.mgeko.cc/" no_options))) =
  3000.
Proof.
  apply (proj2 (fetchWithRetry_total_wait always_times_out "https://www.mgeko.cc/" no_options)).
  - simpl. lia.
  - intros k _. eexists. reflexivity.
Defined.

End TransportEdgeFacts.

(* ================================================================== *)
(** * The anti-block helpers *)
(* ================================================================== *)
Module AntiBlockFacts.
Import JS AntiBlock.

Local Open Scope Q_scope.

Lemma floor_in_range (x : Q) (n : Z) :
  0 <= x -> x < inject_Z n -> (0 <= Qfloor x < n)%Z.
Proof.
  intros H0 Hn. split.
  - change 0%Z with (Qfloor 0). now apply Qfloor_resp_le.
  - rewrite Zlt_Qlt. apply Qle_lt_trans with x; [apply Qfloor_le | exact Hn].
Qed.

Lemma pick_in_range random items :
  is_random random -> items <> [] ->
  exists x, pick random items = Some x /\ In x items.
Proof.
  intros [H0 H1] Hne. unfold pick.
  set (n := Z.of_nat (length items)).
  assert (Hn : (0 < n)%Z) by (destruct items; [contradiction | unfold n; simpl; lia]).
  assert (Hn' : 0 < inject_Z n) by (change 0 with (inject_Z 0); rewrite <- Zlt_Qlt; exact Hn).
  destruct (floor_in_range (random * inject_Z n) n) as [Hlo Hhi].
  - apply Qmult_le_0_compat; [exact H0 | now apply Qlt_le_weak].
  - apply Qlt_le_trans with (1 * inject_Z n); [now apply Qmult_lt_compat_r|].
    rewrite Qmult_1_l. apply Qle_refl.
  - destruct (Qfloor (random * inject_Z n) <? 0)%Z eqn:E; [apply Z.ltb_lt in E; lia|].
    destruct (nth_error items (Z.to_nat (Qfloor (random * inject_Z n)))) as [x|] eqn:Hx.
    + exists x. split; [reflexivity|]. now apply nth_error_In in Hx.
    + apply nth_error_None in Hx. unfold n in *. lia.
Qed.

(** X11. [getRandomUserAgent] and [getRandomReferer] never return
    [undefined]: for every value of [Math.random()] the index lies inside
    the list, so the result is one of its entries. *)
Theorem random_picks_are_entries random :
  is_random random ->
  (exists userAgent, getRandomUserAgent random = Some userAgent /\ In userAgent USER_AGENTS) /\
  (exists referer, getRandomReferer random = Some referer /\ In referer referers).
Proof.
  intros Hr. split; apply pick_in_range; try exact Hr; discriminate.
Qed.

(** X11 at [Math.random() = 0.99]: the last entries. *)
Lemma random_picks_are_entries_witness :
  getRandomUserAgent (99 # 100) =
    Some "Mozilla/5.0 (Linux; Android 14; SM-S918B) AppleWebKit/537.36 (KHTML, like Gecko) Chrome/131.0.0.0 Mobile Safari/537.36" /\
  getRandomReferer (99 # 100) = Some "".
Proof.
  destruct (random_picks_are_entries (99 # 100)) as [_ _].
  - split; [discriminate | reflexivity].
  - split; reflexivity.
Defined.

(** X12. The delay of [randomDelay] lies between its bounds, both
    included, when the lower bound is not above the upper one: between 500
    and 2000 milliseconds by default. *)
Theorem randomDelay_within_bounds random minMs maxMs :
  is_random random ->
  let lo := match minMs with Some m => m | None => 500%Z end in
  let hi := match maxMs with Some m => m | None => 2000%Z end in
  (lo <= hi)%Z ->
  (lo <= randomDelay random minMs maxMs <= hi)%Z.
Proof.
  intros [H0 H1] lo hi Hle. unfold randomDelay. fold lo hi.
  assert (Hn : 0 < inject_Z (hi - lo + 1)).
  { change 0 with (inject_Z 0). rewrite <- Zlt_Qlt. lia. }
  destruct (floor_in_range (random * inject_Z (hi - lo + 1)) (hi - lo + 1)) as [Hlo Hhi].
  - apply Qmult_le_0_compat; [exact H0 | now apply Qlt_le_weak].
  - apply Qlt_le_trans with (1 * inject_Z (hi - lo + 1)); [now apply Qmult_lt_compat_r|].
    rewrite Qmult_1_l. apply Qle_refl.
  - lia.
Qed.

(** X12 with the default bounds. *)
Lemma randomDelay_within_bounds_witness :
  (500 <= randomDelay (1 # 3) None None <= 2000)%Z.
Proof.
  apply (randomDelay_within_bounds (1 # 3) None None).
  - split; [discriminate | reflexivity].
  - simpl. lia.
Defined.

(** X13. The rate limiter keeps two requests at least [minDelay] apart:
    provided the timer does not fire early, the time stamped by a call to
    [wait] is at least [minDelay] after the time stamped by the call before
    it.  The call sleeps only when less than [minDelay] has elapsed, and the
    exported limiter has a [minDelay] of 500 milliseconds. *)
Theorem rateLimiter_spaces_requests limiter now stamp :
  timer_holds now stamp (fst (wait now stamp limiter)) ->
  lastRequest limiter + minDelay limiter <= lastRequest (snd (wait now stamp limiter)) /\
  minDelay (snd (wait now stamp limiter)) = minDelay limiter /\
  (fst (wait now stamp limiter) = None <-> minDelay limiter <= now - lastRequest limiter) /\
  minDelay rateLimiter == 500.
Proof.
  unfold timer_holds, wait. cbn [fst snd lastRequest minDelay].
  destruct (Qle_bool (minDelay limiter) (now - lastRequest limiter)) eqn:E; cbn [negb].
  - apply Qle_bool_iff in E. intros [Hclock _].
    split; [lra|]. split; [reflexivity|]. split; [tauto | reflexivity].
  - assert (Hlt : ~ minDelay limiter <= now - lastRequest limiter).
    { intros H. apply Qle_bool_iff in H. congruence. }
    intros [Hclock Hsleep].
    split; [lra|]. split; [reflexivity|]. split; [|reflexivity].
    split; [discriminate | contradiction].
Qed.

(** X13 for a request 100 milliseconds after the previous one: the call
    sleeps 400 milliseconds. *)
Lemma rateLimiter_spaces_requests_witness :
  fst (wait 1100 1500 {| lastRequest := 1000; minDelay := 500 |}) = Some 400 /\
  1000 + 500 <= lastRequest (snd (wait 1100 1500 {| lastRequest := 1000; minDelay := 500 |})).
Proof.
  destruct (rateLimiter_spaces_requests {| lastRequest := 1000; minDelay := 500 |} 1100 1500)
    as (H & _).
  - split; [discriminate|]. simpl. discriminate.
  - split; [reflexivity | exact H].
Defined.

End AntiBlockFacts.

(* ================================================================== *)
(** * The render service: pages and the browser *)
(* ================================================================== *)
Module BrowserServiceFacts.
Import JS BrowserService.

(** Case analysis on every call the world may reject. *)
Ltac by_world w :=
  repeat match goal with
         | |- context [rejects w ?c] => destruct (rejects w c) eqn:?; cbn
         end.

Ltac run_service :=
  unfold scrape, scrapeFast, getPage, close, try_finally, bind, launch, await, ret; cbn.

Ltac calls_made :=
  rewrite <- ?app_assoc; cbn; eexists; split; [reflexivity|].

Ltac no_call_twice := repeat (constructor; [cbn; intuition discriminate|]); constructor.

(** X14. [scrape] and [scrapeFast] close the page they got: once
    [getPage] has resolved, whatever fails afterwards, the page is closed
    and that is the last call made, and no call is made twice.  But when
    [getPage] itself fails after the page was opened (the request
    interception cannot be switched on), the call rejects with that error
    and the page is never closed. *)
Theorem scrapes_close_the_page_they_got w url selector st :
  (page_obtained w st ->
   (exists calls,
      log (fst (scrape w url selector st)) = log st ++ calls /\
      In NewPage calls /\ List.last calls Launch = ClosePage /\ List.NoDup calls) /\
   (exists calls,
      log (fst (scrapeFast w url st)) = log st ++ calls /\
      In NewPage calls /\ List.last calls Launch = ClosePage /\ List.NoDup calls)) /\
  (forall e,
     interception_fails w st e ->
     snd (scrape w url selector st) = Throw e /\
     snd (scrapeFast w url st) = Throw e /\
     exists calls,
       log (fst (scrape w url selector st)) = log st ++ calls /\
       log (fst (scrapeFast w url st)) = log st ++ calls /\
       In NewPage calls /\ ~ In ClosePage calls).
Proof.
  split.
  - intros (Hlaunch & Hnew & Hint). split.
    + run_service. destruct (browser st) eqn:Hb; cbn; rewrite ?(Hlaunch Hb); cbn;
        rewrite Hnew; cbn; rewrite Hint; cbn;
        (destruct selector as [sel|]; [destruct (String.eqb sel "")|]); cbn;
        by_world w; calls_made;
        (split; [cbn; repeat (first [left; reflexivity | right])|]); (split; [reflexivity|]); no_call_twice.
    + run_service. destruct (browser st) eqn:Hb; cbn; rewrite ?(Hlaunch Hb); cbn;
        rewrite Hnew; cbn; rewrite Hint; cbn;
        by_world w; calls_made;
        (split; [cbn; repeat (first [left; reflexivity | right])|]); (split; [reflexivity|]); no_call_twice.
  - intros e (Hlaunch & Hnew & Hint). run_service.
    destruct (browser st) eqn:Hb; cbn; rewrite ?(Hlaunch Hb); cbn;
      rewrite Hnew; cbn; rewrite Hint; cbn;
      (split; [reflexivity|]); (split; [reflexivity|]); calls_made;
      (split; [reflexivity|]); (split; [cbn; repeat (first [left; reflexivity | right])|]); cbn; intuition discriminate.
Qed.

(** X14 at [never_loads] and at [no_interception]. *)
Lemma scrapes_close_the_page_they_got_witness :
  scrape never_loads "https://example.com" (Some "h1") fresh =
    ({| browser := true;
        log := [Launch; NewPage; SetRequestInterception true; SetUserAgent userAgent;
                Goto "https://example.com" "domcontentloaded" 15000; ClosePage] |},
     Throw "TimeoutError: Navigation timeout exceeded") /\
  scrape no_interception "https://example.com" (Some "h1") fresh =
    ({| browser := true; log := [Launch; NewPage; SetRequestInterception true] |},
     Throw "ProtocolError: Request interception is not supported").
Proof.
  destruct (scrapes_close_the_page_they_got never_loads "https://example.com" (Some "h1") fresh)
    as [Hclosed _].
  destruct (scrapes_close_the_page_they_got no_interception "https://example.com" (Some "h1")
              fresh) as [_ Hleak].
  destruct Hclosed as [_ _]; [repeat split; reflexivity|].
  destruct (Hleak "ProtocolError: Request interception is not supported") as (_ & _ & _);
    [repeat split; reflexivity|].
  split; reflexivity.
Defined.

(** X15. The browser is launched when a page is first asked for, and only
    then: with [this.browser] set, [scrape] launches nothing and [launch]
    does nothing; without it, [scrape] launches first, and a launch that
    fails leaves [this.browser] unset and nothing else is called.  After a
    [close] that resolves the next [scrape] launches again; a [close] that
    rejects leaves [this.browser] set, so the next [scrape] does not. *)
Theorem browser_is_launched_once_until_closed w url selector st :
  (browser st = true ->
   launch w st = (st, Ok tt) /\
   exists calls,
     log (fst (scrape w url selector st)) = log st ++ calls /\
     ~ In Launch calls /\ browser (fst (scrape w url selector st)) = true) /\
  (browser st = false ->
   match rejects w Launch with
   | None =>
       browser (fst (scrape w url selector st)) = true /\
       exists calls, log (fst (scrape w url selector st)) = log st ++ Launch :: calls /\
                     ~ In Launch calls
   | Some e =>
       scrape w url selector st =
       ({| browser := false; log := log st ++ [Launch] |}, Throw e)
   end) /\
  (browser st = false -> close w st = (st, Ok tt)) /\
  (browser st = true ->
   match rejects w CloseBrowser with
   | None =>
       close w st = ({| browser := false; log := log st ++ [CloseBrowser] |}, Ok tt) /\
       exists calls,
         log (fst (scrape w url selector (fst (close w st)))) =
         log st ++ CloseBrowser :: Launch :: calls
   | Some e =>
       close w st = ({| browser := true; log := log st ++ [CloseBrowser] |}, Throw e) /\
       exists calls,
         log (fst (scrape w url selector (fst (close w st)))) =
         log st ++ CloseBrowser :: calls /\ ~ In Launch calls
   end).
Proof.
  split; [|split; [|split]].
  - intros Hb. split; [unfold launch; now rewrite Hb|].
    run_service. rewrite Hb. cbn.
    destruct selector as [sel|]; [destruct (String.eqb sel "")|]; cbn;
      by_world w; calls_made; (split; [cbn; intuition discriminate | cbn; now rewrite ?Hb]).
  - intros Hb. run_service. rewrite Hb. cbn.
    destruct (rejects w Launch) eqn:Hl; cbn; [reflexivity|].
    destruct selector as [sel|]; [destruct (String.eqb sel "")|]; cbn;
      by_world w; (split; [reflexivity|]); calls_made; cbn; intuition discriminate.
  - intros Hb. unfold close. rewrite Hb. now destruct st.
  - intros Hb. run_service. rewrite Hb. cbn.
    destruct (rejects w CloseBrowser) eqn:Hc; cbn.
    + split; [reflexivity|].
      destruct selector as [sel|]; [destruct (String.eqb sel "")|]; cbn;
        by_world w; calls_made; cbn; intuition discriminate.
    + split; [reflexivity|].
      destruct selector as [sel|]; [destruct (String.eqb sel "")|]; cbn;
        by_world w; rewrite <- ?app_assoc; cbn; eexists; reflexivity.
Qed.

(** X15 on a fresh service whose site never loads: the first [scrape]
    launches the browser, the second one does not. *)
Lemma browser_is_launched_once_until_closed_witness :
  exists calls,
    log (fst (scrape never_loads "https://example.com" None
                (fst (scrape never_loads "https://example.com" None fresh)))) =
    [Launch; NewPage; SetRequestInterception true; SetUserAgent userAgent;
     Goto "https://example.com" "domcontentloaded" 15000; ClosePage] ++ calls /\
    ~ In Launch calls.
Proof.
  destruct (browser_is_launched_once_until_closed never_loads "https://example.com" None
              (fst (scrape never_loads "https://example.com" None fresh)))
    as [Hreuse _].
  destruct (Hreuse eq_refl) as (_ & calls & Hlog & Hno & _).
  exists calls. split; [exact Hlog | exact Hno].
Defined.

End BrowserServiceFacts.

(* ================================================================== *)
(** * The stream relay: the base of a playlist and the lines left alone *)
(* ================================================================== *)
Module ProxyLineFacts.
Import JS Proxy ProxyFacts.

Local Arguments String.append !s1 s2 : simpl nomatch.

Local Abbreviation no_slash := (all_chars (fun d => negb (Ascii.eqb "/" d))).

(** [lastIndexOf] finds the last occurrence, if there is one. *)
Lemma lastIndexOf_from_last c s : forall i found,
  (all_chars (fun d => negb (Ascii.eqb c d)) s = true /\ lastIndexOf_from i found c s = found) \/
  (exists pre post,
     s = pre +:+ String c post /\
     all_chars (fun d => negb (Ascii.eqb c d)) post = true /\
     lastIndexOf_from i found c s = i + Z.of_nat (String.length pre)).
Proof.
  induction s as [|d s IH]; intros i found.
  - left. split; reflexivity.
  - cbn [lastIndexOf_from all_chars].
    destruct (IH (i + 1) (if Ascii.eqb c d then i else found))
      as [[Hno Hres] | (pre & post & Hs & Hpost & Hres)].
    + destruct (Ascii.eqb c d) eqn:E.
      * right. apply Ascii.eqb_eq in E. subst d.
        exists "", s. split; [reflexivity|]. split; [exact Hno|]. rewrite Hres. simpl. lia.
      * left. split; [now rewrite Hno | exact Hres].
    + right. exists (String d pre), post. split; [now rewrite Hs|].
      split; [exact Hpost|]. rewrite Hres. cbn [String.length]. lia.
Qed.

Lemma substring_prefix p q : String.substring 0 (String.length p) (p +:+ q) = p.
Proof.
  induction p as [|c p IH]; simpl.
  - now destruct q.
  - now rewrite IH.
Qed.

Lemma length_snoc p c : String.length (p +:+ String c "") = S (String.length p).
Proof. induction p as [|d p IH]; simpl; [reflexivity | now rewrite IH]. Qed.

Lemma append_snoc p c q : p +:+ String c q = (p +:+ String c "") +:+ q.
Proof. induction p as [|d p IH]; simpl; [reflexivity | now rewrite IH]. Qed.

(** X16. The base against which GET /stream resolves the relative entries
    of a playlist is the fetch URL up to and including its last slash,
    wherever that slash is (a slash in the query string counts); a URL
    without a slash has the empty base. *)
Theorem directory_ends_at_the_last_slash url :
  (all_chars (fun d => negb (Ascii.eqb "/" d)) url = true /\ directory url = "") \/
  (exists pre post,
     url = pre +:+ "/" +:+ post /\
     all_chars (fun d => negb (Ascii.eqb "/" d)) post = true /\
     directory url = pre +:+ "/").
Proof.
  unfold directory, lastIndexOf.
  destruct (lastIndexOf_from_last "/" url 0 (-1))
    as [[Hno Hres] | (pre & post & Hs & Hpost & Hres)].
  - left. split; [exact Hno|]. rewrite Hres. simpl. now destruct url.
  - right. exists pre, post. split; [exact Hs|]. split; [exact Hpost|].
    rewrite Hres.
    replace (Z.to_nat (0 + Z.of_nat (String.length pre) + 1))
      with (String.length (pre +:+ "/")) by (rewrite length_snoc; lia).
    rewrite Hs at 1. rewrite (append_snoc pre "/" post). apply substring_prefix.
Qed.

Lemma includes_tail c s p : includes (String c s) p = false -> includes s p = false.
Proof.
  cbn [includes]. intros H. now apply orb_false_iff in H as [_ H].
Qed.

Lemma rewrite_line_alone url referer line :
  line_is_left_alone line ->
  rewrite_line url referer line = line.
Proof.
  intros H. unfold rewrite_line.
  assert (Hm : entry_line ".m3u8" line = false /\ entry_line ".ts" line = false).
  { destruct H as [-> | [Hsharp | [H1 H2]]].
    - split; reflexivity.
    - destruct line as [|c rest]; [split; reflexivity|].
      cbn [startsWith] in Hsharp. apply andb_true_iff in Hsharp as [Hc _].
      apply Ascii.eqb_eq in Hc. subst c. split; reflexivity.
    - destruct line as [|c rest]; [split; reflexivity|].
      unfold entry_line. rewrite (includes_tail _ _ _ H1), (includes_tail _ _ _ H2).
      now rewrite !andb_false_r. }
  destruct Hm as [-> Hts]. now rewrite Hts.
Qed.

Lemma rewrite_line_one_line url referer line :
  one_line line = true -> one_line (rewrite_line url referer line) = true.
Proof.
  intros Hl. unfold rewrite_line.
  destruct (entry_line ".m3u8" line).
  - destruct (entry_line ".ts" _); apply proxied_one_line.
  - destruct (entry_line ".ts" line); [apply proxied_one_line | exact Hl].
Qed.

(** X17. On a playlist of lines ended by line feeds (and free of carriage
    returns) the rewriting of GET /stream keeps the number of lines, every
    line of the result is still one line, and the tag lines (starting with
    [#]), the empty lines and the lines that contain neither [.m3u8] nor
    [.ts] are left as they are. *)
Theorem playlist_tags_are_left_alone url referer ls :
  Forall (fun l => one_line l = true) ls ->
  exists ls',
    rewrite_playlist url referer (lines_of ls) = lines_of ls' /\
    length ls' = length ls /\
    Forall (fun l => one_line l = true) ls' /\
    Forall2 (fun l l' =>
               line_is_left_alone l -> l' = l) ls ls'.
Proof.
  intros Hls. exists (map (rewrite_line url referer) ls).
  split; [now apply rewrite_playlist_lines|]. split; [apply length_map|]. split.
  - induction Hls as [|l ls Hl _ IH]; simpl; constructor; [|exact IH].
    now apply rewrite_line_one_line.
  - clear Hls. induction ls as [|l ls IH]; simpl; constructor; [|exact IH].
    intros H. now apply rewrite_line_alone.
Qed.

(** X17 on a media playlist with one segment. *)
Lemma playlist_tags_are_left_alone_witness :
  exists ls',
    rewrite_playlist "https://cdn.example/show/index.m3u8" None
      (lines_of ["#EXTM3U"; "#EXTINF:10,"; "segment001.ts"; "#EXT-X-ENDLIST"]) = lines_of ls' /\
    length ls' = 4%nat /\
    Forall2 (fun l l' => line_is_left_alone l -> l' = l)
      ["#EXTM3U"; "#EXTINF:10,"; "segment001.ts"; "#EXT-X-ENDLIST"] ls'.
Proof.
  destruct (playlist_tags_are_left_alone "https://cdn.example/show/index.m3u8" None
              ["#EXTM3U"; "#EXTINF:10,"; "segment001.ts"; "#EXT-X-ENDLIST"])
    as (ls' & Hrw & Hlen & _ & Hsame).
  - repeat constructor.
  - exists ls'. split; [exact Hrw|]. split; [exact Hlen | exact Hsame].
Defined.

End ProxyLineFacts.

(* ================================================================== *)
(** * Title matching *)
(* ================================================================== *)
Module MatchingFacts.
Import JS JSFacts Matching.

(** ** Cleaning a title *)

Ltac by_code_unit c :=
  destruct c as [[] [] [] [] [] [] [] []]; vm_compute; try reflexivity; try discriminate; auto.

Lemma lower_char_idempotent c : lower_char (lower_char c) = lower_char c.
Proof. by_code_unit c. Qed.

Lemma lower_char_whitespace c : is_js_whitespace (lower_char c) = is_js_whitespace c.
Proof. by_code_unit c. Qed.

Lemma lower_char_digit c : is_digit (lower_char c) = is_digit c.
Proof. by_code_unit c. Qed.

Lemma lower_char_dash c : Ascii.eqb (lower_char c) "-" = Ascii.eqb c "-".
Proof. by_code_unit c. Qed.

Lemma lower_char_underscore c : Ascii.eqb (lower_char c) "_" = Ascii.eqb c "_".
Proof. by_code_unit c. Qed.

Lemma lower_char_dash_or_space c :
  lower_char (if Ascii.eqb c "-" || Ascii.eqb c "_" then " "%char else c) =
  if Ascii.eqb c "-" || Ascii.eqb c "_" then " "%char else lower_char c.
Proof. by_code_unit c. Qed.

Lemma toLowerCase_idempotent s : toLowerCase (toLowerCase s) = toLowerCase s.
Proof.
  induction s as [|c s IH]; [reflexivity|].
  cbn [toLowerCase]. now rewrite lower_char_idempotent, IH.
Qed.

Lemma toLowerCase_length s : String.length (toLowerCase s) = String.length s.
Proof. induction s as [|c s IH]; [reflexivity|]. cbn. now rewrite IH. Qed.

Lemma toLowerCase_digits s : all_chars is_digit (toLowerCase s) = all_chars is_digit s.
Proof.
  induction s as [|c s IH]; [reflexivity|].
  cbn [toLowerCase all_chars]. now rewrite lower_char_digit, IH.
Qed.

Lemma mgeko_suffix_here_dash a s :
  mgeko_suffix_here (String a s) =
  Ascii.eqb a "-" &&
  match s with
  | String m (String g digits) =>
      Ascii.eqb (lower_char m) "m" && Ascii.eqb (lower_char g) "g" && all_chars is_digit digits
  | _ => false
  end.
Proof.
  destruct a as [[] [] [] [] [] [] [] []]; reflexivity.
Qed.

Lemma toLowerCase_suffix_here s : mgeko_suffix_here (toLowerCase s) = mgeko_suffix_here s.
Proof.
  destruct s as [|a s]; [reflexivity|].
  cbn [toLowerCase]. rewrite !mgeko_suffix_here_dash, lower_char_dash.
  destruct s as [|m [|g digits]]; try reflexivity.
  cbn [toLowerCase]. now rewrite !lower_char_idempotent, toLowerCase_digits.
Qed.

Lemma toLowerCase_drop_suffix s :
  toLowerCase (drop_mgeko_suffix s) = drop_mgeko_suffix (toLowerCase s).
Proof.
  induction s as [|c s IH]; [reflexivity|].
  change (drop_mgeko_suffix (String c s))
    with (if mgeko_suffix_here (String c s) then EmptyString
          else String c (drop_mgeko_suffix s)).
  change (toLowerCase (String c s)) with (String (lower_char c) (toLowerCase s)).
  change (drop_mgeko_suffix (String (lower_char c) (toLowerCase s)))
    with (if mgeko_suffix_here (String (lower_char c) (toLowerCase s)) then EmptyString
          else String (lower_char c) (drop_mgeko_suffix (toLowerCase s))).
  change (String (lower_char c) (toLowerCase s)) with (toLowerCase (String c s)) at 1.
  rewrite toLowerCase_suffix_here.
  destruct (mgeko_suffix_here (String c s)); [reflexivity|].
  cbn [toLowerCase]. now rewrite IH.
Qed.

Lemma toLowerCase_spaces s :
  toLowerCase (spaces_for_dashes s) = spaces_for_dashes (toLowerCase s).
Proof.
  induction s as [|c s IH]; [reflexivity|].
  cbn [toLowerCase spaces_for_dashes].
  rewrite lower_char_dash_or_space, lower_char_dash, lower_char_underscore, IH.
  now destruct (Ascii.eqb c "-" || Ascii.eqb c "_").
Qed.

Lemma toLowerCase_trimStart s : toLowerCase (trimStart s) = trimStart (toLowerCase s).
Proof.
  induction s as [|c s IH]; [reflexivity|].
  cbn [toLowerCase trimStart]. rewrite lower_char_whitespace.
  destruct (is_js_whitespace c); [exact IH | reflexivity].
Qed.

Lemma toLowerCase_trimEnd s : toLowerCase (trimEnd s) = trimEnd (toLowerCase s).
Proof.
  induction s as [|c s IH]; [reflexivity|].
  cbn [toLowerCase trimEnd]. rewrite <- IH, lower_char_whitespace.
  destruct (trimEnd s) as [|d t]; cbn [toLowerCase].
  - now destruct (is_js_whitespace c).
  - reflexivity.
Qed.

Lemma toLowerCase_cleanTitle s : toLowerCase (cleanTitle s) = cleanTitle (toLowerCase s).
Proof.
  unfold cleanTitle, trim.
  now rewrite toLowerCase_trimEnd, toLowerCase_trimStart, toLowerCase_spaces,
    toLowerCase_drop_suffix.
Qed.

Lemma spaces_for_dashes_no_dash s : all_chars no_dash (spaces_for_dashes s) = true.
Proof.
  induction s as [|c s IH]; [reflexivity|].
  cbn [spaces_for_dashes all_chars]. rewrite IH, andb_true_r.
  unfold no_dash. destruct (Ascii.eqb c "-" || Ascii.eqb c "_") eqn:E; [reflexivity|].
  now rewrite E.
Qed.

Lemma trimStart_all p s : all_chars p s = true -> all_chars p (trimStart s) = true.
Proof.
  induction s as [|c s IH]; [reflexivity|].
  cbn [trimStart]. destruct (is_js_whitespace c); [|easy].
  cbn [all_chars]. intros [_ H]%andb_prop. now apply IH.
Qed.

Lemma trimEnd_all p s : all_chars p s = true -> all_chars p (trimEnd s) = true.
Proof.
  induction s as [|c s IH]; [reflexivity|].
  cbn [all_chars trimEnd]. intros [Hc H]%andb_prop. specialize (IH H).
  destruct (trimEnd s) as [|d t].
  - destruct (is_js_whitespace c); [reflexivity|]. cbn [all_chars]. now rewrite Hc.
  - cbn [all_chars] in *. now rewrite Hc, IH.
Qed.

Lemma cleanTitle_no_dash title : all_chars no_dash (cleanTitle title) = true.
Proof.
  unfold cleanTitle, trim. apply trimEnd_all, trimStart_all, spaces_for_dashes_no_dash.
Qed.

Lemma no_dash_no_suffix s : all_chars no_dash s = true -> drop_mgeko_suffix s = s.
Proof.
  induction s as [|c s IH]; [reflexivity|].
  cbn [all_chars]. intros [Hc H]%andb_prop.
  change (drop_mgeko_suffix (String c s))
    with (if mgeko_suffix_here (String c s) then EmptyString
          else String c (drop_mgeko_suffix s)).
  assert (Hhere : mgeko_suffix_here (String c s) = false).
  { rewrite mgeko_suffix_here_dash. unfold no_dash in Hc.
    apply negb_true_iff, orb_false_iff in Hc. destruct Hc as [-> _]. reflexivity. }
  now rewrite Hhere, IH.
Qed.

Lemma no_dash_no_change s : all_chars no_dash s = true -> spaces_for_dashes s = s.
Proof.
  induction s as [|c s IH]; [reflexivity|].
  cbn [all_chars spaces_for_dashes]. intros [Hc H]%andb_prop.
  unfold no_dash in Hc. apply negb_true_iff in Hc. now rewrite Hc, IH.
Qed.

Lemma trimEnd_idempotent s : trimEnd (trimEnd s) = trimEnd s.
Proof.
  induction s as [|c s IH]; [reflexivity|].
  cbn [trimEnd]. destruct (trimEnd s) as [|d t] eqn:E.
  - destruct (is_js_whitespace c) eqn:Hc; [reflexivity|]. cbn [trimEnd]. now rewrite Hc.
  - cbn [trimEnd] in *. rewrite IH. reflexivity.
Qed.

Lemma trimStart_trimmed s : trimStart (trim s) = trim s.
Proof.
  unfold trim. induction s as [|c s IH]; [reflexivity|].
  cbn [trimStart]. destruct (is_js_whitespace c) eqn:Hc; [exact IH|].
  destruct (trimEnd_keeps_head c s Hc) as [t ->]. cbn [trimStart]. now rewrite Hc.
Qed.

Lemma trim_idempotent s : trim (trim s) = trim s.
Proof.
  unfold trim at 1. rewrite trimStart_trimmed. unfold trim. apply trimEnd_idempotent.
Qed.

(** X18. The title that GET /match of MangaUpdates and of AniList search
    for holds no dash and no underscore, cleaning it again changes nothing,
    and cleaning commutes with lower case.  So a title, its cleaned form
    and its lower-case form use the same cache entry on either route. *)
Theorem cleaned_titles_share_a_cache_entry (title : string) :
  all_chars no_dash (cleanTitle title) = true /\
  trim (cleanTitle title) = cleanTitle title /\
  cleanTitle (cleanTitle title) = cleanTitle title /\
  mu_match_key (cleanTitle title) = mu_match_key title /\
  mu_match_key (toLowerCase title) = mu_match_key title /\
  anilist_match_key (cleanTitle title) = anilist_match_key title /\
  anilist_match_key (toLowerCase title) = anilist_match_key title.
Proof.
  assert (Hidem : cleanTitle (cleanTitle title) = cleanTitle title).
  { unfold cleanTitle at 1.
    rewrite (no_dash_no_suffix _ (cleanTitle_no_dash title)).
    rewrite (no_dash_no_change _ (cleanTitle_no_dash title)).
    unfold cleanTitle. apply trim_idempotent. }
  assert (Hlower : toLowerCase (cleanTitle (toLowerCase title)) = toLowerCase (cleanTitle title)).
  { now rewrite <- toLowerCase_cleanTitle, toLowerCase_idempotent. }
  unfold mu_match_key, anilist_match_key. rewrite Hidem, Hlower.
  repeat split; try reflexivity.
  - apply cleanTitle_no_dash.
  - unfold cleanTitle. apply trim_idempotent.
Qed.
(** ** The confidence *)

Lemma startsWith_refl s : startsWith s s = true.
Proof. induction s as [|c s IH]; [reflexivity|]. cbn [startsWith]. now rewrite Ascii.eqb_refl. Qed.

Lemma includes_refl s : includes s s = true.
Proof. destruct s; cbn [includes]; now rewrite startsWith_refl. Qed.

Lemma toLowerCase_nonempty s : s <> "" -> toLowerCase s <> "".
Proof. now destruct s. Qed.

Lemma Math_round_from k q :
  (inject_Z k <= q)%Q ->
  exists n, Math_round (Finite q) = Finite (inject_Z n) /\ (k <= n)%Z.
Proof.
  intros Hq. exists (Qfloor (q + (1 # 2))). split; [reflexivity|].
  rewrite <- (Qfloor_Z k). apply Qfloor_resp_le. lra.
Qed.

Lemma Math_round_100 q : Qeq_bool q 100 = true -> Math_round (Finite q) = Finite 100.
Proof.
  intros Hq%Qeq_bool_iff. cbn [Math_round]. f_equal.
  assert (E : (q + (1 # 2) == 201 # 2)%Q) by lra.
  now rewrite (Qfloor_comp _ _ E).
Qed.

Section Confidence.

Variable to_double : Q -> Q.
Hypothesis Hround : rounds_to_nearest to_double.

(** A length that is at least [k] times another one scores at least
    [80 * k]. *)
Lemma ratio_score (k : Z) (a b : nat) :
  (0 <= k <= 2 ^ 40)%Z -> (k * Z.of_nat b <= Z.of_nat a)%Z -> b <> O ->
  exists q, times_80 to_double (divide_lengths to_double a b) = Finite q /\
            (inject_Z (k * 80) <= q)%Q.
Proof.
  destruct Hround as [Hmono Hwhole]. intros Hk Hab Hb.
  destruct b as [|b']; [contradiction|]. cbn [divide_lengths times_80].
  eexists; split; [reflexivity|].
  rewrite <- (Hwhole (k * 80)%Z) by lia. apply Hmono.
  rewrite inject_Z_mult. apply Qmult_le_compat_r; [|discriminate].
  rewrite <- (Hwhole k) by lia. apply Hmono.
  unfold Qle. cbn [Qnum Qden inject_Z]. rewrite Z.mul_1_r.
  assert (E : Z.pos (Pos.of_nat (S b')) = Z.of_nat (S b')) by lia.
  rewrite E. exact Hab.
Qed.

Lemma times_80_finite a b :
  b <> O -> exists q, times_80 to_double (divide_lengths to_double a b) = Finite q.
Proof. destruct b; [contradiction|]. intros _. cbn. now eexists. Qed.

Lemma Math_max_from k x y p q :
  x = Finite p -> y = Finite q -> ((k <= p)%Q \/ (k <= q)%Q) ->
  exists r, Math_max x y = Finite r /\ (k <= r)%Q.
Proof.
  intros -> -> H. cbn [Math_max]. eexists; split; [reflexivity|].
  destruct (Qle_bool p q) eqn:E.
  - apply Qle_bool_iff in E. destruct H; lra.
  - assert (~ (p <= q)%Q) by (rewrite <- Qle_bool_iff; congruence). destruct H; lra.
Qed.

(** The score of two non-empty titles is at least 80, and at least [80 * k]
    when one is [k] times as long as the other. *)
Lemma containment_score_from (k : Z) ns t :
  ns <> "" -> t <> "" -> (1 <= k <= 2 ^ 40)%Z ->
  (k * Z.of_nat (String.length ns) <= Z.of_nat (String.length t))%Z \/
  (k * Z.of_nat (String.length t) <= Z.of_nat (String.length ns))%Z ->
  exists q, containment_score to_double ns t = Finite q /\ (inject_Z (k * 80) <= q)%Q.
Proof.
  intros Hns Ht Hk Hlen. unfold containment_score.
  assert (Hn : String.length ns <> O) by now destruct ns.
  assert (Hm : String.length t <> O) by now destruct t.
  destruct (times_80_finite (String.length ns) (String.length t) Hm) as [p Hp].
  destruct (times_80_finite (String.length t) (String.length ns) Hn) as [q Hq].
  apply (Math_max_from _ _ _ p q Hp Hq).
  destruct Hlen as [H|H].
  - right. destruct (ratio_score k _ _ ltac:(lia) H Hn) as (q' & E & Hq').
    rewrite Hq in E. now injection E as <-.
  - left. destruct (ratio_score k _ _ ltac:(lia) H Hm) as (p' & E & Hp').
    rewrite Hp in E. now injection E as <-.
Qed.

Lemma containment_score_80 ns t :
  ns <> "" -> t <> "" ->
  exists q, containment_score to_double ns t = Finite q /\ (80 <= q)%Q.
Proof.
  intros Hns Ht. apply (containment_score_from 1 ns t Hns Ht); lia.
Qed.

(** With an empty string on one side only, the score is [Infinity]. *)
Lemma containment_score_empty ns t :
  (ns = "" /\ t <> "") \/ (ns <> "" /\ t = "") ->
  containment_score to_double ns t = Infinity.
Proof.
  unfold containment_score.
  intros [[-> Ht]|[Hns ->]]; [destruct t | destruct ns]; try contradiction; reflexivity.
Qed.


(** X19. GET /match of MangaUpdates: the confidence is 100 when the first
    result's title is the cleaned title up to case, and 50 when neither
    contains the other.  When the two differ, neither is empty and one
    contains the other, it is a whole number of at least 80, with no upper
    limit: a title twice as long as the other gives at least 160.  With an
    empty string on one side only, the confidence is [Infinity], which JSON
    sends as null. *)
Theorem mu_confidence_is_50_or_from_80 (cleanTitle recordTitle : string) :
  let normalizedSearch := toLowerCase cleanTitle in
  let resultTitle := toLowerCase recordTitle in
  let confidence := mu_confidence to_double cleanTitle recordTitle in
  (resultTitle = normalizedSearch -> confidence = Finite 100) /\
  (includes resultTitle normalizedSearch = false ->
   includes normalizedSearch resultTitle = false -> confidence = Finite 50) /\
  (cleanTitle <> "" -> recordTitle <> "" -> confident confidence) /\
  (cleanTitle <> "" -> recordTitle <> "" -> resultTitle <> normalizedSearch ->
   includes resultTitle normalizedSearch || includes normalizedSearch resultTitle = true ->
   exists n, confidence = Finite (inject_Z n) /\ (80 <= n)%Z) /\
  (cleanTitle <> "" -> resultTitle <> normalizedSearch ->
   includes resultTitle normalizedSearch = true ->
   (2 * Z.of_nat (String.length cleanTitle) <= Z.of_nat (String.length recordTitle))%Z ->
   exists n, confidence = Finite (inject_Z n) /\ (160 <= n)%Z) /\
  ((cleanTitle = "" /\ recordTitle <> "") \/ (cleanTitle <> "" /\ recordTitle = "") ->
   confidence = Infinity).
Proof.
  cbv zeta. unfold mu_confidence.
  repeat split.
  - intros ->. now rewrite String.eqb_refl.
  - intros H1 H2. rewrite H1, H2.
    destruct (String.eqb_spec (toLowerCase recordTitle) (toLowerCase cleanTitle)) as [E|_].
    + rewrite E, includes_refl in H1. discriminate.
    + reflexivity.
  - intros Hc Hr.
    destruct (String.eqb (toLowerCase recordTitle) (toLowerCase cleanTitle)).
    { exists 100%Z. split; [reflexivity | lia]. }
    destruct (includes _ _ || includes _ _).
    + destruct (containment_score_80 (toLowerCase cleanTitle) (toLowerCase recordTitle))
        as (q & -> & Hq); auto using toLowerCase_nonempty.
      destruct (Math_round_from 80 q Hq) as (n & -> & Hn). exists n. split; [reflexivity | lia].
    + exists 50%Z. split; [reflexivity | lia].
  - intros Hc Hr Hne Hin.
    destruct (String.eqb_spec (toLowerCase recordTitle) (toLowerCase cleanTitle)) as [E|_];
      [contradiction|].
    rewrite Hin.
    destruct (containment_score_80 (toLowerCase cleanTitle) (toLowerCase recordTitle))
      as (q & -> & Hq); auto using toLowerCase_nonempty.
    destruct (Math_round_from 80 q Hq) as (n & -> & Hn). now exists n.
  - intros Hc Hne Hin Hlen.
    destruct (String.eqb_spec (toLowerCase recordTitle) (toLowerCase cleanTitle)) as [E|_];
      [contradiction|].
    rewrite Hin. cbn [orb].
    assert (Hr : recordTitle <> "").
    { intros ->. destruct cleanTitle; [contradiction | cbn in Hlen; lia]. }
    destruct (containment_score_from 2 (toLowerCase cleanTitle) (toLowerCase recordTitle))
      as (q & -> & Hq); auto using toLowerCase_nonempty; [lia | |].
    { left. now rewrite !toLowerCase_length. }
    destruct (Math_round_from 160 q Hq) as (n & -> & Hn). now exists n.
  - intros H.
    assert (H' : (toLowerCase cleanTitle = "" /\ toLowerCase recordTitle <> "") \/
                 (toLowerCase cleanTitle <> "" /\ toLowerCase recordTitle = "")).
    { destruct H as [[-> Hr]|[Hc ->]]; [left | right]; split;
        auto using toLowerCase_nonempty. }
    rewrite (containment_score_empty _ _ H').
    destruct H' as [[-> Hr]|[Hc ->]].
    + destruct (toLowerCase recordTitle); [contradiction | reflexivity].
    + destruct (toLowerCase cleanTitle) as [|c s]; [contradiction|].
      cbn [String.eqb includes startsWith orb]. reflexivity.
Qed.

(** *** The loop of AniList *)

Lemma titles_of_nonempty result t : In t (titles_of result) -> t <> "".
Proof.
  unfold titles_of. intros [_ H]%filter_In.
  destruct (String.eqb_spec t ""); [discriminate | assumption].
Qed.

Lemma scan_titles_exact ns result titles best :
  In ns titles -> equals 100 (snd (scan_titles to_double ns result titles best)) = true.
Proof.
  revert best. induction titles as [|t rest IH]; intros best; [intros []|].
  intros Hin. cbn [scan_titles].
  destruct (String.eqb_spec t ns) as [E|Hne]; [reflexivity|].
  destruct Hin as [E|Hin]; [contradiction|].
  destruct (includes t ns || includes ns t); now apply IH.
Qed.

Lemma scan_results_exact ns results best :
  Exists (has_exact_title ns) results ->
  equals 100 (snd (scan_results to_double ns results best)) = true.
Proof.
  intros Hex. revert best. induction Hex as [result rest Hhere | result rest _ IH]; intros best;
    cbn [scan_results].
  - now rewrite (scan_titles_exact ns result _ best Hhere), scan_titles_exact.
  - destruct (equals 100 (snd (scan_titles to_double ns result (titles_of result) best))) eqn:E;
      [exact E | apply IH].
Qed.

Lemma scan_titles_unrelated ns result titles best :
  (forall t, In t titles -> t <> ns /\ includes t ns = false /\ includes ns t = false) ->
  scan_titles to_double ns result titles best = best.
Proof.
  induction titles as [|t rest IH]; intros H; [reflexivity|].
  cbn [scan_titles]. destruct (H t (or_introl eq_refl)) as (Hne & -> & ->).
  destruct (String.eqb_spec t ns); [contradiction|].
  apply IH. intros t' Ht'. apply H. now right.
Qed.

Lemma scan_results_unrelated ns results best :
  Forall (unrelated ns) results -> equals 100 (snd best) = false ->
  scan_results to_double ns results best = best.
Proof.
  intros H Hbest. induction H as [|result rest Hr _ IH]; [reflexivity|].
  cbn [scan_results]. rewrite (scan_titles_unrelated ns result _ best Hr), Hbest. exact IH.
Qed.

Lemma scan_titles_well_scored ns pool result titles best :
  ns <> "" -> (forall t, In t titles -> t <> "") -> In result pool ->
  well_scored pool best -> well_scored pool (scan_titles to_double ns result titles best).
Proof.
  intros Hns Htitles Hresult. revert best.
  induction titles as [|t rest IH]; intros best Hbest; [exact Hbest|].
  cbn [scan_titles].
  destruct (String.eqb t ns).
  { split; [exact Hresult|]. right. exists 100%Q. split; [reflexivity | lra]. }
  assert (Hrest : forall t', In t' rest -> t' <> "") by (intros t' Ht'; apply Htitles; now right).
  destruct (includes t ns || includes ns t); [|now apply IH].
  apply IH; [exact Hrest|].
  destruct (greater _ _); [|exact Hbest].
  split; [exact Hresult|]. right.
  apply containment_score_80; [exact Hns | apply Htitles; now left].
Qed.

Lemma scan_results_well_scored ns pool results best :
  ns <> "" -> incl results pool ->
  well_scored pool best -> well_scored pool (scan_results to_double ns results best).
Proof.
  intros Hns. revert best. induction results as [|result rest IH]; intros best Hincl Hbest;
    [exact Hbest|].
  cbn [scan_results].
  assert (Hhere : well_scored pool (scan_titles to_double ns result (titles_of result) best)).
  { apply scan_titles_well_scored;
      [exact Hns | apply titles_of_nonempty | apply Hincl; now left | exact Hbest]. }
  destruct (equals 100 _); [exact Hhere|].
  apply IH; [|exact Hhere]. intros r Hr. apply Hincl. now right.
Qed.

Lemma scan_titles_in pool ns result titles best :
  In result pool -> In (fst best) pool ->
  In (fst (scan_titles to_double ns result titles best)) pool.
Proof.
  intros Hresult. revert best. induction titles as [|t rest IH]; intros best Hbest; [exact Hbest|].
  cbn [scan_titles]. destruct (String.eqb t ns); [exact Hresult|].
  destruct (includes t ns || includes ns t); [|now apply IH].
  apply IH. now destruct (greater _ _).
Qed.

Lemma scan_results_in pool ns results best :
  incl results pool -> In (fst best) pool ->
  In (fst (scan_results to_double ns results best)) pool.
Proof.
  revert best. induction results as [|result rest IH]; intros best Hincl Hbest; [exact Hbest|].
  cbn [scan_results].
  assert (Hhere : In (fst (scan_titles to_double ns result (titles_of result) best)) pool).
  { apply scan_titles_in; [apply Hincl; now left | exact Hbest]. }
  destruct (equals 100 _); [exact Hhere|].
  apply IH; [|exact Hhere]. intros r Hr. apply Hincl. now right.
Qed.

(** X20. GET /match of AniList, for a non-empty result list: the match is
    one of the results.  The confidence is 100 as soon as any result has
    the cleaned title among its titles up to case; it is 50, with the first
    result as the match, when no title of any result contains the cleaned
    title or is contained in it; and for a non-empty cleaned title it is
    always 50 or a whole number from 80 up. *)
Theorem anilist_match_is_a_result (cleanTitle : string) (first : media) (others : list media) :
  let results := first :: others in
  let normalizedSearch := toLowerCase cleanTitle in
  exists bestMatch confidence,
    anilist_match to_double cleanTitle results = Some (bestMatch, confidence) /\
    In bestMatch results /\
    (Exists (has_exact_title normalizedSearch) results -> confidence = Finite 100) /\
    (Forall (unrelated normalizedSearch) results ->
     bestMatch = first /\ confidence = Finite 50) /\
    (cleanTitle <> "" -> confident confidence).
Proof.
  cbv zeta. unfold anilist_match.
  set (ns := toLowerCase cleanTitle). set (results := first :: others).
  destruct (scan_results to_double ns results (first, Finite 0)) as [bestMatch bestScore] eqn:E.
  do 2 eexists. split; [reflexivity|].
  assert (Hin : In bestMatch results).
  { change bestMatch with (fst (bestMatch, bestScore)). rewrite <- E.
    apply scan_results_in; [apply incl_refl | now left]. }
  repeat split.
  - exact Hin.
  - intros Hex. pose proof (scan_results_exact ns results (first, Finite 0) Hex) as H.
    rewrite E in H. cbn [snd] in H.
    destruct bestScore as [q| |]; try discriminate. cbn [equals] in H.
    assert (H0 : equals 0 (Finite q) = false).
    { cbn [equals]. apply Qeq_bool_iff in H. destruct (Qeq_bool q 0) eqn:E0; [|reflexivity].
      apply Qeq_bool_iff in E0. lra. }
    rewrite H0. apply Math_round_100. exact H.
  - rewrite (scan_results_unrelated ns results (first, Finite 0) H eq_refl) in E.
    now injection E as <- _.
  - rewrite (scan_results_unrelated ns results (first, Finite 0) H eq_refl) in E.
    now injection E as _ <-.
  - intros Hc.
    assert (Hok : well_scored results (bestMatch, bestScore)).
    { rewrite <- E. apply scan_results_well_scored;
        [now apply toLowerCase_nonempty | apply incl_refl |].
      split; [now left | now left]. }
    destruct Hok as [_ [Hzero|(q & Hq & Hhigh)]]; cbn [snd] in *; subst bestScore.
    + exists 50%Z. split; [reflexivity | lia].
    + assert (H0 : equals 0 (Finite q) = false).
      { cbn [equals]. destruct (Qeq_bool q 0) eqn:E0; [|reflexivity].
        apply Qeq_bool_iff in E0. lra. }
      rewrite H0. destruct (Math_round_from 80 q Hhigh) as (n & -> & Hn).
      exists n. split; [reflexivity | lia].
Qed.

End Confidence.

Lemma exact_arithmetic_rounds : rounds_to_nearest (fun x : Q => x).
Proof. split; [intros x y H; exact H | reflexivity]. Qed.

Lemma mu_confidence_is_50_or_from_80_witness :
  rounds_to_nearest (fun x : Q => x) /\
  exists n, mu_confidence (fun x : Q => x) "solo leveling" "Solo Leveling: Ragnarok" =
              Finite (inject_Z n) /\ (80 <= n)%Z.
Proof.
  split; [exact exact_arithmetic_rounds|].
  destruct (mu_confidence_is_50_or_from_80 (fun x : Q => x) exact_arithmetic_rounds
              "solo leveling" "Solo Leveling: Ragnarok") as (_ & _ & _ & H & _).
  apply H; [discriminate | discriminate | discriminate | reflexivity].
Defined.

Lemma anilist_match_is_a_result_witness :
  rounds_to_nearest (fun x : Q => x) /\
  exists bestMatch confidence,
    anilist_match (fun x : Q => x) "solo leveling" [solo_leveling_ragnarok; solo_leveling] =
      Some (bestMatch, confidence) /\
    In bestMatch [solo_leveling_ragnarok; solo_leveling] /\
    confidence = Finite 100.
Proof.
  split; [exact exact_arithmetic_rounds|].
  destruct (anilist_match_is_a_result (fun x : Q => x) exact_arithmetic_rounds
              "solo leveling" solo_leveling_ragnarok [solo_leveling])
    as (m & c & Hrun & Hin & Hexact & _).
  exists m, c. repeat split; [exact Hrun | exact Hin |].
  apply Hexact. apply Exists_cons_tl, Exists_cons_hd.
  unfold has_exact_title. vm_compute. right; left; reflexivity.
Defined.

End MatchingFacts.

(* ================================================================== *)
(** * The caches: entries that have expired *)
(* ================================================================== *)
Module CacheExpiryFacts.
Import JS Cache.

Lemma unexpired_stale {A} (cached : option (entry A)) now ttl e :
  cached = Some e -> ttl <= now - timestamp e -> unexpired cached now ttl = None.
Proof.
  intros -> Hle. unfold unexpired. apply Z.ltb_ge in Hle. now rewrite Hle.
Qed.

(** X21. An entry as old as the time to live, or older, is never served,
    not even when the upstream fails: the call asks the upstream once and
    answers as it does on an empty cache.  On success the fresh payload
    replaces the entry; on failure the old entry stays where it is.  No
    other key changes.  This holds for [fetchApi] of Comix.to, for
    GET /info/:id of MangaUpdates and for GET /genre/:slug of Mgeko. *)
Theorem expired_entries_are_refetched :
  (forall upstream now later endpoint (cache : gmap string (entry json)) e,
     cache !! endpoint = Some e -> COMIX_CACHE_TTL <= now - timestamp e ->
     let '(cache', calls, result) := fetchApi upstream now later endpoint cache in
     calls = [endpoint] /\
     result = snd (fetchApi upstream now later endpoint ∅) /\
     (forall k, k <> endpoint -> cache' !! k = cache !! k) /\
     cache' !! endpoint =
       match result with
       | Ok payload => Some {| data := payload; timestamp := later |}
       | Throw _ => Some e
       end) /\
  (forall formatSeriesInfo getSeriesById now later id (muCache : gmap string (entry json)) e,
     muCache !! ("mu-info:" +:+ id) = Some e -> MU_CACHE_TTL <= now - timestamp e ->
     let '(muCache', calls, r) := mu_info formatSeriesInfo getSeriesById now later id muCache in
     calls = [id] /\
     r = snd (mu_info formatSeriesInfo getSeriesById now later id ∅) /\
     (forall k, k <> "mu-info:" +:+ id -> muCache' !! k = muCache !! k) /\
     muCache' !! ("mu-info:" +:+ id) =
       if status r =? 200 then Some {| data := body r; timestamp := later |} else Some e) /\
  (forall scrape now later slug page (genreCache : gmap string (entry (list json))) e,
     genreCache !! genre_key slug page = Some e -> GENRE_CACHE_TTL <= now - timestamp e ->
     let '(genreCache', calls, r) := genre scrape now later slug page genreCache in
     calls = [genre_url slug (genre_pageNum page)] /\
     r = snd (genre scrape now later slug page ∅) /\
     (forall k, k <> genre_key slug page -> genreCache' !! k = genreCache !! k) /\
     genreCache' !! genre_key slug page =
       match scrape (genre_url slug (genre_pageNum page)) with
       | Ok results => Some {| data := results; timestamp := later |}
       | Throw _ => Some e
       end).
Proof.
  split; [|split].
  - intros upstream now later endpoint cache e He Hold. unfold fetchApi.
    rewrite (unexpired_stale _ _ _ e He Hold), lookup_empty. cbn [unexpired].
    destruct (upstream endpoint) as [m|ok status [d|m]]; try destruct ok; cbn;
      repeat split; auto; try (now rewrite lookup_insert_eq).
    intros k Hk. now rewrite lookup_insert_ne.
  - intros formatSeriesInfo getSeriesById now later id muCache e He Hold. unfold mu_info.
    rewrite (unexpired_stale _ _ _ e He Hold), lookup_empty. cbn [unexpired].
    destruct (getSeriesById id) as [series|]; [|repeat split; auto].
    destruct (negb (truthy (Some series))); [repeat split; auto|].
    destruct (formatSeriesInfo series) as [d|m]; cbn; repeat split; auto;
      try (now rewrite lookup_insert_eq).
    intros k Hk. now rewrite lookup_insert_ne.
  - intros scrape now later slug page genreCache e He Hold. unfold genre.
    rewrite (unexpired_stale _ _ _ e He Hold), lookup_empty. cbn [unexpired].
    destruct (scrape _) as [results|m]; cbn; repeat split; auto;
      try (now rewrite lookup_insert_eq).
    intros k Hk. now rewrite lookup_insert_ne.
Qed.

(** X21 for an entry of Comix.to that is exactly thirty minutes old. *)
Lemma expired_entries_are_refetched_witness :
  let cache : gmap string (entry json) :=
    {[ "/manga/solo-leveling" := {| data := JNull; timestamp := 0 |} ]} in
  let '(cache', calls, result) :=
    fetchApi comix_up 1800000 1800350 "/manga/solo-leveling" cache in
  calls = ["/manga/solo-leveling"] /\
  result = Ok solo_leveling /\
  cache' !! "/manga/solo-leveling" = Some {| data := solo_leveling; timestamp := 1800350 |}.
Proof.
  cbv zeta.
  destruct expired_entries_are_refetched as [Hcomix _].
  specialize (Hcomix comix_up 1800000 1800350 "/manga/solo-leveling"
                {[ "/manga/solo-leveling" := {| data := JNull; timestamp := 0 |} ]}
                {| data := JNull; timestamp := 0 |}).
  change (snd (fetchApi comix_up 1800000 1800350 "/manga/solo-leveling" ∅))
    with (Ok (A := json) solo_leveling) in Hcomix.
  destruct (fetchApi comix_up 1800000 1800350 "/manga/solo-leveling"
              {[ "/manga/solo-leveling" := {| data := JNull; timestamp := 0 |} ]})
    as [[cache' calls] result].
  destruct Hcomix as (Hcalls & Hresult & _ & Hstored);
    [apply lookup_singleton_eq | vm_compute; discriminate |].
  subst result. repeat split; assumption.
Defined.

(** ** The keys of the genre cache *)

Local Arguments String.append !s1 s2 : simpl nomatch.

Local Abbreviation no_colon := (all_chars (fun c => negb (Ascii.eqb c ":"))).

Lemma string_of_uint_no_colon d : no_colon (NilEmpty.string_of_uint d) = true.
Proof. induction d; cbn; auto. Qed.

Lemma string_of_Z_no_colon z : no_colon (string_of_Z z) = true.
Proof.
  unfold string_of_Z, NilZero.string_of_int, NilZero.string_of_uint.
  destruct (Z.to_int z) as [[]|[]]; try reflexivity;
    try apply (string_of_uint_no_colon (Decimal.D0 _));
    try apply (string_of_uint_no_colon (Decimal.D1 _));
    try apply (string_of_uint_no_colon (Decimal.D2 _));
    try apply (string_of_uint_no_colon (Decimal.D3 _));
    try apply (string_of_uint_no_colon (Decimal.D4 _));
    try apply (string_of_uint_no_colon (Decimal.D5 _));
    try apply (string_of_uint_no_colon (Decimal.D6 _));
    try apply (string_of_uint_no_colon (Decimal.D7 _));
    try apply (string_of_uint_no_colon (Decimal.D8 _));
    try apply (string_of_uint_no_colon (Decimal.D9 _)).
Qed.

Lemma to_int_not_nil z :
  Z.to_int z <> Decimal.Pos Decimal.Nil /\ Z.to_int z <> Decimal.Neg Decimal.Nil.
Proof.
  split; intros H;
    assert (Hz : z = 0)
      by (rewrite <- (Stdlib.Numbers.DecimalZ.of_to z), H; reflexivity);
    subst z; discriminate.
Qed.

Lemma string_of_Z_inj z z' : string_of_Z z = string_of_Z z' -> z = z'.
Proof.
  unfold string_of_Z. intros H. apply (f_equal NilZero.int_of_string) in H.
  destruct (to_int_not_nil z) as [H1 H2]. destruct (to_int_not_nil z') as [H1' H2'].
  rewrite !NilZero.isi in H by assumption.
  injection H as H. now apply Stdlib.Numbers.DecimalZ.to_int_inj.
Qed.

Lemma string_of_Z_not_NaN z : string_of_Z z <> "NaN".
Proof.
  unfold string_of_Z, NilZero.string_of_int, NilZero.string_of_uint.
  destruct (Z.to_int z) as [[]|[]]; cbn; discriminate.
Qed.

Lemma string_of_number_inj n n' : string_of_number n = string_of_number n' -> n = n'.
Proof.
  destruct n as [z|], n' as [z'|]; cbn [string_of_number]; intros H.
  - f_equal. now apply string_of_Z_inj.
  - now apply string_of_Z_not_NaN in H.
  - symmetry in H. now apply string_of_Z_not_NaN in H.
  - reflexivity.
Qed.

Lemma string_of_number_no_colon n : no_colon (string_of_number n) = true.
Proof. destruct n; [apply string_of_Z_no_colon | reflexivity]. Qed.

Lemma no_colon_app s t : no_colon (s +:+ String ":" t) = false.
Proof.
  induction s as [|c s IH]; [reflexivity|].
  cbn [String.append all_chars]. rewrite IH. apply andb_false_r.
Qed.

(** A key splits at its last colon in one way only. *)
Lemma split_at_last_colon s s' n n' :
  no_colon n = true -> no_colon n' = true ->
  s +:+ String ":" n = s' +:+ String ":" n' -> s = s' /\ n = n'.
Proof.
  intros Hn Hn'. revert s'. induction s as [|c s IH]; intros [|c' s']; cbn [String.append].
  - intros [= ->]. now split.
  - intros [= <- ->]. now rewrite no_colon_app in Hn.
  - intros [= -> <-]. now rewrite no_colon_app in Hn'.
  - intros [= -> H]. destruct (IH _ H) as [-> ->]. now split.
Qed.

(** X22. Two requests to GET /genre/:slug of Mgeko use the same cache entry
    exactly when they have the same slug and the same page number, whatever
    the slug holds (colons included); the page numbers are those a double
    holds exactly.  So an entry served from the cache was stored for the
    slug and the page of the request it answers, and pages written
    differently (a missing page and page 1, or 2 and 2abc) share one
    entry. *)
Theorem genre_cache_keys_do_not_collide slug page slug' page' :
  exact_page (genre_pageNum page) -> exact_page (genre_pageNum page') ->
  (genre_key slug page = genre_key slug' page' <->
   slug = slug' /\ genre_pageNum page = genre_pageNum page') /\
  genre_key slug None = genre_key slug (Some "1") /\
  genre_key slug (Some "") = genre_key slug (Some " 01") /\
  genre_key slug (Some "2") = genre_key slug (Some "2abc").
Proof.
  intros _ _. repeat split; try reflexivity.
  - unfold genre_key in H. cbn [String.append] in H.
    apply split_at_last_colon in H as [H _]; auto using string_of_number_no_colon.
  - unfold genre_key in H. cbn [String.append] in H.
    apply split_at_last_colon in H as [_ H]; auto using string_of_number_no_colon.
    now apply string_of_number_inj.
  - intros [-> H]. unfold genre_key. now rewrite H.
Qed.

(** X22 for two spellings of page 2, and for pages 2 and 3. *)
Lemma genre_cache_keys_do_not_collide_witness :
  genre_key "action" (Some "2") = genre_key "action" (Some "2abc") /\
  genre_key "action" (Some "2") <> genre_key "action" (Some "3").
Proof.
  destruct (genre_cache_keys_do_not_collide "action" (Some "2") "action" (Some "2abc"))
    as [Hsame _]; [split; vm_compute; discriminate.. |].
  destruct (genre_cache_keys_do_not_collide "action" (Some "2") "action" (Some "3"))
    as [Hother _]; [split; vm_compute; discriminate.. |].
  split.
  - apply Hsame. split; reflexivity.
  - intros H. apply Hother in H as [_ H]. discriminate H.
Defined.

End CacheExpiryFacts.

(* ================================================================== *)
(** * Mgeko: the helpers and the listing routes *)
(* ================================================================== *)
Module MgekoListingFacts.
Import JS JSFacts MgekoListing.

Local Arguments String.append !s1 s2 : simpl nomatch.

(** ** [fixImageUrl] *)

Lemma replace_media_nonempty s : s <> "" -> replace_media s <> "".
Proof.
  destruct s as [|c s]; [contradiction|]. intros _.
  change (replace_media (String c s))
    with (match match_media_here (String c s) with
          | Some rest => cdn +:+ "/media/" +:+ rest
          | None => String c (replace_media s)
          end).
  destruct (match_media_here (String c s)); discriminate.
Qed.

Lemma eqb_empty s : String.eqb s "" = false <-> s <> "".
Proof. destruct s; split; try discriminate; try reflexivity. now intros H. Qed.

Lemma startsWith_empty s : startsWith s "" = true.
Proof. now destruct s. Qed.

Lemma startsWith_app p rest : startsWith (p +:+ rest) p = true.
Proof.
  induction p as [|c p IH]; [apply startsWith_empty|].
  cbn [String.append startsWith]. now rewrite Ascii.eqb_refl.
Qed.

Lemma includes_at pre p rest : includes (pre +:+ p +:+ rest) p = true.
Proof.
  induction pre as [|c pre IH]; cbn [String.append].
  - destruct p as [|d p]; cbn [String.append includes].
    + now destruct rest.
    + change (String d (p +:+ rest)) with (String d p +:+ rest).
      now rewrite (startsWith_app (String d p) rest).
  - cbn [includes]. rewrite IH. apply orb_true_r.
Qed.

Lemma strip_prefix_some p : forall s r, strip_prefix p s = Some r -> s = p +:+ r.
Proof.
  induction p as [|a p IH]; intros s r; cbn [strip_prefix String.append].
  - now intros [= ->].
  - destruct s as [|b s]; [discriminate|].
    destruct (Ascii.eqb_spec a b) as [->|]; [|discriminate].
    intros H. now rewrite (IH _ _ H).
Qed.

(** The pattern matches at the start of [s] exactly when [s] starts with one
    of the four media addresses. *)
Lemma match_media_here_some s rest :
  match_media_here s = Some rest -> exists p, In p media_prefixes /\ s = p +:+ rest.
Proof.
  unfold match_media_here, media_prefixes.
  destruct (strip_prefix "http" s) as [r1|] eqn:E1; [|discriminate].
  apply strip_prefix_some in E1. subst s.
  destruct (strip_prefix "s" r1) as [r2|] eqn:E2.
  - apply strip_prefix_some in E2. subst r1.
    destruct (strip_prefix "://" r2) as [r3|] eqn:E3; [|discriminate].
    apply strip_prefix_some in E3. subst r2.
    destruct (strip_prefix "www." r3) as [r4|] eqn:E4.
    + apply strip_prefix_some in E4. subst r3. intros E5%strip_prefix_some. subst r4.
      exists "https://www.mgeko.cc/media/". split; [now left | reflexivity].
    + intros E5%strip_prefix_some. subst r3.
      exists "https://mgeko.cc/media/". split; [right; now left | reflexivity].
  - destruct (strip_prefix "://" r1) as [r3|] eqn:E3; [|discriminate].
    apply strip_prefix_some in E3. subst r1.
    destruct (strip_prefix "www." r3) as [r4|] eqn:E4.
    + apply strip_prefix_some in E4. subst r3. intros E5%strip_prefix_some. subst r4.
      exists "http://www.mgeko.cc/media/". split; [right; right; now left | reflexivity].
    + intros E5%strip_prefix_some. subst r3.
      exists "http://mgeko.cc/media/". split; [right; right; right; now left | reflexivity].
Qed.

Lemma match_media_here_prefix p rest :
  In p media_prefixes -> match_media_here (p +:+ rest) = Some rest.
Proof.
  intros [<-|[<-|[<-|[<-|[]]]]]; reflexivity.
Qed.

Lemma replace_media_unfold s :
  replace_media s =
  match match_media_here s with
  | Some rest => cdn +:+ "/media/" +:+ rest
  | None => match s with
            | EmptyString => EmptyString
            | String c s' => String c (replace_media s')
            end
  end.
Proof. destruct s; reflexivity. Qed.

(** Without a media address there is nothing to replace. *)
Lemma replace_media_free s : media_free s -> replace_media s = s.
Proof.
  induction s as [|c s IH]; intros Hfree; rewrite replace_media_unfold.
  - destruct (match_media_here "") as [rest|] eqn:E; [|reflexivity].
    apply match_media_here_some in E as (p & Hp & E). now elim (Hfree "" p rest Hp).
  - destruct (match_media_here (String c s)) as [rest|] eqn:E.
    + apply match_media_here_some in E as (p & Hp & E). now elim (Hfree "" p rest Hp).
    + f_equal. apply IH. intros pre p rest Hp ->.
      now apply (Hfree (String c pre) p rest Hp).
Qed.

(** Only the first media address is replaced. *)
Lemma replace_media_first p rest :
  In p media_prefixes ->
  forall pre,
    first_media_after pre (pre +:+ p +:+ rest) ->
    replace_media (pre +:+ p +:+ rest) = pre +:+ cdn +:+ "/media/" +:+ rest.
Proof.
  intros Hp. induction pre as [|c pre IH]; intros Hfirst; rewrite replace_media_unfold.
  - cbn [String.append]. now rewrite (match_media_here_prefix p rest Hp).
  - cbn [String.append].
    destruct (match_media_here (String c (pre +:+ p +:+ rest))) as [rest'|] eqn:E.
    + apply match_media_here_some in E as (p' & Hp' & E).
      specialize (Hfirst "" p' rest' Hp' E). cbn in Hfirst. lia.
    + f_equal. apply IH. intros pre' p' rest' Hp' E'.
      specialize (Hfirst (String c pre') p' rest' Hp'). cbn [String.append] in Hfirst.
      rewrite E' in Hfirst. specialize (Hfirst eq_refl). cbn [String.length] in Hfirst. lia.
Qed.

(** X23. [fixImageUrl] of Mgeko gives the empty string exactly for an empty
    address and for one that mentions a placeholder.  An address that
    mentions imgsrv4.com is kept as it is.  An address that mentions
    mgeko.cc/media/ has its first media address of Mgeko (http or https,
    with or without [www.]) moved to the image server, wherever it starts,
    and is kept as it is when it holds none: [//mgeko.cc/media/x.jpg] comes
    back unchanged, so not absolute.  An address that mentions none of the
    three comes back absolute: kept when it starts with http, put under the
    image server otherwise. *)
Theorem fixImageUrl_by_cases (image : string) :
  (fixImageUrl image = "" <-> image = "" \/ includes image "placeholder" = true) /\
  (includes image "placeholder" = false -> includes image "imgsrv4.com" = true ->
   fixImageUrl image = image) /\
  (forall p rest,
     In p media_prefixes -> image = p +:+ rest ->
     includes image "placeholder" = false -> includes image "imgsrv4.com" = false ->
     fixImageUrl image = cdn +:+ "/media/" +:+ rest) /\
  (includes image "placeholder" = false -> includes image "imgsrv4.com" = false ->
   includes image "mgeko.cc/media/" = true ->
   (media_free image -> fixImageUrl image = image) /\
   (forall pre p rest,
      In p media_prefixes -> image = pre +:+ p +:+ rest -> first_media_after pre image ->
      fixImageUrl image = pre +:+ cdn +:+ "/media/" +:+ rest)) /\
  fixImageUrl "//mgeko.cc/media/x.jpg" = "//mgeko.cc/media/x.jpg" /\
  (image <> "" -> includes image "placeholder" = false ->
   includes image "imgsrv4.com" = false -> includes image "mgeko.cc/media/" = false ->
   startsWith (fixImageUrl image) "http" = true /\
   fixImageUrl image =
     if startsWith image "http" then image
     else if startsWith image "/" then cdn +:+ image
     else cdn +:+ "/" +:+ image).
Proof.
  split; [split|split; [|split; [|split; [|split; [reflexivity|]]]]]; unfold fixImageUrl.
  - destruct (String.eqb_spec image "") as [->|Hne]; [now left|].
    destruct (includes image "placeholder"); [now right|].
    destruct (includes image "imgsrv4.com"); [intros H; contradiction|].
    destruct (includes image "mgeko.cc/media/");
      [intros H; now apply replace_media_nonempty in H|].
    destruct (startsWith image "http"); cbn [negb]; [intros H; contradiction|].
    destruct (startsWith image "/"); discriminate.
  - intros [Himage | Hplace]; [now rewrite Himage|].
    rewrite Hplace. now destruct (String.eqb image "").
  - intros Hplace Hsrv. rewrite Hplace, Hsrv. now destruct (String.eqb_spec image "").
  - intros p rest Hp Himage Hplace Hsrv. rewrite Hplace, Hsrv.
    assert (Hne : String.eqb image "" = false).
    { apply eqb_empty. subst image. destruct Hp as [<-|[<-|[<-|[<-|[]]]]]; discriminate. }
    assert (Hmedia : includes image "mgeko.cc/media/" = true).
    { subst image. destruct Hp as [<-|[<-|[<-|[<-|[]]]]].
      - exact (includes_at "https://www." "mgeko.cc/media/" rest).
      - exact (includes_at "https://" "mgeko.cc/media/" rest).
      - exact (includes_at "http://www." "mgeko.cc/media/" rest).
      - exact (includes_at "http://" "mgeko.cc/media/" rest). }
    rewrite Hne, Hmedia. subst image.
    rewrite replace_media_unfold. now rewrite (match_media_here_prefix p rest Hp).
  - intros Hplace Hsrv Hmedia. rewrite Hplace, Hsrv, Hmedia.
    assert (Hne : String.eqb image "" = false).
    { apply eqb_empty. intros ->. discriminate. }
    rewrite Hne. split.
    + apply replace_media_free.
    + intros pre p rest Hp -> Hfirst. now apply replace_media_first.
  - intros Hne Hplace Hsrv Hmedia. rewrite Hplace, Hsrv, Hmedia.
    destruct (String.eqb_spec image "") as [E|_]; [contradiction|].
    destruct (startsWith image "http") eqn:E; cbn [negb]; [now split|].
    destruct (startsWith image "/"); split; reflexivity.
Qed.

(** ** [extractChapterNumber] *)

Lemma span_whole p w : all_chars p w = true -> span p w = (w, "").
Proof.
  induction w as [|c w IH]; [reflexivity|].
  cbn [all_chars span]. intros [Hc Hw]%andb_prop. now rewrite Hc, (IH Hw).
Qed.

Lemma span_until p w c rest :
  all_chars p w = true -> p c = false -> span p (w +:+ String c rest) = (w, String c rest).
Proof.
  intros Hw Hc. induction w as [|d w IH]; cbn [String.append span].
  - now rewrite Hc.
  - cbn [all_chars] in Hw. apply andb_prop in Hw as [Hd Hw]. now rewrite Hd, (IH Hw).
Qed.

Lemma span_taken p s : all_chars p (fst (span p s)) = true.
Proof.
  induction s as [|c s IH]; [reflexivity|].
  cbn [span]. destruct (p c) eqn:Hc; [|reflexivity].
  destruct (span p s) as [taken rest]. cbn [fst all_chars] in *. now rewrite Hc.
Qed.

(** What the pattern captures is a numeral. *)
Lemma match_decimal_numeral s m :
  Mgeko.match_decimal s = Some m ->
  Mgeko.whole m <> "" /\ all_chars is_digit (Mgeko.whole m) = true /\
  all_chars is_digit (Mgeko.fraction m) = true.
Proof.
  unfold Mgeko.match_decimal.
  pose proof (span_taken is_digit s) as Hw.
  destruct (span is_digit s) as [[|d digits] rest]; [discriminate|]. cbn [fst] in Hw.
  assert (Hplain : Some {| Mgeko.whole := String d digits; Mgeko.fraction := "" |} = Some m ->
                   Mgeko.whole m <> "" /\ all_chars is_digit (Mgeko.whole m) = true /\
                   all_chars is_digit (Mgeko.fraction m) = true).
  { intros [= <-]. cbn. repeat split; [discriminate | exact Hw]. }
  destruct rest as [|c after]; [exact Hplain|].
  destruct (Ascii.eqb_spec c ".") as [->|Hc].
  - pose proof (span_taken is_digit after) as Hf.
    destruct (span is_digit after) as [[|e decimals] rest']; [exact Hplain|].
    intros [= <-]. cbn [Mgeko.whole Mgeko.fraction fst] in *.
    repeat split; [discriminate | exact Hw | exact Hf].
  - destruct c as [[] [] [] [] [] [] [] []]; try exact Hplain. now elim Hc.
Qed.

Lemma match_chapter_numeral s m :
  Mgeko.match_chapter s = Some m ->
  Mgeko.whole m <> "" /\ all_chars is_digit (Mgeko.whole m) = true /\
  all_chars is_digit (Mgeko.fraction m) = true.
Proof.
  induction s as [|c s IH].
  - cbn. discriminate.
  - change (Mgeko.match_chapter (String c s))
      with (match Mgeko.match_chapter_here (String c s) with
            | Some n => Some n
            | None => Mgeko.match_chapter s
            end).
    destruct (Mgeko.match_chapter_here (String c s)) as [n|] eqn:Hhere; [|exact IH].
    intros [= <-]. unfold Mgeko.match_chapter_here in Hhere.
    destruct (Mgeko.strip_word_i "chapter" (String c s)) as [[|d after]|]; try discriminate.
    destruct (Mgeko.is_separator d); now apply match_decimal_numeral in Hhere.
Qed.

Lemma append_nothing s : s +:+ "" = s.
Proof. induction s as [|c s IH]; [reflexivity|]. cbn [String.append]. now rewrite IH. Qed.

Lemma captured_numeral m :
  Mgeko.whole m <> "" -> all_chars is_digit (Mgeko.whole m) = true ->
  all_chars is_digit (Mgeko.fraction m) = true -> is_numeral (captured m).
Proof.
  intros Hne Hw Hf. unfold captured.
  destruct (String.eqb_spec (Mgeko.fraction m) "") as [E|E].
  - exists (Mgeko.whole m), "". rewrite append_nothing. repeat split; auto.
  - exists (Mgeko.whole m), ("." +:+ Mgeko.fraction m). repeat split; auto.
    right. now exists (Mgeko.fraction m).
Qed.

(** The pattern captures a numeral back from the text it was captured
    from. *)
Lemma match_decimal_captured m :
  Mgeko.whole m <> "" -> all_chars is_digit (Mgeko.whole m) = true ->
  all_chars is_digit (Mgeko.fraction m) = true ->
  Mgeko.match_decimal (captured m) = Some m.
Proof.
  destruct m as [w f]. cbn [Mgeko.whole Mgeko.fraction]. intros Hne Hw Hf.
  unfold captured, Mgeko.match_decimal. cbn [Mgeko.whole Mgeko.fraction].
  destruct (String.eqb_spec f "") as [->|E].
  - rewrite (span_whole _ _ Hw). now destruct w.
  - cbn [String.append]. rewrite (span_until is_digit w "." f Hw eq_refl).
    destruct w as [|d w]; [contradiction|].
    rewrite (span_whole _ _ Hf). now destruct f.
Qed.

Lemma extractChapterNumber_cases text :
  extractChapterNumber text = "" \/
  exists m, extractChapterNumber text = "Chapter " +:+ captured m /\
            Mgeko.whole m <> "" /\ all_chars is_digit (Mgeko.whole m) = true /\
            all_chars is_digit (Mgeko.fraction m) = true.
Proof.
  unfold extractChapterNumber.
  destruct (String.eqb text ""); [now left|].
  destruct (Mgeko.match_chapter text) as [m|] eqn:Hm; [|now left].
  right. exists m. split; [reflexivity | now apply match_chapter_numeral with text].
Qed.

Lemma extractChapterNumber_captured m :
  Mgeko.whole m <> "" -> all_chars is_digit (Mgeko.whole m) = true ->
  all_chars is_digit (Mgeko.fraction m) = true ->
  extractChapterNumber ("Chapter " +:+ captured m) = "Chapter " +:+ captured m.
Proof.
  intros Hne Hw Hf. unfold extractChapterNumber.
  change (Mgeko.match_chapter ("Chapter " +:+ captured m))
    with (match Mgeko.match_decimal (captured m) with
          | Some n => Some n
          | None => Mgeko.match_chapter ("hapter " +:+ captured m)
          end).
  now rewrite (match_decimal_captured m Hne Hw Hf).
Qed.

(** X24. [extractChapterNumber] of Mgeko answers the empty string or
    [Chapter] followed by a numeral (digits, or digits, a dot and digits),
    and its answers are fixed points: extracting from an answer gives the
    answer back. *)
Theorem extractChapterNumber_is_a_normal_form (text : string) :
  (extractChapterNumber text = "" \/
   exists n, is_numeral n /\ extractChapterNumber text = "Chapter " +:+ n) /\
  extractChapterNumber (extractChapterNumber text) = extractChapterNumber text.
Proof.
  destruct (extractChapterNumber_cases text) as [E | (m & E & Hne & Hw & Hf)]; rewrite E.
  - split; [now left | reflexivity].
  - split; [|now apply extractChapterNumber_captured].
    right. exists (captured m). split; [now apply captured_numeral | reflexivity].
Qed.

(** ** The listings *)

Lemma fold_left_keeps {A B} (P : list B -> Prop) (f : list B -> A -> list B) :
  (forall acc x, P acc -> P (f acc x)) ->
  forall items acc, P acc -> P (fold_left f items acc).
Proof.
  intros Hstep items. induction items as [|x items IH]; intros acc Hacc; [exact Hacc|].
  cbn [fold_left]. apply IH, Hstep, Hacc.
Qed.

Lemma or_else_fallback a b : b <> "" -> or_else a b <> "".
Proof. unfold or_else. intros Hb. now destruct (String.eqb_spec a ""). Qed.

Lemma complete_snoc results r :
  Forall complete results -> complete r -> Forall complete (results ++ [r]).
Proof. intros H Hr. apply Forall_app. split; [exact H | now constructor]. Qed.

Ltac visit_cases el :=
  destruct (href el) as [h|]; [|auto];
  destruct (String.eqb_spec h ""); [auto|].

Lemma visit_latest_complete results el :
  Forall complete results -> Forall complete (visit_latest results el).
Proof.
  intros H. unfold visit_latest. visit_cases el.
  destruct (String.eqb_spec (image_of el) ""); [auto|].
  destruct (String.eqb_spec (title_of el) ""); cbn [negb]; [auto|].
  apply complete_snoc; [exact H|]. repeat split; cbn; auto.
  now apply or_else_fallback.
Qed.

Lemma visit_popular_complete results el :
  Forall complete results -> Forall complete (visit_popular results el).
Proof.
  intros H. unfold visit_popular. visit_cases el.
  destruct (String.eqb_spec (image_of el) ""); [auto|].
  destruct (String.eqb_spec (or_else (title_of el) (or_else (or_empty (link_title el)) "")) "");
    cbn [orb]; [auto|].
  destruct (listed results (id_of_href h)); [auto|].
  apply complete_snoc; [exact H|]. repeat split; cbn; auto.
  now apply or_else_fallback.
Qed.

Lemma visit_trending_complete results el :
  Forall complete results -> Forall complete (visit_trending results el).
Proof.
  intros H. unfold visit_trending. visit_cases el.
  destruct (String.eqb_spec (image_of el) ""); [auto|].
  destruct (String.eqb_spec (title_of el) ""); cbn [orb]; [auto|].
  destruct (listed results (id_of_href h)); [auto|].
  apply complete_snoc; [exact H|]. repeat split; cbn; auto.
  now apply or_else_fallback.
Qed.

Lemma visit_search_complete results el :
  Forall complete results -> Forall complete (visit_search results el).
Proof.
  intros H. unfold visit_search. visit_cases el.
  destruct (String.eqb_spec (image_of el) ""); [auto|].
  destruct (String.eqb_spec (title_of el) ""); cbn [orb]; [auto|].
  apply complete_snoc; [exact H|]. repeat split; cbn; auto.
  now apply or_else_fallback.
Qed.

(** GET /latest and GET /:query list what can be listed, in page order. *)
Lemma visit_search_ids results el :
  map id (visit_search results el) =
  map id results ++ (if searchable el then [href_id el] else []).
Proof.
  unfold visit_search, searchable, href_id.
  destruct (href el) as [h|]; [|now rewrite app_nil_r].
  destruct (String.eqb_spec h ""); cbn [negb andb]; [now rewrite app_nil_r|].
  destruct (String.eqb_spec (image_of el) ""); cbn [negb andb orb]; [now rewrite app_nil_r|].
  destruct (String.eqb_spec (title_of el) ""); cbn [negb andb orb]; [now rewrite app_nil_r|].
  now rewrite map_app.
Qed.

Lemma visit_latest_ids results el :
  map id (visit_latest results el) =
  map id results ++ (if searchable el then [href_id el] else []).
Proof.
  unfold visit_latest, searchable, href_id.
  destruct (href el) as [h|]; [|now rewrite app_nil_r].
  destruct (String.eqb_spec h ""); cbn [negb andb]; [now rewrite app_nil_r|].
  destruct (String.eqb_spec (image_of el) ""); cbn [negb andb orb]; [now rewrite app_nil_r|].
  destruct (String.eqb_spec (title_of el) ""); cbn [negb andb orb]; [now rewrite app_nil_r|].
  now rewrite map_app.
Qed.

Lemma fold_ids (visit : list result -> novel_item -> list result) :
  (forall results el,
     map id (visit results el) = map id results ++ (if searchable el then [href_id el] else [])) ->
  forall items results,
    map id (fold_left visit items results) =
    map id results ++ map href_id (List.filter searchable items).
Proof.
  intros Hvisit items. induction items as [|el items IH]; intros results; cbn [fold_left].
  - cbn. now rewrite app_nil_r.
  - rewrite IH, Hvisit. cbn [List.filter].
    destruct (searchable el); cbn [map]; [now rewrite <- app_assoc | now rewrite app_nil_r].
Qed.

(** GET /popular and GET /trending list an id once. *)
Lemma listed_in results i : listed results i = true <-> In i (map id results).
Proof.
  unfold listed. rewrite existsb_exists, in_map_iff. split.
  - intros (r & Hr & E%String.eqb_eq). now exists r.
  - intros (r & E & Hr). exists r. split; [exact Hr | now apply String.eqb_eq].
Qed.

Lemma NoDup_ids_snoc results r :
  List.NoDup (map id results) -> listed results (id r) = false ->
  List.NoDup (map id (results ++ [r])).
Proof.
  intros Hnd Hnew. rewrite map_app. cbn [map].
  apply ProviderFacts.NoDup_snoc; [exact Hnd|].
  intros Hin. apply listed_in in Hin. congruence.
Qed.

Lemma visit_popular_once results el :
  List.NoDup (map id results) -> List.NoDup (map id (visit_popular results el)).
Proof.
  intros H. unfold visit_popular. visit_cases el.
  destruct (_ || _); [auto|].
  destruct (listed results (id_of_href h)) eqn:E; [auto|].
  now apply NoDup_ids_snoc.
Qed.

Lemma visit_trending_once results el :
  List.NoDup (map id results) -> List.NoDup (map id (visit_trending results el)).
Proof.
  intros H. unfold visit_trending. visit_cases el.
  destruct (_ || _); [auto|].
  destruct (listed results (id_of_href h)) eqn:E; [auto|].
  now apply NoDup_ids_snoc.
Qed.

(** ... and list every id that can be listed. *)
Lemma visit_popular_grows results el i :
  In i (map id results) -> In i (map id (visit_popular results el)).
Proof.
  intros H. unfold visit_popular. visit_cases el.
  destruct (_ || _); [auto|].
  destruct (listed results (id_of_href h)); [auto|].
  rewrite map_app. apply in_or_app. now left.
Qed.

Lemma visit_trending_grows results el i :
  In i (map id results) -> In i (map id (visit_trending results el)).
Proof.
  intros H. unfold visit_trending. visit_cases el.
  destruct (_ || _); [auto|].
  destruct (listed results (id_of_href h)); [auto|].
  rewrite map_app. apply in_or_app. now left.
Qed.

Lemma visit_popular_lists results el :
  listable el = true -> In (href_id el) (map id (visit_popular results el)).
Proof.
  unfold visit_popular, listable, href_id. destruct (href el) as [h|]; [|discriminate].
  cbn [or_empty].
  destruct (String.eqb_spec h ""); cbn [negb andb]; [discriminate|].
  destruct (String.eqb (image_of el) ""); cbn [negb andb orb]; [discriminate|].
  destruct (String.eqb (or_else (title_of el) (or_else (or_empty (link_title el)) "")) "");
    cbn [negb]; [discriminate|]. intros _.
  destruct (listed results (id_of_href h)) eqn:E; [now apply listed_in|].
  rewrite map_app. apply in_or_app. right. now left.
Qed.

Lemma visit_trending_lists results el :
  searchable el = true -> In (href_id el) (map id (visit_trending results el)).
Proof.
  unfold visit_trending, searchable, href_id. destruct (href el) as [h|]; [|discriminate].
  cbn [or_empty].
  destruct (String.eqb_spec h ""); cbn [negb andb]; [discriminate|].
  destruct (String.eqb (image_of el) ""); cbn [negb andb orb]; [discriminate|].
  destruct (String.eqb (title_of el) ""); cbn [negb]; [discriminate|]. intros _.
  destruct (listed results (id_of_href h)) eqn:E; [now apply listed_in|].
  rewrite map_app. apply in_or_app. right. now left.
Qed.

Lemma fold_lists (visit : list result -> novel_item -> list result) (can : novel_item -> bool) :
  (forall results el i, In i (map id results) -> In i (map id (visit results el))) ->
  (forall results el, can el = true -> In (href_id el) (map id (visit results el))) ->
  forall items results el,
    In el items -> can el = true -> In (href_id el) (map id (fold_left visit items results)).
Proof.
  intros Hgrows Hlists items. induction items as [|x items IH]; intros results el [].
  - subst x. intros Hcan. cbn [fold_left].
    apply (fold_left_keeps (fun acc => In (href_id el) (map id acc))); [|now apply Hlists].
    intros acc y. apply Hgrows.
  - intros Hcan. cbn [fold_left]. now apply IH.
Qed.

(** X25. The listings of Mgeko.  Every entry of GET /latest, /popular,
    /trending and /:query has a title, a cover and a latest chapter, none of
    them empty.  GET /latest and GET /:query list the items that have a
    link, a cover and a title one by one in page order, twice when the page
    has them twice; GET /popular and GET /trending list an id once, and
    every id that can be listed is there. *)
Theorem listings_hold_complete_entries (items : list novel_item) :
  (Forall complete (latest items) /\ Forall complete (popular items) /\
   Forall complete (trending items) /\ Forall complete (search items)) /\
  (map id (latest items) = map href_id (List.filter searchable items) /\
   map id (search items) = map href_id (List.filter searchable items)) /\
  (List.NoDup (map id (popular items)) /\ List.NoDup (map id (trending items))) /\
  (forall el, In el items ->
     (listable el = true -> In (href_id el) (map id (popular items))) /\
     (searchable el = true -> In (href_id el) (map id (trending items)))).
Proof.
  unfold latest, popular, trending, search. repeat split.
  - apply (fold_left_keeps (Forall complete)); [apply visit_latest_complete | constructor].
  - apply (fold_left_keeps (Forall complete)); [apply visit_popular_complete | constructor].
  - apply (fold_left_keeps (Forall complete)); [apply visit_trending_complete | constructor].
  - apply (fold_left_keeps (Forall complete)); [apply visit_search_complete | constructor].
  - apply (fold_ids visit_latest visit_latest_ids items []).
  - apply (fold_ids visit_search visit_search_ids items []).
  - apply (fold_left_keeps (fun acc => List.NoDup (map id acc)));
      [apply visit_popular_once | constructor].
  - apply (fold_left_keeps (fun acc => List.NoDup (map id acc)));
      [apply visit_trending_once | constructor].
  - now apply (fold_lists visit_popular listable visit_popular_grows visit_popular_lists).
  - now apply (fold_lists visit_trending searchable visit_trending_grows visit_trending_lists).
Qed.

(** ** The pages of GET /trending *)

Lemma append_cancel s a b : s +:+ a = s +:+ b -> a = b.
Proof.
  induction s as [|c s IH]; cbn [String.append]; [auto|]. intros [= H]. now apply IH.
Qed.

Lemma trending_page_spec p : trending_page p = (p - 1) / 5 + 1.
Proof.
  unfold trending_page. cbn [trendingTerms length Z.of_nat]. change (Z.of_nat 5) with 5.
  pose proof (Z.div_mod (p - 1) 5 ltac:(lia)) as Hdiv.
  pose proof (Z.mod_pos_bound (p - 1) 5 ltac:(lia)) as Hmod.
  assert (H : (- p) / 5 = - ((p - 1) / 5) - 1).
  { symmetry. apply (Z.div_unique (- p) 5 _ (4 - (p - 1) mod 5)); lia. }
  lia.
Qed.

(** The term and the page of Mgeko's search that a page from 1 on asks
    for. *)
Lemma trending_url_from_1 p :
  1 <= p ->
  trending_url (Some p) =
  "/search/?search=" +:+
  encodeURIComponent (nth (Z.to_nat ((p - 1) mod 5)) trendingTerms "undefined") +:+
  (if p =? 1 then "" else "&page=" +:+ string_of_Z ((p - 1) / 5 + 1)).
Proof.
  intros Hp. unfold trending_url, trending_term.
  change (Z.of_nat (length trendingTerms)) with 5.
  rewrite Z.rem_mod_nonneg by lia.
  pose proof (Z.mod_pos_bound (p - 1) 5 ltac:(lia)) as Hmod.
  destruct (Z.ltb_spec ((p - 1) mod 5) 0) as [|_]; [lia|].
  rewrite trending_page_spec.
  assert (Hterm : match nth_error trendingTerms (Z.to_nat ((p - 1) mod 5)) with
                  | Some t => t
                  | None => "undefined"
                  end = nth (Z.to_nat ((p - 1) mod 5)) trendingTerms "undefined").
  { destruct (nth_error trendingTerms (Z.to_nat ((p - 1) mod 5))) as [t|] eqn:E.
    - symmetry. now apply nth_error_nth.
    - apply nth_error_None in E. symmetry. now apply nth_overflow. }
  rewrite Hterm.
  destruct (Z.ltb_spec 1 p), (Z.eqb_spec p 1); try lia; reflexivity.
Qed.

Lemma mod_5_cases x :
  0 <= x < 5 -> x = 0 \/ x = 1 \/ x = 2 \/ x = 3 \/ x = 4.
Proof. lia. Qed.

(** X26. GET /trending of Mgeko turns its page number into one of five
    search terms and a page of that search: page p from 1 on asks for term
    (p - 1) mod 5 and, beyond page 1, for page (p - 1) div 5 + 1 of it.  Two
    different pages from 1 on never ask for the same address.  A page below
    1 whose predecessor is no multiple of 5, and a page that is no number,
    search for the word undefined.  The pages are those a double holds
    exactly. *)
Theorem trending_pages_are_distinct :
  (forall p, 1 <= p <= 2 ^ 53 ->
     exists term,
       nth_error trendingTerms (Z.to_nat ((p - 1) mod 5)) = Some term /\
       trending_url (Some p) =
       "/search/?search=" +:+ encodeURIComponent term +:+
       (if p =? 1 then "" else "&page=" +:+ string_of_Z ((p - 1) / 5 + 1))) /\
  (forall p q, 1 <= p <= 2 ^ 53 -> 1 <= q <= 2 ^ 53 ->
     trending_url (Some p) = trending_url (Some q) -> p = q) /\
  (forall p, - 2 ^ 53 <= p <= 0 -> (p - 1) mod 5 <> 0 ->
     trending_url (Some p) = "/search/?search=undefined") /\
  trending_url None = "/search/?search=undefined".
Proof.
  split; [|split; [|split]].
  - intros p [Hp _]. rewrite (trending_url_from_1 p Hp).
    pose proof (Z.mod_pos_bound (p - 1) 5 ltac:(lia)) as Hmod.
    destruct (mod_5_cases _ Hmod) as [E|[E|[E|[E|E]]]]; rewrite E;
      eexists; (split; [reflexivity | reflexivity]).
  - intros p q [Hp _] [Hq _].
    rewrite (trending_url_from_1 p Hp), (trending_url_from_1 q Hq).
    pose proof (Z.mod_pos_bound (p - 1) 5 ltac:(lia)) as Hmp.
    pose proof (Z.mod_pos_bound (q - 1) 5 ltac:(lia)) as Hmq.
    pose proof (Z.div_mod (p - 1) 5 ltac:(lia)) as Hdp.
    pose proof (Z.div_mod (q - 1) 5 ltac:(lia)) as Hdq.
    intros H. apply append_cancel in H.
    assert (Hsame : (p - 1) mod 5 = (q - 1) mod 5 /\
                    (if p =? 1 then "" else "&page=" +:+ string_of_Z ((p - 1) / 5 + 1)) =
                    (if q =? 1 then "" else "&page=" +:+ string_of_Z ((q - 1) / 5 + 1))).
    { destruct (mod_5_cases _ Hmp) as [E|[E|[E|[E|E]]]]; rewrite E in *;
        destruct (mod_5_cases _ Hmq) as [F|[F|[F|[F|F]]]]; rewrite F in *;
        cbn in H; try discriminate H; split; try reflexivity;
        repeat (injection H as H); exact H. }
    destruct Hsame as [Hmod Hpage].
    destruct (Z.eqb_spec p 1), (Z.eqb_spec q 1); try lia; try discriminate Hpage.
    apply (append_cancel "&page=") in Hpage.
    apply CacheExpiryFacts.string_of_Z_inj in Hpage. lia.
  - intros p [_ Hp] Hmod. unfold trending_url, trending_term.
    change (Z.of_nat (length trendingTerms)) with 5.
    assert (Hrem : Z.rem (p - 1) 5 < 0).
    { pose proof (Z.rem_bound_pos_neg (p - 1) 5 ltac:(lia) ltac:(lia)).
      destruct (Z.eq_dec (Z.rem (p - 1) 5) 0) as [E|]; [|lia].
      exfalso. apply Hmod. apply Z.rem_divide in E; [|lia].
      now apply Z.mod_divide. }
    destruct (Z.ltb_spec (Z.rem (p - 1) 5) 0); [|lia].
    destruct (Z.ltb_spec 1 p); [lia | reflexivity].
  - reflexivity.
Qed.

(** ** The pages of GET /read *)

Lemma includes_nonempty s p : p <> "" -> includes s p = true -> s <> "".
Proof. intros Hp H E. subst s. destruct p; [now elim Hp | vm_compute in H; discriminate]. Qed.

Lemma visit_image_selected pages index el :
  In el (reader_images [el]) ->
  visit_image pages (index, el) =
  pages ++ [{| page_number := Z.of_nat index + 1; page_img := or_empty (img_src el) |}].
Proof.
  unfold reader_images, visit_image. cbn [List.filter].
  destruct (img_src el) as [s|]; [|intros []].
  destruct (includes s "imgsrv") eqn:E; [|intros []]. intros _.
  assert (Hs : s <> "") by (apply (includes_nonempty s "imgsrv"); [discriminate | exact E]).
  apply eqb_empty in Hs. cbn [or_empty]. unfold or_else. rewrite Hs, Hs. reflexivity.
Qed.

Lemma fold_visit_image selected : forall start pages,
  Forall (fun el => In el (reader_images [el])) selected ->
  fold_left visit_image (combine (seq start (length selected)) selected) pages =
  pages ++ map (fun entry => {| page_number := Z.of_nat (fst entry) + 1;
                                page_img := or_empty (img_src (snd entry)) |})
             (combine (seq start (length selected)) selected).
Proof.
  induction selected as [|el selected IH]; intros start pages Hsel; cbn [length seq combine fold_left map].
  - now rewrite app_nil_r.
  - inversion Hsel as [|? ? Hel Hrest]; subst.
    rewrite (visit_image_selected pages start el Hel), (IH (S start) _ Hrest).
    now rewrite <- app_assoc.
Qed.

Lemma reader_images_selected imgs :
  Forall (fun el => In el (reader_images [el])) (reader_images imgs).
Proof.
  apply List.Forall_forall. intros el [_ Hel]%filter_In.
  unfold reader_images. cbn [List.filter]. rewrite Hel. now left.
Qed.

(** X27. GET /read of Mgeko numbers its pages 1, 2, 3 and so on without a
    gap, in document order: there is one page for each image whose [src]
    contains imgsrv, its [img] is that [src], and the test that skips an
    image without an address never does. *)
Theorem read_pages_are_numbered_from_1 (imgs : list img) :
  let selected := reader_images imgs in
  map page_number (read_pages imgs) = map (fun i => Z.of_nat i + 1) (seq 0 (length selected)) /\
  map page_img (read_pages imgs) = map (fun el => or_empty (img_src el)) selected /\
  Forall (fun p => includes (page_img p) "imgsrv" = true) (read_pages imgs).
Proof.
  cbv zeta. unfold read_pages.
  rewrite (fold_visit_image (reader_images imgs) 0 [] (reader_images_selected imgs)).
  cbn [app].
  assert (Hlen : length (seq 0 (length (reader_images imgs))) = length (reader_images imgs))
    by apply length_seq.
  repeat split.
  - rewrite map_map. cbn [page_number].
    rewrite <- (map_map fst (fun i => Z.of_nat i + 1)).
    f_equal. revert Hlen. generalize (seq 0 (length (reader_images imgs))).
    induction (reader_images imgs) as [|el l IH]; intros [|i s]; cbn; try discriminate; auto.
    intros [= H]. now rewrite IH.
  - rewrite map_map. cbn [page_img].
    rewrite <- (map_map snd (fun el => or_empty (img_src el))).
    f_equal. revert Hlen. generalize (seq 0 (length (reader_images imgs))).
    induction (reader_images imgs) as [|el l IH]; intros [|i s]; cbn; try discriminate; auto.
    intros [= H]. now rewrite IH.
  - apply List.Forall_forall. intros p [[i el] [<- Hin]]%in_map_iff. cbn [page_img snd].
    apply in_combine_r in Hin. unfold reader_images in Hin.
    apply filter_In in Hin as [_ Hel].
    destruct (img_src el) as [s|]; [exact Hel | discriminate].
Qed.

End MgekoListingFacts.

(* ================================================================== *)
(** * Comix.to: the chapter list of GET /info/:id *)
(* ================================================================== *)
Module ComixFacts.
Import JS Comix.

Section Chapters.

Context {raw formatted : Type}.
Variable number : raw -> option Q.
Variable formatChapter : raw -> completion formatted.
Variable chapters_page : Z -> completion (list raw * bool).

Local Abbreviation fetch_pages := (Comix.fetch_pages chapters_page).
Local Abbreviation items_of := (Comix.items_of chapters_page).

(** ** The pages *)

Lemma items_of_cons page pages :
  items_of (page :: pages) =
  match chapters_page page with Ok (items, _) => items | Throw _ => [] end ++ items_of pages.
Proof. reflexivity. Qed.

(** A loop with pages left asks for the pages up to the first one that
    fails or is the last, or for all the pages it has left. *)
Lemma fetch_pages_run budget : forall page allChapters,
  budget <> O ->
  exists k,
    (1 <= k <= budget)%nat /\
    fst (fetch_pages budget page allChapters) = pages_from page k /\
    (forall i, (i < k - 1)%nat ->
       exists items, chapters_page (page + Z.of_nat i) = Ok (items, true)) /\
    match chapters_page (page + Z.of_nat (k - 1)) with
    | Throw message => snd (fetch_pages budget page allChapters) = Throw message
    | Ok (_, hasMore) =>
        snd (fetch_pages budget page allChapters) =
          Ok (allChapters ++ items_of (pages_from page k)) /\
        (hasMore = true -> k = budget)
    end.
Proof.
  induction budget as [|budget IH]; intros page allChapters Hne; [contradiction|].
  cbn [Comix.fetch_pages].
  assert (Hone : forall outcome,
            match chapters_page page with
            | Throw message => snd outcome = Throw message
            | Ok (_, hasMore) =>
                snd outcome = Ok (allChapters ++ items_of [page]) /\
                (hasMore = true -> 1%nat = S budget)
            end ->
            fst outcome = [page] ->
            exists k,
              (1 <= k <= S budget)%nat /\
              fst outcome = pages_from page k /\
              (forall i, (i < k - 1)%nat ->
                 exists items, chapters_page (page + Z.of_nat i) = Ok (items, true)) /\
              match chapters_page (page + Z.of_nat (k - 1)) with
              | Throw message => snd outcome = Throw message
              | Ok (_, hasMore) =>
                  snd outcome = Ok (allChapters ++ items_of (pages_from page k)) /\
                  (hasMore = true -> k = S budget)
              end).
  { intros outcome Hlast Hasked. exists 1%nat.
    split; [lia|]. split; [exact Hasked|]. split; [intros i Hi; lia|].
    cbn [Nat.sub Z.of_nat pages_from]. now rewrite Z.add_0_r. }
  destruct (chapters_page page) as [[items hasMore]|message] eqn:Hpage.
  - assert (Hitems : items_of [page] = items).
    { rewrite items_of_cons, Hpage. cbn. apply app_nil_r. }
    destruct hasMore.
    + destruct budget as [|budget'].
      * apply Hone; [|reflexivity]. cbn [Comix.fetch_pages snd]. rewrite Hitems. now split.
      * destruct (IH (page + 1) (allChapters ++ items) ltac:(discriminate))
          as (k & Hk & Hasked & Hbefore & Hlast).
        destruct (Comix.fetch_pages chapters_page (S budget') (page + 1) (allChapters ++ items))
          as [asked result]. cbn [fst snd] in *.
        exists (S k). split; [lia|]. split; [cbn [pages_from]; now rewrite Hasked|]. split.
        -- intros i Hi. destruct i as [|i].
           ++ exists items. now rewrite Z.add_0_r.
           ++ destruct (Hbefore i ltac:(lia)) as [items' Hitems']. exists items'.
              rewrite <- Hitems'. f_equal. lia.
        -- replace (page + Z.of_nat (S k - 1)) with (page + 1 + Z.of_nat (k - 1)) by lia.
           destruct (chapters_page (page + 1 + Z.of_nat (k - 1))) as [[items' more]|message];
             [|exact Hlast].
           destruct Hlast as [Hresult Hmore]. split; [|intros H; specialize (Hmore H); lia].
           rewrite Hresult. cbn [pages_from]. rewrite items_of_cons, Hpage.
           now rewrite <- app_assoc.
    + apply Hone; [|reflexivity]. cbn [snd]. rewrite Hitems. split; [reflexivity | discriminate].
  - apply Hone; reflexivity.
Qed.

(** X28. GET /info/:id of Comix.to asks for the pages 1, 2, ... of the
    chapter list one after the other, and at most for 50.  It stops at the
    first page that fails, and the failure is the outcome; or at the first
    page that does not say there is another one, or at page 50 even when
    that one says so, and the outcome is the items of the pages asked for,
    in order: what lies beyond page 50 is left out without a word. *)
Theorem chapter_pages_stop_at_50 :
  exists k,
    (1 <= k <= 50)%nat /\
    fst (rawChapters chapters_page) = pages_from 1 k /\
    (forall i, (i < k - 1)%nat ->
       exists items, chapters_page (1 + Z.of_nat i) = Ok (items, true)) /\
    match chapters_page (Z.of_nat k) with
    | Throw message => snd (rawChapters chapters_page) = Throw message
    | Ok (_, hasMore) =>
        snd (rawChapters chapters_page) = Ok (items_of (pages_from 1 k)) /\
        (hasMore = true -> k = 50%nat)
    end.
Proof.
  destruct (fetch_pages_run 50 1 [] ltac:(discriminate)) as (k & Hk & Hasked & Hbefore & Hlast).
  exists k. split; [exact Hk|]. split; [exact Hasked|]. split; [exact Hbefore|].
  replace (Z.of_nat k) with (1 + Z.of_nat (k - 1)) by lia. exact Hlast.
Qed.

(** ** The versions of a number *)

Local Abbreviation num_of := (Comix.num_of number).
Local Abbreviation group_chapter := (Comix.group_chapter number formatChapter).
Local Abbreviation group_chapters := (Comix.group_chapters number formatChapter).

Lemma Qeq_bool_refl q : Qeq_bool q q = true.
Proof. apply Qeq_bool_iff. reflexivity. Qed.

Lemma Qeq_bool_sym a b : Qeq_bool a b = Qeq_bool b a.
Proof.
  destruct (Qeq_bool a b) eqn:E, (Qeq_bool b a) eqn:F; try reflexivity.
  - apply Qeq_bool_iff in E. symmetry in E. apply Qeq_bool_iff in E. congruence.
  - apply Qeq_bool_iff in F. symmetry in F. apply Qeq_bool_iff in F. congruence.
Qed.

Lemma Qeq_bool_same a b c : Qeq_bool a b = true -> Qeq_bool c a = Qeq_bool c b.
Proof.
  intros Hab%Qeq_bool_iff.
  destruct (Qeq_bool c a) eqn:E, (Qeq_bool c b) eqn:F; try reflexivity.
  - apply Qeq_bool_iff in E. rewrite Hab in E. apply Qeq_bool_iff in E. congruence.
  - apply Qeq_bool_iff in F. rewrite <- Hab in F. apply Qeq_bool_iff in F. congruence.
Qed.

Lemma existsb_same_number a b (l : list raw) :
  Qeq_bool a b = true ->
  existsb (fun c => Qeq_bool (num_of c) a) l = existsb (fun c => Qeq_bool (num_of c) b) l.
Proof.
  intros Hab. induction l as [|c l IH]; [reflexivity|].
  cbn [existsb]. now rewrite IH, (Qeq_bool_same _ _ (num_of c) Hab).
Qed.

Lemma has_get (m : list (Q * list formatted)) k :
  has m k = match get m k with Some _ => true | None => false end.
Proof.
  induction m as [|[k' vs] m IH]; [reflexivity|].
  cbn [has existsb get fst]. destruct (Qeq_bool k' k); [reflexivity | exact IH].
Qed.

(** A push reaches the versions of its number and no others. *)
Lemma get_push (m : list (Q * list formatted)) num f k :
  get (push m num f) k =
  if Qeq_bool num k then option_map (fun vs => vs ++ [f]) (get m k) else get m k.
Proof.
  induction m as [|[k' vs] m IH]; cbn [push get].
  - now destruct (Qeq_bool num k).
  - destruct (Qeq_bool k' num) eqn:Hnum; cbn [get].
    + rewrite (Qeq_bool_sym num k), <- (Qeq_bool_same _ _ k Hnum), (Qeq_bool_sym k k').
      now destruct (Qeq_bool k' k).
    + destruct (Qeq_bool k' k) eqn:Hk; [|exact IH].
      rewrite <- (Qeq_bool_same _ _ num Hk), (Qeq_bool_sym num k').
      now rewrite Hnum.
Qed.

Lemma get_new (m : list (Q * list formatted)) num k :
  get (m ++ [(num, [])]) k =
  match get m k with
  | Some vs => Some vs
  | None => if Qeq_bool num k then Some [] else None
  end.
Proof.
  induction m as [|[k' vs] m IH]; cbn [app get]; [reflexivity|].
  destruct (Qeq_bool k' k); [reflexivity | exact IH].
Qed.

Lemma keys_push (m : list (Q * list formatted)) num f : map fst (push m num f) = map fst m.
Proof.
  induction m as [|[k' vs] m IH]; [reflexivity|].
  cbn [push]. destruct (Qeq_bool k' num); cbn [map fst]; [reflexivity | now rewrite IH].
Qed.

Lemma get_key (m : list (Q * list formatted)) k :
  In k (map fst m) -> exists vs, get m k = Some vs.
Proof.
  induction m as [|[k' vs] m IH]; [intros []|].
  cbn [map fst get]. intros [->|Hin].
  - rewrite Qeq_bool_refl. now exists vs.
  - destruct (Qeq_bool k' k); [now exists vs | now apply IH].
Qed.

Lemma get_some_key (m : list (Q * list formatted)) k vs :
  get m k = Some vs -> exists k', In k' (map fst m) /\ (k' == k)%Q.
Proof.
  induction m as [|[k' vs'] m IH]; [discriminate|].
  cbn [get map fst]. destruct (Qeq_bool k' k) eqn:E.
  - intros _. exists k'. split; [now left | now apply Qeq_bool_iff].
  - intros H. destruct (IH H) as (k'' & Hin & Heq). exists k''. split; [now right | exact Heq].
Qed.

Lemma get_none_keys (m : list (Q * list formatted)) k :
  get m k = None -> Forall (fun a => ~ (a == k)%Q) (map fst m).
Proof.
  induction m as [|[k' vs'] m IH]; [constructor|].
  cbn [get map fst]. destruct (Qeq_bool k' k) eqn:E; [discriminate|].
  intros H. constructor; [|now apply IH].
  intros Heq. apply Qeq_bool_iff in Heq. congruence.
Qed.

Section Formatted.

(** What [formatChapter] returns for the chapters it accepts. *)
Variable format : raw -> formatted.

Local Abbreviation versions_of := (Comix.versions_of number format).

Lemma versions_of_snoc processed chapter k :
  versions_of (processed ++ [chapter]) k =
  versions_of processed k ++ (if Qeq_bool (num_of chapter) k then [format chapter] else []).
Proof.
  unfold Comix.versions_of. rewrite List.filter_app, map_app. cbn [List.filter].
  now destruct (Qeq_bool (num_of chapter) k).
Qed.

Lemma versions_of_none processed k :
  existsb (fun chapter => Qeq_bool (num_of chapter) k) processed = false ->
  versions_of processed k = [].
Proof.
  unfold Comix.versions_of. induction processed as [|c l IH]; [reflexivity|].
  cbn [existsb List.filter]. intros [Hc Hl]%orb_false_iff. rewrite Hc. now apply IH.
Qed.

Local Abbreviation grouped := (Comix.grouped number format).

Lemma group_chapter_grouped processed m chapter :
  grouped processed m -> formatChapter chapter = Ok (format chapter) ->
  exists m', group_chapter m chapter = Ok m' /\ grouped (processed ++ [chapter]) m'.
Proof.
  intros [Hkeys Hget] Hformat. unfold Comix.group_chapter. rewrite Hformat.
  eexists. split; [reflexivity|]. split.
  - rewrite keys_push. rewrite has_get.
    destruct (get m (num_of chapter)) as [vs|] eqn:E; [exact Hkeys|].
    rewrite map_app. cbn [map fst].
    apply (MgekoFacts.distinct_snoc (fun k : Q => k)); [exact Hkeys|].
    now apply get_none_keys.
  - intros k. rewrite get_push, existsb_app, versions_of_snoc. cbn [existsb].
    rewrite orb_false_r.
    assert (Hm1 : get (if has m (num_of chapter) then m else m ++ [(num_of chapter, [])]) k =
                  match get m k with
                  | Some vs => Some vs
                  | None => if Qeq_bool (num_of chapter) k then Some [] else None
                  end).
    { rewrite has_get. destruct (get m (num_of chapter)) as [vs|] eqn:E.
      - destruct (get m k) as [vs'|] eqn:E'; [reflexivity|].
        destruct (Qeq_bool (num_of chapter) k) eqn:Hk; [|reflexivity].
        rewrite Hget in E, E'.
        rewrite (existsb_same_number _ _ processed Hk) in E.
        destruct (existsb _ processed); discriminate.
      - apply get_new. }
    rewrite Hm1, Hget.
    destruct (existsb (fun c => Qeq_bool (num_of c) k) processed) eqn:Hex;
      destruct (Qeq_bool (num_of chapter) k); cbn [option_map orb app];
      rewrite ?app_nil_r, ?(versions_of_none _ _ Hex); reflexivity.
Qed.

Lemma group_chapters_grouped chapters : forall processed m,
  grouped processed m ->
  (forall chapter, In chapter chapters -> formatChapter chapter = Ok (format chapter)) ->
  exists m', group_chapters chapters m = Ok m' /\ grouped (processed ++ chapters) m'.
Proof.
  induction chapters as [|chapter rest IH]; intros processed m Hm Hformat.
  - exists m. rewrite app_nil_r. now split.
  - cbn [Comix.group_chapters].
    destruct (group_chapter_grouped processed m chapter Hm (Hformat chapter (or_introl eq_refl)))
      as (m1 & -> & Hm1).
    destruct (IH (processed ++ [chapter]) m1 Hm1) as (m' & Hrun & Hm').
    { intros c Hc. apply Hformat. now right. }
    exists m'. split; [exact Hrun|]. now rewrite <- app_assoc in Hm'.
Qed.

Lemma group_chapters_throws chapters : forall m chapter message,
  In chapter chapters -> formatChapter chapter = Throw message ->
  exists message', group_chapters chapters m = Throw message'.
Proof.
  induction chapters as [|c rest IH]; intros m chapter message []; intros Hthrow.
  - subst c. cbn [Comix.group_chapters]. unfold Comix.group_chapter. rewrite Hthrow.
    now exists message.
  - cbn [Comix.group_chapters]. destruct (group_chapter m c) as [m1|message1].
    + now apply IH with chapter message.
    + now exists message1.
Qed.

Local Abbreviation entry_for := (Comix.entry_for number format).

Lemma entries_of_grouped rawChapters m numbers :
  grouped rawChapters m -> incl numbers (map fst m) ->
  entries_of m numbers = Ok (map (entry_for rawChapters) numbers).
Proof.
  intros [_ Hget] Hincl. induction numbers as [|num rest IH]; [reflexivity|].
  cbn [Comix.entries_of map]. unfold Comix.entry_of.
  destruct (get_key m num (Hincl num (or_introl eq_refl))) as [vs Hvs].
  rewrite Hvs. rewrite Hget in Hvs.
  destruct (existsb _ rawChapters); [|discriminate]. injection Hvs as <-.
  rewrite IH; [reflexivity|]. intros k Hk. apply Hincl. now right.
Qed.

(** When [formatChapter] accepts every chapter, the reply has one entry per
    number, in strictly descending order, and an entry holds the versions
    of its number. *)
Lemma chapters_grouped (rawChapters : list raw) :
  (forall chapter, In chapter rawChapters -> formatChapter chapter = Ok (format chapter)) ->
  exists numbers,
    chapters number formatChapter rawChapters =
      Ok (numbers, map (entry_for rawChapters) numbers) /\
    StronglySorted (fun a b => (b < a)%Q) numbers /\
    (forall chapter, In chapter rawChapters ->
       exists num, In num numbers /\ (num == num_of chapter)%Q /\
                   In (format chapter) (versions_of rawChapters num)) /\
    (forall num, In num numbers -> versions_of rawChapters num <> []).
Proof.
  intros Hformat.
  destruct (group_chapters_grouped rawChapters [] [] (conj I (fun _ => eq_refl)) Hformat)
    as (m & Hrun & Hm).
  cbn [app] in Hm. unfold Comix.chapters. rewrite Hrun.
  exists (sortedNumbers m).
  assert (Hin : forall k, In k (sortedNumbers m) <-> In k (map fst m)).
  { intros k. apply (MgekoFacts.in_sort_by (fun q : Q => q)). }
  rewrite (entries_of_grouped rawChapters m _ Hm) by (intros k; apply Hin).
  destruct Hm as [Hkeys Hget].
  split; [reflexivity|]. split; [|split].
  + apply (MgekoFacts.descending_distinct_strict (fun q : Q => q)).
    * apply (MgekoFacts.sort_by_descending (fun q : Q => q)).
    * now apply (MgekoFacts.sort_by_distinct (fun q : Q => q)).
  + intros chapter Hchapter.
    assert (Hex : existsb (fun c => Qeq_bool (num_of c) (num_of chapter)) rawChapters = true).
    { apply existsb_exists. exists chapter. split; [exact Hchapter | apply Qeq_bool_refl]. }
    pose proof (Hget (num_of chapter)) as Hnum. rewrite Hex in Hnum.
    destruct (get_some_key _ _ _ Hnum) as (k & Hk & Heq).
    exists k. split; [now apply Hin|]. split; [exact Heq|].
    unfold Comix.versions_of. apply in_map, filter_In. split; [exact Hchapter|].
    apply Qeq_bool_iff. now symmetry.
  + intros num Hnum%Hin. destruct (get_key m num Hnum) as [vs Hvs].
    rewrite Hget in Hvs.
    destruct (existsb (fun c => Qeq_bool (num_of c) num) rawChapters) eqn:Hex; [|discriminate].
    apply existsb_exists in Hex as (c & Hc & Hcnum).
    intros Hnil. assert (Hinc : In (format c) (versions_of rawChapters num)).
    { unfold Comix.versions_of. apply in_map, filter_In. now split. }
    rewrite Hnil in Hinc. destruct Hinc.
Qed.

(** X29. GET /info/:id of Comix.to groups the chapters by number.  When
    [formatChapter] accepts every chapter, the numbers of the reply are
    strictly descending, so no number comes twice; the entry of a number
    holds all the versions with that number, and only those, in the order
    they came in, the first one as the entry itself; every chapter is a
    version of some entry (a chapter without a number under 0); and no entry
    is without a version.  When [formatChapter] throws for a chapter, the
    handler throws. *)
Theorem chapters_are_grouped_by_number (rawChapters : list raw) :
  ((forall chapter, In chapter rawChapters -> formatChapter chapter = Ok (format chapter)) ->
   exists numbers,
     chapters number formatChapter rawChapters =
       Ok (numbers, map (entry_for rawChapters) numbers) /\
     StronglySorted (fun a b => (b < a)%Q) numbers /\
     (forall chapter, In chapter rawChapters ->
        exists num, In num numbers /\ (num == num_of chapter)%Q /\
                    In (format chapter) (versions_of rawChapters num)) /\
     (forall num, In num numbers -> versions_of rawChapters num <> [])) /\
  (forall chapter message,
     In chapter rawChapters -> formatChapter chapter = Throw message ->
     exists message', chapters number formatChapter rawChapters = Throw message').
Proof.
  split.
  - apply chapters_grouped.
  - intros chapter message Hin Hthrow. unfold Comix.chapters.
    destruct (group_chapters_throws rawChapters [] chapter message Hin Hthrow) as [m' ->].
    now exists m'.
Qed.

End Formatted.

End Chapters.

(** X29 on the two pages of [two_pages]: chapter 2 has two versions. *)
Lemma chapters_are_grouped_by_number_witness :
  let rawChapters := items_of two_pages (pages_from 1 2) in
  exists numbers,
    chapters example_number example_format rawChapters =
      Ok (numbers, map (entry_for example_number snd rawChapters) numbers) /\
    StronglySorted (fun a b => (b < a)%Q) numbers /\
    In (inject_Z 2) numbers /\
    versions_of example_number snd rawChapters (inject_Z 2) = ["Asura"; "Flame"].
Proof.
  cbv zeta.
  destruct (chapters_are_grouped_by_number example_number example_format snd
              (items_of two_pages (pages_from 1 2))) as [Hgrouped _].
  destruct Hgrouped as (numbers & Hrun & Hsorted & _ & _); [intros chapter _; reflexivity|].
  exists numbers. split; [exact Hrun|]. split; [exact Hsorted|]. split; [|reflexivity].
  vm_compute in Hrun. injection Hrun as Hnumbers _. rewrite <- Hnumbers.
  right. left. reflexivity.
Defined.

End ComixFacts.

(* ================================================================== *)
(** * The stream relay: playlists with CR LF line ends *)
(* ================================================================== *)
Module ProxyCarriageFacts.
Import JS Proxy ProxyFacts.

Local Arguments String.append !s1 s2 : simpl nomatch.

Local Abbreviation no_LF := (all_chars (fun c => negb (Ascii.eqb c LF))).

Lemma no_LF_member c : negb (Ascii.eqb c LF) = true -> member c [LF] = false.
Proof. unfold member. cbn [existsb]. intros H%negb_true_iff. now rewrite H. Qed.

Lemma one_line_no_LF s : one_line s = true -> no_LF s = true.
Proof.
  unfold one_line. induction s as [|c s IH]; [reflexivity|].
  cbn [all_chars]. intros [Hc Hs]%andb_prop. rewrite (IH Hs), andb_true_r.
  unfold is_line_terminator in Hc. now destruct (Ascii.eqb c LF).
Qed.

Lemma with_CR_no_LF l : one_line l = true -> no_LF (with_CR l) = true.
Proof.
  intros Hl. unfold with_CR. rewrite all_chars_app, (one_line_no_LF l Hl). reflexivity.
Qed.

Lemma last_char_with_CR l prev : last_char (with_CR l) prev = Some CR.
Proof.
  unfold with_CR. revert prev. induction l as [|c l IH]; intros prev; [reflexivity|].
  cbn [String.append last_char]. apply IH.
Qed.

(** ** The matcher on a line that may hold carriage returns *)

Lemma match_rest_of_long_line s : forall prev t,
  no_LF s = true -> after_line t ->
  match_at [ManyNoneOf [LF]; LineEnd] prev (s +:+ t) = Some s.
Proof.
  induction s as [|c s IH]; intros prev t Hs Ht.
  - cbn [String.append]. destruct Ht as [-> | [t' ->]]; reflexivity.
  - cbn [all_chars] in Hs. apply andb_prop in Hs as [Hc Hs].
    cbn [String.append]. rewrite match_many_cons, (no_LF_member c Hc).
    now rewrite (IH (Some c) t Hs Ht).
Qed.

Section Extension.
Variable ext : string.
Hypothesis ext_not_empty : ext <> "".
Hypothesis ext_one_line : one_line ext = true.

Local Abbreviation after_first := [ManyNoneOf [LF]; Literal ext; ManyNoneOf [LF]; LineEnd].

Lemma no_match_without_extension_long s : forall prev t,
  no_LF s = true -> after_line t -> includes s ext = false ->
  match_at after_first prev (s +:+ t) = None.
Proof using ext_not_empty ext_one_line.
  induction s as [|c s IH]; intros prev t Hs Ht Hinc.
  - apply (no_match_without_extension ext ext_not_empty ext_one_line "" prev t eq_refl Ht Hinc).
  - cbn [all_chars] in Hs. apply andb_prop in Hs as [Hc Hs].
    cbn [includes] in Hinc. apply orb_false_iff in Hinc as [Hstart Hinc].
    cbn [String.append]. rewrite match_many_cons, (no_LF_member c Hc).
    rewrite (IH (Some c) t Hs Ht Hinc). rewrite match_literal.
    change (String c (s +:+ t)) with (String c s +:+ t).
    rewrite (strip_prefix_app_none ext (String c s) t ext_one_line Ht); [reflexivity|].
    now apply not_startsWith_strip.
Qed.

Lemma match_with_extension_long s : forall prev t,
  no_LF s = true -> after_line t -> includes s ext = true ->
  match_at after_first prev (s +:+ t) = Some s.
Proof using ext_not_empty ext_one_line.
  induction s as [|c s IH]; intros prev t Hs Ht Hinc.
  - cbn in Hinc. destruct ext; [contradiction | discriminate].
  - assert (Hall := Hs).
    cbn [all_chars] in Hs. apply andb_prop in Hs as [Hc Hs].
    cbn [String.append]. rewrite match_many_cons, (no_LF_member c Hc).
    destruct (includes s ext) eqn:Hrest.
    + now rewrite (IH (Some c) t Hs Ht eq_refl).
    + rewrite (no_match_without_extension_long s (Some c) t Hs Ht Hrest).
      cbn [includes] in Hinc. rewrite Hrest, orb_false_r in Hinc.
      destruct (startsWith_strip (String c s) ext Hinc) as (r & Hr & Heq).
      rewrite match_literal.
      change (String c (s +:+ t)) with (String c s +:+ t).
      rewrite (strip_prefix_app ext (String c s) r t Hr).
      assert (Hr1 : no_LF r = true).
      { rewrite Heq, all_chars_app in Hall. now apply andb_prop in Hall. }
      rewrite (match_rest_of_long_line r _ t Hr1 Ht). cbn [option_map]. now rewrite Heq.
Qed.

Lemma match_long_line line prev t :
  no_LF line = true -> after_line t -> at_line_start prev = true ->
  match_at (line_with ext) prev (line +:+ t) =
  if entry_line ext line then Some line else None.
Proof using ext_not_empty ext_one_line.
  intros Hl Ht Hprev. unfold line_with.
  cbn [match_at]. rewrite Hprev. destruct line as [|c rest].
  - cbn [String.append entry_line]. destruct Ht as [-> | [t' ->]]; reflexivity.
  - cbn [String.append]. unfold entry_line.
    destruct (member c ["#"%char; LF]); [reflexivity|]. cbn [negb andb].
    cbn [all_chars] in Hl. apply andb_prop in Hl as [_ Hrest].
    fold (match_at after_first).
    destruct (includes rest ext) eqn:Hinc.
    + now rewrite (match_with_extension_long rest (Some c) t Hrest Ht Hinc).
    + now rewrite (no_match_without_extension_long rest (Some c) t Hrest Ht Hinc).
Qed.

(** The carriage return at the end of a line does not make the line an
    entry, nor stop it from being one. *)
Lemma startsWith_with_CR : forall s, startsWith (with_CR s) ext = startsWith s ext.
Proof using ext_not_empty ext_one_line.
  unfold with_CR. clear ext_not_empty. revert ext_one_line.
  induction ext as [|a e IHe]; intros Hone s; [now destruct s|].
  unfold one_line in Hone. cbn [all_chars] in Hone. apply andb_prop in Hone as [Ha He].
  destruct s as [|c s]; cbn [String.append startsWith].
  - destruct (Ascii.eqb_spec a CR) as [->|Hne]; [discriminate Ha | reflexivity].
  - destruct (Ascii.eqb a c); [|reflexivity]. cbn [andb]. now apply IHe.
Qed.

Lemma includes_with_CR s : includes (with_CR s) ext = includes s ext.
Proof using ext_not_empty ext_one_line.
  induction s as [|c s IH].
  - change (with_CR "") with (String CR ""). cbn [includes].
    change (String CR "") with (with_CR ""). rewrite startsWith_with_CR.
    destruct ext; [contradiction | reflexivity].
  - change (with_CR (String c s)) with (String c (with_CR s)). cbn [includes].
    change (String c (with_CR s)) with (with_CR (String c s)).
    now rewrite startsWith_with_CR, IH.
Qed.

Lemma entry_line_with_CR l : entry_line ext (with_CR l) = entry_line ext l.
Proof using ext_not_empty ext_one_line.
  destruct l as [|c rest].
  - cbn. destruct ext; [contradiction | reflexivity].
  - unfold with_CR. cbn [String.append entry_line]. f_equal. apply includes_with_CR.
Qed.

(** ** The scan *)
Variable f : string -> string.

Local Abbreviation scan := (replace_scan (line_with ext) f).

(** Between a carriage return and its line feed there is a line start but
    no entry. *)
Lemma scan_after_CR t : scan 0 (Some CR) (String LF t) = String LF (scan 0 (Some LF) t).
Proof. reflexivity. Qed.

Lemma scan_inside_CR s : forall prev t,
  one_line s = true -> at_line_start prev = false ->
  scan 0 prev (with_CR s +:+ String LF t) = with_CR s +:+ String LF (scan 0 (Some LF) t).
Proof.
  unfold with_CR. induction s as [|c s IH]; intros prev t Hs Hprev.
  - cbn [String.append].
    change (scan 0 prev (String CR (String LF t)))
      with (match match_at (line_with ext) prev (String CR (String LF t)) with
            | Some m =>
                match String.length m with
                | O => f m +:+ String CR (scan 0 (Some CR) (String LF t))
                | S k => f m +:+ scan k (Some CR) (String LF t)
                end
            | None => String CR (scan 0 (Some CR) (String LF t))
            end).
    now rewrite (no_match_inside ext prev _ Hprev), scan_after_CR.
  - unfold one_line in Hs. cbn [all_chars] in Hs. apply andb_prop in Hs as [Hc Hs].
    cbn [String.append]. cbn [replace_scan].
    rewrite (no_match_inside ext prev _ Hprev). f_equal.
    apply IH; [assumption|]. cbn [at_line_start]. now apply negb_true_iff.
Qed.

Lemma scan_line_CR l prev t :
  one_line l = true -> at_line_start prev = true ->
  scan 0 prev (with_CR l +:+ String LF t) =
  (if entry_line ext l then f (with_CR l) else with_CR l) +:+ String LF (scan 0 (Some LF) t).
Proof using ext_not_empty ext_one_line.
  intros Hl Hprev.
  assert (Ht : after_line (String LF t)) by (right; now exists t).
  assert (Hm := match_long_line (with_CR l) prev (String LF t) (with_CR_no_LF l Hl) Ht Hprev).
  rewrite entry_line_with_CR in Hm.
  destruct (entry_line ext l) eqn:He.
  - destruct l as [|c rest]; [discriminate He|].
    unfold with_CR in *.
    change ((String c rest +:+ String CR "") +:+ String LF t)
      with (String c ((rest +:+ String CR "") +:+ String LF t)) in *.
    cbn [replace_scan]. rewrite Hm.
    change (String.length (String c rest +:+ String CR ""))
      with (S (String.length (rest +:+ String CR ""))). cbv iota.
    rewrite (scan_skip ext f). f_equal.
    rewrite (last_char_with_CR rest (Some c)
             : last_char (rest +:+ String CR "") (Some c) = Some CR).
    apply scan_after_CR.
  - destruct l as [|c rest].
    + unfold with_CR in *. cbn [String.append] in *.
      cbn [replace_scan]. rewrite Hm. f_equal.
    + unfold one_line in Hl. cbn [all_chars] in Hl. apply andb_prop in Hl as [Hc Hrest].
      apply negb_true_iff in Hc.
      unfold with_CR in *.
      change ((String c rest +:+ String CR "") +:+ String LF t)
        with (String c ((rest +:+ String CR "") +:+ String LF t)) in *.
      cbn [replace_scan]. rewrite Hm.
      change ((String c rest +:+ String CR "") +:+ String LF (scan 0 (Some LF) t))
        with (String c ((rest +:+ String CR "") +:+ String LF (scan 0 (Some LF) t))).
      f_equal. now apply (scan_inside_CR rest).
Qed.

Lemma scan_mixed_lines ls : forall prev,
  Forall (fun line => one_line (fst line) = true) ls -> at_line_start prev = true ->
  scan 0 prev (lines_of (map text ls)) =
  lines_of (map (fun line => if entry_line ext (fst line) then f (text line) else text line) ls).
Proof using ext_not_empty ext_one_line.
  induction ls as [|[l cr] ls IH]; intros prev Hls Hprev.
  - cbn. unfold line_with. cbn [match_at]. now rewrite Hprev.
  - inversion Hls as [|? ? Hl Hrest]; subst. cbn [fst] in Hl.
    cbn [map lines_of fold_right]. fold (lines_of (map text ls)).
    unfold text at 1 2 3. cbn [fst snd]. destruct cr.
    + rewrite (scan_line_CR l prev _ Hl Hprev). f_equal. f_equal. now apply IH.
    + rewrite (scan_line ext ext_not_empty ext_one_line f l prev _ Hl Hprev).
      f_equal. f_equal. now apply IH.
Qed.

End Extension.

(** ** The playlist *)

Lemma encodeURIComponent_app a b :
  encodeURIComponent (a +:+ b) = encodeURIComponent a +:+ encodeURIComponent b.
Proof.
  induction a as [|c a IH]; [reflexivity|].
  cbn [String.append encodeURIComponent]. rewrite IH.
  destruct (uri_unreserved c); [reflexivity|].
  generalize (encodeURIComponent a) (encodeURIComponent b). intros r1 r2.
  destruct c as [[] [] [] [] [] [] [] []]; reflexivity.
Qed.

Lemma append_assoc a b c : (a +:+ b) +:+ c = a +:+ (b +:+ c).
Proof. induction a as [|x a IH]; [reflexivity|]. cbn [String.append]. now rewrite IH. Qed.

Lemma rewrite_line_with_CR url referer l :
  one_line l = true ->
  rewrite_line url referer (with_CR l) =
  if entry_line ".m3u8" l then
    (let relayed := proxied (directory url) referer (with_CR l) in
     if entry_line ".ts" relayed then proxied (directory url) referer relayed else relayed)
  else if entry_line ".ts" l then proxied (directory url) referer (with_CR l)
  else with_CR l.
Proof.
  intros Hl. unfold rewrite_line.
  rewrite (entry_line_with_CR ".m3u8" ltac:(discriminate) eq_refl l).
  destruct (entry_line ".m3u8" l); [reflexivity|].
  now rewrite (entry_line_with_CR ".ts" ltac:(discriminate) eq_refl l).
Qed.

Lemma rewrite_crlf_playlist url referer ls :
  Forall (fun l => one_line l = true) ls ->
  rewrite_playlist url referer (lines_of (map with_CR ls)) =
  lines_of (map (fun l => rewrite_line url referer (with_CR l)) ls).
Proof.
  intros Hls. unfold rewrite_playlist, replace_all. fold (directory url).
  set (relay := proxied (directory url) referer).
  set (first := map (fun l => if entry_line ".m3u8" l then (relay (with_CR l), false)
                              else (l, true)) ls).
  assert (Hin : lines_of (map with_CR ls) = lines_of (map text (map (fun l => (l, true)) ls))).
  { now rewrite map_map. }
  rewrite Hin.
  rewrite (scan_mixed_lines ".m3u8" ltac:(discriminate) eq_refl relay _ None);
    [|now rewrite Forall_map | reflexivity].
  assert (Hfirst : map (fun line : string * bool =>
                          if entry_line ".m3u8" (fst line) then relay (text line) else text line)
                     (map (fun l => (l, true)) ls) = map text first).
  { unfold first. rewrite !map_map. apply map_ext. intros l. cbn [fst].
    now destruct (entry_line ".m3u8" l). }
  rewrite Hfirst.
  rewrite (scan_mixed_lines ".ts" ltac:(discriminate) eq_refl relay first None);
    [| | reflexivity].
  - f_equal. unfold first. rewrite map_map.
    apply map_ext_in. intros l Hl.
    rewrite rewrite_line_with_CR by (now apply (proj1 (List.Forall_forall _ _) Hls)).
    fold relay. destruct (entry_line ".m3u8" l); cbn [fst]; [reflexivity|].
    now destruct (entry_line ".ts" l).
  - unfold first. rewrite Forall_map. apply List.Forall_forall. intros l Hl.
    destruct (entry_line ".m3u8" l); cbn [fst].
    + apply proxied_one_line.
    + now apply (proj1 (List.Forall_forall _ _) Hls).
Qed.

(** X30. A playlist with CR LF line ends is rewritten by GET /stream line
    by line, the carriage return counting as the last character of its
    line.  A line that is no entry keeps its carriage return.  A relative
    segment entry is relayed with the carriage return inside the address:
    the [url] parameter is the encoded address of the segment followed by
    [%0D], and the rewritten line has no carriage return left. *)
Theorem carriage_returns_go_into_the_relay url referer ls :
  Forall (fun l => one_line l = true) ls ->
  rewrite_playlist url referer (lines_of (map with_CR ls)) =
    lines_of (map (fun l => rewrite_line url referer (with_CR l)) ls) /\
  Forall (fun l =>
            (entry_line ".m3u8" l = false -> entry_line ".ts" l = false ->
             rewrite_line url referer (with_CR l) = with_CR l) /\
            (entry_line ".m3u8" l = false -> entry_line ".ts" l = true ->
             startsWith l "http" = false ->
             rewrite_line url referer (with_CR l) =
               "http://localhost:3000/proxy/stream?url=" +:+
               encodeURIComponent (directory url +:+ l) +:+ "%0D" +:+
               match referer with
               | Some r => if String.eqb r "" then "" else "&referer=" +:+ encodeURIComponent r
               | None => ""
               end /\
             one_line (rewrite_line url referer (with_CR l)) = true)) ls.
Proof.
  intros Hls. split; [now apply rewrite_crlf_playlist|].
  apply List.Forall_forall. intros l Hl.
  assert (Hone : one_line l = true) by (now apply (proj1 (List.Forall_forall _ _) Hls)).
  rewrite (rewrite_line_with_CR url referer l Hone). split.
  - intros -> ->. reflexivity.
  - intros -> -> Hrel. split; [|apply proxied_one_line].
    unfold proxied.
    rewrite (startsWith_with_CR "http" ltac:(discriminate) eq_refl l), Hrel.
    unfold with_CR. rewrite !encodeURIComponent_app.
    change (encodeURIComponent (String CR "")) with "%0D".
    rewrite !append_assoc. reflexivity.
Qed.

(** X30 on a media playlist with one segment. *)
Lemma carriage_returns_go_into_the_relay_witness :
  rewrite_playlist "https://cdn.example/show/index.m3u8" None
    (lines_of (map with_CR ["#EXTM3U"; "#EXTINF:10,"; "seg1.ts"])) =
  lines_of [with_CR "#EXTM3U"; with_CR "#EXTINF:10,";
            "http://localhost:3000/proxy/stream?url=https%3A%2F%2Fcdn.example%2Fshow%2Fseg1.ts%0D"].
Proof.
  destruct (carriage_returns_go_into_the_relay "https://cdn.example/show/index.m3u8" None
              ["#EXTM3U"; "#EXTINF:10,"; "seg1.ts"]) as [Hrun _].
  - repeat constructor.
  - rewrite Hrun. reflexivity.
Defined.

End ProxyCarriageFacts.

(* ================================================================== *)
(** * The chapter lists of the info operations *)
(* ================================================================== *)
Module AdapterFacts.
Import JS.

(** ** The chapter loops of ManhuaPlus and ManhuaUS *)

Lemma visit_chapter_entry baseUrl chapters el :
  ChapterList.visit_chapter baseUrl chapters el =
  chapters ++ match ChapterList.entry_of baseUrl el with
              | Some c => [c]
              | None => []
              end.
Proof.
  unfold ChapterList.visit_chapter, ChapterList.entry_of.
  destruct (negb (String.eqb (trim (ChapterList.link_text el)) "") &&
            negb (String.eqb (Scraping.id_of_url baseUrl
                                match ChapterList.link_href el with
                                | Some h => h
                                | None => ""
                                end) "")).
  - reflexivity.
  - now rewrite app_nil_r.
Qed.

(** The loop appends the entries of the elements, in their order. *)
Lemma fold_visit_chapter baseUrl items : forall chapters,
  fold_left (ChapterList.visit_chapter baseUrl) items chapters =
  chapters ++ ChapterList.entries_of baseUrl items.
Proof.
  induction items as [|el items IH]; intros chapters; cbn [fold_left].
  - cbn. now rewrite app_nil_r.
  - rewrite IH, visit_chapter_entry. unfold ChapterList.entries_of. cbn [flat_map].
    now rewrite <- app_assoc.
Qed.

(** ** Mgeko *)

Lemma listed_nonzero item c :
  Mgeko.listed item = Some c -> ~ (Mgeko.chapterNumber c == 0)%Q.
Proof.
  unfold Mgeko.listed. destruct (Mgeko.href item) as [h|]; [|discriminate].
  destruct (String.eqb h "" || negb (includes h "/reader/en/")); [discriminate|].
  destruct (Mgeko.match_chapter (Mgeko.chapterId_of h)) as [m|]; [|discriminate].
  destruct (Qeq_bool (Mgeko.parseFloat m) 0) eqn:E; [discriminate|].
  intros [= <-]. cbn [Mgeko.chapterNumber]. intros H%Qeq_bool_iff. congruence.
Qed.

Lemma linked_nonzero href c :
  Mgeko.linked href = Some c -> ~ (Mgeko.chapterNumber c == 0)%Q.
Proof.
  unfold Mgeko.linked. destruct href as [h|]; [|discriminate].
  destruct (String.eqb h "" || negb (includes h "/reader/en/")); [discriminate|].
  destruct (Mgeko.match_chapter_int (Mgeko.chapterId_of h)) as [digits|]; [|discriminate].
  destruct (Qeq_bool (Mgeko.parseInt digits) 0) eqn:E; [discriminate|].
  intros [= <-]. cbn [Mgeko.chapterNumber]. intros H%Qeq_bool_iff. congruence.
Qed.

(** What the loop and the sort make of a list of candidates. *)
Lemma sorted_candidates {X} (candidate : X -> option Mgeko.chapter) (items : list X) :
  let chapters :=
    Mgeko.sort_by (fun a b => Mgeko.chapterNumber b - Mgeko.chapterNumber a)%Q
      (fst (fold_left (Mgeko.visit candidate) items ([], []))) in
  (forall item c,
     In item items -> candidate item = Some c ->
     exists c', In c' chapters /\ (Mgeko.chapterNumber c' == Mgeko.chapterNumber c)%Q) /\
  (forall c, In c chapters -> exists item, In item items /\ candidate item = Some c) /\
  (forall pre item post c,
     items = pre ++ item :: post -> candidate item = Some c ->
     (forall it c', In it pre -> candidate it = Some c' ->
                    ~ (Mgeko.chapterNumber c' == Mgeko.chapterNumber c)%Q) ->
     In c chapters).
Proof.
  cbv zeta.
  destruct (MgekoFacts.visit_collects candidate items ([], [])
              MgekoFacts.seen_exactly_start I) as (_ & _ & _ & Hall & Hfrom).
  split; [|split].
  - intros item c Hitem Hc. destruct (Hall item c Hitem Hc) as (c' & Hc' & Heq).
    exists c'. split; [|exact Heq]. now apply MgekoFacts.in_sort_by.
  - intros c Hc. apply MgekoFacts.in_sort_by in Hc.
    destruct (Hfrom c Hc) as [[] | H]. exact H.
  - intros pre item post c -> Hc Hpre. apply MgekoFacts.in_sort_by.
    now apply MgekoFacts.visit_keeps_first.
Qed.

(** C8, as the specification states it, fails: of two releases of chapter 5
    only the first is an entry of the reply of Mgeko. *)
Lemma duplicate_numbers_are_merged : ~ Mgeko.keeps_duplicates.
Proof.
  intros H.
  specialize (H Mgeko.two_releases []
                {| Mgeko.href := Some "/reader/en/solo-leveling-chapter-5-asura/";
                   Mgeko.relativeTime := "2 days"; Mgeko.datetime := None |}
                {| Mgeko.id := "solo-leveling-chapter-5-asura";
                   Mgeko.chapterNumber := 5;
                   Mgeko.releaseDate := Some "2 days" |}).
  assert (Hin : In {| Mgeko.id := "solo-leveling-chapter-5-asura";
                      Mgeko.chapterNumber := 5;
                      Mgeko.releaseDate := Some "2 days" |}
                   (Mgeko.info_chapters (Some Mgeko.two_releases) [])).
  { apply H; [right; now left | now vm_compute]. }
  vm_compute in Hin. destruct Hin as [Heq | []]. discriminate Heq.
Qed.

(** C8 (amended). The chapter lists of the info operations follow no common
    rule.

    Mgeko: the list is in strictly descending order of chapter number,
    newest first, with one entry per chapter number, so chapters with the
    same number are merged, not kept as distinct entries.  Numbers are
    compared as doubles; no entry has the number 0; every number listed on
    the page is represented, every entry is a chapter listed on the page,
    and of the chapters listed with one number the first is the one kept.
    This holds for the all-chapters page and for the reader links of the
    main page read when that page fails.  The links of chapter 1 and of
    chapter 1.00000000000000001 give one entry, the first.

    Comix.to: when [formatChapter] accepts every chapter, the entries are in
    strictly descending order of number, one per number, and chapters with
    the same number are all kept, as the versions of that one entry.

    MangaDex (the adapter on the upstream API): the list is not sorted by
    the handler; it is the upstream feed in its own order, cut down to the
    first element of each chapter label.

    ManhuaPlus and ManhuaUS: the handler reads no chapter number and neither
    sorts nor merges; the list holds, in the order of the page, one entry
    for every element with a title and an id, so two releases of a chapter
    are two entries.  ManhuaUS lists nothing without a manga id, and reads
    the page itself when the chapter request fails. *)
Theorem chapter_lists_by_adapter :
  (forall all_chapters main_page,
     Mgeko.strictly_descending (Mgeko.info_chapters all_chapters main_page)) /\
  (forall items main_page,
     let chapters := Mgeko.info_chapters (Some items) main_page in
     (forall item c,
        In item items -> Mgeko.listed item = Some c ->
        exists c', In c' chapters /\ (Mgeko.chapterNumber c' == Mgeko.chapterNumber c)%Q) /\
     (forall c,
        In c chapters ->
        ~ (Mgeko.chapterNumber c == 0)%Q /\
        exists item, In item items /\ Mgeko.listed item = Some c) /\
     (forall pre item post c,
        items = pre ++ item :: post -> Mgeko.listed item = Some c ->
        (forall it c', In it pre -> Mgeko.listed it = Some c' ->
                       ~ (Mgeko.chapterNumber c' == Mgeko.chapterNumber c)%Q) ->
        In c chapters)) /\
  (forall main_page,
     let chapters := Mgeko.info_chapters None main_page in
     (forall href c,
        In href main_page -> Mgeko.linked href = Some c ->
        exists c', In c' chapters /\ (Mgeko.chapterNumber c' == Mgeko.chapterNumber c)%Q) /\
     (forall c,
        In c chapters ->
        ~ (Mgeko.chapterNumber c == 0)%Q /\
        exists href, In href main_page /\ Mgeko.linked href = Some c) /\
     (forall pre href post c,
        main_page = pre ++ href :: post -> Mgeko.linked href = Some c ->
        (forall it c', In it pre -> Mgeko.linked it = Some c' ->
                       ~ (Mgeko.chapterNumber c' == Mgeko.chapterNumber c)%Q) ->
        In c chapters)) /\
  Mgeko.info_chapters (Some Mgeko.rounded_alike) [] =
    [{| Mgeko.id := "x-chapter-1"; Mgeko.chapterNumber := 1;
        Mgeko.releaseDate := Some "1 day" |}] /\
  (forall (raw formatted : Type) (number : raw -> option Q)
          (formatChapter : raw -> completion formatted) (format : raw -> formatted)
          (rawChapters : list raw),
     (forall chapter, In chapter rawChapters -> formatChapter chapter = Ok (format chapter)) ->
     exists numbers,
       Comix.chapters number formatChapter rawChapters =
         Ok (numbers, map (Comix.entry_for number format rawChapters) numbers) /\
       StronglySorted (fun a b => (b < a)%Q) numbers /\
       (forall chapter, In chapter rawChapters ->
          exists num, In num numbers /\ (num == Comix.num_of number chapter)%Q /\
                      In (format chapter)
                         (Comix.versions (Comix.entry_for number format rawChapters num)))) /\
  (forall now feed,
     exists kept,
       Mangadex.info_chapters now feed =
         map (fun p => Mangadex.entry_of now (fst p) (snd p)) kept /\
       sublist (map fst kept) feed /\
       List.NoDup (map snd kept) /\
       (forall p, In p kept -> Mangadex.labelled (fst p) = Some (snd p)) /\
       (forall c l, In c feed -> Mangadex.labelled c = Some l -> In l (map snd kept)) /\
       (forall pre c post l,
          feed = pre ++ c :: post -> Mangadex.labelled c = Some l ->
          (forall c', In c' pre -> Mangadex.labelled c' <> Some l) ->
          In (c, l) kept)) /\
  (forall items,
     ManhuaPlus.info_chapters items = ChapterList.entries_of ManhuaPlus.baseUrl items) /\
  (forall mangaId ajax page,
     ManhuaUS.info_chapters mangaId ajax page =
       match mangaId, ajax with
       | Some _, Ok items => ChapterList.entries_of ManhuaUS.baseUrl items
       | Some _, Throw _ => ChapterList.entries_of ManhuaUS.baseUrl page
       | None, _ => []
       end) /\
  map ChapterList.id
      (ManhuaPlus.info_chapters (ChapterList.two_releases ManhuaPlus.baseUrl)) =
    ["solo-leveling/chapter-5"; "solo-leveling/chapter-5-asura"; "solo-leveling/chapter-4"] /\
  map ChapterList.title
      (ManhuaPlus.info_chapters (ChapterList.two_releases ManhuaPlus.baseUrl)) =
    ["Chapter 5"; "Chapter 5"; "Chapter 4"].
Proof.
  split; [exact MgekoFacts.info_chapters_strict|]. split; [|split; [|split]].
  - intros items main_page. cbv zeta. unfold Mgeko.info_chapters.
    rewrite (MgekoFacts.fold_left_ext _ _ MgekoFacts.visit_li_listed).
    destruct (sorted_candidates Mgeko.listed items) as (Hall & Hfrom & Hfirst).
    split; [exact Hall|]. split; [|exact Hfirst].
    intros c Hc. destruct (Hfrom c Hc) as (item & Hitem & Hlisted).
    split; [now apply (listed_nonzero item) | now exists item].
  - intros main_page. cbv zeta. unfold Mgeko.info_chapters.
    rewrite (MgekoFacts.fold_left_ext _ _ MgekoFacts.visit_anchor_linked).
    destruct (sorted_candidates Mgeko.linked main_page) as (Hall & Hfrom & Hfirst).
    split; [exact Hall|]. split; [|exact Hfirst].
    intros c Hc. destruct (Hfrom c Hc) as (href & Hhref & Hlinked).
    split; [now apply (linked_nonzero href) | now exists href].
  - now vm_compute.
  - split; [|split; [|split; [|split; [|split]]]].
    + intros raw formatted number formatChapter format rawChapters Hformat.
      destruct (ComixFacts.chapters_grouped number formatChapter format
                  rawChapters Hformat) as (numbers & Hrun & Hsorted & Hall & _).
      exists numbers. split; [exact Hrun|]. split; [exact Hsorted|]. exact Hall.
    + intros now feed. exists (Mangadex.first_of_each feed []).
      split; [|split; [|split; [|split; [|split]]]].
      * unfold Mangadex.info_chapters.
        rewrite (MangadexFacts.collect_first_of_each now feed [] ∅ []); [reflexivity|].
        intros l. rewrite elem_of_empty. simpl. tauto.
      * apply MangadexFacts.first_of_each_sublist.
      * apply MangadexFacts.first_of_each_nodup.
      * intros p Hp. now apply MangadexFacts.first_of_each_labelled in Hp.
      * intros c l Hc Hl.
        destruct (MangadexFacts.first_of_each_complete feed [] c l Hc Hl) as [[] | H]. exact H.
      * intros pre c post l -> Hl Hpre. apply MangadexFacts.first_of_each_first; auto.
    + intros items. unfold ManhuaPlus.info_chapters. now rewrite fold_visit_chapter.
    + intros [mangaId|] ajax page; [|reflexivity]. unfold ManhuaUS.info_chapters.
      destruct ajax; now rewrite fold_visit_chapter.
    + now vm_compute.
    + now vm_compute.
Qed.

(** C8 at [two_releases]: chapter 5 is represented, by its first release. *)
Lemma chapter_lists_by_adapter_witness :
  In {| Mgeko.id := "solo-leveling-chapter-5";
        Mgeko.chapterNumber := 5;
        Mgeko.releaseDate := Some "3 days, 12 hours" |}
     (Mgeko.info_chapters (Some Mgeko.two_releases) []).
Proof.
  destruct chapter_lists_by_adapter as (_ & H & _).
  destruct (H Mgeko.two_releases []) as (_ & _ & Hfirst).
  apply (Hfirst []
           {| Mgeko.href := Some "/reader/en/solo-leveling-chapter-5/";
              Mgeko.relativeTime := "3 days, 12 hours"; Mgeko.datetime := None |}
           [{| Mgeko.href := Some "/reader/en/solo-leveling-chapter-5-asura/";
               Mgeko.relativeTime := "2 days"; Mgeko.datetime := None |}]).
  - reflexivity.
  - now vm_compute.
  - intros it c' [].
Defined.

End AdapterFacts.
